(** * A shallow embedding of faabric's MPI world, executor and scheduler

    The development follows the C++ sources: [MpiWorld.cpp] (the per-job
    message-passing world), [FaabricExecutor.cpp] (the executor's call
    completion path) and, for the host resource record, the scheduler as the
    specification and the scheduler tests describe it.

    Conventions.
    - A C++ [int] is a [Z]; [/] and [%] on [int] are [Z.quot] and [Z.rem]
      (truncation towards zero).  Arithmetic on ranks, counts and sizes is
      assumed not to overflow; the contents of typed buffers wrap around at
      their width, which is written out where values are stored.
    - A [uint8_t*] is an address in a flat byte memory; [nullptr] is [0].
    - A C++ exception is the result [Throw]; a dequeue on an empty queue never
      returns sequentially and is the result [Blocked].  The state reached
      before a throw persists, as it does in C++.
    - Where C++ defines no behaviour and the machine faults or corrupts
      memory (an integer division by zero, a [strcpy] past its buffer, a
      call through a null pointer) the result is [Undefined]: execution
      stops there and nothing is said of what follows. *)

From Stdlib Require Import ZArith List Lia Bool Ascii SpecFloat.
From stdpp Require Import base option gmap strings list fin_maps pretty.

Local Open Scope Z_scope.

(** ** Results of fallible, blocking operations *)

Inductive exn : Type :=
  | runtime_error (what : string).

Inductive Res (A : Type) : Type :=
  | Ok (a : A)
  | Throw (e : exn)
  | Blocked
  | Undefined (what : string).

Arguments Ok {A} a.
Arguments Throw {A} e.
Arguments Blocked {A}.
Arguments Undefined {A} what.

Definition isThrow {A} (r : Res A) : bool :=
  match r with Throw _ => true | _ => false end.

(** ** Byte memory *)

(** One address space: every address holds a byte (a [Z] in [0, 256)). *)
Definition Mem : Type := Z -> Z.

Definition nullptr : Z := 0.

(** [load m p n]: the [n] bytes at [p, p + n). *)
Definition load (m : Mem) (p : Z) (n : nat) : list Z :=
  map (fun i => m (p + Z.of_nat i)) (seq 0 n).

(** [store m p bs]: write [bs] at [p, p + length bs). *)
Definition store (m : Mem) (p : Z) (bs : list Z) : Mem :=
  fun a =>
    if (p <=? a) && (a <? p + Z.of_nat (length bs))
    then nth (Z.to_nat (a - p)) bs 0
    else m a.

(** Little-endian encoding of [z] on [w] bytes (the value is taken modulo
    [2 ^ (8 * w)], which is the wrap-around of a [w]-byte integer). *)
Fixpoint le_bytes (w : nat) (z : Z) : list Z :=
  match w with
  | O => []
  | S w' => (z mod 256) :: le_bytes w' (z / 256)
  end.

Fixpoint le_unsigned (bs : list Z) : Z :=
  match bs with
  | [] => 0
  | b :: bs' => b + 256 * le_unsigned bs'
  end.

(** Two's complement reading of a [w]-byte little-endian cell. *)
Definition le_signed (bs : list Z) : Z :=
  let u := le_unsigned bs in
  let m := 2 ^ (8 * Z.of_nat (length bs)) in
  if u <? m / 2 then u else u - m.

(** ** MPI datatypes, operators and messages *)

(** Modelled from the spec: the header [faabric/mpi/mpi.h] is not part of the
    sources.  It declares the datatype identifiers, the datatype descriptors
    [faabric_datatype_t {id, size}] behind [MPI_INT], [MPI_DOUBLE], ... and
    the operator descriptors [faabric_op_t {id}].  The identifiers are kept
    symbolic; the sizes are those of the C types ([sizeof(int) = 4], as the
    tests check through [bytesSize]). *)
Inductive datatype_id : Type :=
  | FAABRIC_INT
  | FAABRIC_LONG
  | FAABRIC_LONG_LONG
  | FAABRIC_FLOAT
  | FAABRIC_DOUBLE
  | FAABRIC_CHAR
  | FAABRIC_DATATYPE_NULL.

Global Instance datatype_id_eq_dec : EqDecision datatype_id.
Proof. solve_decision. Defined.

Record faabric_datatype_t : Type := {
  dt_id : datatype_id;
  dt_size : Z
}.

Definition MPI_INT : faabric_datatype_t := {| dt_id := FAABRIC_INT; dt_size := 4 |}.
Definition MPI_LONG : faabric_datatype_t := {| dt_id := FAABRIC_LONG; dt_size := 8 |}.
Definition MPI_LONG_LONG : faabric_datatype_t := {| dt_id := FAABRIC_LONG_LONG; dt_size := 8 |}.
Definition MPI_FLOAT : faabric_datatype_t := {| dt_id := FAABRIC_FLOAT; dt_size := 4 |}.
Definition MPI_DOUBLE : faabric_datatype_t := {| dt_id := FAABRIC_DOUBLE; dt_size := 8 |}.
Definition MPI_CHAR : faabric_datatype_t := {| dt_id := FAABRIC_CHAR; dt_size := 1 |}.
Definition MPI_DATATYPE_NULL : faabric_datatype_t :=
  {| dt_id := FAABRIC_DATATYPE_NULL; dt_size := 0 |}.

Definition getFaabricDatatypeFromId (i : datatype_id) : faabric_datatype_t :=
  match i with
  | FAABRIC_INT => MPI_INT
  | FAABRIC_LONG => MPI_LONG
  | FAABRIC_LONG_LONG => MPI_LONG_LONG
  | FAABRIC_FLOAT => MPI_FLOAT
  | FAABRIC_DOUBLE => MPI_DOUBLE
  | FAABRIC_CHAR => MPI_CHAR
  | FAABRIC_DATATYPE_NULL => MPI_DATATYPE_NULL
  end.

Inductive op_id : Type :=
  | FAABRIC_OP_MAX
  | FAABRIC_OP_MIN
  | FAABRIC_OP_SUM
  | FAABRIC_OP_PROD
  | FAABRIC_OP_NULL.

Global Instance op_id_eq_dec : EqDecision op_id.
Proof. solve_decision. Defined.

Record faabric_op_t : Type := { op_ident : op_id }.

Definition MPI_MAX : faabric_op_t := {| op_ident := FAABRIC_OP_MAX |}.
Definition MPI_MIN : faabric_op_t := {| op_ident := FAABRIC_OP_MIN |}.
Definition MPI_SUM : faabric_op_t := {| op_ident := FAABRIC_OP_SUM |}.
Definition MPI_PROD : faabric_op_t := {| op_ident := FAABRIC_OP_PROD |}.
Definition MPI_OP_NULL : faabric_op_t := {| op_ident := FAABRIC_OP_NULL |}.

(** [faabric::MPIMessage::MPIMessageType] *)
Inductive MPIMessageType : Type :=
  | NORMAL
  | BARRIER_JOIN
  | BARRIER_DONE
  | SCATTER
  | GATHER
  | ALLGATHER
  | REDUCE
  | ALLREDUCE
  | SCAN
  | ALLTOALL
  | SENDRECV
  | RMA_WRITE.

Global Instance MPIMessageType_eq_dec : EqDecision MPIMessageType.
Proof. solve_decision. Defined.

(** [faabric::MPIMessage], with the protobuf accessors as field names. *)
Record MPIMessage : Type := {
  mpi_id : Z;
  mpi_worldid : Z;
  mpi_sender : Z;
  mpi_destination : Z;
  mpi_type : datatype_id;
  mpi_count : Z;
  mpi_messagetype : MPIMessageType;
  mpi_buffer : list Z
}.

Record MPI_Status : Type := {
  MPI_SOURCE : Z;
  MPI_TAG : Z;
  MPI_ERROR : Z;
  bytesSize : Z
}.

Definition MPI_SUCCESS : Z := 0.

(** [faabric::Message]: the fields the world and the executor touch. *)
Record Message : Type := {
  msg_id : Z;
  msg_user : string;
  msg_function : string;
  msg_ismpi : bool;
  msg_mpiworldid : Z;
  msg_mpirank : Z;
  msg_cmdline : string;
  msg_statuskey : string;
  msg_resultkey : string;
  msg_outputdata : string;
  msg_returnvalue : Z
}.

(** A default-constructed protobuf message. *)
Definition emptyMessage : Message :=
  {| msg_id := 0; msg_user := ""; msg_function := ""; msg_ismpi := false;
     msg_mpiworldid := 0; msg_mpirank := 0; msg_cmdline := "";
     msg_statuskey := ""; msg_resultkey := "";
     msg_outputdata := ""; msg_returnvalue := 0 |}.

(** ** The world and its environment *)

(** [std::to_string] on an [int]. *)
Definition to_string (z : Z) : string := pretty z.

(** [MpiWorld]'s members.  [localQueueMap] maps the key
    ["<sendRank>_<recvRank>"] to the queue's content, head first. *)
Record MpiWorld : Type := {
  world_id : Z;
  world_size : Z;
  world_user : string;
  world_function : string;
  thisHost : string;
  threadPool : option Z;
  stateKV : option string;
  rankHostMap : gmap Z string;
  cartProcsPerDim : Z * Z;
  localQueueMap : gmap string (list MPIMessage);
  windowPointerMap : gmap string Z
}.

(** [MpiWorld::MpiWorld()], with [endpointHost] from the system
    configuration. *)
Definition newMpiWorld (endpointHost : string) : MpiWorld :=
  {| world_id := -1; world_size := -1; world_user := ""; world_function := "";
     thisHost := endpointHost; threadPool := None; stateKV := None;
     rankHostMap := ∅; cartProcsPerDim := (0, 0);
     localQueueMap := ∅; windowPointerMap := ∅ |}.

(** Modelled from the spec: the external key-value store ([State.cpp] is not
    part of the sources).  One store is shared by all hosts: [set] followed by
    [pushFull] writes a key and [pull]/[get] read it.  An entry is the size
    of a world or a buffer of bytes (the host of a rank, the content of a
    window); a key that was never set reads as null bytes. *)
Inductive kvval : Type :=
  | KVWorld (worldSize : Z)
  | KVBytes (bytes : list Z).

(** Everything an operation of the world can read or change: the world
    object, the caller's memory, and the collaborators (key-value store,
    scheduler, remote hosts, the identifier generator, the core count).
    [st_heap] is the first address [new] has not handed out yet. *)
Record State : Type := {
  st_world : MpiWorld;
  st_mem : Mem;
  st_kv : gmap string kvval;
  st_gid : Z;
  st_calls : list Message;
  st_rpc : list (string * MPIMessage);
  st_usableCores : Z;
  st_heap : Z
}.

Definition M (A : Type) : Type := State -> Res A * State.

Global Instance M_ret : MRet M := fun A a st => (Ok a, st).

Global Instance M_bind : MBind M := fun A B f m st =>
  match m st with
  | (Ok a, st') => f a st'
  | (Throw e, st') => (Throw e, st')
  | (Blocked, st') => (Blocked, st')
  | (Undefined what, st') => (Undefined what, st')
  end.

Definition throw {A} (e : exn) : M A := fun st => (Throw e, st).
Definition block {A} : M A := fun st => (Blocked, st).
Definition undefined {A} (what : string) : M A := fun st => (Undefined what, st).
Definition gets {A} (f : State -> A) : M A := fun st => (Ok (f st), st).
Definition modify (f : State -> State) : M unit := fun st => (Ok tt, f st).

Definition set_world (f : MpiWorld -> MpiWorld) (st : State) : State :=
  {| st_world := f (st_world st); st_mem := st_mem st; st_kv := st_kv st;
     st_gid := st_gid st; st_calls := st_calls st; st_rpc := st_rpc st;
     st_usableCores := st_usableCores st; st_heap := st_heap st |}.

Definition set_mem (f : Mem -> Mem) (st : State) : State :=
  {| st_world := st_world st; st_mem := f (st_mem st); st_kv := st_kv st;
     st_gid := st_gid st; st_calls := st_calls st; st_rpc := st_rpc st;
     st_usableCores := st_usableCores st; st_heap := st_heap st |}.

Definition set_kv (f : gmap string kvval -> gmap string kvval) (st : State) : State :=
  {| st_world := st_world st; st_mem := st_mem st; st_kv := f (st_kv st);
     st_gid := st_gid st; st_calls := st_calls st; st_rpc := st_rpc st;
     st_usableCores := st_usableCores st; st_heap := st_heap st |}.

Definition getWorld : M MpiWorld := gets st_world.
Definition modifyWorld (f : MpiWorld -> MpiWorld) : M unit := modify (set_world f).

(** A [for] loop over the values of its counter. *)
Fixpoint forM_ {A} (l : list A) (body : A -> M unit) : M unit :=
  match l with
  | [] => mret tt
  | x :: l' => body x ;; forM_ l' body
  end.

(** [faabric::util::generateGid()]: a fresh identifier per call. *)
Definition generateGid : M Z := fun st =>
  (Ok (st_gid st + 1),
   {| st_world := st_world st; st_mem := st_mem st; st_kv := st_kv st;
      st_gid := st_gid st + 1; st_calls := st_calls st; st_rpc := st_rpc st;
      st_usableCores := st_usableCores st; st_heap := st_heap st |}).

(** ** Member updates *)

Definition set_identity (i : Z) (u f : string) (w : MpiWorld) : MpiWorld :=
  {| world_id := i; world_size := world_size w; world_user := u;
     world_function := f; thisHost := thisHost w; threadPool := threadPool w;
     stateKV := stateKV w; rankHostMap := rankHostMap w;
     cartProcsPerDim := cartProcsPerDim w; localQueueMap := localQueueMap w;
     windowPointerMap := windowPointerMap w |}.

Definition set_size (n : Z) (w : MpiWorld) : MpiWorld :=
  {| world_id := world_id w; world_size := n; world_user := world_user w;
     world_function := world_function w; thisHost := thisHost w;
     threadPool := threadPool w; stateKV := stateKV w;
     rankHostMap := rankHostMap w; cartProcsPerDim := cartProcsPerDim w;
     localQueueMap := localQueueMap w; windowPointerMap := windowPointerMap w |}.

Definition set_thisHost (h : string) (w : MpiWorld) : MpiWorld :=
  {| world_id := world_id w; world_size := world_size w;
     world_user := world_user w; world_function := world_function w;
     thisHost := h; threadPool := threadPool w; stateKV := stateKV w;
     rankHostMap := rankHostMap w; cartProcsPerDim := cartProcsPerDim w;
     localQueueMap := localQueueMap w; windowPointerMap := windowPointerMap w |}.

Definition set_threadPool (p : option Z) (w : MpiWorld) : MpiWorld :=
  {| world_id := world_id w; world_size := world_size w;
     world_user := world_user w; world_function := world_function w;
     thisHost := thisHost w; threadPool := p; stateKV := stateKV w;
     rankHostMap := rankHostMap w; cartProcsPerDim := cartProcsPerDim w;
     localQueueMap := localQueueMap w; windowPointerMap := windowPointerMap w |}.

Definition set_stateKV (k : option string) (w : MpiWorld) : MpiWorld :=
  {| world_id := world_id w; world_size := world_size w;
     world_user := world_user w; world_function := world_function w;
     thisHost := thisHost w; threadPool := threadPool w; stateKV := k;
     rankHostMap := rankHostMap w; cartProcsPerDim := cartProcsPerDim w;
     localQueueMap := localQueueMap w; windowPointerMap := windowPointerMap w |}.

Definition set_rankHostMap (f : gmap Z string -> gmap Z string) (w : MpiWorld) : MpiWorld :=
  {| world_id := world_id w; world_size := world_size w;
     world_user := world_user w; world_function := world_function w;
     thisHost := thisHost w; threadPool := threadPool w; stateKV := stateKV w;
     rankHostMap := f (rankHostMap w); cartProcsPerDim := cartProcsPerDim w;
     localQueueMap := localQueueMap w; windowPointerMap := windowPointerMap w |}.

Definition set_cartProcsPerDim (d : Z * Z) (w : MpiWorld) : MpiWorld :=
  {| world_id := world_id w; world_size := world_size w;
     world_user := world_user w; world_function := world_function w;
     thisHost := thisHost w; threadPool := threadPool w; stateKV := stateKV w;
     rankHostMap := rankHostMap w; cartProcsPerDim := d;
     localQueueMap := localQueueMap w; windowPointerMap := windowPointerMap w |}.

Definition set_localQueueMap
    (f : gmap string (list MPIMessage) -> gmap string (list MPIMessage))
    (w : MpiWorld) : MpiWorld :=
  {| world_id := world_id w; world_size := world_size w;
     world_user := world_user w; world_function := world_function w;
     thisHost := thisHost w; threadPool := threadPool w; stateKV := stateKV w;
     rankHostMap := rankHostMap w; cartProcsPerDim := cartProcsPerDim w;
     localQueueMap := f (localQueueMap w); windowPointerMap := windowPointerMap w |}.

Definition set_windowPointerMap (f : gmap string Z -> gmap string Z) (w : MpiWorld) : MpiWorld :=
  {| world_id := world_id w; world_size := world_size w;
     world_user := world_user w; world_function := world_function w;
     thisHost := thisHost w; threadPool := threadPool w; stateKV := stateKV w;
     rankHostMap := rankHostMap w; cartProcsPerDim := cartProcsPerDim w;
     localQueueMap := localQueueMap w; windowPointerMap := f (windowPointerMap w) |}.

(** ** Collaborators *)

(** Modelled from the spec: [faabric::util::messageFactory] ([func.cpp] is not
    part of the sources) builds a message for [{user, function}] and assigns
    it an identifier and the derived keys ["status_" + id], ["result_" + id]. *)
Definition messageFactory (user function : string) : M Message :=
  gid ← generateGid;
  mret {| msg_id := gid; msg_user := user; msg_function := function;
          msg_ismpi := false; msg_mpiworldid := 0; msg_mpirank := 0;
          msg_cmdline := "";
          msg_statuskey := "status_" +:+ to_string gid;
          msg_resultkey := "result_" +:+ to_string gid;
          msg_outputdata := ""; msg_returnvalue := 0 |}.

Definition set_ismpi (b : bool) (m : Message) : Message :=
  {| msg_id := msg_id m; msg_user := msg_user m; msg_function := msg_function m;
     msg_ismpi := b; msg_mpiworldid := msg_mpiworldid m;
     msg_mpirank := msg_mpirank m; msg_cmdline := msg_cmdline m;
     msg_statuskey := msg_statuskey m; msg_resultkey := msg_resultkey m;
     msg_outputdata := msg_outputdata m; msg_returnvalue := msg_returnvalue m |}.

Definition set_mpiworldid (i : Z) (m : Message) : Message :=
  {| msg_id := msg_id m; msg_user := msg_user m; msg_function := msg_function m;
     msg_ismpi := msg_ismpi m; msg_mpiworldid := i;
     msg_mpirank := msg_mpirank m; msg_cmdline := msg_cmdline m;
     msg_statuskey := msg_statuskey m; msg_resultkey := msg_resultkey m;
     msg_outputdata := msg_outputdata m; msg_returnvalue := msg_returnvalue m |}.

Definition set_mpirank (r : Z) (m : Message) : Message :=
  {| msg_id := msg_id m; msg_user := msg_user m; msg_function := msg_function m;
     msg_ismpi := msg_ismpi m; msg_mpiworldid := msg_mpiworldid m;
     msg_mpirank := r; msg_cmdline := msg_cmdline m;
     msg_statuskey := msg_statuskey m; msg_resultkey := msg_resultkey m;
     msg_outputdata := msg_outputdata m; msg_returnvalue := msg_returnvalue m |}.

Definition set_cmdline (c : string) (m : Message) : Message :=
  {| msg_id := msg_id m; msg_user := msg_user m; msg_function := msg_function m;
     msg_ismpi := msg_ismpi m; msg_mpiworldid := msg_mpiworldid m;
     msg_mpirank := msg_mpirank m; msg_cmdline := c;
     msg_statuskey := msg_statuskey m; msg_resultkey := msg_resultkey m;
     msg_outputdata := msg_outputdata m; msg_returnvalue := msg_returnvalue m |}.

Definition set_outputdata (o : string) (m : Message) : Message :=
  {| msg_id := msg_id m; msg_user := msg_user m; msg_function := msg_function m;
     msg_ismpi := msg_ismpi m; msg_mpiworldid := msg_mpiworldid m;
     msg_mpirank := msg_mpirank m; msg_cmdline := msg_cmdline m;
     msg_statuskey := msg_statuskey m; msg_resultkey := msg_resultkey m;
     msg_outputdata := o; msg_returnvalue := msg_returnvalue m |}.

(** [Scheduler::callFunction], seen from the world: the message is handed to
    the scheduler.  [st_calls] lists the messages handed over, oldest first. *)
Definition callFunction (msg : Message) : M unit := fun st =>
  (Ok tt,
   {| st_world := st_world st; st_mem := st_mem st; st_kv := st_kv st;
      st_gid := st_gid st; st_calls := st_calls st ++ [msg];
      st_rpc := st_rpc st; st_usableCores := st_usableCores st; st_heap := st_heap st |}).

(** [FunctionCallClient(otherHost).sendMPIMessage(m)] *)
Definition sendMPIMessage (otherHost : string) (m : MPIMessage) : M unit := fun st =>
  (Ok tt,
   {| st_world := st_world st; st_mem := st_mem st; st_kv := st_kv st;
      st_gid := st_gid st; st_calls := st_calls st;
      st_rpc := st_rpc st ++ [(otherHost, m)];
      st_usableCores := st_usableCores st; st_heap := st_heap st |}).

Definition kvSet (key : string) (v : kvval) : M unit :=
  modify (set_kv (fun kv => <[key := v]> kv)).

Definition kvGet (key : string) : M (option kvval) :=
  gets (fun st => st_kv st !! key).

Definition kvDelete (key : string) : M unit :=
  modify (set_kv (fun kv => delete key kv)).

(** ** [MpiWorld.cpp] *)

Definition getWorldStateKey (worldId : Z) : M string :=
  if worldId <=? 0
  then throw (runtime_error "World ID must be bigger than zero")
  else mret ("mpi_world_" +:+ to_string worldId).

Definition getRankStateKey (worldId rankId : Z) : M string :=
  if (worldId <=? 0) || (rankId <? 0)
  then throw (runtime_error "World ID must be >0 and rank ID must be >=0")
  else mret ("mpi_rank_" +:+ to_string worldId +:+ "_" +:+ to_string rankId).

Definition getWindowStateKey (worldId rank size : Z) : string :=
  "mpi_win_" +:+ to_string worldId +:+ "_" +:+ to_string rank +:+ "_"
    +:+ to_string size.

Definition setUpStateKV : M unit :=
  w ← getWorld;
  match stateKV w with
  | None =>
      stateKey ← getWorldStateKey (world_id w);
      modifyWorld (set_stateKV (Some stateKey))
  | Some _ => mret tt
  end.

Definition getRankHostState (rank : Z) : M string :=
  w ← getWorld;
  getRankStateKey (world_id w) rank.

(** The warning is logged only; the pool gets [min(worldSize, usableCores)]
    threads. *)
Definition getMpiThreadPoolSize : M Z :=
  w ← getWorld;
  usableCores ← gets st_usableCores;
  mret (Z.min (world_size w) usableCores).

(** [stateKV] is a shared pointer, null until [setUpStateKV] has run;
    [create] sets it up first.  A call through the null pointer is an error
    here. *)
Definition pushToState : M unit :=
  w ← getWorld;
  match stateKV w with
  | Some key => kvSet key (KVWorld (world_size w))
  | None => throw (runtime_error "null stateKV")
  end.

(** [MPI_HOST_STATE_LEN], the length of the buffer a host is stored in.
    It is defined in [MpiWorld.h], which is not part of the sources; the
    specification gives it as 50. *)
Definition MPI_HOST_STATE_LEN : Z := 50.

(** A [char] as a byte and back. *)
Definition byteOf (c : Ascii.ascii) : Z := Z.of_N (Ascii.N_of_ascii c).
Definition charOf (b : Z) : Ascii.ascii := Ascii.ascii_of_N (Z.to_N b).

(** [s.c_str()] as [strcpy] and [strlen] see it: the bytes before the first
    null byte of [s]. *)
Fixpoint c_str (s : string) : list Z :=
  match s with
  | EmptyString => []
  | String c s' => if byteOf c =? 0 then [] else byteOf c :: c_str s'
  end.

(** [std::string] built from a buffer read as a C string: the characters
    before the first null byte. *)
Fixpoint stringOfBuffer (buffer : list Z) : string :=
  match buffer with
  | [] => EmptyString
  | b :: buffer' =>
      if b =? 0 then EmptyString else String (charOf b) (stringOfBuffer buffer')
  end.

(** [kv->get(buffer)] on a key-value of [size] bytes. *)
Definition kvGetBytes (key : string) (size : Z) : M (list Z) :=
  v ← kvGet key;
  mret (match v with
        | Some (KVBytes bs) =>
            take (Z.to_nat size) (bs ++ replicate (Z.to_nat size) 0)
        | _ => replicate (Z.to_nat size) 0
        end).

(** [strcpy] writes the bytes of the host and the null byte that ends them:
    a host of [MPI_HOST_STATE_LEN] bytes or more does not fit the buffer. *)
Definition registerRank (rank : Z) : M unit :=
  w ← getWorld;
  modifyWorld (set_rankHostMap (fun m => <[rank := thisHost w]> m));;
  let host := c_str (thisHost w) in
  if MPI_HOST_STATE_LEN <=? Z.of_nat (length host)
  then undefined "strcpy writes past hostBytesBuffer"
  else
    let hostBytesBuffer :=
      host ++ replicate (Z.to_nat MPI_HOST_STATE_LEN - length host) 0 in
    kv ← getRankHostState rank;
    kvSet kv (KVBytes hostBytesBuffer).

(** The host is read back as a C string; a buffer without a null byte is
    read past its end. *)
Definition getHostForRank (rank : Z) : M string :=
  w ← getWorld;
  match rankHostMap w !! rank with
  | Some host => mret host
  | None =>
      kv ← getRankHostState rank;
      buffer ← kvGetBytes kv MPI_HOST_STATE_LEN;
      if bool_decide (head buffer = Some 0)
      then throw (runtime_error "No host entry for rank")
      else if bool_decide (0 ∈ buffer)
      then
        let otherHost := stringOfBuffer buffer in
        modifyWorld (set_rankHostMap (fun m => <[rank := otherHost]> m));;
        mret otherHost
      else undefined "strlen reads past the host buffer"
  end.

(** The body of the rank loop of [create]: the sibling message of rank [i]. *)
Definition siblingMessage (call : Message) (i : Z) : M Message :=
  w ← getWorld;
  msg ← messageFactory (world_user w) (world_function w);
  mret (set_cmdline (msg_cmdline call)
         (set_mpirank i (set_mpiworldid (world_id w) (set_ismpi true msg)))).

(** [MpiWorld::create].  The text of the rank loop is not well formed as it
    stands: a [}] follows [msg.set_cmdline(...)], and [sch.callFunction(msg)]
    comes after it, still at the indentation of the loop body, where [msg]
    is no longer in scope; one more [}] follows the call.  The function is
    read with the surplus brace after [set_cmdline] taken out, so that the
    call to the scheduler is the last statement of the loop body: this is
    what the indentation, the comment above the loop ("spawn (size - 1) new
    functions") and the world test expect. *)
Definition create (call : Message) (newId newSize : Z) : M unit :=
  modifyWorld (set_identity newId (msg_user call) (msg_function call));;
  modifyWorld (set_size newSize);;
  n ← getMpiThreadPoolSize;
  modifyWorld (set_threadPool (Some n));;
  setUpStateKV;;
  pushToState;;
  registerRank 0;;
  w ← getWorld;
  forM_ (seqZ 1 (world_size w - 1))
    (fun i => msg ← siblingMessage call i; callFunction msg).

Definition destroy : M unit :=
  setUpStateKV;;
  w ← getWorld;
  match stateKV w with
  | Some key => kvDelete key
  | None => mret tt
  end;;
  forM_ (map fst (map_to_list (rankHostMap w)))
    (fun rank => key ← getRankHostState rank; kvDelete key);;
  modifyWorld (set_localQueueMap (fun _ => ∅)).

Definition initialiseFromState (msg : Message) (worldId : Z) : M unit :=
  modifyWorld (set_identity worldId (msg_user msg) (msg_function msg));;
  setUpStateKV;;
  w ← getWorld;
  s ← match stateKV w with
      | Some key => kvGet key
      | None => mret None
      end;
  modifyWorld (set_size match s with Some (KVWorld n) => n | _ => 0 end);;
  n ← getMpiThreadPoolSize;
  modifyWorld (set_threadPool (Some n)).

(** [dims], [periods] and [coords] are the caller's arrays.  A store outside
    an array is dropped (it is undefined in C++); when the call throws, the
    arrays it had started to fill are not returned. *)
Fixpoint cartesianRest (dims : list Z) (idxs : list Z) (periods coords : list Z)
    : M (list Z * list Z) :=
  match idxs with
  | [] => mret (periods, coords)
  | i :: idxs' =>
      if decide (dims !!! Z.to_nat i = 1)
      then cartesianRest dims idxs'
             (<[Z.to_nat i := 1]> periods) (<[Z.to_nat i := 0]> coords)
      else throw (runtime_error
             "Non-zero number of processes in dimension greater than 2.")
  end.

(** [a / b] and [a % b] on [int]: truncation towards zero; no behaviour is
    defined for a zero divisor. *)
Definition divide (a b : Z) : M Z :=
  if b =? 0 then undefined "integer division by zero" else mret (Z.quot a b).

Definition remainder (a b : Z) : M Z :=
  if b =? 0 then undefined "integer division by zero" else mret (Z.rem a b).

Definition getCartesianRank (rank maxDims : Z) (dims periods coords : list Z)
    : M (list Z * list Z) :=
  w ← getWorld;
  if world_size w - 1 <? rank
  then throw (runtime_error "Rank bigger than world size")
  else if negb ((dims !!! 0%nat) * (dims !!! 1%nat) =? world_size w)
  then throw (runtime_error
         "Product of ranks across dimensions not equal to world size")
  else
    modifyWorld (set_cartProcsPerDim (dims !!! 0%nat, dims !!! 1%nat));;
    q ← divide rank (dims !!! 1%nat);
    let coords := <[0%nat := q]> coords in
    r ← remainder rank (dims !!! 1%nat);
    let coords := <[1%nat := r]> coords in
    let periods := <[0%nat := 1]> periods in
    let periods := <[1%nat := 1]> periods in
    cartesianRest dims (seqZ 2 (maxDims - 2)) periods coords.

Definition getRankFromCoords (coords : list Z) : M Z :=
  w ← getWorld;
  if negb (fst (cartProcsPerDim w) * snd (cartProcsPerDim w) =? world_size w)
  then throw (runtime_error
         "Processors per dimension don't match world size")
  else mret (coords !!! 1%nat + coords !!! 0%nat * snd (cartProcsPerDim w)).

(** Returns [(source, destination)]. *)
Definition shiftCartesianCoords (rank direction disp : Z) : M (Z * Z) :=
  w ← getWorld;
  let d0 := fst (cartProcsPerDim w) in
  let d1 := snd (cartProcsPerDim w) in
  c0 ← divide rank d1;
  c1 ← remainder rank d1;
  dispCoordsFwd ←
    (if direction =? 0 then f ← remainder (c0 + disp) d0; mret [f; c1]
     else if direction =? 1 then f ← remainder (c1 + disp) d1; mret [c0; f]
     else mret [c0; c1]);
  destination ← getRankFromCoords dispCoordsFwd;
  dispCoordsBwd ←
    (if direction =? 0 then b ← remainder (c0 - disp + d0) d0; mret [b; c1]
     else if direction =? 1 then b ← remainder (c1 - disp + d1) d1; mret [c0; b]
     else mret [c0; c1]);
  source ← getRankFromCoords dispCoordsBwd;
  mret (source, destination).

(** [new uint8_t[n]]: a fresh block, contents indeterminate (whatever the
    memory holds there).  Blocks are not reused after [delete[]]. *)
Definition new_bytes (n : Z) : M Z := fun st =>
  (Ok (st_heap st),
   {| st_world := st_world st; st_mem := st_mem st; st_kv := st_kv st;
      st_gid := st_gid st; st_calls := st_calls st; st_rpc := st_rpc st;
      st_usableCores := st_usableCores st;
      st_heap := st_heap st + Z.max n 0 |}).

(** *** Local queues *)

Definition queueKey (sendRank recvRank : Z) : string :=
  to_string sendRank +:+ "_" +:+ to_string recvRank.

Definition checkRankOnThisHost (rank : Z) : M unit :=
  w ← getWorld;
  match rankHostMap w !! rank with
  | None => throw (runtime_error "No mapping found for rank")
  | Some host =>
      if decide (host ≠ thisHost w)
      then throw (runtime_error "Accessing in-memory queue for remote rank")
      else mret tt
  end.

(** Returns the handle of the queue: its key in [localQueueMap]. *)
Definition getLocalQueue (sendRank recvRank : Z) : M string :=
  checkRankOnThisHost recvRank;;
  let key := queueKey sendRank recvRank in
  w ← getWorld;
  match localQueueMap w !! key with
  | None => modifyWorld (set_localQueueMap (fun q => <[key := []]> q))
  | Some _ => mret tt
  end;;
  mret key.

(** [InMemoryMpiQueue]: [enqueue], [dequeue] (no timeout: an empty queue
    blocks), [peek] and [size] on the queue behind a handle. *)
Definition enqueue (key : string) (m : MPIMessage) : M unit :=
  modifyWorld (set_localQueueMap (fun q => alter (fun l => l ++ [m]) key q)).

Definition dequeue (key : string) : M MPIMessage :=
  w ← getWorld;
  match localQueueMap w !! key with
  | Some (m :: rest) =>
      modifyWorld (set_localQueueMap (fun q => <[key := rest]> q));;
      mret m
  | _ => block
  end.

Definition peek (key : string) : M MPIMessage :=
  w ← getWorld;
  match localQueueMap w !! key with
  | Some (m :: _) => mret m
  | _ => block
  end.

Definition queueSize (key : string) : M Z :=
  w ← getWorld;
  mret (Z.of_nat (length (default [] (localQueueMap w !! key)))).

(** *** Point-to-point *)

Definition synchronizeRmaWrite (msg : MPIMessage) (isRemote : bool) : M unit :=
  w ← getWorld;
  let datatype := getFaabricDatatypeFromId (mpi_type msg) in
  let winSize := mpi_count msg * dt_size datatype in
  let key := getWindowStateKey (world_id w) (mpi_destination msg) winSize in
  kv ← kvGet key;
  let windowPtr := default nullptr (windowPointerMap w !! key) in
  modifyWorld (set_windowPointerMap (fun m => <[key := windowPtr]> m));;
  let bytes :=
    match kv with
    | Some (KVBytes bs) => bs
    | _ => replicate (Z.to_nat winSize) 0
    end in
  modify (set_mem (fun mem => store mem windowPtr bytes)).

Definition send (sendRank recvRank buffer : Z) (dataType : faabric_datatype_t)
    (count : Z) (messageType : MPIMessageType) : M unit :=
  w ← getWorld;
  if world_size w - 1 <? recvRank
  then throw (runtime_error "Rank bigger than world size")
  else
    msgId ← generateGid;
    otherHost ← getHostForRank recvRank;
    let isLocal := bool_decide (otherHost = thisHost w) in
    mem ← gets st_mem;
    let m :=
      {| mpi_id := msgId; mpi_worldid := world_id w; mpi_sender := sendRank;
         mpi_destination := recvRank; mpi_type := dt_id dataType;
         mpi_count := count; mpi_messagetype := messageType;
         mpi_buffer :=
           if (0 <? count) && negb (buffer =? nullptr)
           then load mem buffer (Z.to_nat (dt_size dataType * count))
           else [] |} in
    if isLocal
    then
      if decide (messageType = RMA_WRITE)
      then synchronizeRmaWrite m false
      else q ← getLocalQueue sendRank recvRank; enqueue q m
    else sendMPIMessage otherHost m.

(** [status] is the content behind the [MPI_Status*], [None] for [nullptr];
    the result is the content after the call. *)
Definition recv (sendRank recvRank buffer : Z) (dataType : faabric_datatype_t)
    (count : Z) (status : option MPI_Status) (messageType : MPIMessageType)
    : M (option MPI_Status) :=
  q ← getLocalQueue sendRank recvRank;
  m ← dequeue q;
  if decide (messageType ≠ mpi_messagetype m)
  then throw (runtime_error "Mismatched message types")
  else if count <? mpi_count m
  then throw (runtime_error "Message too long")
  else
    (if 0 <? mpi_count m
     then modify (set_mem (fun mem => store mem buffer (mpi_buffer m)))
     else mret tt);;
    mret (match status with
          | Some _ =>
              Some {| MPI_SOURCE := mpi_sender m; MPI_TAG := -1;
                      MPI_ERROR := MPI_SUCCESS;
                      bytesSize := mpi_count m * dt_size dataType |}
          | None => None
          end).

Definition probe (sendRank recvRank : Z) (status : MPI_Status) : M MPI_Status :=
  queue ← getLocalQueue sendRank recvRank;
  m ← peek queue;
  let datatype := getFaabricDatatypeFromId (mpi_type m) in
  mret {| MPI_SOURCE := mpi_sender m; MPI_TAG := MPI_TAG status;
          MPI_ERROR := 0; bytesSize := mpi_count m * dt_size datatype |}.

Definition enqueueMessage (msg : MPIMessage) : M unit :=
  w ← getWorld;
  if decide (mpi_worldid msg ≠ world_id w)
  then throw (runtime_error "Queueing message not for this world")
  else if decide (mpi_messagetype msg = RMA_WRITE)
  then synchronizeRmaWrite msg true
  else q ← getLocalQueue (mpi_sender msg) (mpi_destination msg); enqueue q msg.

Definition getLocalQueueSize (sendRank recvRank : Z) : M Z :=
  queue ← getLocalQueue sendRank recvRank;
  queueSize queue.

Definition broadcast (sendRank buffer : Z) (dataType : faabric_datatype_t)
    (count : Z) (messageType : MPIMessageType) : M unit :=
  w ← getWorld;
  forM_ (seqZ 0 (world_size w))
    (fun r =>
       if r =? sendRank then mret tt
       else send sendRank r buffer dataType count messageType).

Definition overrideHost (newHost : string) : M unit :=
  modifyWorld (set_thisHost newHost).

(** *** Reductions *)

(** [memcpy(dst, src, n)] and [memset(dst, c, n)]; a negative [n] (an
    overflowed [size_t] in C++) copies nothing here. *)
Definition memcpy (dst src n : Z) : M unit :=
  modify (set_mem (fun mem => store mem dst (load mem src (Z.to_nat n)))).

Definition memset (dst c n : Z) : M unit :=
  modify (set_mem (fun mem => store mem dst (replicate (Z.to_nat n) c))).

(** Arithmetic on [double].  A [double] is handled as its 64-bit pattern;
    what addition and comparison do to two patterns is left to the floating
    point unit, whose sums are 64-bit patterns again. *)
Class DoubleArith : Type := {
  double_add : Z -> Z -> Z;
  double_lt : Z -> Z -> bool;
  double_add_pattern : ∀ a b, 0 <= double_add a b < 2 ^ 64
}.

(** The floating point unit of the hosts the code runs on: IEEE 754
    binary64, rounding to nearest even.  A pattern is a sign bit, eleven
    bits of exponent and 52 bits of fraction; the arithmetic is that of the
    standard library's specification of floating point numbers, at
    precision 53 and maximal exponent 1024.  A result that is not a number
    is given the pattern of the quiet NaN without payload: which NaN a unit
    produces is its own choice, and every NaN pattern is read as the one
    NaN. *)
Definition decodeDouble (p : Z) : spec_float :=
  let s := Z.testbit p 63 in
  let e := (p / 2 ^ 52) mod 2 ^ 11 in
  let m := p mod 2 ^ 52 in
  if e =? 0 then
    match m with
    | Zpos m' => S754_finite s m' (-1074)
    | _ => S754_zero s
    end
  else if e =? 2047 then
    if m =? 0 then S754_infinity s else S754_nan
  else
    match m + 2 ^ 52 with
    | Zpos m' => S754_finite s m' (e - 1075)
    | _ => S754_nan
    end.

Definition signBit (s : bool) : Z := if s then 2 ^ 63 else 0.

Definition encodeDouble (x : spec_float) : Z :=
  match x with
  | S754_zero s => signBit s
  | S754_infinity s => signBit s + 2047 * 2 ^ 52
  | S754_nan => 2047 * 2 ^ 52 + 2 ^ 51
  | S754_finite s m e =>
      if Zpos m <? 2 ^ 52 then signBit s + Zpos m
      else signBit s + (e + 1075) * 2 ^ 52 + (Zpos m - 2 ^ 52)
  end mod 2 ^ 64.

Lemma encodeDouble_pattern x : 0 <= encodeDouble x < 2 ^ 64.
Proof. unfold encodeDouble. by apply Z.mod_pos_bound. Qed.

Definition ieee754 : DoubleArith :=
  {| double_add a b :=
       encodeDouble (SFadd 53 1024 (decodeDouble a) (decodeDouble b));
     double_lt a b := SFltb (decodeDouble a) (decodeDouble b);
     double_add_pattern a b := encodeDouble_pattern _ |}.

(** One slot of a reduction on a [w]-byte signed integer type:
    [out[slot] = f(out[slot], in[slot])], stored back on [w] bytes. *)
Definition intCell (w : nat) (f : Z -> Z -> Z) (o i : list Z) : list Z :=
  le_bytes w (f (le_signed o) (le_signed i)).

(** [std::max<double>(a, b)] is [(a < b) ? b : a], [std::min<double>(a, b)]
    is [(b < a) ? b : a]. *)
Definition doubleMaxCell `{DoubleArith} (o i : list Z) : list Z :=
  le_bytes 8 (if double_lt (le_unsigned o) (le_unsigned i)
              then le_unsigned i else le_unsigned o).

Definition doubleMinCell `{DoubleArith} (o i : list Z) : list Z :=
  le_bytes 8 (if double_lt (le_unsigned i) (le_unsigned o)
              then le_unsigned i else le_unsigned o).

Definition doubleSumCell `{DoubleArith} (o i : list Z) : list Z :=
  le_bytes 8 (double_add (le_unsigned o) (le_unsigned i)).

(** The slot loop of [op_reduce] on buffers cast to a [w]-byte type. *)
Definition reduceSlots (w : nat) (f : list Z -> list Z -> list Z)
    (count inBuffer outBuffer : Z) : M unit :=
  forM_ (seqZ 0 count)
    (fun slot =>
       modify (set_mem (fun mem =>
         store mem (outBuffer + Z.of_nat w * slot)
           (f (load mem (outBuffer + Z.of_nat w * slot) w)
              (load mem (inBuffer + Z.of_nat w * slot) w))))).

Definition op_reduce `{DoubleArith} (operation : faabric_op_t)
    (datatype : faabric_datatype_t) (count inBuffer outBuffer : Z) : M unit :=
  match op_ident operation with
  | FAABRIC_OP_MAX =>
      match dt_id datatype with
      | FAABRIC_INT => reduceSlots 4 (intCell 4 Z.max) count inBuffer outBuffer
      | FAABRIC_DOUBLE => reduceSlots 8 doubleMaxCell count inBuffer outBuffer
      | FAABRIC_LONG_LONG => reduceSlots 8 (intCell 8 Z.max) count inBuffer outBuffer
      | _ => throw (runtime_error "Unsupported type for max reduction")
      end
  | FAABRIC_OP_MIN =>
      match dt_id datatype with
      | FAABRIC_INT => reduceSlots 4 (intCell 4 Z.min) count inBuffer outBuffer
      | FAABRIC_DOUBLE => reduceSlots 8 doubleMinCell count inBuffer outBuffer
      | FAABRIC_LONG_LONG => reduceSlots 8 (intCell 8 Z.min) count inBuffer outBuffer
      | _ => throw (runtime_error "Unsupported type for min reduction")
      end
  | FAABRIC_OP_SUM =>
      match dt_id datatype with
      | FAABRIC_INT => reduceSlots 4 (intCell 4 Z.add) count inBuffer outBuffer
      | FAABRIC_DOUBLE => reduceSlots 8 doubleSumCell count inBuffer outBuffer
      | FAABRIC_LONG_LONG => reduceSlots 8 (intCell 8 Z.add) count inBuffer outBuffer
      | _ => throw (runtime_error "Unsupported type for sum reduction")
      end
  | _ => throw (runtime_error "Not yet implemented reduce operation")
  end.

Definition reduce `{DoubleArith} (sendRank recvRank sendBuffer recvBuffer : Z)
    (datatype : faabric_datatype_t) (count : Z) (operation : faabric_op_t)
    : M unit :=
  if sendRank =? recvRank
  then
    let bufferSize := dt_size datatype * count in
    let isInPlace := sendBuffer =? recvBuffer in
    (if negb isInPlace then memcpy recvBuffer sendBuffer bufferSize else mret tt);;
    rankData ← new_bytes bufferSize;
    w ← getWorld;
    forM_ (seqZ 0 (world_size w))
      (fun r =>
         memset rankData 0 bufferSize;;
         if negb (r =? recvRank)
         then
           recv r recvRank rankData datatype count None REDUCE;;
           op_reduce operation datatype count rankData recvBuffer
         else mret tt)
  else send sendRank recvRank sendBuffer datatype count REDUCE.

Definition allReduce `{DoubleArith} (rank sendBuffer recvBuffer : Z)
    (datatype : faabric_datatype_t) (count : Z) (operation : faabric_op_t)
    : M unit :=
  if rank =? 0
  then
    reduce 0 0 sendBuffer recvBuffer datatype count operation;;
    broadcast 0 recvBuffer datatype count ALLREDUCE
  else
    reduce rank 0 sendBuffer recvBuffer datatype count operation;;
    recv 0 rank recvBuffer datatype count None ALLREDUCE;;
    mret tt.

(** The hop to the next rank sends with [MPI_INT], as the source does,
    whatever [datatype] is. *)
Definition scan `{DoubleArith} (rank sendBuffer recvBuffer : Z)
    (datatype : faabric_datatype_t) (count : Z) (operation : faabric_op_t)
    : M unit :=
  w ← getWorld;
  if world_size w - 1 <? rank
  then throw (runtime_error "Rank bigger than world size")
  else
    let isInPlace := sendBuffer =? recvBuffer in
    let bufferSize := dt_size datatype * count in
    (if negb isInPlace then memcpy recvBuffer sendBuffer bufferSize else mret tt);;
    (if 0 <? rank
     then
       currentAcc ← new_bytes bufferSize;
       recv (rank - 1) rank currentAcc datatype count None SCAN;;
       op_reduce operation datatype count currentAcc recvBuffer
     else mret tt);;
    if rank <? world_size w - 1
    then send rank (rank + 1) recvBuffer MPI_INT count SCAN
    else mret tt.

Fixpoint barrierJoins (ranks : list Z) : M unit :=
  match ranks with
  | [] => mret tt
  | r :: ranks' =>
      recv r 0 nullptr MPI_INT 0
        (Some {| MPI_SOURCE := 0; MPI_TAG := 0; MPI_ERROR := 0; bytesSize := 0 |})
        BARRIER_JOIN;;
      barrierJoins ranks'
  end.

Definition barrier (thisRank : Z) : M unit :=
  if thisRank =? 0
  then
    w ← getWorld;
    barrierJoins (seqZ 1 (world_size w - 1));;
    broadcast 0 nullptr MPI_INT 0 BARRIER_DONE
  else
    send thisRank 0 nullptr MPI_INT 0 BARRIER_JOIN;;
    recv 0 thisRank nullptr MPI_INT 0 None BARRIER_DONE;;
    mret tt.

(** *** One-sided windows *)

Definition checkSendRecvMatch (sendType : faabric_datatype_t) (sendCount : Z)
    (recvType : faabric_datatype_t) (recvCount : Z) : M unit :=
  if bool_decide (dt_id sendType ≠ dt_id recvType) && (sendCount =? recvCount)
  then throw (runtime_error "Mismatching send/ recv")
  else mret tt.

Definition createWindow (winRank winSize windowPtr : Z) : M unit :=
  w ← getWorld;
  let key := getWindowStateKey (world_id w) winRank winSize in
  mem ← gets st_mem;
  kvSet key (KVBytes (load mem windowPtr (Z.to_nat winSize)));;
  modifyWorld (set_windowPointerMap (fun m => <[key := windowPtr]> m)).

Definition rmaGet (sendRank : Z) (sendType : faabric_datatype_t) (sendCount : Z)
    (recvBuffer : Z) (recvType : faabric_datatype_t) (recvCount : Z) : M unit :=
  checkSendRecvMatch sendType sendCount recvType recvCount;;
  w ← getWorld;
  let buffLen := dt_size sendType * sendCount in
  let stateKey := getWindowStateKey (world_id w) sendRank buffLen in
  _ ← getHostForRank sendRank;
  kv ← kvGet stateKey;
  let bytes :=
    match kv with
    | Some (KVBytes bs) => bs
    | _ => replicate (Z.to_nat buffLen) 0
    end in
  modify (set_mem (fun mem => store mem recvBuffer bytes)).

Definition rmaPut (sendRank sendBuffer : Z) (sendType : faabric_datatype_t)
    (sendCount recvRank : Z) (recvType : faabric_datatype_t) (recvCount : Z)
    : M unit :=
  checkSendRecvMatch sendType sendCount recvType recvCount;;
  w ← getWorld;
  let buffLen := dt_size sendType * sendCount in
  let stateKey := getWindowStateKey (world_id w) recvRank buffLen in
  mem ← gets st_mem;
  kvSet stateKey (KVBytes (load mem sendBuffer (Z.to_nat buffLen)));;
  _ ← getHostForRank recvRank;
  send sendRank recvRank nullptr MPI_INT sendCount RMA_WRITE.

(** *** Scatter, gather and all-to-all *)

(** [std::copy(first, last, d_first)] on bytes.  The bytes are read before
    any is written (the destination must not begin inside the source range
    in C++); an empty or reversed range copies nothing. *)
Definition std_copy (first last d_first : Z) : M unit :=
  modify (set_mem (fun mem =>
    store mem d_first (load mem first (Z.to_nat (last - first))))).

Definition scatter (sendRank recvRank sendBuffer : Z)
    (sendType : faabric_datatype_t) (sendCount recvBuffer : Z)
    (recvType : faabric_datatype_t) (recvCount : Z) : M unit :=
  checkSendRecvMatch sendType sendCount recvType recvCount;;
  let sendOffset := sendCount * dt_size sendType in
  if recvRank =? sendRank
  then
    w ← getWorld;
    forM_ (seqZ 0 (world_size w))
      (fun r =>
         let startPtr := sendBuffer + r * sendOffset in
         if r =? sendRank
         then
           let endPtr := startPtr + sendOffset in
           std_copy startPtr endPtr recvBuffer
         else send sendRank r startPtr sendType sendCount SCATTER)
  else
    recv sendRank recvRank recvBuffer recvType recvCount None SCATTER;;
    mret tt.

Definition gather (sendRank recvRank sendBuffer : Z)
    (sendType : faabric_datatype_t) (sendCount recvBuffer : Z)
    (recvType : faabric_datatype_t) (recvCount : Z) : M unit :=
  checkSendRecvMatch sendType sendCount recvType recvCount;;
  let sendOffset := sendCount * dt_size sendType in
  let recvOffset := recvCount * dt_size recvType in
  let isInPlace := sendBuffer =? recvBuffer in
  if sendRank =? recvRank
  then
    w ← getWorld;
    forM_ (seqZ 0 (world_size w))
      (fun r =>
         let recvChunk := recvBuffer + r * recvOffset in
         if (r =? recvRank) && isInPlace then mret tt
         else if r =? recvRank
         then std_copy sendBuffer (sendBuffer + sendOffset) recvChunk
         else
           recv r recvRank recvChunk recvType recvCount None GATHER;;
           mret tt)
  else
    if isInPlace
    then
      let sendChunk := sendBuffer + sendRank * sendOffset in
      send sendRank recvRank sendChunk sendType sendCount GATHER
    else send sendRank recvRank sendBuffer sendType sendCount GATHER.

Definition allGather (rank sendBuffer : Z) (sendType : faabric_datatype_t)
    (sendCount recvBuffer : Z) (recvType : faabric_datatype_t) (recvCount : Z)
    : M unit :=
  checkSendRecvMatch sendType sendCount recvType recvCount;;
  let root := 0 in
  gather rank root sendBuffer sendType sendCount recvBuffer recvType recvCount;;
  w ← getWorld;
  let fullCount := recvCount * world_size w in
  if rank =? root
  then broadcast root recvBuffer recvType fullCount ALLGATHER
  else
    recv root rank recvBuffer recvType fullCount None ALLGATHER;;
    mret tt.

Definition allToAll (rank sendBuffer : Z) (sendType : faabric_datatype_t)
    (sendCount recvBuffer : Z) (recvType : faabric_datatype_t) (recvCount : Z)
    : M unit :=
  checkSendRecvMatch sendType sendCount recvType recvCount;;
  let sendOffset := sendCount * dt_size sendType in
  w ← getWorld;
  forM_ (seqZ 0 (world_size w))
    (fun r =>
       let rankOffset := r * sendOffset in
       let sendChunk := sendBuffer + rankOffset in
       if r =? rank
       then std_copy sendChunk (sendChunk + sendOffset) (recvBuffer + rankOffset)
       else send rank r sendChunk sendType sendCount ALLTOALL);;
  w ← getWorld;
  forM_ (seqZ 0 (world_size w))
    (fun r =>
       if r =? rank then mret tt
       else
         let recvChunk := recvBuffer + r * sendOffset in
         recv r rank recvChunk recvType recvCount None ALLTOALL;;
         mret tt).

(** *** Getters *)

Definition getUser : M string := w ← getWorld; mret (world_user w).
Definition getFunction : M string := w ← getWorld; mret (world_function w).
Definition getId : M Z := w ← getWorld; mret (world_id w).
Definition getSize : M Z := w ← getWorld; mret (world_size w).

(** [getWTime]: the time since the world object was made, in seconds.  The
    clock is outside the world; [elapsedMillis] is what
    [getTimeDiffMillis(creationTime)] reads from it, and the quotient by
    1000.0, a [double], is left as the fraction it is. *)
Definition getWTime (elapsedMillis : Z) : M (Z * Z) :=
  mret (elapsedMillis, 1000).

(** *** Asynchronous requests *)

(** The operation bound into a request: a [send] or a [recv] with its
    arguments. *)
Inductive AsyncThunk : Type :=
  | BoundSend (sendRank recvRank buffer : Z) (dataType : faabric_datatype_t)
      (count : Z) (messageType : MPIMessageType)
  | BoundRecv (sendRank recvRank buffer : Z) (dataType : faabric_datatype_t)
      (count : Z) (messageType : MPIMessageType).

(** The world together with what the asynchronous requests add to it: the
    request queue of the thread pool, the promises that have been fulfilled,
    and [futureMap], the thread-local map of the futures of the calling
    thread, by request identifier (a future is ready when the promise of its
    request is fulfilled). *)
Record Async : Type := {
  as_state : State;
  mpiReqQueue : list (Z * AsyncThunk);
  fulfilled : list Z;
  futureMap : list Z
}.

Definition MA (A : Type) : Type := Async -> Res A * Async.

Global Instance MA_ret : MRet MA := fun A a s => (Ok a, s).

Global Instance MA_bind : MBind MA := fun A B f m s =>
  match m s with
  | (Ok a, s') => f a s'
  | (Throw e, s') => (Throw e, s')
  | (Blocked, s') => (Blocked, s')
  | (Undefined what, s') => (Undefined what, s')
  end.

Definition set_state (st : State) (a : Async) : Async :=
  {| as_state := st; mpiReqQueue := mpiReqQueue a; fulfilled := fulfilled a;
     futureMap := futureMap a |}.

(** An operation of the world, run on the world of [Async]. *)
Definition liftM {A} (m : M A) : MA A := fun a =>
  let '(r, st) := m (as_state a) in (r, set_state st a).

(** The request is queued for the pool and its future kept in [futureMap];
    [emplace] keeps the entry of a key that is there already.  [threadPool]
    is a shared pointer, null before [create] or [initialiseFromState]. *)
Definition postRequest (requestId : Z) (thunk : AsyncThunk) : MA unit := fun a =>
  match threadPool (st_world (as_state a)) with
  | None => (Undefined "call through a null threadPool", a)
  | Some _ =>
      (Ok tt,
       {| as_state := as_state a;
          mpiReqQueue := mpiReqQueue a ++ [(requestId, thunk)];
          fulfilled := fulfilled a;
          futureMap := if bool_decide (requestId ∈ futureMap a)
                       then futureMap a else futureMap a ++ [requestId] |})
  end.

Definition isend (sendRank recvRank buffer : Z) (dataType : faabric_datatype_t)
    (count : Z) (messageType : MPIMessageType) : MA Z :=
  requestId ← liftM generateGid;
  postRequest requestId
    (BoundSend sendRank recvRank buffer dataType count messageType);;
  mret requestId.

Definition irecv (sendRank recvRank buffer : Z) (dataType : faabric_datatype_t)
    (count : Z) (messageType : MPIMessageType) : MA Z :=
  requestId ← liftM generateGid;
  postRequest requestId
    (BoundRecv sendRank recvRank buffer dataType count messageType);;
  mret requestId.

(** [wait] on a future that is not ready does not return; the call carries
    on from there when a worker of the pool has fulfilled the promise. *)
Definition awaitAsyncRequest (requestId : Z) : MA unit := fun a =>
  if bool_decide (requestId ∈ futureMap a)
  then
    if bool_decide (requestId ∈ fulfilled a)
    then
      (Ok tt,
       {| as_state := as_state a; mpiReqQueue := mpiReqQueue a;
          fulfilled := fulfilled a;
          futureMap := filter (fun i => i ≠ requestId) (futureMap a) |})
    else (Blocked, a)
  else (Throw (runtime_error "Error: waiting for unrecognized request"), a).

Definition sendRecv (sendBuffer sendCount : Z) (sendDataType : faabric_datatype_t)
    (sendRank recvBuffer recvCount : Z) (recvDataType : faabric_datatype_t)
    (recvRank myRank : Z) : MA unit :=
  w ← liftM getWorld;
  if world_size w - 1 <? recvRank
  then liftM (throw (runtime_error "Receive rank bigger than world size"))
  else if world_size w - 1 <? sendRank
  then liftM (throw (runtime_error "Send rank bigger than world size"))
  else
    recvId ← irecv recvRank myRank recvBuffer recvDataType recvCount SENDRECV;
    liftM (send myRank sendRank sendBuffer sendDataType sendCount SENDRECV);;
    awaitAsyncRequest recvId.

(** *** The operations of the world, as one step function

    Every member function of [MpiWorld.cpp] that reads or changes the
    world, each with the arguments of a call; [getWTime] reads the clock
    only.  The asynchronous requests follow below. *)
Inductive MpiCall : Type :=
  | CallSetUpStateKV
  | CallGetRankHostState (rank : Z)
  | CallGetMpiThreadPoolSize
  | CallCreate (call : Message) (newId newSize : Z)
  | CallDestroy
  | CallInitialiseFromState (msg : Message) (worldId : Z)
  | CallPushToState
  | CallRegisterRank (rank : Z)
  | CallGetHostForRank (rank : Z)
  | CallGetCartesianRank (rank maxDims : Z) (dims periods coords : list Z)
  | CallGetRankFromCoords (coords : list Z)
  | CallShiftCartesianCoords (rank direction disp : Z)
  | CallSend (sendRank recvRank buffer : Z) (dataType : faabric_datatype_t)
      (count : Z) (messageType : MPIMessageType)
  | CallRecv (sendRank recvRank buffer : Z) (dataType : faabric_datatype_t)
      (count : Z) (status : option MPI_Status) (messageType : MPIMessageType)
  | CallBroadcast (sendRank buffer : Z) (dataType : faabric_datatype_t)
      (count : Z) (messageType : MPIMessageType)
  | CallScatter (sendRank recvRank sendBuffer : Z)
      (sendType : faabric_datatype_t) (sendCount recvBuffer : Z)
      (recvType : faabric_datatype_t) (recvCount : Z)
  | CallGather (sendRank recvRank sendBuffer : Z)
      (sendType : faabric_datatype_t) (sendCount recvBuffer : Z)
      (recvType : faabric_datatype_t) (recvCount : Z)
  | CallAllGather (rank sendBuffer : Z) (sendType : faabric_datatype_t)
      (sendCount recvBuffer : Z) (recvType : faabric_datatype_t) (recvCount : Z)
  | CallReduce (sendRank recvRank sendBuffer recvBuffer : Z)
      (datatype : faabric_datatype_t) (count : Z) (operation : faabric_op_t)
  | CallAllReduce (rank sendBuffer recvBuffer : Z)
      (datatype : faabric_datatype_t) (count : Z) (operation : faabric_op_t)
  | CallOpReduce (operation : faabric_op_t) (datatype : faabric_datatype_t)
      (count inBuffer outBuffer : Z)
  | CallScan (rank sendBuffer recvBuffer : Z)
      (datatype : faabric_datatype_t) (count : Z) (operation : faabric_op_t)
  | CallAllToAll (rank sendBuffer : Z) (sendType : faabric_datatype_t)
      (sendCount recvBuffer : Z) (recvType : faabric_datatype_t) (recvCount : Z)
  | CallProbe (sendRank recvRank : Z) (status : MPI_Status)
  | CallBarrier (thisRank : Z)
  | CallEnqueueMessage (msg : MPIMessage)
  | CallGetLocalQueue (sendRank recvRank : Z)
  | CallRmaGet (sendRank : Z) (sendType : faabric_datatype_t) (sendCount : Z)
      (recvBuffer : Z) (recvType : faabric_datatype_t) (recvCount : Z)
  | CallRmaPut (sendRank sendBuffer : Z) (sendType : faabric_datatype_t)
      (sendCount recvRank : Z) (recvType : faabric_datatype_t) (recvCount : Z)
  | CallSynchronizeRmaWrite (msg : MPIMessage) (isRemote : bool)
  | CallGetLocalQueueSize (sendRank recvRank : Z)
  | CallCheckRankOnThisHost (rank : Z)
  | CallCreateWindow (winRank winSize windowPtr : Z)
  | CallGetUser
  | CallGetFunction
  | CallGetId
  | CallGetSize
  | CallGetWTime (elapsedMillis : Z)
  | CallOverrideHost (newHost : string).

Definition exec `{DoubleArith} (c : MpiCall) : M unit :=
  match c with
  | CallSetUpStateKV => setUpStateKV
  | CallGetRankHostState rank => getRankHostState rank;; mret tt
  | CallGetMpiThreadPoolSize => getMpiThreadPoolSize;; mret tt
  | CallCreate call newId newSize => create call newId newSize
  | CallDestroy => destroy
  | CallInitialiseFromState msg worldId => initialiseFromState msg worldId
  | CallPushToState => pushToState
  | CallRegisterRank rank => registerRank rank
  | CallGetHostForRank rank => getHostForRank rank;; mret tt
  | CallGetCartesianRank rank maxDims dims periods coords =>
      getCartesianRank rank maxDims dims periods coords;; mret tt
  | CallGetRankFromCoords coords => getRankFromCoords coords;; mret tt
  | CallShiftCartesianCoords rank direction disp =>
      shiftCartesianCoords rank direction disp;; mret tt
  | CallSend s r b dt n mt => send s r b dt n mt
  | CallRecv s r b dt n status mt => recv s r b dt n status mt;; mret tt
  | CallBroadcast s b dt n mt => broadcast s b dt n mt
  | CallScatter s r sb st sc rb rt rc => scatter s r sb st sc rb rt rc
  | CallGather s r sb st sc rb rt rc => gather s r sb st sc rb rt rc
  | CallAllGather r sb st sc rb rt rc => allGather r sb st sc rb rt rc
  | CallReduce s r sb rb dt n op => reduce s r sb rb dt n op
  | CallAllReduce r sb rb dt n op => allReduce r sb rb dt n op
  | CallOpReduce op dt n i o => op_reduce op dt n i o
  | CallScan r sb rb dt n op => scan r sb rb dt n op
  | CallAllToAll r sb st sc rb rt rc => allToAll r sb st sc rb rt rc
  | CallProbe s r status => probe s r status;; mret tt
  | CallBarrier r => barrier r
  | CallEnqueueMessage msg => enqueueMessage msg
  | CallGetLocalQueue s r => getLocalQueue s r;; mret tt
  | CallRmaGet s st sc rb rt rc => rmaGet s st sc rb rt rc
  | CallRmaPut s sb st sc r rt rc => rmaPut s sb st sc r rt rc
  | CallSynchronizeRmaWrite msg isRemote => synchronizeRmaWrite msg isRemote
  | CallGetLocalQueueSize s r => getLocalQueueSize s r;; mret tt
  | CallCheckRankOnThisHost rank => checkRankOnThisHost rank
  | CallCreateWindow r n p => createWindow r n p
  | CallGetUser => getUser;; mret tt
  | CallGetFunction => getFunction;; mret tt
  | CallGetId => getId;; mret tt
  | CallGetSize => getSize;; mret tt
  | CallGetWTime elapsedMillis => getWTime elapsedMillis;; mret tt
  | CallOverrideHost newHost => overrideHost newHost
  end.

(** Modelled from the spec (4.5): [MpiThreadPool.cpp] is not part of the
    sources.  The workers of the pool draw from the one queue of requests;
    a worker runs the bound operation and fulfils the promise when it
    returns.  With [n] workers the first [n] requests of the queue can be
    under way; [poolWorker k] is the worker on the [k]-th of them.  An
    operation that blocks stays with its worker; one that throws ends the
    worker without a promise fulfilled. *)
Definition runThunk (thunk : AsyncThunk) : M unit :=
  match thunk with
  | BoundSend s r b dt n mt => send s r b dt n mt
  | BoundRecv s r b dt n mt => recv s r b dt n None mt;; mret tt
  end.

Definition poolWorker (k : nat) : MA unit := fun a =>
  match threadPool (st_world (as_state a)), mpiReqQueue a !! k with
  | Some n, Some (requestId, thunk) =>
      if Z.of_nat k <? n
      then
        let '(r, st) := runThunk thunk (as_state a) in
        match r with
        | Ok _ =>
            (Ok tt,
             {| as_state := st; mpiReqQueue := delete k (mpiReqQueue a);
                fulfilled := fulfilled a ++ [requestId];
                futureMap := futureMap a |})
        | Blocked => (Blocked, set_state st a)
        | _ =>
            (r, {| as_state := st; mpiReqQueue := delete k (mpiReqQueue a);
                   fulfilled := fulfilled a; futureMap := futureMap a |})
        end
      else (Blocked, a)
  | _, _ => (Blocked, a)
  end.

(** What can happen to a world: a call of one of its operations, or a step
    of a worker of its pool. *)
Inductive Step : Type :=
  | Call (c : MpiCall)
  | CallISend (sendRank recvRank buffer : Z) (dataType : faabric_datatype_t)
      (count : Z) (messageType : MPIMessageType)
  | CallIRecv (sendRank recvRank buffer : Z) (dataType : faabric_datatype_t)
      (count : Z) (messageType : MPIMessageType)
  | CallSendRecv (sendBuffer sendCount : Z) (sendDataType : faabric_datatype_t)
      (sendRank recvBuffer recvCount : Z) (recvDataType : faabric_datatype_t)
      (recvRank myRank : Z)
  | CallAwaitAsyncRequest (requestId : Z)
  | PoolWorker (k : nat).

Definition step `{DoubleArith} (s : Step) : MA unit :=
  match s with
  | Call c => liftM (exec c)
  | CallISend s r b dt n mt => isend s r b dt n mt;; mret tt
  | CallIRecv s r b dt n mt => irecv s r b dt n mt;; mret tt
  | CallSendRecv sb sc sdt sr rb rc rdt rr me =>
      sendRecv sb sc sdt sr rb rc rdt rr me
  | CallAwaitAsyncRequest requestId => awaitAsyncRequest requestId
  | PoolWorker k => poolWorker k
  end.

Fixpoint run `{DoubleArith} (steps : list Step) (a : Async) : Async :=
  match steps with
  | [] => a
  | s :: steps' => run steps' (snd (step s a))
  end.

Definition isOverrideHost (s : Step) : bool :=
  match s with
  | Call (CallOverrideHost _) => true
  | _ => false
  end.

(** The invariant of [localQueueMap]: every key is the key of a pair whose
    receiver is mapped to this host. *)
Definition queuesLocal (w : MpiWorld) : Prop :=
  ∀ key q, localQueueMap w !! key = Some q →
    ∃ s r, key = queueKey s r ∧ rankHostMap w !! r = Some (thisHost w).

(** ** [FaabricExecutor.cpp]: completing a call *)

Module Executor.

(** What the executor asks of the scheduler, in the order it asks. *)
Inductive SchedulerCall : Type :=
  | NotifyCallFinished (msg : Message)
  | SetFunctionResult (msg : Message).

(** The virtual hooks; a thrown [std::exception] is [inr what]. *)
Record Hooks : Type := {
  doExecute : Message -> Message * (bool + string);
  preFinishCall : Message -> bool -> string -> Message;
  postFinishCall : unit -> unit
}.

(** The hooks of the base class. *)
Definition defaultHooks : Hooks :=
  {| doExecute := fun msg => (msg, inl true);
     preFinishCall := fun msg _ _ => msg;
     postFinishCall := fun _ => tt |}.

Record FaabricExecutor : Type := {
  executionCount : Z;
  scheduler : list SchedulerCall
}.

Definition set_returnvalue (v : Z) (m : Message) : Message :=
  {| msg_id := msg_id m; msg_user := msg_user m;
     msg_function := msg_function m; msg_ismpi := msg_ismpi m;
     msg_mpiworldid := msg_mpiworldid m; msg_mpirank := msg_mpirank m;
     msg_cmdline := msg_cmdline m; msg_statuskey := msg_statuskey m;
     msg_resultkey := msg_resultkey m; msg_outputdata := msg_outputdata m;
     msg_returnvalue := v |}.

Definition callScheduler (c : SchedulerCall) (ex : FaabricExecutor)
    : FaabricExecutor :=
  {| executionCount := executionCount ex;
     scheduler := scheduler ex ++ [c] |}.

Definition incrementExecutionCount (ex : FaabricExecutor) : FaabricExecutor :=
  {| executionCount := executionCount ex + 1; scheduler := scheduler ex |}.

(** [finishCall] as the list of its steps; each step acts on the executor
    and on the message passed by reference. *)
Definition finishCallSteps (h : Hooks) (success : bool) (errorMsg : string)
    : list (FaabricExecutor * Message -> FaabricExecutor * Message) :=
  [ (fun '(ex, msg) => (ex, preFinishCall h msg success errorMsg));
    (fun '(ex, msg) =>
       (ex, if success then msg else set_outputdata errorMsg msg));
    (fun '(ex, msg) => (callScheduler (NotifyCallFinished msg) ex, msg));
    (fun '(ex, msg) => (callScheduler (SetFunctionResult msg) ex, msg));
    (fun '(ex, msg) => (incrementExecutionCount ex, msg));
    (fun '(ex, msg) => let _ := postFinishCall h tt in (ex, msg)) ].

Definition runSteps {S} (steps : list (S -> S)) (s : S) : S :=
  fold_left (fun s f => f s) steps s.

Definition finishCall (h : Hooks) (ex : FaabricExecutor) (msg : Message)
    (success : bool) (errorMsg : string) : FaabricExecutor * Message :=
  runSteps (finishCallSteps h success errorMsg) (ex, msg).

(** The states another thread can see while [finishCall] runs: the state
    after each of its steps, the first [k] of them. *)
Definition finishCallAfter (k : nat) (h : Hooks) (ex : FaabricExecutor)
    (msg : Message) (success : bool) (errorMsg : string)
    : FaabricExecutor * Message :=
  runSteps (take k (finishCallSteps h success errorMsg)) (ex, msg).

Definition executeCall (h : Hooks) (ex : FaabricExecutor) (call : Message)
    : FaabricExecutor * Message * string :=
  let '(call, r) := doExecute h call in
  let '(call, success, errorMessage) :=
    match r with
    | inl success => (call, success, "")
    | inr what => (set_returnvalue 1 call, false, "Error: " +:+ what)
    end in
  let errorMessage :=
    if negb success && bool_decide (errorMessage = "")
    then "Call failed (return value=" +:+ to_string (msg_returnvalue call)
           +:+ ")"
    else errorMessage in
  let '(ex, call) := finishCall h ex call success errorMessage in
  (ex, call, errorMessage).

(** What an observer of the scheduler and of the result store sees. *)
Definition markedFinished (id : Z) (ex : FaabricExecutor) : Prop :=
  ∃ msg, NotifyCallFinished msg ∈ scheduler ex ∧ msg_id msg = id.

Definition resultWritten (id : Z) (ex : FaabricExecutor) : Prop :=
  ∃ msg, SetFunctionResult msg ∈ scheduler ex ∧ msg_id msg = id.

End Executor.

(** ** The scheduler's resource accounting *)

Module Scheduler.

(** Modelled from the spec: [Scheduler.cpp] is not part of the sources.
    [HostResources] is the record [{cores, boundExecutors,
    functionsInFlight}] of unsigned counters (taken far below [2^32]);
    available slots are [cores - functionsInFlight], none when more
    functions are in flight than there are cores. *)
Record HostResources : Type := {
  cores : N;
  boundExecutors : N;
  functionsInFlight : N
}.

Definition availableSlots (r : HostResources) : N :=
  (cores r - functionsInFlight r)%N.

Inductive BatchExecuteType : Type := FUNCTIONS | THREADS | PROCESSES.

Global Instance BatchExecuteType_eq_dec : EqDecision BatchExecuteType.
Proof. solve_decision. Defined.

(** Modelled from the spec: the state of the Scheduler Core that placement
    reads and writes.  [remoteHosts] lists the other hosts in the order they
    are tried (warm hosts first) with the slots each reports; [bindQueue]
    is the global bind queue. *)
Record Scheduler : Type := {
  thisHost : string;
  thisHostResources : HostResources;
  bindQueue : list Message;
  remoteHosts : list (string * N);
  usableCores : N
}.

Inductive Placement : Type :=
  | Local
  | Forwarded (host : string)
  | Overload.

Global Instance Placement_eq_dec : EqDecision Placement.
Proof. solve_decision. Defined.

Definition incrementInFlight (r : HostResources) : HostResources :=
  {| cores := cores r; boundExecutors := boundExecutors r;
     functionsInFlight := (functionsInFlight r + 1)%N |}.

Definition incrementBound (r : HostResources) : HostResources :=
  {| cores := cores r; boundExecutors := (boundExecutors r + 1)%N;
     functionsInFlight := functionsInFlight r |}.

(** The first remote host that reports available slots; one of its slots
    is taken. *)
Fixpoint claimRemote (hosts : list (string * N))
    : option (string * list (string * N)) :=
  match hosts with
  | [] => None
  | (h, slots) :: hosts' =>
      if (0 <? slots)%N then Some (h, (h, (slots - 1)%N) :: hosts')
      else
        match claimRemote hosts' with
        | Some (h', hosts'') => Some (h', (h, slots) :: hosts'')
        | None => None
        end
  end.

Definition set_resources (r : HostResources) (s : Scheduler) : Scheduler :=
  {| thisHost := thisHost s; thisHostResources := r;
     bindQueue := bindQueue s; remoteHosts := remoteHosts s;
     usableCores := usableCores s |}.

Definition set_remoteHosts (hs : list (string * N)) (s : Scheduler) : Scheduler :=
  {| thisHost := thisHost s; thisHostResources := thisHostResources s;
     bindQueue := bindQueue s; remoteHosts := hs;
     usableCores := usableCores s |}.

Definition enqueueBind (msg : Message) (s : Scheduler) : Scheduler :=
  {| thisHost := thisHost s; thisHostResources := thisHostResources s;
     bindQueue := bindQueue s ++ [msg]; remoteHosts := remoteHosts s;
     usableCores := usableCores s |}.

(** Modelled from the spec and the scheduler tests: a message placed on
    this host that is not a thread needs an executor.  Bound executors take
    further calls from their function queue, so an executor is added, with
    the bind message an unbound executor picks up, when the host has fewer
    executors than functions in flight.  The tests read the two counts
    after an admission and find them equal: on 5 cores after 5 calls, and
    on 1 core after the 10 calls of the overload test, where the
    specification's scenario has one executor. *)
Definition addFaaslets (msg : Message) (s : Scheduler) : Scheduler :=
  let r := thisHostResources s in
  if (boundExecutors r <? functionsInFlight r)%N
  then enqueueBind msg (set_resources (incrementBound r) s)
  else s.

(** Modelled from the spec: the placement of one message of a batch (steps
    2a, 2b, 2c and 4 of the placement algorithm).  With a free slot the
    message is placed locally and counted in flight.  Without a free slot
    the first remote host with capacity takes it; when there is none the
    message is placed locally all the same and counted in flight.  A
    message placed locally gets its executor unless it is a thread (threads
    run inline, as the scheduler tests expect of them). *)
Definition placeMessage (type : BatchExecuteType) (msg : Message)
    (s : Scheduler) : Placement * Scheduler :=
  let isThread := bool_decide (type = THREADS) in
  if (0 <? availableSlots (thisHostResources s))%N
  then
    let s' := set_resources (incrementInFlight (thisHostResources s)) s in
    (Local, if isThread then s' else addFaaslets msg s')
  else
    match claimRemote (remoteHosts s) with
    | Some (h, hosts') => (Forwarded h, set_remoteHosts hosts' s)
    | None =>
        let s' := set_resources (incrementInFlight (thisHostResources s)) s in
        (Overload, if isThread then s' else addFaaslets msg s')
    end.

Fixpoint placeMessages (type : BatchExecuteType) (msgs : list Message)
    (s : Scheduler) : list Placement * Scheduler :=
  match msgs with
  | [] => ([], s)
  | msg :: msgs' =>
      let '(p, s') := placeMessage type msg s in
      let '(ps, s'') := placeMessages type msgs' s' in
      (p :: ps, s'')
  end.

(** The host identifier returned for a placement: the empty string for a
    message executed inline. *)
Definition placementHost (type : BatchExecuteType) (s : Scheduler)
    (p : Placement) : string :=
  match p with
  | Forwarded h => h
  | _ => if bool_decide (type = THREADS) then "" else thisHost s
  end.

(** Modelled from the spec: [callFunctions] on the master host of the
    batch, and [callFunction], its one-message shortcut. *)
Definition callFunctions (type : BatchExecuteType) (msgs : list Message)
    (s : Scheduler) : list string * Scheduler :=
  let '(ps, s') := placeMessages type msgs s in
  (map (placementHost type s) ps, s').

Definition callFunction (msg : Message) (s : Scheduler) : Scheduler :=
  snd (callFunctions FUNCTIONS [msg] s).

(** Modelled from the spec: an unbound executor takes a bind message from
    the bind queue; the resource record already counts it. *)
Definition bindExecutor (s : Scheduler) : Scheduler :=
  {| thisHost := thisHost s; thisHostResources := thisHostResources s;
     bindQueue := tail (bindQueue s); remoteHosts := remoteHosts s;
     usableCores := usableCores s |}.

(** Modelled from the spec: the notify-finished operations decrement their
    counter and clamp at zero. *)
Definition decrementClamped (n : N) : N :=
  if (n =? 0)%N then 0%N else (n - 1)%N.

Definition notifyCallFinished (s : Scheduler) : Scheduler :=
  let r := thisHostResources s in
  set_resources
    {| cores := cores r; boundExecutors := boundExecutors r;
       functionsInFlight := decrementClamped (functionsInFlight r) |} s.

Definition notifyFaasletFinished (s : Scheduler) : Scheduler :=
  let r := thisHostResources s in
  set_resources
    {| cores := cores r;
       boundExecutors := decrementClamped (boundExecutors r);
       functionsInFlight := functionsInFlight r |} s.

(** Modelled from the spec: shutdown drains the executors and resets the
    counters; the core count goes back to the usable cores of the host. *)
Definition shutdown (s : Scheduler) : Scheduler :=
  {| thisHost := thisHost s;
     thisHostResources :=
       {| cores := usableCores s; boundExecutors := 0;
          functionsInFlight := 0 |};
     bindQueue := []; remoteHosts := remoteHosts s;
     usableCores := usableCores s |}.

(** [setThisHostResources], as the tests call it: the record is replaced. *)
Definition setThisHostResources (res : HostResources) (s : Scheduler)
    : Scheduler :=
  set_resources res s.

(** The scheduler state transitions. *)
Inductive Transition : Type :=
  | CallFunction (msg : Message)
  | CallFunctions (type : BatchExecuteType) (msgs : list Message)
  | BindExecutor
  | NotifyCallFinished
  | NotifyFaasletFinished
  | SetThisHostResources (res : HostResources)
  | Shutdown.

Definition step (t : Transition) (s : Scheduler) : Scheduler :=
  match t with
  | CallFunction msg => callFunction msg s
  | CallFunctions type msgs => snd (callFunctions type msgs s)
  | BindExecutor => bindExecutor s
  | NotifyCallFinished => notifyCallFinished s
  | NotifyFaasletFinished => notifyFaasletFinished s
  | SetThisHostResources res => setThisHostResources res s
  | Shutdown => shutdown s
  end.

Definition steps (ts : list Transition) (s : Scheduler) : Scheduler :=
  fold_left (fun s t => step t s) ts s.






End Scheduler.

(** ** [FaabricExecutor.cpp]: binding an executor to a function *)

Module Binding.

(** What the [postBind] hook can throw: [processNextMessage] tells an
    [InvalidFunctionException] from the rest. *)
Inductive fault : Type :=
  | std_runtime_error (what : string)
  | InvalidFunctionException (what : string).

(** The members [bindToFunction] reads and writes; [Queue] is what the
    scheduler hands out as the queue of a function. *)
Record FaabricExecutor (Queue : Type) : Type := {
  _isBound : bool;
  boundMessage : Message;
  functionQueue : option Queue
}.

Arguments _isBound {Queue} _.
Arguments boundMessage {Queue} _.
Arguments functionQueue {Queue} _.

Section Bind.

Context {Queue : Type}.

(** [Scheduler::getFunctionQueue] and the virtual hook [postBind], which
    returns ([None]) or throws. *)
Variable getFunctionQueue : Message -> Queue.
Variable postBind : Message -> bool -> option fault.

Definition bindToFunction (ex : FaabricExecutor Queue) (msg : Message)
    (force : bool) : option fault * FaabricExecutor Queue :=
  let refused :=
    if _isBound ex then
      if force then
        if bool_decide (msg_user msg ≠ msg_user (boundMessage ex))
           || bool_decide (msg_function msg ≠ msg_function (boundMessage ex))
        then Some (std_runtime_error
                     "Cannot force bind to a different function")
        else None
      else Some (std_runtime_error "Cannot bind worker thread more than once")
    else None in
  match refused with
  | Some e => (Some e, ex)
  | None =>
      let ex := {| _isBound := true; boundMessage := msg;
                   functionQueue := Some (getFunctionQueue msg) |} in
      (postBind msg force, ex)
  end.

(** A series of calls to [bindToFunction], each caller catching what its
    call throws. *)
Definition bindAll (ex : FaabricExecutor Queue)
    (calls : list (Message * bool)) : FaabricExecutor Queue :=
  fold_left (fun ex '(msg, force) => snd (bindToFunction ex msg force))
    calls ex.

End Bind.

End Binding.

(** ** [string_tools.cpp] *)

Module StringTools.

(** The members of [std::string] the file uses; [npos] is [None]. *)

(** [s.find(str)]: the first position at which [str] occurs in [s]. *)
Fixpoint find (s str : string) : option nat :=
  if String.prefix str s then Some 0%nat
  else match s with
       | EmptyString => None
       | String _ s' => S <$> find s' str
       end.

(** [s.rfind(str, pos)]: the last position, not after [pos], at which [str]
    occurs in [s]. *)
Fixpoint rfind_from (s str : string) (pos : nat) : option nat :=
  if String.prefix str (String.substring pos (String.length s - pos) s)
  then Some pos
  else match pos with
       | O => None
       | S pos' => rfind_from s str pos'
       end.

Definition rfind (s str : string) (pos : nat) : option nat :=
  if (String.length s <? String.length str)%nat then None
  else rfind_from s str (Nat.min pos (String.length s - String.length str)).

(** [s.erase(pos, len)]. *)
Definition erase (s : string) (pos len : nat) : string :=
  String.substring 0 pos s
  +:+ String.substring (pos + len) (String.length s - (pos + len)) s.

(** [s.find_first_not_of(chars)]. *)
Fixpoint find_first_not_of (s chars : string) : option nat :=
  match s with
  | EmptyString => None
  | String a s' =>
      if existsb (Ascii.eqb a) (String.list_ascii_of_string chars)
      then S <$> find_first_not_of s' chars
      else Some 0%nat
  end.

(** [std::equal(first1, last1, first2)] on the elements of two ranges; the
    second one is at least as long as the first where the file calls it. *)
Fixpoint std_equal (range1 range2 : list Ascii.ascii) : bool :=
  match range1, range2 with
  | [], _ => true
  | a :: range1', b :: range2' => Ascii.eqb a b && std_equal range1' range2'
  | _ :: _, [] => false
  end.

(** [s.rbegin()] to [s.rend()]. *)
Definition reversed (s : string) : list Ascii.ascii :=
  rev (String.list_ascii_of_string s).

Definition startsWith (input subStr : string) : bool :=
  if bool_decide (subStr = "") then false
  else bool_decide (rfind input subStr 0 = Some 0%nat).

Definition endsWith (value ending : string) : bool :=
  if bool_decide (ending = "") then false
  else if (String.length value <? String.length ending)%nat then false
  else std_equal (reversed ending) (reversed value).

Definition contains (input subStr : string) : bool :=
  if bool_decide (find input subStr ≠ None) then true else false.

Definition removeSubstr (input toErase : string) : string :=
  let output := input in
  match find output toErase with
  | Some pos => erase output pos (String.length toErase)
  | None => output
  end.

Definition stringIsInt (input : string) : bool :=
  negb (bool_decide (input = ""))
  && bool_decide (find_first_not_of input "0123456789" = None).

End StringTools.

(** * Properties *)

(** ** Running monadic code *)

Lemma bind_Ok {A B} (m : M A) (f : A -> M B) st a st' :
  m st = (Ok a, st') → (m ≫= f) st = f a st'.
Proof. intros E. unfold mbind, M_bind. by rewrite E. Qed.


Lemma bind_Blocked {A B} (m : M A) (f : A -> M B) st st' :
  m st = (Blocked, st') → (m ≫= f) st = (Blocked, st').
Proof. intros E. unfold mbind, M_bind. by rewrite E. Qed.

Lemma bind_Undefined {A B} (m : M A) (f : A -> M B) st what st' :
  m st = (Undefined what, st') → (m ≫= f) st = (Undefined what, st').
Proof. intros E. unfold mbind, M_bind. by rewrite E. Qed.

Ltac run_m :=
  unfold getWorld, modifyWorld, gets, modify, throw, block, undefined;
  unfold mbind, M_bind, mret, M_ret; cbn beta iota.

(** ** Cartesian topology *)

Section Cartesian.

Implicit Types (st : State) (rank maxDims direction disp : Z).

Lemma getRankFromCoords_eval st coords :
  fst (cartProcsPerDim (st_world st)) * snd (cartProcsPerDim (st_world st))
    = world_size (st_world st) →
  getRankFromCoords coords st
    = (Ok (coords !!! 1%nat
           + coords !!! 0%nat * snd (cartProcsPerDim (st_world st))), st).
Proof.
  intros Hgrid. unfold getRankFromCoords. run_m.
  apply Z.eqb_eq in Hgrid. by rewrite Hgrid.
Qed.

Lemma cartesianRest_ok dims idxs periods coords st :
  Forall (fun i => 2 <= i ∧ dims !!! Z.to_nat i = 1) idxs →
  ∃ periods' coords',
    cartesianRest dims idxs periods coords st = (Ok (periods', coords'), st)
    ∧ length coords' = length coords
    ∧ coords' !! 0%nat = coords !! 0%nat
    ∧ coords' !! 1%nat = coords !! 1%nat
    ∧ (∀ j, (2 <= j)%nat →
         coords' !! j = if decide (Z.of_nat j ∈ idxs ∧ (j < length coords)%nat)
                        then Some 0 else coords !! j).
Proof.
  intros Hall. revert periods coords.
  induction Hall as [|i idxs [Hi Hd] _ IH]; intros periods coords.
  - exists periods, coords. cbn. split_and!; try done.
    all: intros j _; case_decide as H; [|done]; destruct H as [H _]; inversion H.
  - cbn [cartesianRest]. rewrite decide_True by done.
    destruct (IH (<[Z.to_nat i:=1]> periods) (<[Z.to_nat i:=0]> coords))
      as (p' & c' & E & Hlen & H0 & H1 & Hj).
    exists p', c'. rewrite E. rewrite length_insert in Hlen, Hj.
    split; [done|]. split; [done|].
    split. { rewrite H0. apply list_lookup_insert_ne. lia. }
    split. { rewrite H1. apply list_lookup_insert_ne. lia. }
    intros j Hj2. rewrite (Hj j Hj2).
    destruct (decide (j = Z.to_nat i)) as [->|Hne].
    + rewrite Z2Nat.id by lia.
      destruct (decide (Z.to_nat i < length coords)%nat) as [Hlt|Hge].
      * rewrite list_lookup_insert_eq by done.
        rewrite (decide_True (P := i ∈ i :: idxs ∧ _))
          by (split; [apply list_elem_of_here|done]).
        by case_decide.
      * rewrite list_insert_ge by lia.
        by rewrite !decide_False by (intros [_ ?]; done).
    + rewrite list_lookup_insert_ne by done.
      destruct (decide (Z.of_nat j ∈ idxs ∧ (j < length coords)%nat))
        as [[Hin Hlt]|Hn].
      * rewrite decide_True; [done|].
        split; [by apply list_elem_of_further|done].
      * rewrite decide_False; [done|]. intros [Hin Hlt]. apply Hn.
        split; [|done].
        apply elem_of_cons in Hin as [Hin|Hin]; [lia|done].
Qed.

(** C6: on a world whose grid satisfies [dims[0] * dims[1] == size] (the
    further dimensions being 1, as the 2-D grid requires), for every rank
    [r] in [0..size-1], [getCartesianRank] returns the coordinates
    [(r / dims[1], r % dims[1], 0, ...)] and [getRankFromCoords] maps them
    back to [r]; conversely the rank of in-range coordinates [(c0, c1)] is a
    rank of the world whose coordinates are [(c0, c1)]. *)
Theorem cartesian_rank_coords_inverse st rank maxDims dims periods coords :
  dims !!! 0%nat * dims !!! 1%nat = world_size (st_world st) →
  0 <= rank <= world_size (st_world st) - 1 →
  (∀ i, 2 <= i < maxDims → dims !!! Z.to_nat i = 1) →
  (2 <= length coords)%nat →
  ∃ periods' coords' st',
    getCartesianRank rank maxDims dims periods coords st
      = (Ok (periods', coords'), st')
    ∧ cartProcsPerDim (st_world st') = (dims !!! 0%nat, dims !!! 1%nat)
    ∧ coords' !! 0%nat = Some (Z.quot rank (dims !!! 1%nat))
    ∧ coords' !! 1%nat = Some (Z.rem rank (dims !!! 1%nat))
    ∧ (∀ j, (2 <= j < length coords)%nat → Z.of_nat j < maxDims →
         coords' !! j = Some 0)
    ∧ getRankFromCoords coords' st' = (Ok rank, st')
    ∧ (∀ c0 c1, 0 <= c0 < dims !!! 0%nat → 0 <= c1 < dims !!! 1%nat →
         ∃ r, getRankFromCoords [c0; c1] st' = (Ok r, st')
              ∧ 0 <= r <= world_size (st_world st) - 1
              ∧ Z.quot r (dims !!! 1%nat) = c0
              ∧ Z.rem r (dims !!! 1%nat) = c1).
Proof.
  intros Hgrid Hrank Hdims Hlen.
  set (d0 := dims !!! 0%nat) in *. set (d1 := dims !!! 1%nat) in *.
  set (st' := set_world (set_cartProcsPerDim (d0, d1)) st).
  set (cs := <[1%nat:=Z.rem rank d1]> (<[0%nat:=Z.quot rank d1]> coords)).
  set (ps := <[1%nat:=1]> (<[0%nat:=1]> periods)).
  destruct (cartesianRest_ok dims (seqZ 2 (maxDims - 2)) ps cs st')
    as (periods' & coords' & E & Hl & H0 & H1 & Hj).
  { apply Forall_forall. intros i Hi. apply elem_of_seqZ in Hi.
    split; [lia|]. apply Hdims. lia. }
  assert (Hcs : length cs = length coords)
    by (unfold cs; by rewrite !length_insert).
  assert (Hgrid' : fst (cartProcsPerDim (st_world st'))
                   * snd (cartProcsPerDim (st_world st'))
                   = world_size (st_world st')) by done.
  exists periods', coords', st'.
  assert (Hc0 : coords' !! 0%nat = Some (Z.quot rank d1)).
  { rewrite H0. unfold cs. rewrite list_lookup_insert_ne by done.
    apply list_lookup_insert_eq. lia. }
  assert (Hc1 : coords' !! 1%nat = Some (Z.rem rank d1)).
  { rewrite H1. unfold cs. apply list_lookup_insert_eq.
    rewrite length_insert. lia. }
  split_and!; try done.
  - assert (Hd1 : d1 ≠ 0) by nia.
    unfold getCartesianRank, divide, remainder. run_m. fold d0 d1.
    rewrite (proj2 (Z.ltb_ge _ _)) by lia.
    rewrite (proj2 (Z.eqb_eq _ _) Hgrid).
    rewrite (proj2 (Z.eqb_neq _ _) Hd1). exact E.
  - intros j Hj2 Hjm. rewrite Hj by lia. rewrite decide_True; [done|].
    split; [|lia]. apply elem_of_seqZ. lia.
  - rewrite getRankFromCoords_eval by done. do 2 f_equal.
    rewrite (list_lookup_total_correct _ _ _ Hc0).
    rewrite (list_lookup_total_correct _ _ _ Hc1). cbn.
    pose proof (Z.quot_rem' rank d1). lia.
  - intros c0 c1 Hr0 Hr1. exists (c1 + c0 * d1).
    rewrite getRankFromCoords_eval by done. split; [done|].
    assert (0 <= c1 + c0 * d1) by nia.
    split; [nia|].
    rewrite Z.quot_div_nonneg, Z.rem_mod_nonneg by lia.
    split.
    + rewrite Z.div_add by lia. rewrite Z.div_small by lia. lia.
    + rewrite Z.mod_add by lia. apply Z.mod_small. lia.
Qed.

(** The theorem at the 2 x 2 grid of the tests, rank 3. *)
Lemma cartesian_rank_coords_inverse_witness :
  let st := {| st_world := set_size 4 (newMpiWorld "host"); st_mem := fun _ => 0;
               st_kv := ∅; st_gid := 0; st_calls := []; st_rpc := [];
               st_usableCores := 4; st_heap := 0 |} in
  ∃ periods' coords' st',
    getCartesianRank 3 3 [2; 2; 1] [1; 1] [-1; -1; -1] st
      = (Ok (periods', coords'), st')
    ∧ coords' !! 0%nat = Some 1
    ∧ coords' !! 1%nat = Some 1
    ∧ getRankFromCoords coords' st' = (Ok 3, st').
Proof.
  intros st.
  destruct (cartesian_rank_coords_inverse st 3 3 [2; 2; 1] [1; 1] [-1; -1; -1])
    as (p & c & st' & E & _ & H0 & H1 & _ & Hr & _).
  - reflexivity.
  - cbn. lia.
  - intros i Hi. assert (i = 2) as -> by lia. reflexivity.
  - cbn. lia.
  - exists p, c, st'. split_and!; done.
Defined.

(** A 5 x 1 torus, as in the tests. *)
Definition torus51 : State :=
  {| st_world := set_cartProcsPerDim (5, 1) (set_size 5 (newMpiWorld "host"));
     st_mem := fun _ => 0; st_kv := ∅; st_gid := 0; st_calls := [];
     st_rpc := []; st_usableCores := 4; st_heap := 0 |}.

Lemma shiftCartesianCoords_eval st rank direction disp :
  let d0 := fst (cartProcsPerDim (st_world st)) in
  let d1 := snd (cartProcsPerDim (st_world st)) in
  let c0 := Z.quot rank d1 in
  let c1 := Z.rem rank d1 in
  d0 ≠ 0 → d1 ≠ 0 →
  d0 * d1 = world_size (st_world st) →
  shiftCartesianCoords rank direction disp st
    = (Ok (if direction =? 0 then c1 + Z.rem (c0 - disp + d0) d0 * d1
           else if direction =? 1 then Z.rem (c1 - disp + d1) d1 + c0 * d1
           else c1 + c0 * d1,
           if direction =? 0 then c1 + Z.rem (c0 + disp) d0 * d1
           else if direction =? 1 then Z.rem (c1 + disp) d1 + c0 * d1
           else c1 + c0 * d1), st).
Proof.
  intros d0 d1 c0 c1 Hd0 Hd1 Hgrid. unfold shiftCartesianCoords.
  rewrite (bind_Ok _ _ st (st_world st) st) by done. cbn zeta.
  fold d0 d1. unfold divide, remainder.
  rewrite (proj2 (Z.eqb_neq _ _) Hd0), (proj2 (Z.eqb_neq _ _) Hd1).
  rewrite (bind_Ok _ _ st c0 st) by done.
  rewrite (bind_Ok _ _ st c1 st) by done.
  destruct (direction =? 0); [|destruct (direction =? 1)].
  all: erewrite bind_Ok by reflexivity.
  all: erewrite bind_Ok by (by apply getRankFromCoords_eval).
  all: erewrite bind_Ok by reflexivity.
  all: erewrite bind_Ok by (by apply getRankFromCoords_eval).
  all: reflexivity.
Qed.

(** Coordinates of a rank of the grid, and the rank of coordinates. *)
Lemma grid_coords d0 d1 rank :
  0 < d0 → 0 < d1 → 0 <= rank < d0 * d1 →
  0 <= Z.quot rank d1 < d0 ∧ 0 <= Z.rem rank d1 < d1.
Proof.
  intros H0 H1 Hr. rewrite Z.quot_div_nonneg, Z.rem_mod_nonneg by lia.
  split; [|by apply Z.mod_pos_bound].
  split; [apply Z.div_pos; lia|]. apply Z.div_lt_upper_bound; lia.
Qed.

Lemma grid_rank d1 c0 c1 :
  0 < d1 → 0 <= c0 → 0 <= c1 < d1 →
  Z.quot (c1 + c0 * d1) d1 = c0 ∧ Z.rem (c1 + c0 * d1) d1 = c1.
Proof.
  intros H1 H0 Hc. assert (0 <= c1 + c0 * d1) by nia.
  rewrite Z.quot_div_nonneg, Z.rem_mod_nonneg by lia. split.
  - rewrite Z.div_add by lia. rewrite Z.div_small by lia. lia.
  - rewrite Z.mod_add by lia. apply Z.mod_small. lia.
Qed.

Lemma grid_rank_bound d0 d1 c0 c1 :
  0 <= c0 < d0 → 0 <= c1 < d1 → 0 <= c1 + c0 * d1 < d0 * d1.
Proof. nia. Qed.

(** One step forward along a ring of [n] places, then one step back. *)
Lemma ring_forward_back n c d :
  0 < n → 0 <= c < n → 0 <= d <= n →
  let c' := Z.rem (c + d) n in
  0 <= c' < n ∧ Z.rem (c' - d + n) n = c.
Proof.
  intros Hn Hc Hd c'. unfold c'.
  rewrite (Z.rem_mod_nonneg (c + d)) by lia.
  pose proof (Z.mod_pos_bound (c + d) n Hn) as Hb. split; [done|].
  rewrite Z.rem_mod_nonneg by lia.
  replace ((c + d) mod n - d + n) with ((c + d) mod n + (n - d)) by lia.
  rewrite Zplus_mod_idemp_l.
  replace (c + d + (n - d)) with (c + 1 * n) by lia.
  rewrite Z.mod_add by lia. apply Z.mod_small. lia.
Qed.

Lemma ring_back_forward n c d :
  0 < n → 0 <= c < n → 0 <= d <= n →
  let c' := Z.rem (c - d + n) n in
  0 <= c' < n ∧ Z.rem (c' + d) n = c.
Proof.
  intros Hn Hc Hd c'. unfold c'.
  rewrite (Z.rem_mod_nonneg (c - d + n)) by lia.
  pose proof (Z.mod_pos_bound (c - d + n) n Hn) as Hb. split; [done|].
  rewrite Z.rem_mod_nonneg by lia.
  rewrite Zplus_mod_idemp_l.
  replace (c - d + n + d) with (c + 1 * n) by lia.
  rewrite Z.mod_add by lia. apply Z.mod_small. lia.
Qed.

(** C7: the round trip fails at the wrap-around.  On a grid of positive
    dimensions whose product is the world size, take a rank at the last
    place along direction 0 or 1, with more than one place along it.  The
    shift by +1 wraps around to a rank of the world; the shift of that
    destination by -1 does not come back: along direction 0 its destination
    is the rank less the world size, a negative number and no rank at all;
    along direction 1 it is the rank less the row length.  The forward
    coordinate is the C++ remainder of [coordinate + disp], negative here,
    where the backward coordinate has a full loop added. *)
Theorem cartesian_shift_back_misses_at_the_wrap st rank direction :
  let d0 := fst (cartProcsPerDim (st_world st)) in
  let d1 := snd (cartProcsPerDim (st_world st)) in
  let size := world_size (st_world st) in
  0 < d0 → 0 < d1 → d0 * d1 = size → 0 <= rank < size →
  (direction = 0 ∧ 1 < d0 ∧ Z.quot rank d1 = d0 - 1)
  ∨ (direction = 1 ∧ 1 < d1 ∧ Z.rem rank d1 = d1 - 1) →
  ∃ src dst src' dst',
    shiftCartesianCoords rank direction 1 st = (Ok (src, dst), st)
    ∧ 0 <= dst < size
    ∧ shiftCartesianCoords dst direction (-1) st = (Ok (src', dst'), st)
    ∧ dst' = (if direction =? 0 then rank - size else rank - d1)
    ∧ dst' ≠ rank
    ∧ (direction = 0 → dst' < 0).
Proof.
  intros d0 d1 size Hd0 Hd1 Hgrid Hrank Hlast. unfold size in *.
  rewrite shiftCartesianCoords_eval by (done || lia). fold d0 d1.
  destruct (grid_coords d0 d1 rank) as [Hc0 Hc1]; [lia..|].
  set (c0 := Z.quot rank d1) in *. set (c1 := Z.rem rank d1) in *.
  assert (Hrk : c1 + c0 * d1 = rank).
  { pose proof (Z.quot_rem' rank d1). unfold c0, c1. lia. }
  assert (Hneg : ∀ n, 1 < n → Z.rem (0 + -1) n = -1).
  { intros n Hn. change (0 + -1) with (- (1)).
    rewrite Z.rem_opp_l by lia. rewrite Z.rem_small by lia. done. }
  destruct Hlast as [(-> & Hn & Hc)|(-> & Hn & Hc)]; cbn [Z.eqb Pos.eqb].
  - rewrite Hc. replace (d0 - 1 + 1) with d0 by lia.
    rewrite Z.rem_same by lia.
    destruct (grid_rank d1 0 c1) as [Hq Hr]; [lia..|].
    eexists _, _, _, _. split; [reflexivity|].
    split; [nia|].
    rewrite shiftCartesianCoords_eval by (done || lia). fold d0 d1.
    cbn [Z.eqb Pos.eqb]. rewrite Hq, Hr, Hneg by done.
    split; [reflexivity|]. split_and!; [nia|nia|intros _; nia].
  - rewrite Hc. replace (d1 - 1 + 1) with d1 by lia.
    rewrite Z.rem_same by lia.
    destruct (grid_rank d1 c0 0) as [Hq Hr]; [lia..|].
    eexists _, _, _, _. split; [reflexivity|].
    split; [nia|].
    rewrite shiftCartesianCoords_eval by (done || lia). fold d0 d1.
    cbn [Z.eqb Pos.eqb]. rewrite Hq, Hr, Hneg by done.
    split; [reflexivity|]. split_and!; [nia|nia|intros ?; lia].
Qed.

(** The 5 x 1 torus: rank 4 shifted by +1 along direction 0 reaches rank 0,
    and rank 0 shifted by -1 has destination -1, where the torus has 4. *)
Lemma cartesian_shift_back_misses_at_the_wrap_witness :
  shiftCartesianCoords 4 0 1 torus51 = (Ok (3, 0), torus51)
  ∧ ∃ src' dst',
      shiftCartesianCoords 0 0 (-1) torus51 = (Ok (src', dst'), torus51)
      ∧ dst' = -1 ∧ dst' ≠ 4.
Proof.
  destruct (cartesian_shift_back_misses_at_the_wrap torus51 4 0)
    as (src & dst & src' & dst' & E1 & _ & E2 & Hd & Hne & _).
  - reflexivity.
  - reflexivity.
  - reflexivity.
  - cbn. lia.
  - left. vm_compute. split_and!; reflexivity.
  - split; [reflexivity|].
    assert (dst = 0) as -> by (vm_compute in E1; congruence).
    exists src', dst'. split_and!; done.
Defined.

(** X30: where shifts do come back.  On a grid of positive dimensions whose
    product is the world size, for every rank of the world: along a
    direction other than 0 and 1 source and destination are the rank
    itself; along direction 0 or 1 and for a displacement
    [0 <= d <= cartProcsPerDim[direction]] source and destination are ranks
    of the world, the source of the same shift taken at the destination is
    the original rank, and so is the destination of the same shift taken at
    the source.  The shift by [-d] of the destination comes back to the
    rank when the forward shift, by a displacement of either sign, stays on
    the grid without wrapping around. *)
Theorem cartesian_shift_round_trip st rank direction disp :
  let d0 := fst (cartProcsPerDim (st_world st)) in
  let d1 := snd (cartProcsPerDim (st_world st)) in
  0 < d0 → 0 < d1 → d0 * d1 = world_size (st_world st) →
  0 <= rank < world_size (st_world st) →
  ∃ src dst,
    shiftCartesianCoords rank direction disp st = (Ok (src, dst), st)
    ∧ (direction ≠ 0 → direction ≠ 1 → src = rank ∧ dst = rank)
    ∧ ((direction = 0 ∧ 0 <= disp <= d0) ∨ (direction = 1 ∧ 0 <= disp <= d1) →
         0 <= src < world_size (st_world st)
         ∧ 0 <= dst < world_size (st_world st)
         ∧ (∃ dst', shiftCartesianCoords dst direction disp st
                      = (Ok (rank, dst'), st))
         ∧ (∃ src', shiftCartesianCoords src direction disp st
                      = (Ok (src', rank), st)))
    ∧ ((direction = 0 ∧ 0 <= Z.quot rank d1 + disp < d0)
       ∨ (direction = 1 ∧ 0 <= Z.rem rank d1 + disp < d1) →
         ∃ src', shiftCartesianCoords dst direction (- disp) st
                   = (Ok (src', rank), st)).
Proof.
  intros d0 d1 Hd0 Hd1 Hgrid Hrank.
  rewrite shiftCartesianCoords_eval by (done || lia). fold d0 d1.
  destruct (grid_coords d0 d1 rank) as [Hc0 Hc1]; [lia..|].
  set (c0 := Z.quot rank d1) in *. set (c1 := Z.rem rank d1) in *.
  assert (Hrk : c1 + c0 * d1 = rank).
  { pose proof (Z.quot_rem' rank d1). unfold c0, c1. lia. }
  eexists _, _. split; [reflexivity|]. split_and!.
  - intros H0 H1.
    rewrite (proj2 (Z.eqb_neq _ _) H0), (proj2 (Z.eqb_neq _ _) H1). done.
  - intros [[-> Hd]|[-> Hd]]; cbn [Z.eqb Pos.eqb].
    + destruct (ring_forward_back d0 c0 disp) as [Hf Hfb]; [lia..|].
      destruct (ring_back_forward d0 c0 disp) as [Hb Hbf]; [lia..|].
      cbv zeta in Hf, Hfb, Hb, Hbf.
      destruct (grid_rank d1 (Z.rem (c0 + disp) d0) c1) as [Hq1 Hr1]; [lia..|].
      destruct (grid_rank d1 (Z.rem (c0 - disp + d0) d0) c1) as [Hq2 Hr2];
        [lia..|].
      rewrite <- Hgrid. split; [apply grid_rank_bound; lia|].
      split; [apply grid_rank_bound; lia|]. split.
      * eexists. rewrite shiftCartesianCoords_eval by (done || lia). fold d0 d1.
        cbn [Z.eqb Pos.eqb]. rewrite Hq1, Hr1, Hfb, Hrk. reflexivity.
      * eexists. rewrite shiftCartesianCoords_eval by (done || lia). fold d0 d1.
        cbn [Z.eqb Pos.eqb]. rewrite Hq2, Hr2, Hbf, Hrk. reflexivity.
    + destruct (ring_forward_back d1 c1 disp) as [Hf Hfb]; [lia..|].
      destruct (ring_back_forward d1 c1 disp) as [Hb Hbf]; [lia..|].
      cbv zeta in Hf, Hfb, Hb, Hbf.
      destruct (grid_rank d1 c0 (Z.rem (c1 + disp) d1)) as [Hq1 Hr1]; [lia..|].
      destruct (grid_rank d1 c0 (Z.rem (c1 - disp + d1) d1)) as [Hq2 Hr2];
        [lia..|].
      rewrite <- Hgrid. split; [apply grid_rank_bound; lia|].
      split; [apply grid_rank_bound; lia|]. split.
      * eexists. rewrite shiftCartesianCoords_eval by (done || lia). fold d0 d1.
        cbn [Z.eqb Pos.eqb]. rewrite Hq1, Hr1, Hfb, Hrk. reflexivity.
      * eexists. rewrite shiftCartesianCoords_eval by (done || lia). fold d0 d1.
        cbn [Z.eqb Pos.eqb]. rewrite Hq2, Hr2, Hbf, Hrk. reflexivity.
  - intros [(-> & Hw)|(-> & Hw)]; cbn [Z.eqb Pos.eqb].
    + assert (Hf : Z.rem (c0 + disp) d0 = c0 + disp)
        by (apply Z.rem_small; lia).
      rewrite Hf.
      destruct (grid_rank d1 (c0 + disp) c1) as [Hq1 Hr1]; [lia..|].
      eexists. rewrite shiftCartesianCoords_eval by (done || lia). fold d0 d1.
      cbn [Z.eqb Pos.eqb]. rewrite Hq1, Hr1.
      replace (c0 + disp + - disp) with c0 by lia.
      rewrite (Z.rem_small c0 d0) by lia. rewrite Hrk. reflexivity.
    + assert (Hf : Z.rem (c1 + disp) d1 = c1 + disp)
        by (apply Z.rem_small; lia).
      rewrite Hf.
      destruct (grid_rank d1 c0 (c1 + disp)) as [Hq1 Hr1]; [lia..|].
      eexists. rewrite shiftCartesianCoords_eval by (done || lia). fold d0 d1.
      cbn [Z.eqb Pos.eqb]. rewrite Hq1, Hr1.
      replace (c1 + disp + - disp) with c1 by lia.
      rewrite (Z.rem_small c1 d1) by lia. rewrite Hrk. reflexivity.
Qed.

(** The round trip of sources on the 5 x 1 torus, at the wrap-around of
    rank 4. *)
Lemma cartesian_shift_round_trip_witness :
  ∃ src dst dst',
    shiftCartesianCoords 4 0 1 torus51 = (Ok (src, dst), torus51)
    ∧ shiftCartesianCoords dst 0 1 torus51 = (Ok (4, dst'), torus51).
Proof.
  destruct (cartesian_shift_round_trip torus51 4 0 1)
    as (src & dst & E & _ & H & _).
  - reflexivity.
  - reflexivity.
  - reflexivity.
  - cbn. lia.
  - destruct H as (_ & _ & [dst' E'] & _); [left; cbn; lia|].
    exists src, dst, dst'. done.
Defined.

End Cartesian.

(** ** Completion of a call *)

Section FinishCall.

Import Executor.

Implicit Types (h : Hooks) (ex : FaabricExecutor) (msg : Message).

(** The message [finishCall] passes on: the hook's, with the error text as
    output data when the call failed. *)
Definition finishedMessage h msg (success : bool) (errorMsg : string) : Message :=
  let msg := preFinishCall h msg success errorMsg in
  if success then msg else set_outputdata errorMsg msg.

Lemma finishCallAfter_scheduler k h ex msg success errorMsg :
  let msg' := finishedMessage h msg success errorMsg in
  scheduler (fst (finishCallAfter k h ex msg success errorMsg))
  = scheduler ex ++ match k with
                    | 0%nat | 1%nat | 2%nat => []
                    | 3%nat => [NotifyCallFinished msg']
                    | _ => [NotifyCallFinished msg'; SetFunctionResult msg']
                    end.
Proof.
  unfold finishCallAfter, finishedMessage.
  do 7 (try destruct k as [|k]); cbn; rewrite ?app_nil_r; try done;
    by rewrite <- app_assoc.
Qed.

Lemma finishCall_all h ex msg success errorMsg :
  finishCall h ex msg success errorMsg
  = finishCallAfter 6 h ex msg success errorMsg.
Proof. reflexivity. Qed.

(** The counterexample to C8 as stated: after the third step of [finishCall]
    (the hook, the output data, the notification) the call is marked
    finished and its result is not written yet. *)
Lemma finishCall_finished_without_result_counterexample :
  let ex0 := {| executionCount := 0; scheduler := [] |} in
  let msg := emptyMessage in
  let ex := fst (finishCallAfter 3 defaultHooks ex0 msg true "") in
  markedFinished (msg_id msg) ex ∧ ¬ resultWritten (msg_id msg) ex.
Proof.
  cbn. split.
  - eexists. split; [apply list_elem_of_here|done].
  - intros (m & Hin & _). apply elem_of_cons in Hin as [Hin|Hin].
    + discriminate.
    + by apply elem_of_nil in Hin.
Qed.

(** C8, amended: on every completion of a call, successful or faulted,
    [finishCall] notifies the scheduler that the call has finished and then,
    as its next request, has the result written, both for the same message;
    so in every state another thread can see while [finishCall] runs, a
    result that is written belongs to a call already marked finished (or was
    written before this call).  The converse fails between the two steps. *)
Theorem finishCall_notifies_before_result h ex msg success errorMsg :
  let msg' := finishedMessage h msg success errorMsg in
  let done := finishCall h ex msg success errorMsg in
  scheduler (fst done)
    = scheduler ex ++ [NotifyCallFinished msg'; SetFunctionResult msg']
  ∧ executionCount (fst done) = executionCount ex + 1
  ∧ snd done = msg'
  ∧ ∀ k id,
      let seen := fst (finishCallAfter k h ex msg success errorMsg) in
      resultWritten id seen → markedFinished id seen ∨ resultWritten id ex.
Proof.
  intros msg' done. split_and!.
  - unfold done. rewrite finishCall_all. by rewrite finishCallAfter_scheduler.
  - reflexivity.
  - reflexivity.
  - intros k id seen (m & Hin & Hid). unfold seen in *.
    unfold markedFinished, resultWritten.
    rewrite finishCallAfter_scheduler in *. fold msg' in Hin |- *.
    apply elem_of_app in Hin as [Hin|Hin]; [right; by exists m|].
    left. do 4 (try destruct k as [|k]).
    1-3: by apply elem_of_nil in Hin.
    + apply elem_of_cons in Hin as [Hin|Hin]; [discriminate|].
      by apply elem_of_nil in Hin.
    + apply elem_of_cons in Hin as [Hin|Hin]; [discriminate|].
      apply elem_of_cons in Hin as [Hin|Hin]; [|by apply elem_of_nil in Hin].
      injection Hin as ->. exists msg'. split; [|done].
      apply elem_of_app. right. apply list_elem_of_here.
Qed.

End FinishCall.

(** ** The host resource record *)

Section HostResourceBounds.

Import Scheduler.

Implicit Types (s : Scheduler) (t : Transition) (type : BatchExecuteType).

(** The host of the overload test: one core, a remote host without slots. *)
Definition overloadedHost : Scheduler :=
  {| thisHost := "this";
     thisHostResources :=
       {| cores := 1; boundExecutors := 0; functionsInFlight := 0 |};
     bindQueue := []; remoteHosts := [("other", 0%N)]; usableCores := 1 |}.

Definition tenCalls : list Message := replicate 10 emptyMessage.

(** The overload test: ten calls on one core, every one placed on this
    host, ten functions in flight, and in the modes that are not threads ten
    bind messages and ten executors. *)
Example overload_scenario :
  let '(hosts, s) := callFunctions FUNCTIONS tenCalls overloadedHost in
  hosts = replicate 10 "this"
  ∧ thisHostResources s
    = {| cores := 1; boundExecutors := 10; functionsInFlight := 10 |}
  ∧ length (bindQueue s) = 10%nat.
Proof. by vm_compute. Qed.

Example overload_scenario_threads :
  let '(hosts, s) := callFunctions THREADS tenCalls overloadedHost in
  hosts = replicate 10 ""
  ∧ thisHostResources s
    = {| cores := 1; boundExecutors := 0; functionsInFlight := 10 |}
  ∧ bindQueue s = [].
Proof. by vm_compute. Qed.

(** The batch scenario: five cores here, a peer with capacity; five calls
    stay, five are forwarded. *)
Example batch_scenario :
  let s0 :=
    {| thisHost := "this";
       thisHostResources :=
         {| cores := 5; boundExecutors := 0; functionsInFlight := 0 |};
       bindQueue := []; remoteHosts := [("beta", 11%N)]; usableCores := 5 |} in
  let '(hosts, s) := callFunctions FUNCTIONS tenCalls s0 in
  hosts = replicate 5 "this" ++ replicate 5 "beta"
  ∧ thisHostResources s
    = {| cores := 5; boundExecutors := 5; functionsInFlight := 5 |}
  ∧ length (bindQueue s) = 5%nat.
Proof. by vm_compute. Qed.

(** An executor that is bound takes the next call: one core, a call, its
    completion, a second call; one executor. *)
Example executor_reuse_scenario :
  let s0 :=
    {| thisHost := "this";
       thisHostResources :=
         {| cores := 1; boundExecutors := 0; functionsInFlight := 0 |};
       bindQueue := []; remoteHosts := []; usableCores := 1 |} in
  thisHostResources
    (steps [CallFunction emptyMessage; NotifyCallFinished;
            CallFunction emptyMessage] s0)
  = {| cores := 1; boundExecutors := 1; functionsInFlight := 1 |}.
Proof. by vm_compute. Qed.






End HostResourceBounds.

(** ** State predicates kept by monadic code *)

(** [preserves P m]: whatever [m] does (return, throw or block), the state it
    leaves satisfies [P] when the state it started from did. *)
Definition preserves {A} (P : State -> Prop) (m : M A) : Prop :=
  ∀ st, P st → P (snd (m st)).

Lemma preserves_ret {A} P (a : A) : preserves P (mret a).
Proof. by intros st. Qed.

Lemma preserves_throw {A} P e : preserves P (@throw A e).
Proof. by intros st. Qed.

Lemma preserves_block {A} P : preserves P (@block A).
Proof. by intros st. Qed.

Lemma preserves_undefined {A} P what : preserves P (@undefined A what).
Proof. by intros st. Qed.

Lemma preserves_gets {A} P (f : State -> A) : preserves P (gets f).
Proof. by intros st. Qed.

Lemma preserves_bind {A B} P (m : M A) (f : A -> M B) :
  preserves P m → (∀ a, preserves P (f a)) → preserves P (m ≫= f).
Proof.
  intros Hm Hf st HP. unfold mbind, M_bind.
  specialize (Hm st HP). destruct (m st) as [[a|e| |what] st']; cbn in *; [|done..].
  by apply Hf.
Qed.

Lemma preserves_modify P (f : State -> State) :
  (∀ st, P st → P (f st)) → preserves P (modify f).
Proof. intros Hf st HP. by apply Hf. Qed.

Lemma preserves_forM_ {A} P (l : list A) (body : A -> M unit) :
  (∀ x, preserves P (body x)) → preserves P (forM_ l body).
Proof.
  intros Hb. induction l as [|x l IH]; cbn [forM_].
  - apply preserves_ret.
  - apply preserves_bind; [apply Hb|]. intros _. apply IH.
Qed.

(** A predicate on the world alone is kept by everything that leaves the
    world's maps and host name alone. *)
Definition worldOnly (Q : MpiWorld -> Prop) : State -> Prop :=
  fun st => Q (st_world st).

Create HintDb pres discriminated.

Ltac pres_step :=
  lazymatch goal with
  | |- preserves _ (mret _) => apply preserves_ret
  | |- preserves _ (throw _) => apply preserves_throw
  | |- preserves _ block => apply preserves_block
  | |- preserves _ (undefined _) => apply preserves_undefined
  | |- preserves _ (divide _ _) => unfold divide
  | |- preserves _ (remainder _ _) => unfold remainder
  | |- preserves _ (gets _) => apply preserves_gets
  | |- preserves _ getWorld => apply preserves_gets
  | |- preserves _ (forM_ _ _) => apply preserves_forM_; intros ?
  | |- preserves _ (_ ≫= _) => apply preserves_bind; [|intros ?]
  | |- preserves _ (if ?b then _ else _) => destruct b
  | |- preserves _ (match ?x with _ => _ end) => destruct x
  | |- preserves _ (let _ := _ in _) => cbv zeta
  end.

Ltac pres := repeat first [ solve [eauto with pres] | pres_step ].

Section QueueInvariant.

Context `{DoubleArith}.

Implicit Types (st : State) (w : MpiWorld).

Definition queuesLocalSt : State -> Prop := worldOnly queuesLocal.

(** Updates that touch neither map nor the host name. *)
Lemma queuesLocal_frame w w' :
  localQueueMap w' = localQueueMap w → rankHostMap w' = rankHostMap w →
  thisHost w' = thisHost w → queuesLocal w → queuesLocal w'.
Proof.
  intros Eq Er Eh Hw key q Hq. rewrite Eq in Hq.
  destruct (Hw key q Hq) as (s & r & -> & Hr). exists s, r.
  by rewrite Er, Eh.
Qed.

Lemma preserves_frame (f : State -> State) :
  (∀ st, localQueueMap (st_world (f st)) = localQueueMap (st_world st)
         ∧ rankHostMap (st_world (f st)) = rankHostMap (st_world st)
         ∧ thisHost (st_world (f st)) = thisHost (st_world st)) →
  preserves queuesLocalSt (modify f).
Proof.
  intros Hf. apply preserves_modify. intros st Hst.
  destruct (Hf st) as (? & ? & ?). by eapply queuesLocal_frame.
Qed.

Lemma preserves_modifyWorld_frame (f : MpiWorld -> MpiWorld) :
  (∀ w, localQueueMap (f w) = localQueueMap w
        ∧ rankHostMap (f w) = rankHostMap w ∧ thisHost (f w) = thisHost w) →
  preserves queuesLocalSt (modifyWorld f).
Proof. intros Hf. apply preserves_frame. intros st. apply Hf. Qed.

Lemma preserves_set_mem f : preserves queuesLocalSt (modify (set_mem f)).
Proof. by apply preserves_frame. Qed.

Lemma preserves_set_kv f : preserves queuesLocalSt (modify (set_kv f)).
Proof. by apply preserves_frame. Qed.

Lemma preserves_kvSet key v : preserves queuesLocalSt (kvSet key v).
Proof. apply preserves_set_kv. Qed.

Lemma preserves_kvGet key : preserves queuesLocalSt (kvGet key).
Proof. apply preserves_gets. Qed.

Lemma preserves_kvDelete key : preserves queuesLocalSt (kvDelete key).
Proof. apply preserves_set_kv. Qed.

Lemma preserves_generateGid : preserves queuesLocalSt generateGid.
Proof. by intros st. Qed.

Lemma preserves_new_bytes n : preserves queuesLocalSt (new_bytes n).
Proof. by intros st. Qed.

Lemma preserves_callFunction msg : preserves queuesLocalSt (callFunction msg).
Proof. by intros st. Qed.

Lemma preserves_sendMPIMessage h m : preserves queuesLocalSt (sendMPIMessage h m).
Proof. by intros st. Qed.

Lemma preserves_set_identity i u f :
  preserves queuesLocalSt (modifyWorld (set_identity i u f)).
Proof. by apply preserves_modifyWorld_frame. Qed.

Lemma preserves_set_size n : preserves queuesLocalSt (modifyWorld (set_size n)).
Proof. by apply preserves_modifyWorld_frame. Qed.

Lemma preserves_set_threadPool p :
  preserves queuesLocalSt (modifyWorld (set_threadPool p)).
Proof. by apply preserves_modifyWorld_frame. Qed.

Lemma preserves_set_stateKV k :
  preserves queuesLocalSt (modifyWorld (set_stateKV k)).
Proof. by apply preserves_modifyWorld_frame. Qed.

Lemma preserves_set_cartProcsPerDim d :
  preserves queuesLocalSt (modifyWorld (set_cartProcsPerDim d)).
Proof. by apply preserves_modifyWorld_frame. Qed.

Lemma preserves_set_windowPointerMap f :
  preserves queuesLocalSt (modifyWorld (set_windowPointerMap f)).
Proof. by apply preserves_modifyWorld_frame. Qed.

Lemma preserves_memcpy d s n : preserves queuesLocalSt (memcpy d s n).
Proof. apply preserves_set_mem. Qed.

Lemma preserves_memset d c n : preserves queuesLocalSt (memset d c n).
Proof. apply preserves_set_mem. Qed.

Hint Resolve preserves_set_mem preserves_set_kv preserves_kvSet preserves_kvGet
  preserves_kvDelete preserves_generateGid preserves_new_bytes
  preserves_callFunction preserves_sendMPIMessage preserves_set_identity
  preserves_set_size preserves_set_threadPool preserves_set_stateKV
  preserves_set_cartProcsPerDim preserves_set_windowPointerMap
  preserves_memcpy preserves_memset : pres.

(** Functions that only read the state. *)
Lemma getRankStateKey_state worldId rankId st :
  snd (getRankStateKey worldId rankId st) = st.
Proof. unfold getRankStateKey. by destruct (_ || _). Qed.

Lemma getRankHostState_state rank st : snd (getRankHostState rank st) = st.
Proof. unfold getRankHostState. run_m. apply getRankStateKey_state. Qed.

Lemma checkRankOnThisHost_spec rank st :
  checkRankOnThisHost rank st
  = (if decide (rankHostMap (st_world st) !! rank
                = Some (thisHost (st_world st)))
     then Ok tt
     else Throw (runtime_error
            match rankHostMap (st_world st) !! rank with
            | None => "No mapping found for rank"
            | Some _ => "Accessing in-memory queue for remote rank"
            end), st).
Proof.
  unfold checkRankOnThisHost. run_m.
  destruct (rankHostMap (st_world st) !! rank) as [host|] eqn:E.
  - destruct (decide (host ≠ thisHost (st_world st))) as [Hne|Heq].
    + rewrite decide_False; [done|]. congruence.
    + rewrite decide_True; [done|]. f_equal. by apply dec_stable.
  - by rewrite decide_False.
Qed.

Lemma getRankHostState_cases rank st :
  (∃ key, getRankHostState rank st = (Ok key, st))
  ∨ (∃ e, getRankHostState rank st = (Throw e, st)).
Proof.
  unfold getRankHostState, getRankStateKey. run_m.
  destruct (_ || _); [right|left]; by eexists.
Qed.

Lemma preserves_getRankHostState rank :
  preserves queuesLocalSt (getRankHostState rank).
Proof. intros st Hst. by rewrite getRankHostState_state. Qed.

Lemma preserves_checkRankOnThisHost rank :
  preserves queuesLocalSt (checkRankOnThisHost rank).
Proof. intros st Hst. rewrite checkRankOnThisHost_spec. by case_decide. Qed.

Hint Resolve preserves_getRankHostState preserves_checkRankOnThisHost : pres.

Lemma queuesLocal_register w rank :
  queuesLocal w →
  queuesLocal (set_rankHostMap (fun m => <[rank := thisHost w]> m) w).
Proof.
  intros Hw key q Hq. destruct (Hw key q Hq) as (s & r & -> & Hr).
  exists s, r. split; [done|]. cbn.
  destruct (decide (rank = r)) as [->|Hne].
  - by rewrite lookup_insert_eq.
  - by rewrite lookup_insert_ne.
Qed.

Lemma preserves_registerRank rank : preserves queuesLocalSt (registerRank rank).
Proof.
  intros st Hst.
  set (st1 := set_world
     (set_rankHostMap (fun m => <[rank := thisHost (st_world st)]> m)) st).
  assert (Hst1 : queuesLocalSt st1) by (by apply queuesLocal_register).
  unfold registerRank.
  rewrite (bind_Ok _ _ st (st_world st) st) by done.
  rewrite (bind_Ok _ _ st tt st1) by done.
  destruct (MPI_HOST_STATE_LEN <=? _); [done|].
  assert (Hpres : ∀ v, preserves queuesLocalSt
            (kv ← getRankHostState rank; kvSet kv v)) by (intros; pres).
  by apply Hpres.
Qed.

Lemma queuesLocal_cache w rank host :
  rankHostMap w !! rank = None →
  queuesLocal w →
  queuesLocal (set_rankHostMap (fun m => <[rank := host]> m) w).
Proof.
  intros Hnone Hw key q Hq. destruct (Hw key q Hq) as (s & r & -> & Hr).
  exists s, r. split; [done|]. cbn.
  rewrite lookup_insert_ne; [done|]. congruence.
Qed.

(** [getHostForRank] returns the cached host, or caches the host it reads
    from the store for a rank it had no entry for. *)
Lemma getHostForRank_spec rank st :
  (∃ host, rankHostMap (st_world st) !! rank = Some host
           ∧ getHostForRank rank st = (Ok host, st))
  ∨ (rankHostMap (st_world st) !! rank = None
     ∧ ((∃ r, (∀ host, r ≠ Ok host) ∧ getHostForRank rank st = (r, st))
        ∨ (∃ host, host ≠ ""
             ∧ getHostForRank rank st
               = (Ok host,
                  set_world (set_rankHostMap (fun m => <[rank := host]> m)) st)))).
Proof.
  unfold getHostForRank. run_m.
  destruct (rankHostMap (st_world st) !! rank) as [host|] eqn:E.
  { left. by exists host. }
  right. split; [done|].
  destruct (getRankHostState_cases rank st) as [[kv ->]|[e ->]].
  - unfold kvGetBytes, kvGet. run_m.
    match goal with
    | |- context [bool_decide (head ?b = Some 0)] => set (buffer := b)
    end.
    clearbody buffer.
    destruct (bool_decide (head buffer = Some 0)) eqn:Hhead;
      [left; eexists; split; [|reflexivity]; done|].
    destruct (bool_decide (0 ∈ buffer)) eqn:Hnull;
      [|left; eexists; split; [|reflexivity]; done].
    apply bool_decide_eq_false in Hhead. apply bool_decide_eq_true in Hnull.
    right. eexists. split; [|reflexivity].
    destruct buffer as [|b buffer']; [by apply elem_of_nil in Hnull|].
    cbn [stringOfBuffer]. destruct (b =? 0) eqn:Eb; [|done].
    apply Z.eqb_eq in Eb as ->. by destruct Hhead.
  - left. eexists. split; [|reflexivity]. done.
Qed.

Lemma preserves_getHostForRank rank : preserves queuesLocalSt (getHostForRank rank).
Proof.
  intros st Hst.
  destruct (getHostForRank_spec rank st)
    as [(host & _ & ->)|(Hnone & [(r & _ & ->)|(host & _ & ->)])]; try done.
  by apply queuesLocal_cache.
Qed.

(** The world after [getLocalQueue] has looked a queue up: the queue exists,
    empty when it was not there before. *)
Definition ensureQueue (key : string) (w : MpiWorld) : MpiWorld :=
  match localQueueMap w !! key with
  | None => set_localQueueMap (fun q => <[key := []]> q) w
  | Some _ => w
  end.

Lemma getLocalQueue_spec sendRank recvRank st :
  getLocalQueue sendRank recvRank st
  = if decide (rankHostMap (st_world st) !! recvRank
               = Some (thisHost (st_world st)))
    then (Ok (queueKey sendRank recvRank),
          set_world (ensureQueue (queueKey sendRank recvRank)) st)
    else (Throw (runtime_error
            match rankHostMap (st_world st) !! recvRank with
            | None => "No mapping found for rank"
            | Some _ => "Accessing in-memory queue for remote rank"
            end), st).
Proof.
  unfold getLocalQueue.
  unfold mbind at 1. unfold M_bind. rewrite checkRankOnThisHost_spec.
  case_decide; [|done]. run_m. unfold ensureQueue, set_world at 2.
  destruct (localQueueMap (st_world st) !! queueKey sendRank recvRank);
    [|done].
  by destruct st.
Qed.

Lemma queuesLocal_ensureQueue w s r :
  rankHostMap w !! r = Some (thisHost w) →
  queuesLocal w → queuesLocal (ensureQueue (queueKey s r) w).
Proof.
  intros Hr Hw. unfold ensureQueue.
  destruct (localQueueMap w !! queueKey s r) eqn:E; [done|].
  intros key q. cbn. destruct (decide (queueKey s r = key)) as [<-|Hne].
  - intros _. by exists s, r.
  - rewrite lookup_insert_ne by done. apply Hw.
Qed.

Lemma preserves_getLocalQueue s r : preserves queuesLocalSt (getLocalQueue s r).
Proof.
  intros st Hst. rewrite getLocalQueue_spec. case_decide; [|done].
  by apply queuesLocal_ensureQueue.
Qed.

Lemma queuesLocal_update w (f : gmap string (list MPIMessage)
                                 -> gmap string (list MPIMessage)) :
  (∀ key, is_Some (f (localQueueMap w) !! key) →
          is_Some (localQueueMap w !! key)) →
  queuesLocal w → queuesLocal (set_localQueueMap f w).
Proof.
  intros Hf Hw key q Hq. cbn in Hq.
  destruct (Hf key) as [q' Hq']; [by eexists|].
  apply (Hw key q' Hq').
Qed.

Lemma preserves_enqueue key m : preserves queuesLocalSt (enqueue key m).
Proof.
  intros st Hst. apply queuesLocal_update; [|done].
  intros k. by rewrite lookup_alter_is_Some.
Qed.

Lemma preserves_dequeue key : preserves queuesLocalSt (dequeue key).
Proof.
  intros st Hst. unfold dequeue. run_m.
  destruct (localQueueMap (st_world st) !! key) as [[|m rest]|] eqn:E; try done.
  apply queuesLocal_update; [|done].
  intros k. destruct (decide (key = k)) as [<-|Hne].
  - by rewrite E.
  - by rewrite lookup_insert_ne.
Qed.

Lemma preserves_peek key : preserves queuesLocalSt (peek key).
Proof. unfold peek. pres. Qed.

Lemma preserves_queueSize key : preserves queuesLocalSt (queueSize key).
Proof. unfold queueSize. pres. Qed.

Lemma preserves_clearQueues :
  preserves queuesLocalSt (modifyWorld (set_localQueueMap (fun _ => ∅))).
Proof. intros st _ key q Hq. cbn in Hq. by rewrite lookup_empty in Hq. Qed.

Hint Resolve preserves_registerRank preserves_getHostForRank
  preserves_getLocalQueue preserves_enqueue preserves_dequeue preserves_peek
  preserves_queueSize preserves_clearQueues : pres.

Lemma preserves_setUpStateKV : preserves queuesLocalSt setUpStateKV.
Proof. unfold setUpStateKV, getWorldStateKey. pres. Qed.

Lemma preserves_getMpiThreadPoolSize : preserves queuesLocalSt getMpiThreadPoolSize.
Proof. unfold getMpiThreadPoolSize. pres. Qed.

Lemma preserves_pushToState : preserves queuesLocalSt pushToState.
Proof. unfold pushToState. pres. Qed.

Hint Resolve preserves_setUpStateKV preserves_getMpiThreadPoolSize
  preserves_pushToState : pres.

Lemma preserves_siblingMessage call i :
  preserves queuesLocalSt (siblingMessage call i).
Proof. unfold siblingMessage, messageFactory. pres. Qed.

Hint Resolve preserves_siblingMessage : pres.

Lemma preserves_create call newId newSize :
  preserves queuesLocalSt (create call newId newSize).
Proof. unfold create. pres. Qed.

Lemma preserves_destroy : preserves queuesLocalSt destroy.
Proof. unfold destroy. pres. Qed.

Lemma preserves_initialiseFromState msg worldId :
  preserves queuesLocalSt (initialiseFromState msg worldId).
Proof. unfold initialiseFromState. pres. Qed.

Lemma preserves_cartesianRest dims idxs periods coords :
  preserves queuesLocalSt (cartesianRest dims idxs periods coords).
Proof.
  revert periods coords.
  induction idxs as [|i idxs IH]; intros periods coords; cbn [cartesianRest];
    pres.
Qed.

Hint Resolve preserves_cartesianRest : pres.

Lemma preserves_getCartesianRank rank maxDims dims periods coords :
  preserves queuesLocalSt (getCartesianRank rank maxDims dims periods coords).
Proof. unfold getCartesianRank. pres. Qed.

Lemma preserves_getRankFromCoords coords :
  preserves queuesLocalSt (getRankFromCoords coords).
Proof. unfold getRankFromCoords. pres. Qed.

Hint Resolve preserves_getRankFromCoords : pres.

Lemma preserves_shiftCartesianCoords rank direction disp :
  preserves queuesLocalSt (shiftCartesianCoords rank direction disp).
Proof. unfold shiftCartesianCoords. pres. Qed.

Lemma preserves_synchronizeRmaWrite msg isRemote :
  preserves queuesLocalSt (synchronizeRmaWrite msg isRemote).
Proof. unfold synchronizeRmaWrite. pres. Qed.

Hint Resolve preserves_synchronizeRmaWrite : pres.

Lemma preserves_send s r b dt n mt : preserves queuesLocalSt (send s r b dt n mt).
Proof. unfold send. pres. Qed.

Lemma preserves_recv s r b dt n status mt :
  preserves queuesLocalSt (recv s r b dt n status mt).
Proof. unfold recv. pres. Qed.

Hint Resolve preserves_send preserves_recv : pres.

Lemma preserves_probe s r status : preserves queuesLocalSt (probe s r status).
Proof. unfold probe. pres. Qed.

Lemma preserves_enqueueMessage msg : preserves queuesLocalSt (enqueueMessage msg).
Proof. unfold enqueueMessage. pres. Qed.

Lemma preserves_getLocalQueueSize s r :
  preserves queuesLocalSt (getLocalQueueSize s r).
Proof. unfold getLocalQueueSize. pres. Qed.

Lemma preserves_broadcast s b dt n mt :
  preserves queuesLocalSt (broadcast s b dt n mt).
Proof. unfold broadcast. pres. Qed.

Lemma preserves_reduceSlots width f count i o :
  preserves queuesLocalSt (reduceSlots width f count i o).
Proof. unfold reduceSlots. pres. Qed.

Hint Resolve preserves_broadcast preserves_reduceSlots : pres.

Lemma preserves_op_reduce op dt count i o :
  preserves queuesLocalSt (op_reduce op dt count i o).
Proof. unfold op_reduce. pres. Qed.

Hint Resolve preserves_op_reduce : pres.

Lemma preserves_reduce s r sb rb dt n op :
  preserves queuesLocalSt (reduce s r sb rb dt n op).
Proof. unfold reduce. pres. Qed.

Hint Resolve preserves_reduce : pres.

Lemma preserves_allReduce r sb rb dt n op :
  preserves queuesLocalSt (allReduce r sb rb dt n op).
Proof. unfold allReduce. pres. Qed.

Lemma preserves_scan r sb rb dt n op :
  preserves queuesLocalSt (scan r sb rb dt n op).
Proof. unfold scan. pres. Qed.

Lemma preserves_barrierJoins ranks : preserves queuesLocalSt (barrierJoins ranks).
Proof. induction ranks as [|r ranks IH]; cbn [barrierJoins]; pres. Qed.

Hint Resolve preserves_barrierJoins : pres.

Lemma preserves_barrier r : preserves queuesLocalSt (barrier r).
Proof. unfold barrier. pres. Qed.

Lemma preserves_checkSendRecvMatch sty sc rty rc :
  preserves queuesLocalSt (checkSendRecvMatch sty sc rty rc).
Proof. unfold checkSendRecvMatch. pres. Qed.

Hint Resolve preserves_checkSendRecvMatch : pres.

Lemma preserves_createWindow r n p : preserves queuesLocalSt (createWindow r n p).
Proof. unfold createWindow. pres. Qed.

Lemma preserves_rmaGet s sty sc rb rty rc :
  preserves queuesLocalSt (rmaGet s sty sc rb rty rc).
Proof. unfold rmaGet. pres. Qed.

Lemma preserves_rmaPut s sb sty sc r rty rc :
  preserves queuesLocalSt (rmaPut s sb sty sc r rty rc).
Proof. unfold rmaPut. pres. Qed.

Lemma preserves_std_copy first last d_first :
  preserves queuesLocalSt (std_copy first last d_first).
Proof. unfold std_copy. pres. Qed.

Hint Resolve preserves_std_copy : pres.

Lemma preserves_scatter s r sb sty sc rb rty rc :
  preserves queuesLocalSt (scatter s r sb sty sc rb rty rc).
Proof. unfold scatter. pres. Qed.

Lemma preserves_gather s r sb sty sc rb rty rc :
  preserves queuesLocalSt (gather s r sb sty sc rb rty rc).
Proof. unfold gather. pres. Qed.

Hint Resolve preserves_gather : pres.

Lemma preserves_allGather r sb sty sc rb rty rc :
  preserves queuesLocalSt (allGather r sb sty sc rb rty rc).
Proof. unfold allGather. pres. Qed.

Lemma preserves_allToAll r sb sty sc rb rty rc :
  preserves queuesLocalSt (allToAll r sb sty sc rb rty rc).
Proof. unfold allToAll. pres. Qed.

Hint Resolve preserves_create preserves_destroy preserves_initialiseFromState
  preserves_getCartesianRank preserves_shiftCartesianCoords preserves_probe
  preserves_enqueueMessage preserves_getLocalQueueSize preserves_allReduce
  preserves_scan preserves_barrier preserves_createWindow preserves_rmaGet
  preserves_rmaPut preserves_scatter preserves_allGather preserves_allToAll
  : pres.

Lemma preserves_exec c :
  (∀ newHost, c ≠ CallOverrideHost newHost) →
  preserves queuesLocalSt (exec c).
Proof.
  intros Hc. destruct c; cbn [exec]; try (by destruct (Hc newHost));
    unfold getUser, getFunction, getId, getSize, getWTime; pres.
Qed.

(** The invariant on the world of [Async]. *)
Definition preservesA {A} (m : MA A) : Prop :=
  ∀ a, queuesLocalSt (as_state a) → queuesLocalSt (as_state (snd (m a))).

Lemma preservesA_liftM {A} (m : M A) :
  preserves queuesLocalSt m → preservesA (liftM m).
Proof.
  intros Hm a Ha. unfold liftM. specialize (Hm (as_state a) Ha).
  by destruct (m (as_state a)).
Qed.

Lemma preservesA_ret {A} (x : A) : preservesA (mret x).
Proof. by intros a. Qed.

Lemma preservesA_bind {A B} (m : MA A) (f : A -> MA B) :
  preservesA m → (∀ x, preservesA (f x)) → preservesA (m ≫= f).
Proof.
  intros Hm Hf a Ha. unfold mbind, MA_bind.
  specialize (Hm a Ha). destruct (m a) as [[x|e| |what] a']; cbn in *; [|done..].
  by apply Hf.
Qed.

Lemma preservesA_postRequest requestId thunk :
  preservesA (postRequest requestId thunk).
Proof.
  intros a Ha. unfold postRequest.
  by destruct (threadPool (st_world (as_state a))).
Qed.

Lemma preservesA_isend s r b dt n mt : preservesA (isend s r b dt n mt).
Proof.
  unfold isend. apply preservesA_bind; [apply preservesA_liftM; pres|].
  intros requestId. apply preservesA_bind; [apply preservesA_postRequest|].
  intros _. apply preservesA_ret.
Qed.

Lemma preservesA_irecv s r b dt n mt : preservesA (irecv s r b dt n mt).
Proof.
  unfold irecv. apply preservesA_bind; [apply preservesA_liftM; pres|].
  intros requestId. apply preservesA_bind; [apply preservesA_postRequest|].
  intros _. apply preservesA_ret.
Qed.

Lemma preservesA_awaitAsyncRequest requestId :
  preservesA (awaitAsyncRequest requestId).
Proof.
  intros a Ha. unfold awaitAsyncRequest.
  destruct (bool_decide (requestId ∈ futureMap a)); [|done].
  by destruct (bool_decide (requestId ∈ fulfilled a)).
Qed.

Lemma preservesA_sendRecv sb sc sdt sr rb rc rdt rr me :
  preservesA (sendRecv sb sc sdt sr rb rc rdt rr me).
Proof.
  unfold sendRecv. apply preservesA_bind; [apply preservesA_liftM; pres|].
  intros w. destruct (_ <? rr); [apply preservesA_liftM; pres|].
  destruct (_ <? sr); [apply preservesA_liftM; pres|].
  apply preservesA_bind; [apply preservesA_irecv|]. intros recvId.
  apply preservesA_bind; [apply preservesA_liftM; pres|]. intros _.
  apply preservesA_awaitAsyncRequest.
Qed.

Lemma preserves_runThunk thunk : preserves queuesLocalSt (runThunk thunk).
Proof. destruct thunk; cbn [runThunk]; pres. Qed.

Lemma preservesA_poolWorker k : preservesA (poolWorker k).
Proof.
  intros a Ha. unfold poolWorker.
  destruct (threadPool (st_world (as_state a))) as [n|]; [|done].
  destruct (mpiReqQueue a !! k) as [[requestId thunk]|]; [|done].
  destruct (Z.of_nat k <? n); [|done].
  pose proof (preserves_runThunk thunk (as_state a) Ha) as Hst.
  by destruct (runThunk thunk (as_state a)) as [[x|e| |what] st].
Qed.

Lemma preservesA_step s :
  isOverrideHost s = false → preservesA (step s).
Proof.
  intros Hs. destruct s as [c| | | | |]; cbn [step].
  - apply preservesA_liftM, preserves_exec. intros newHost ->. done.
  - apply preservesA_bind; [apply preservesA_isend|].
    intros _. apply preservesA_ret.
  - apply preservesA_bind; [apply preservesA_irecv|].
    intros _. apply preservesA_ret.
  - apply preservesA_sendRecv.
  - apply preservesA_awaitAsyncRequest.
  - apply preservesA_poolWorker.
Qed.

(** C9, amended: every operation of the world but [overrideHost], and every
    step of a worker of its thread pool, keeps the invariant that a local
    queue for a pair [(s, r)] exists only if rank [r] is mapped to this
    host, also when the operation throws, blocks or runs into undefined
    behaviour; so the invariant holds after any sequence of such steps on a
    world that started without queues.  An attempt to obtain the local
    queue of a rank that is not registered locally, or that is registered on
    another host, throws and leaves the state as it was (no queue is
    created); this stays so after the host of the rank has been fetched with
    [getHostForRank].  [overrideHost] replaces the name of this host and
    nothing else: it keeps the invariant exactly when every queue that
    exists is for a rank mapped to the new name. *)
Theorem local_queues_only_for_local_ranks :
  (∀ s a, isOverrideHost s = false →
     queuesLocal (st_world (as_state a)) →
     queuesLocal (st_world (as_state (snd (step s a)))))
  ∧ (∀ steps a, forallb (fun s => negb (isOverrideHost s)) steps = true →
       localQueueMap (st_world (as_state a)) = ∅ →
       queuesLocal (st_world (as_state (run steps a))))
  ∧ (∀ st sendRank recvRank,
       rankHostMap (st_world st) !! recvRank ≠ Some (thisHost (st_world st)) →
       isThrow (fst (getLocalQueue sendRank recvRank st)) = true
       ∧ snd (getLocalQueue sendRank recvRank st) = st)
  ∧ (∀ st rank host st' sendRank,
       getHostForRank rank st = (Ok host, st') →
       host ≠ thisHost (st_world st) →
       rankHostMap (st_world st') !! rank = Some host
       ∧ isThrow (fst (getLocalQueue sendRank rank st')) = true
       ∧ snd (getLocalQueue sendRank rank st') = st')
  ∧ (∀ newHost st,
       queuesLocal (st_world (snd (overrideHost newHost st)))
       ↔ ∀ key q, localQueueMap (st_world st) !! key = Some q →
           ∃ s r, key = queueKey s r
                  ∧ rankHostMap (st_world st) !! r = Some newHost).
Proof.
  assert (Hno : ∀ st sendRank recvRank,
    rankHostMap (st_world st) !! recvRank ≠ Some (thisHost (st_world st)) →
    isThrow (fst (getLocalQueue sendRank recvRank st)) = true
    ∧ snd (getLocalQueue sendRank recvRank st) = st).
  { intros st s r Hr. rewrite getLocalQueue_spec. by rewrite decide_False. }
  split_and!.
  - intros s a Hs. by apply (preservesA_step s).
  - intros steps. induction steps as [|s steps IH]; intros a Hsteps Hempty.
    + cbn. intros key q Hq. rewrite Hempty in Hq. by rewrite lookup_empty in Hq.
    + cbn in Hsteps |- *. apply andb_true_iff in Hsteps as [Hs Hsteps].
      apply negb_true_iff in Hs.
      assert (Ha : queuesLocalSt (as_state a)).
      { intros key q Hq. rewrite Hempty in Hq. by rewrite lookup_empty in Hq. }
      pose proof (preservesA_step s Hs a Ha) as Ha'.
      clear Hempty Ha. revert Ha'. generalize (snd (step s a)). clear a.
      revert Hsteps. clear IH Hs. induction steps as [|s' steps IH];
        intros Hsteps a Ha; [done|].
      cbn in Hsteps |- *. apply andb_true_iff in Hsteps as [Hs Hsteps].
      apply negb_true_iff in Hs. apply IH; [done|].
      by apply (preservesA_step s').
  - exact Hno.
  - intros st rank host st' s E Hne.
    assert (Hmap : rankHostMap (st_world st') !! rank = Some host
                   ∧ thisHost (st_world st') = thisHost (st_world st)).
    { destruct (getHostForRank_spec rank st)
        as [(h & Hh & E')|(Hnone & [(r & Hr & E')|(h & _ & E')])];
        rewrite E' in E; simplify_eq; [done|by destruct (Hr host)|].
      cbn. by rewrite lookup_insert_eq. }
    destruct Hmap as [Hmap Hhost]. split; [done|].
    apply Hno. rewrite Hmap, Hhost. congruence.
  - intros newHost st. reflexivity.
Qed.

End QueueInvariant.

(** ** Memory *)

Lemma length_load m p n : length (load m p n) = n.
Proof. unfold load. by rewrite length_map, length_seq. Qed.

Lemma load_lookup m p n (i : nat) :
  (i < n)%nat → load m p n !! i = Some (m (p + Z.of_nat i)).
Proof.
  intros Hi. unfold load. rewrite list_lookup_fmap.
  rewrite lookup_seq_lt by done. done.
Qed.

Lemma load_ext m m' p n :
  (∀ a, p <= a < p + Z.of_nat n → m a = m' a) → load m p n = load m' p n.
Proof.
  intros Hext. apply list_eq. intros i.
  destruct (decide (i < n)%nat) as [Hi|Hi].
  - rewrite !load_lookup by done. f_equal. apply Hext. lia.
  - rewrite !lookup_ge_None_2; [done|rewrite length_load; lia..].
Qed.

Lemma store_inside m p bs a :
  p <= a < p + Z.of_nat (length bs) →
  store m p bs a = nth (Z.to_nat (a - p)) bs 0.
Proof.
  intros Ha. unfold store.
  rewrite (proj2 (Z.leb_le _ _)), (proj2 (Z.ltb_lt _ _)) by lia. done.
Qed.

Lemma store_outside m p bs a :
  a < p ∨ p + Z.of_nat (length bs) <= a → store m p bs a = m a.
Proof.
  intros Ha. unfold store.
  destruct (p <=? a) eqn:E1; [|done].
  destruct (a <? p + Z.of_nat (length bs)) eqn:E2; [|done].
  apply Z.leb_le in E1. apply Z.ltb_lt in E2. lia.
Qed.

Lemma load_store_same m p bs : load (store m p bs) p (length bs) = bs.
Proof.
  apply list_eq. intros i.
  destruct (decide (i < length bs)%nat) as [Hi|Hi].
  - rewrite load_lookup by done. rewrite store_inside by lia.
    replace (Z.to_nat (p + Z.of_nat i - p)) with i by lia.
    destruct (lookup_lt_is_Some_2 bs i Hi) as [b Hb].
    rewrite Hb. f_equal. by apply nth_lookup_Some with (d := 0) in Hb.
  - rewrite !lookup_ge_None_2; [done|rewrite ?length_load; lia..].
Qed.

Lemma load_store_length m p bs n :
  length bs = n → load (store m p bs) p n = bs.
Proof. intros <-. apply load_store_same. Qed.

Lemma load_store_disjoint m p bs q n :
  q + Z.of_nat n <= p ∨ p + Z.of_nat (length bs) <= q →
  load (store m p bs) q n = load m q n.
Proof. intros Hd. apply load_ext. intros a Ha. apply store_outside. lia. Qed.

Lemma load_app m p n1 n2 :
  load m p (n1 + n2) = load m p n1 ++ load m (p + Z.of_nat n1) n2.
Proof.
  apply list_eq. intros i.
  destruct (decide (i < n1)%nat) as [Hi|Hi].
  - rewrite lookup_app_l by (rewrite length_load; lia).
    rewrite !load_lookup by lia. done.
  - rewrite lookup_app_r by (rewrite length_load; lia). rewrite length_load.
    destruct (decide (i < n1 + n2)%nat) as [Hi2|Hi2].
    + rewrite !load_lookup by lia. do 2 f_equal. lia.
    + rewrite !lookup_ge_None_2; [done|rewrite length_load; lia..].
Qed.

(** ** Point-to-point transfers *)

Definition TypeMismatch : exn := runtime_error "Mismatched message types".
Definition Truncation : exn := runtime_error "Message too long".

(** The message [send] builds in state [st]. *)
Definition sentMessage (st : State) (sendRank recvRank buffer : Z)
    (dataType : faabric_datatype_t) (count : Z) (messageType : MPIMessageType)
    : MPIMessage :=
  {| mpi_id := st_gid st + 1; mpi_worldid := world_id (st_world st);
     mpi_sender := sendRank; mpi_destination := recvRank;
     mpi_type := dt_id dataType; mpi_count := count;
     mpi_messagetype := messageType;
     mpi_buffer :=
       if (0 <? count) && negb (buffer =? nullptr)
       then load (st_mem st) buffer (Z.to_nat (dt_size dataType * count))
       else [] |}.

(** The content of a local queue, empty when the queue does not exist yet. *)
Definition queueOf (w : MpiWorld) (sendRank recvRank : Z) : list MPIMessage :=
  default [] (localQueueMap w !! queueKey sendRank recvRank).

Section PointToPoint.

Implicit Types (st : State) (m : MPIMessage).

Lemma getHostForRank_cached rank host st :
  rankHostMap (st_world st) !! rank = Some host →
  getHostForRank rank st = (Ok host, st).
Proof. intros E. unfold getHostForRank. run_m. by rewrite E. Qed.

(** A send to a rank of this host appends the message to the queue of the
    pair and changes nothing else but the identifier counter. *)
Lemma send_local st sendRank recvRank buffer dataType count messageType :
  recvRank <= world_size (st_world st) - 1 →
  rankHostMap (st_world st) !! recvRank = Some (thisHost (st_world st)) →
  messageType ≠ RMA_WRITE →
  ∃ st',
    send sendRank recvRank buffer dataType count messageType st = (Ok tt, st')
    ∧ localQueueMap (st_world st')
      = <[queueKey sendRank recvRank :=
            queueOf (st_world st) sendRank recvRank
            ++ [sentMessage st sendRank recvRank buffer dataType count messageType]]>
          (localQueueMap (st_world st))
    ∧ rankHostMap (st_world st') = rankHostMap (st_world st)
    ∧ thisHost (st_world st') = thisHost (st_world st)
    ∧ world_size (st_world st') = world_size (st_world st)
    ∧ world_id (st_world st') = world_id (st_world st)
    ∧ st_mem st' = st_mem st
    ∧ st_heap st' = st_heap st
    ∧ st_gid st' = st_gid st + 1.
Proof.
  intros Hsize Hlocal Hrma. unfold send.
  rewrite (bind_Ok _ _ st (st_world st) st) by done.
  rewrite (proj2 (Z.ltb_ge _ _)) by lia.
  erewrite bind_Ok by reflexivity.
  erewrite bind_Ok by (by apply getHostForRank_cached).
  cbn [st_world]. rewrite bool_decide_eq_true_2 by done.
  erewrite bind_Ok by reflexivity.
  rewrite decide_False by done.
  erewrite bind_Ok; last first.
  { rewrite getLocalQueue_spec. by rewrite decide_True. }
  eexists. split; [reflexivity|].
  cbn. unfold ensureQueue, queueOf, sentMessage. cbn.
  destruct (localQueueMap (st_world st) !! queueKey sendRank recvRank)
    as [q|] eqn:E; cbn.
  - split_and!; try done. apply map_eq. intros k.
    rewrite lookup_alter. case_decide as Hk; subst.
    + by rewrite lookup_insert_eq, E.
    + by rewrite lookup_insert_ne.
  - split_and!; try done. apply map_eq. intros k.
    rewrite lookup_alter. case_decide as Hk; subst.
    + by rewrite !lookup_insert_eq.
    + by rewrite !lookup_insert_ne.
Qed.

(** A receive on a pair whose queue holds [m :: rest]. *)
Lemma recv_head st sendRank recvRank buffer dataType count status messageType
    m rest :
  rankHostMap (st_world st) !! recvRank = Some (thisHost (st_world st)) →
  localQueueMap (st_world st) !! queueKey sendRank recvRank = Some (m :: rest) →
  let st1 :=
    set_world (set_localQueueMap
      (fun q => <[queueKey sendRank recvRank := rest]> q)) st in
  recv sendRank recvRank buffer dataType count status messageType st
  = if decide (messageType ≠ mpi_messagetype m) then (Throw TypeMismatch, st1)
    else if count <? mpi_count m then (Throw Truncation, st1)
    else
      (Ok match status with
          | Some _ =>
              Some {| MPI_SOURCE := mpi_sender m; MPI_TAG := -1;
                      MPI_ERROR := MPI_SUCCESS;
                      bytesSize := mpi_count m * dt_size dataType |}
          | None => None
          end,
       if 0 <? mpi_count m
       then set_mem (fun mem => store mem buffer (mpi_buffer m)) st1
       else st1).
Proof.
  intros Hlocal Hq st1. unfold recv.
  erewrite bind_Ok; last first.
  { rewrite getLocalQueue_spec. by rewrite decide_True. }
  assert (Hens : set_world (ensureQueue (queueKey sendRank recvRank)) st = st).
  { unfold ensureQueue, set_world. rewrite Hq. by destruct st. }
  rewrite Hens.
  erewrite bind_Ok; last first.
  { unfold dequeue. run_m. by rewrite Hq. }
  fold st1. case_decide; [done|].
  destruct (count <? mpi_count m); [done|].
  by destruct (0 <? mpi_count m).
Qed.

(** C1: a receive on the pair [(sendRank, recvRank)] whose local queue holds
    [m :: rest] (a message as [send] builds them: no payload unless its count
    is positive) takes [m] off the queue in every case.  It throws if and
    only if the message type of [m] differs from the requested one
    ([TypeMismatch]) or the count of [m] exceeds the requested count
    ([Truncation]), and then leaves the memory alone.  Otherwise it returns,
    the payload of [m] lies at [buffer] with the rest of the memory
    unchanged, and a status that was supplied holds [MPI_SOURCE] = the sender
    of [m], [MPI_ERROR] = 0, [bytesSize] = count of [m] times the size of the
    datatype and [MPI_TAG] = -1. *)
Theorem recv_dequeues_checks_and_copies st sendRank recvRank buffer dataType
    count status messageType m rest :
  rankHostMap (st_world st) !! recvRank = Some (thisHost (st_world st)) →
  localQueueMap (st_world st) !! queueKey sendRank recvRank = Some (m :: rest) →
  0 < mpi_count m ∨ mpi_buffer m = [] →
  let r := fst (recv sendRank recvRank buffer dataType count status messageType st) in
  let st' := snd (recv sendRank recvRank buffer dataType count status messageType st) in
  localQueueMap (st_world st') !! queueKey sendRank recvRank = Some rest
  ∧ (isThrow r = true
     ↔ messageType ≠ mpi_messagetype m ∨ count < mpi_count m)
  ∧ (messageType ≠ mpi_messagetype m → r = Throw TypeMismatch)
  ∧ (messageType = mpi_messagetype m → count < mpi_count m →
     r = Throw Truncation)
  ∧ (isThrow r = true → st_mem st' = st_mem st)
  ∧ (messageType = mpi_messagetype m → mpi_count m <= count →
     r = Ok match status with
            | Some _ =>
                Some {| MPI_SOURCE := mpi_sender m; MPI_TAG := -1;
                        MPI_ERROR := 0;
                        bytesSize := mpi_count m * dt_size dataType |}
            | None => None
            end
     ∧ load (st_mem st') buffer (length (mpi_buffer m)) = mpi_buffer m
     ∧ ∀ a, a < buffer ∨ buffer + Z.of_nat (length (mpi_buffer m)) <= a →
            st_mem st' a = st_mem st a).
Proof.
  intros Hlocal Hq Hwf r st'. unfold r, st'. clear r st'.
  rewrite (recv_head _ _ _ _ _ _ _ _ m rest Hlocal Hq).
  destruct (decide (messageType ≠ mpi_messagetype m)) as [Hne|Heq].
  { cbn. rewrite lookup_insert_eq.
    split_and!; first [done|by split; [left|]|intros; congruence]. }
  apply dec_stable in Heq.
  destruct (count <? mpi_count m) eqn:Hc.
  { apply Z.ltb_lt in Hc. cbn. rewrite lookup_insert_eq.
    split_and!; first [done|by split; [right|]|intros; lia]. }
  apply Z.ltb_ge in Hc.
  assert (Hq' : ∀ st0 : State,
    localQueueMap (st_world (if 0 <? mpi_count m
        then set_mem (fun mem => store mem buffer (mpi_buffer m)) st0
        else st0)) = localQueueMap (st_world st0))
    by (intros; by destruct (0 <? mpi_count m)).
  cbn [fst snd]. rewrite Hq'. cbn. rewrite lookup_insert_eq.
  split_and!.
  - done.
  - split; [done|]. intros [?|?]; [congruence|lia].
  - intros; congruence.
  - intros; lia.
  - done.
  - intros _ _. split; [done|].
    destruct (0 <? mpi_count m) eqn:Hpos; cbn.
    + split; [apply load_store_same|]. intros a Ha. by apply store_outside.
    + apply Z.ltb_ge in Hpos. destruct Hwf as [Hwf|Hwf]; [lia|].
      by rewrite Hwf.
Qed.

(** The theorem on the first scenario of the specification: ranks 1 and 2 on
    this host, the three integers [0, 1, 2] sent from 1 to 2. *)
Lemma recv_dequeues_checks_and_copies_witness :
  let m := {| mpi_id := 1; mpi_worldid := 123; mpi_sender := 1;
              mpi_destination := 2; mpi_type := FAABRIC_INT; mpi_count := 3;
              mpi_messagetype := NORMAL;
              mpi_buffer := [0; 0; 0; 0; 1; 0; 0; 0; 2; 0; 0; 0] |} in
  let w := set_localQueueMap (fun _ => {[ queueKey 1 2 := [m] ]})
             (set_rankHostMap (fun _ => {[ 2 := "host" ]})
                (set_size 10 (newMpiWorld "host"))) in
  let st := {| st_world := w; st_mem := fun _ => 0; st_kv := ∅; st_gid := 1;
               st_calls := []; st_rpc := []; st_usableCores := 4;
               st_heap := 0 |} in
  let status := {| MPI_SOURCE := 0; MPI_TAG := 0; MPI_ERROR := 0; bytesSize := 0 |} in
  fst (recv 1 2 200 MPI_INT 3 (Some status) NORMAL st)
  = Ok (Some {| MPI_SOURCE := 1; MPI_TAG := -1; MPI_ERROR := 0; bytesSize := 12 |})
  ∧ load (st_mem (snd (recv 1 2 200 MPI_INT 3 (Some status) NORMAL st))) 200 12
    = [0; 0; 0; 0; 1; 0; 0; 0; 2; 0; 0; 0].
Proof.
  intros m w st status.
  destruct (recv_dequeues_checks_and_copies st 1 2 200 MPI_INT 3 (Some status)
              NORMAL m []) as (_ & _ & _ & _ & _ & H).
  - reflexivity.
  - reflexivity.
  - left. cbn. lia.
  - destruct H as (Hr & Hl & _); [reflexivity|cbn; lia|]. split; [exact Hr|exact Hl].
Defined.

(** C10: a send to a rank of this host with a count that is not positive or
    with a null source buffer appends to the queue of the pair a message
    whose buffer is empty and reads nothing ([send] leaves the memory as it
    is); a buffer that is not empty comes from a positive count and a
    pointer that is not null.  A receive of a message of count 0 at the head
    of a queue succeeds for any destination pointer, null included, without
    a write to the memory, and reports [bytesSize] 0.  In particular a send
    of count 0 into an empty queue followed by a receive into the null
    pointer succeeds. *)
Theorem zero_length_transfers_are_safe st sendRank recvRank dataType messageType :
  recvRank <= world_size (st_world st) - 1 →
  rankHostMap (st_world st) !! recvRank = Some (thisHost (st_world st)) →
  messageType ≠ RMA_WRITE →
  (∀ buffer count,
     ∃ st',
       send sendRank recvRank buffer dataType count messageType st = (Ok tt, st')
       ∧ queueOf (st_world st') sendRank recvRank
         = queueOf (st_world st) sendRank recvRank
           ++ [sentMessage st sendRank recvRank buffer dataType count messageType]
       ∧ st_mem st' = st_mem st
       ∧ (count <= 0 ∨ buffer = nullptr →
          mpi_buffer (sentMessage st sendRank recvRank buffer dataType count
                        messageType) = [])
       ∧ (mpi_buffer (sentMessage st sendRank recvRank buffer dataType count
                        messageType) ≠ [] → 0 < count ∧ buffer ≠ nullptr))
  ∧ (∀ m rest buffer recvType count status,
       localQueueMap (st_world st) !! queueKey sendRank recvRank
         = Some (m :: rest) →
       mpi_count m = 0 → mpi_messagetype m = messageType → 0 <= count →
       ∃ st',
         recv sendRank recvRank buffer recvType count (Some status) messageType st
         = (Ok (Some {| MPI_SOURCE := mpi_sender m; MPI_TAG := -1;
                        MPI_ERROR := 0; bytesSize := 0 |}), st')
         ∧ st_mem st' = st_mem st)
  ∧ (∀ buffer recvType count status,
       queueOf (st_world st) sendRank recvRank = [] → 0 <= count →
       ∃ st1 st2,
         send sendRank recvRank buffer dataType 0 messageType st = (Ok tt, st1)
         ∧ recv sendRank recvRank nullptr recvType count (Some status)
             messageType st1
           = (Ok (Some {| MPI_SOURCE := sendRank; MPI_TAG := -1;
                          MPI_ERROR := 0; bytesSize := 0 |}), st2)
         ∧ st_mem st2 = st_mem st
         ∧ queueOf (st_world st2) sendRank recvRank = []).
Proof.
  intros Hsize Hlocal Hrma.
  assert (Hrecv : ∀ st0 m rest buffer recvType count status,
    rankHostMap (st_world st0) !! recvRank = Some (thisHost (st_world st0)) →
    localQueueMap (st_world st0) !! queueKey sendRank recvRank
      = Some (m :: rest) →
    mpi_count m = 0 → mpi_messagetype m = messageType → 0 <= count →
    ∃ st',
      recv sendRank recvRank buffer recvType count (Some status) messageType st0
      = (Ok (Some {| MPI_SOURCE := mpi_sender m; MPI_TAG := -1;
                     MPI_ERROR := 0; bytesSize := 0 |}), st')
      ∧ st_mem st' = st_mem st0
      ∧ localQueueMap (st_world st') !! queueKey sendRank recvRank = Some rest).
  { intros st0 m rest buffer recvType count status Hl Hq Hc Ht Hn.
    rewrite (recv_head _ _ _ _ _ _ _ _ m rest Hl Hq).
    rewrite decide_False by (intros Hne; by apply Hne).
    rewrite Hc. rewrite (proj2 (Z.ltb_ge _ _)) by lia. cbn.
    eexists. split; [reflexivity|]. split; [done|]. cbn.
    by rewrite lookup_insert_eq. }
  split_and!.
  - intros buffer count.
    destruct (send_local st sendRank recvRank buffer dataType count messageType)
      as (st' & E & Hq & _ & _ & _ & _ & Hmem & _); [done..|].
    exists st'. split; [done|]. split.
    { unfold queueOf at 1. rewrite Hq. by rewrite lookup_insert_eq. }
    split; [done|]. unfold sentMessage. cbn. split.
    + intros [Hc| ->].
      * by rewrite (proj2 (Z.ltb_ge _ _)) by lia.
      * rewrite Z.eqb_refl. by rewrite andb_false_r.
    + destruct (0 <? count) eqn:Hc; [|done].
      destruct (buffer =? nullptr) eqn:Hb; [done|]. intros _.
      apply Z.ltb_lt in Hc. apply Z.eqb_neq in Hb. done.
  - intros m rest buffer recvType count status Hq Hc Ht Hn.
    destruct (Hrecv st m rest buffer recvType count status)
      as (st' & E & Hmem & _); [done..|].
    by exists st'.
  - intros buffer recvType count status Hempty Hn.
    destruct (send_local st sendRank recvRank buffer dataType 0 messageType)
      as (st1 & E & Hq & Hr & Hh & _ & _ & Hmem & _); [done..|].
    rewrite Hempty in Hq. cbn in Hq.
    destruct (Hrecv st1
                (sentMessage st sendRank recvRank buffer dataType 0 messageType)
                [] nullptr recvType count status)
      as (st2 & E2 & Hmem2 & Hq2); try done.
    + by rewrite Hr, Hh.
    + rewrite Hq. by rewrite lookup_insert_eq.
    + exists st1, st2. split; [done|]. split; [done|].
      split; [congruence|]. unfold queueOf. by rewrite Hq2.
Qed.

(** The theorem on the test for a message with no data: ranks 1 and 2 on this
    host, a send of count 0, a receive into the null pointer. *)
Lemma zero_length_transfers_are_safe_witness :
  let w := set_rankHostMap (fun _ => {[ 1 := "host"; 2 := "host" ]})
             (set_size 10 (newMpiWorld "host")) in
  let st := {| st_world := w; st_mem := fun _ => 0; st_kv := ∅; st_gid := 1;
               st_calls := []; st_rpc := []; st_usableCores := 4;
               st_heap := 0 |} in
  let status := {| MPI_SOURCE := 0; MPI_TAG := 0; MPI_ERROR := 0; bytesSize := 0 |} in
  ∃ st1 st2,
    send 1 2 100 MPI_INT 0 NORMAL st = (Ok tt, st1)
    ∧ recv 1 2 nullptr MPI_INT 0 (Some status) NORMAL st1
      = (Ok (Some {| MPI_SOURCE := 1; MPI_TAG := -1; MPI_ERROR := 0;
                     bytesSize := 0 |}), st2)
    ∧ st_mem st2 = st_mem st.
Proof.
  intros w st status.
  destruct (zero_length_transfers_are_safe st 1 2 MPI_INT NORMAL)
    as (_ & _ & H).
  - cbn. lia.
  - reflexivity.
  - discriminate.
  - destruct (H 100 MPI_INT 0 status) as (st1 & st2 & E1 & E2 & Hm & _).
    + reflexivity.
    + lia.
    + exists st1, st2. split; [exact E1|]. split; [exact E2|exact Hm].
Defined.

End PointToPoint.

(** ** World creation *)

(** A world object just constructed on [endpointHost], nothing stored,
    nothing handed to the scheduler. *)
Definition freshState (endpointHost : string) : State :=
  {| st_world := newMpiWorld endpointHost; st_mem := fun _ => 0; st_kv := ∅;
     st_gid := 0; st_calls := []; st_rpc := []; st_usableCores := 4;
     st_heap := 4096 |}.

(** The creating call of the world tests. *)
Definition mpiCall : Message :=
  {| msg_id := 1; msg_user := "mpi"; msg_function := "hellompi";
     msg_ismpi := true; msg_mpiworldid := 0; msg_mpirank := 0;
     msg_cmdline := ""; msg_statuskey := "status_1";
     msg_resultkey := "result_1"; msg_outputdata := ""; msg_returnvalue := 0 |}.

(** The state keys, for identifiers that pass the checks. *)
Definition worldStateKey (worldId : Z) : string :=
  "mpi_world_" +:+ to_string worldId.

Definition rankStateKey (worldId rankId : Z) : string :=
  "mpi_rank_" +:+ to_string worldId +:+ "_" +:+ to_string rankId.

Lemma getWorldStateKey_ok i st :
  0 < i → getWorldStateKey i st = (Ok (worldStateKey i), st).
Proof.
  intros Hi. unfold getWorldStateKey.
  by rewrite (proj2 (Z.leb_gt _ _)) by lia.
Qed.

Lemma getRankStateKey_ok i r st :
  0 < i → 0 <= r → getRankStateKey i r st = (Ok (rankStateKey i r), st).
Proof.
  intros Hi Hr. unfold getRankStateKey.
  rewrite (proj2 (Z.leb_gt _ _)) by lia.
  by rewrite (proj2 (Z.ltb_ge _ _)) by lia.
Qed.

Lemma getRankHostState_ok rank st :
  0 < world_id (st_world st) → 0 <= rank →
  getRankHostState rank st
  = (Ok (rankStateKey (world_id (st_world st)) rank), st).
Proof.
  intros Hi Hr. unfold getRankHostState. run_m. by apply getRankStateKey_ok.
Qed.

(** [strlen] of the host name, and the buffer [registerRank] fills: the
    name as a C string, null-padded. *)
Definition strlen (s : string) : Z := Z.of_nat (length (c_str s)).

Definition hostBuffer (host : string) : list Z :=
  c_str host ++ replicate (Z.to_nat MPI_HOST_STATE_LEN - length (c_str host)) 0.

Lemma registerRank_run rank st :
  0 < world_id (st_world st) → 0 <= rank →
  strlen (thisHost (st_world st)) < MPI_HOST_STATE_LEN →
  registerRank rank st
  = (Ok tt,
     set_kv (fun kv => <[rankStateKey (world_id (st_world st)) rank
                         := KVBytes (hostBuffer (thisHost (st_world st)))]> kv)
       (set_world (set_rankHostMap
          (fun m => <[rank := thisHost (st_world st)]> m)) st)).
Proof.
  intros Hi Hr Hlen. unfold registerRank.
  rewrite (bind_Ok _ _ st (st_world st) st) by done.
  erewrite bind_Ok by reflexivity.
  unfold strlen in Hlen. rewrite (proj2 (Z.leb_gt _ _)) by lia.
  erewrite bind_Ok by (by apply getRankHostState_ok).
  reflexivity.
Qed.

(** A host name longer than the buffer: [registerRank] has entered the rank
    in the map of the world when [strcpy] runs past the buffer. *)
Lemma registerRank_overflow rank st :
  MPI_HOST_STATE_LEN <= strlen (thisHost (st_world st)) →
  registerRank rank st
  = (Undefined "strcpy writes past hostBytesBuffer",
     set_world (set_rankHostMap
       (fun m => <[rank := thisHost (st_world st)]> m)) st).
Proof.
  intros Hlen. unfold registerRank.
  rewrite (bind_Ok _ _ st (st_world st) st) by done.
  erewrite bind_Ok by reflexivity.
  unfold strlen in Hlen. by rewrite (proj2 (Z.leb_le _ _)) by lia.
Qed.

Section Create.

Implicit Types (st : State) (call : Message).

(** The sibling messages of the ranks [ranks], for a generator that stands
    at [gid]. *)
Fixpoint siblings call (worldId : Z) (user function : string) (gid : Z)
    (ranks : list Z) : list Message :=
  match ranks with
  | [] => []
  | i :: ranks' =>
      {| msg_id := gid + 1; msg_user := user; msg_function := function;
         msg_ismpi := true; msg_mpiworldid := worldId; msg_mpirank := i;
         msg_cmdline := msg_cmdline call;
         msg_statuskey := "status_" +:+ to_string (gid + 1);
         msg_resultkey := "result_" +:+ to_string (gid + 1);
         msg_outputdata := ""; msg_returnvalue := 0 |}
      :: siblings call worldId user function (gid + 1) ranks'
  end.

Definition handedOver (gid : Z) (msgs : list Message) (st : State) : State :=
  {| st_world := st_world st; st_mem := st_mem st; st_kv := st_kv st;
     st_gid := gid; st_calls := st_calls st ++ msgs; st_rpc := st_rpc st;
     st_usableCores := st_usableCores st; st_heap := st_heap st |}.

Lemma handedOver_nil st : handedOver (st_gid st) [] st = st.
Proof. destruct st. unfold handedOver. cbn. by rewrite app_nil_r. Qed.

Lemma handedOver_handedOver g1 l1 g2 l2 st :
  handedOver g2 l2 (handedOver g1 l1 st) = handedOver g2 (l1 ++ l2) st.
Proof. unfold handedOver. cbn. by rewrite app_assoc. Qed.

Lemma create_body call i st :
  let w := st_world st in
  (msg ← siblingMessage call i; callFunction msg) st
  = (Ok tt,
     handedOver (st_gid st + 1)
       (siblings call (world_id w) (world_user w) (world_function w)
          (st_gid st) [i]) st).
Proof. reflexivity. Qed.

(** The rank loop of [create]: a message per rank, in rank order. *)
Lemma create_loop call ranks st :
  let w := st_world st in
  forM_ ranks (fun i => msg ← siblingMessage call i; callFunction msg) st
  = (Ok tt,
     handedOver (st_gid st + Z.of_nat (length ranks))
       (siblings call (world_id w) (world_user w) (world_function w)
          (st_gid st) ranks) st).
Proof.
  revert st. induction ranks as [|i ranks IH]; intros st w.
  - cbn. rewrite Z.add_0_r. by rewrite handedOver_nil.
  - cbn [forM_].
    erewrite bind_Ok by apply create_body.
    rewrite IH. cbn [st_world st_gid handedOver]. fold w.
    rewrite handedOver_handedOver. cbn [siblings length app].
    do 2 f_equal. lia.
Qed.




(** The state [create] leaves when it returns. *)
Definition created call (newId newSize : Z) st : State :=
  let w := st_world st in
  let stateKey := default (worldStateKey newId) (stateKV w) in
  let ranks := seqZ 1 (newSize - 1) in
  handedOver (st_gid st + Z.of_nat (length ranks))
    (siblings call newId (msg_user call) (msg_function call) (st_gid st) ranks)
    (set_kv (fun kv =>
         <[rankStateKey newId 0 := KVBytes (hostBuffer (thisHost w))]>
           (<[stateKey := KVWorld newSize]> kv))
       (set_world (fun w =>
            set_rankHostMap (fun m => <[0 := thisHost w]> m)
              (set_stateKV (Some stateKey)
                 (set_threadPool (Some (Z.min newSize (st_usableCores st)))
                    (set_size newSize
                       (set_identity newId (msg_user call) (msg_function call)
                          w))))) st)).

Lemma setUpStateKV_run st :
  0 < world_id (st_world st) →
  let key := default (worldStateKey (world_id (st_world st)))
               (stateKV (st_world st)) in
  setUpStateKV st = (Ok tt, set_world (set_stateKV (Some key)) st).
Proof.
  intros Hid key. unfold setUpStateKV.
  rewrite (bind_Ok _ _ st (st_world st) st) by done.
  unfold key. destruct (stateKV (st_world st)) as [k|] eqn:Hkv.
  - destruct st as [w ? ? ? ? ? ? ?]. destruct w. cbn in *. by subst.
  - erewrite bind_Ok by (by apply getWorldStateKey_ok). reflexivity.
Qed.

Lemma create_run call newId newSize st :
  0 < newId → strlen (thisHost (st_world st)) < MPI_HOST_STATE_LEN →
  create call newId newSize st = (Ok tt, created call newId newSize st).
Proof.
  intros Hid Hlen. unfold create.
  do 2 (erewrite bind_Ok by reflexivity).
  erewrite bind_Ok by reflexivity.
  erewrite bind_Ok by reflexivity.
  erewrite bind_Ok by (by apply setUpStateKV_run).
  erewrite bind_Ok by reflexivity.
  erewrite bind_Ok by (apply registerRank_run; cbn; done || lia).
  erewrite bind_Ok by reflexivity.
  rewrite create_loop. reflexivity.
Qed.



End Create.

(** ** Reductions *)

(** The state with its memory replaced. *)
Definition with_mem (mem : Mem) (st : State) : State := set_mem (fun _ => mem) st.

(** The elementwise operation on two buffers of [count] cells of [w] bytes:
    cell by cell, [f] of the cell of [out] and the cell of [inn]. *)
Fixpoint zipCells (w : nat) (f : list Z -> list Z -> list Z) (count : nat)
    (out inn : list Z) : list Z :=
  match count with
  | O => []
  | S count' =>
      f (take w out) (take w inn)
        ++ zipCells w f count' (drop w out) (drop w inn)
  end.

(** The cell width and the cell function of a supported pair of operator and
    datatype, as [op_reduce] selects them. *)
Definition cellOf `{DoubleArith} (operation : faabric_op_t)
    (datatype : faabric_datatype_t)
    : option (nat * (list Z -> list Z -> list Z)) :=
  match op_ident operation, dt_id datatype with
  | FAABRIC_OP_MAX, FAABRIC_INT => Some (4%nat, intCell 4 Z.max)
  | FAABRIC_OP_MAX, FAABRIC_DOUBLE => Some (8%nat, doubleMaxCell)
  | FAABRIC_OP_MAX, FAABRIC_LONG_LONG => Some (8%nat, intCell 8 Z.max)
  | FAABRIC_OP_MIN, FAABRIC_INT => Some (4%nat, intCell 4 Z.min)
  | FAABRIC_OP_MIN, FAABRIC_DOUBLE => Some (8%nat, doubleMinCell)
  | FAABRIC_OP_MIN, FAABRIC_LONG_LONG => Some (8%nat, intCell 8 Z.min)
  | FAABRIC_OP_SUM, FAABRIC_INT => Some (4%nat, intCell 4 Z.add)
  | FAABRIC_OP_SUM, FAABRIC_DOUBLE => Some (8%nat, doubleSumCell)
  | FAABRIC_OP_SUM, FAABRIC_LONG_LONG => Some (8%nat, intCell 8 Z.add)
  | _, _ => None
  end.

(** The elementwise reduction of two buffers of [count] elements: what
    [operation] on [datatype] makes of [out] and [inn], element by element. *)
Definition elementwise `{DoubleArith} (operation : faabric_op_t)
    (datatype : faabric_datatype_t) (count : Z) (out inn : list Z) : list Z :=
  match cellOf operation datatype with
  | Some (w, f) => zipCells w f (Z.to_nat count) out inn
  | None => out
  end.

(** The supported operators and datatypes. *)
Definition supportedOp (operation : faabric_op_t) : Prop :=
  operation = MPI_MAX ∨ operation = MPI_MIN ∨ operation = MPI_SUM.

Definition supportedType (datatype : faabric_datatype_t) : Prop :=
  datatype = MPI_INT ∨ datatype = MPI_DOUBLE ∨ datatype = MPI_LONG_LONG.

(** *** The elements of a buffer and the operators on them *)

(** What a reduction is measured against: the elements a buffer holds, and
    what an operator makes of two elements. *)

Definition isByte (b : Z) : Prop := 0 <= b < 256.

Global Instance isByte_dec b : Decision (isByte b).
Proof. unfold isByte. apply _. Defined.

(** The [count] cells of [w] bytes of a buffer. *)
Fixpoint cells (w count : nat) (bytes : list Z) : list (list Z) :=
  match count with
  | O => []
  | S count' => take w bytes :: cells w count' (drop w bytes)
  end.

(** The element in a cell: the signed value of an [int] or a [long long],
    the pattern of a [double]. *)
Definition elementOf (datatype : faabric_datatype_t) (cell : list Z) : Z :=
  match dt_id datatype with
  | FAABRIC_DOUBLE => le_unsigned cell
  | _ => le_signed cell
  end.

Definition elementsOf (datatype : faabric_datatype_t) (count : Z)
    (bytes : list Z) : list Z :=
  map (elementOf datatype)
    (cells (Z.to_nat (dt_size datatype)) (Z.to_nat count) bytes).

(** A signed integer of [bits] bits wraps around. *)
Definition wrapAround (bits z : Z) : Z :=
  (z + 2 ^ (bits - 1)) mod 2 ^ bits - 2 ^ (bits - 1).

(** The operators on two elements.  On integers: the greater, the lesser,
    the sum in the width of the type.  On doubles: the sum of the floating
    point unit, and [std::max] and [std::min], which answer their second
    argument when the comparison [a < b] (for the minimum [b < a]) holds and
    their first otherwise. *)
Definition applyOp `{DoubleArith} (operation : faabric_op_t)
    (datatype : faabric_datatype_t) (a b : Z) : Z :=
  match dt_id datatype with
  | FAABRIC_DOUBLE =>
      match op_ident operation with
      | FAABRIC_OP_MAX => if double_lt a b then b else a
      | FAABRIC_OP_MIN => if double_lt b a then b else a
      | FAABRIC_OP_SUM => double_add a b
      | _ => a
      end
  | _ =>
      match op_ident operation with
      | FAABRIC_OP_MAX => Z.max a b
      | FAABRIC_OP_MIN => Z.min a b
      | FAABRIC_OP_SUM => wrapAround (8 * dt_size datatype) (a + b)
      | _ => a
      end
  end.

(** The elementwise fold of an operator over the elements of the ranks'
    buffers, [own] first. *)
Definition foldOver `{DoubleArith} (operation : faabric_op_t)
    (datatype : faabric_datatype_t) (own : list Z) (others : list (list Z))
    : list Z :=
  fold_left (zip_with (applyOp operation datatype)) others own.

(** A buffer of [int]s. *)
Definition ints (l : list Z) : list Z := concat (map (le_bytes 4) l).

(** One turn of the slot loop, on the memory. *)
Definition slotStep (w : nat) (f : list Z -> list Z -> list Z)
    (inBuffer outBuffer : Z) (mem : Mem) (slot : Z) : Mem :=
  store mem (outBuffer + Z.of_nat w * slot)
    (f (load mem (outBuffer + Z.of_nat w * slot) w)
       (load mem (inBuffer + Z.of_nat w * slot) w)).

Section SlotLoop.

Implicit Types (st : State) (mem : Mem).

Lemma with_mem_same st : with_mem (st_mem st) st = st.
Proof. by destruct st. Qed.

Lemma forM_modify_mem {A} (g : A -> Mem -> Mem) (l : list A) st :
  forM_ l (fun x => modify (set_mem (g x))) st
  = (Ok tt, with_mem (fold_left (fun mem x => g x mem) l (st_mem st)) st).
Proof.
  revert st. induction l as [|x l IH]; intros st; cbn [forM_ fold_left].
  - by rewrite with_mem_same.
  - erewrite bind_Ok by reflexivity. by rewrite IH.
Qed.

Lemma reduceSlots_run w f count inBuffer outBuffer st :
  reduceSlots w f count inBuffer outBuffer st
  = (Ok tt,
     with_mem (fold_left (slotStep w f inBuffer outBuffer) (seqZ 0 count)
                 (st_mem st)) st).
Proof. unfold reduceSlots. by rewrite forM_modify_mem. Qed.

Lemma take_load mem p n1 n2 : take n1 (load mem p (n1 + n2)) = load mem p n1.
Proof. rewrite load_app. apply take_app_length'. by rewrite length_load. Qed.

Lemma drop_load mem p n1 n2 :
  drop n1 (load mem p (n1 + n2)) = load mem (p + Z.of_nat n1) n2.
Proof. rewrite load_app. apply drop_app_length'. by rewrite length_load. Qed.

(** The slot loop over the slots [k, k + n): it rewrites these slots of the
    out buffer, cell by cell, and nothing else. *)
Lemma slots_fold w f inBuffer outBuffer (total : Z) (n : nat) :
  (∀ o i, length (f o i) = w) →
  inBuffer + Z.of_nat w * total <= outBuffer
  ∨ outBuffer + Z.of_nat w * total <= inBuffer →
  ∀ k mem, 0 <= k → k + Z.of_nat n <= total →
  let mem' := fold_left (slotStep w f inBuffer outBuffer)
                (seqZ k (Z.of_nat n)) mem in
  (∀ a, a < outBuffer + Z.of_nat w * k
        ∨ outBuffer + Z.of_nat w * (k + Z.of_nat n) <= a → mem' a = mem a)
  ∧ load mem' (outBuffer + Z.of_nat w * k) (w * n)
    = zipCells w f n (load mem (outBuffer + Z.of_nat w * k) (w * n))
        (load mem (inBuffer + Z.of_nat w * k) (w * n)).
Proof.
  intros Hlen Hdisj. induction n as [|n IH]; intros k mem Hk Hkn.
  - cbn. split; [done|]. by rewrite Nat.mul_0_r.
  - rewrite seqZ_cons by lia. cbn [fold_left zipCells].
    replace (Z.pred (Z.of_nat (S n))) with (Z.of_nat n) by lia.
    set (mem1 := slotStep w f inBuffer outBuffer mem k).
    destruct (IH (Z.succ k) mem1) as [Hframe Hload]; [lia..|].
    cbv zeta in Hframe, Hload.
    set (mem' := fold_left _ _ mem1) in *.
    assert (Hstore : ∀ a, a < outBuffer + Z.of_nat w * k
                          ∨ outBuffer + Z.of_nat w * k + Z.of_nat w <= a →
                          mem1 a = mem a).
    { intros a Ha. unfold mem1, slotStep. apply store_outside.
      rewrite Hlen. lia. }
    split.
    + intros a Ha. rewrite Hframe by lia. apply Hstore. lia.
    + replace (w * S n)%nat with (w + w * n)%nat by lia.
      rewrite !take_load, !drop_load.
      rewrite load_app. f_equal.
      * rewrite (load_ext mem' mem1) by (intros a Ha; apply Hframe; lia).
        unfold mem1, slotStep. by apply load_store_length.
      * replace (outBuffer + Z.of_nat w * k + Z.of_nat w)
          with (outBuffer + Z.of_nat w * Z.succ k) by lia.
        replace (inBuffer + Z.of_nat w * k + Z.of_nat w)
          with (inBuffer + Z.of_nat w * Z.succ k) by lia.
        rewrite Hload. f_equal; apply load_ext; intros a Ha; apply Hstore;
          nia.
Qed.

(** [reduceSlots] on disjoint buffers. *)
Lemma reduceSlots_spec w f count inBuffer outBuffer st :
  (∀ o i, length (f o i) = w) → 0 <= count →
  inBuffer + Z.of_nat w * count <= outBuffer
  ∨ outBuffer + Z.of_nat w * count <= inBuffer →
  ∃ mem',
    reduceSlots w f count inBuffer outBuffer st = (Ok tt, with_mem mem' st)
    ∧ (∀ a, a < outBuffer ∨ outBuffer + Z.of_nat w * count <= a →
            mem' a = st_mem st a)
    ∧ load mem' outBuffer (w * Z.to_nat count)
      = zipCells w f (Z.to_nat count)
          (load (st_mem st) outBuffer (w * Z.to_nat count))
          (load (st_mem st) inBuffer (w * Z.to_nat count)).
Proof.
  intros Hlen Hcount Hdisj. rewrite reduceSlots_run. eexists. split; [done|].
  destruct (slots_fold w f inBuffer outBuffer count (Z.to_nat count) Hlen Hdisj
              0 (st_mem st)) as [Hframe Hload]; [lia..|].
  cbv zeta in Hframe, Hload. rewrite Z2Nat.id in Hframe by lia.
  replace (outBuffer + Z.of_nat w * 0) with outBuffer in Hframe, Hload by lia.
  replace (inBuffer + Z.of_nat w * 0) with inBuffer in Hload by lia.
  rewrite Z2Nat.id in Hload by lia.
  split; [|exact Hload]. intros a Ha. apply Hframe. lia.
Qed.

End SlotLoop.

(** *** Queue keys *)

Lemma string_length_app (s1 s2 : string) :
  String.length (s1 +:+ s2) = (String.length s1 + String.length s2)%nat.
Proof.
  induction s1 as [|a s1 IH]; [done|].
  change (S (String.length (s1 +:+ s2))
          = S (String.length s1 + String.length s2)).
  by rewrite IH.
Qed.

Lemma string_app_inj_r (t s1 s2 : string) : s1 +:+ t = s2 +:+ t → s1 = s2.
Proof.
  revert s2. induction s1 as [|a s1 IH]; intros [|b s2] E.
  - done.
  - apply (f_equal String.length) in E.
    rewrite !string_length_app in E. cbn in E. lia.
  - apply (f_equal String.length) in E.
    rewrite !string_length_app in E. cbn in E. lia.
  - change (String a (s1 +:+ t) = String b (s2 +:+ t)) in E.
    injection E as -> E. f_equal. by apply IH.
Qed.

(** Two senders to one receiver have different queues. *)
Lemma queueKey_sender_inj s s' r : queueKey s r = queueKey s' r → s = s'.
Proof.
  unfold queueKey, to_string. intros E. apply string_app_inj_r in E.
  by apply (inj pretty) in E.
Qed.

(** *** The operator on memory *)

Lemma length_le_bytes w z : length (le_bytes w z) = w.
Proof. revert z. induction w as [|w IH]; intros z; cbn; [done|]. by rewrite IH. Qed.

Section Reduce.

Context `{DoubleArith}.

Implicit Types (st : State) (operation : faabric_op_t)
  (datatype : faabric_datatype_t).

Lemma cellOf_length operation datatype w f :
  cellOf operation datatype = Some (w, f) → ∀ o i, length (f o i) = w.
Proof.
  unfold cellOf. intros E o i.
  destruct (op_ident operation), (dt_id datatype); simplify_eq;
    apply length_le_bytes.
Qed.

Lemma cellOf_supported operation datatype :
  supportedOp operation → supportedType datatype →
  ∃ f, cellOf operation datatype = Some (Z.to_nat (dt_size datatype), f).
Proof.
  intros [->|[->| ->]] [->|[->| ->]]; by eexists.
Qed.

Lemma op_reduce_cellOf operation datatype w f count inBuffer outBuffer :
  cellOf operation datatype = Some (w, f) →
  op_reduce operation datatype count inBuffer outBuffer
  = reduceSlots w f count inBuffer outBuffer.
Proof.
  unfold cellOf, op_reduce. intros E.
  destruct (op_ident operation), (dt_id datatype); by simplify_eq.
Qed.

(** [op_reduce] of a supported pair on disjoint buffers: the out buffer
    becomes the elementwise reduction, the rest of the memory stays. *)
Lemma op_reduce_spec operation datatype w f count inBuffer outBuffer st :
  cellOf operation datatype = Some (w, f) → 0 <= count →
  inBuffer + Z.of_nat w * count <= outBuffer
  ∨ outBuffer + Z.of_nat w * count <= inBuffer →
  ∃ mem',
    op_reduce operation datatype count inBuffer outBuffer st
    = (Ok tt, with_mem mem' st)
    ∧ (∀ a, a < outBuffer ∨ outBuffer + Z.of_nat w * count <= a →
            mem' a = st_mem st a)
    ∧ load mem' outBuffer (w * Z.to_nat count)
      = elementwise operation datatype count
          (load (st_mem st) outBuffer (w * Z.to_nat count))
          (load (st_mem st) inBuffer (w * Z.to_nat count)).
Proof.
  intros Hcell Hcount Hdisj. rewrite (op_reduce_cellOf _ _ w f) by done.
  unfold elementwise. rewrite Hcell.
  apply reduceSlots_spec; [by eapply cellOf_length|done..].
Qed.

End Reduce.

(** *** Cells and their elements *)

Lemma le_bytes_isByte w z : Forall isByte (le_bytes w z).
Proof.
  revert z. induction w as [|w IH]; intros z; cbn; constructor; [|apply IH].
  unfold isByte. apply Z.mod_pos_bound. lia.
Qed.

Lemma le_unsigned_le_bytes w z :
  le_unsigned (le_bytes w z) = z mod 2 ^ (8 * Z.of_nat w).
Proof.
  revert z. induction w as [|w IH]; intros z.
  - cbn. by rewrite Z.mod_1_r.
  - cbn [le_bytes le_unsigned]. rewrite IH.
    replace (8 * Z.of_nat (S w)) with (8 + 8 * Z.of_nat w) by lia.
    rewrite Z.pow_add_r by lia. change (2 ^ 8) with 256.
    rewrite Z.rem_mul_r by lia. done.
Qed.

Lemma le_unsigned_range bs :
  Forall isByte bs → 0 <= le_unsigned bs < 2 ^ (8 * Z.of_nat (length bs)).
Proof.
  induction 1 as [|b bs Hb _ IH]; [cbn; lia|].
  cbn [le_unsigned length].
  replace (8 * Z.of_nat (S (length bs))) with (8 + 8 * Z.of_nat (length bs))
    by lia.
  rewrite Z.pow_add_r by lia. change (2 ^ 8) with 256. unfold isByte in Hb. nia.
Qed.

Lemma pow2_half w :
  (0 < w)%nat → 2 ^ (8 * Z.of_nat w) = 2 * 2 ^ (8 * Z.of_nat w - 1).
Proof. intros Hw. rewrite <- Z.pow_succ_r by lia. f_equal. lia. Qed.

Lemma le_signed_range bs :
  Forall isByte bs → (0 < length bs)%nat →
  - 2 ^ (8 * Z.of_nat (length bs) - 1) <= le_signed bs
    < 2 ^ (8 * Z.of_nat (length bs) - 1).
Proof.
  intros Hb Hl. pose proof (le_unsigned_range bs Hb) as Hu.
  unfold le_signed. cbv zeta. rewrite (pow2_half (length bs)) in * by done.
  set (h := 2 ^ (8 * Z.of_nat (length bs) - 1)) in *.
  replace (2 * h / 2) with h by (by rewrite Z.mul_comm, Z.div_mul).
  destruct (le_unsigned bs <? h) eqn:E;
    [apply Z.ltb_lt in E|apply Z.ltb_ge in E]; lia.
Qed.

Lemma le_signed_le_bytes w z :
  (0 < w)%nat → le_signed (le_bytes w z) = wrapAround (8 * Z.of_nat w) z.
Proof.
  intros Hw. unfold le_signed, wrapAround. cbv zeta.
  rewrite le_unsigned_le_bytes, length_le_bytes.
  rewrite (pow2_half w) by done.
  set (h := 2 ^ (8 * Z.of_nat w - 1)).
  assert (0 < h) by (apply Z.pow_pos_nonneg; lia).
  replace (2 * h / 2) with h by (by rewrite Z.mul_comm, Z.div_mul).
  pose proof (Z.mod_pos_bound z (2 * h)) as Hz.
  pose proof (Z.mod_pos_bound (z + h) (2 * h)) as Hzh.
  pose proof (Z.div_mod z (2 * h)) as Dz.
  pose proof (Z.div_mod (z + h) (2 * h)) as Dzh.
  destruct (z mod (2 * h) <? h) eqn:E;
    [apply Z.ltb_lt in E|apply Z.ltb_ge in E].
  - assert ((z + h) / (2 * h) = z / (2 * h)) by nia. nia.
  - assert ((z + h) / (2 * h) = z / (2 * h) + 1) by nia. nia.
Qed.

Lemma wrapAround_small bits z :
  0 < bits → - 2 ^ (bits - 1) <= z < 2 ^ (bits - 1) → wrapAround bits z = z.
Proof.
  intros Hb Hz. unfold wrapAround.
  assert (2 ^ bits = 2 * 2 ^ (bits - 1)) as ->.
  { rewrite <- Z.pow_succ_r by lia. f_equal. lia. }
  rewrite Z.mod_small by lia. lia.
Qed.

(** A cell of [w] bytes. *)
Definition byteCell (w : nat) (c : list Z) : Prop :=
  length c = w ∧ Forall isByte c.

Section Elements.

Context `{DoubleArith}.

Implicit Types (operation : faabric_op_t) (datatype : faabric_datatype_t).

(** The cell [op_reduce] stores holds what the operator makes of the
    elements of the two cells it is given. *)
Lemma cell_element operation datatype w f o i :
  supportedOp operation → supportedType datatype →
  cellOf operation datatype = Some (w, f) →
  byteCell w o → byteCell w i →
  elementOf datatype (f o i)
  = applyOp operation datatype (elementOf datatype o) (elementOf datatype i)
  ∧ byteCell w (f o i).
Proof.
  intros Hop Hdt Hcell.
  assert (Hint : ∀ w' g, (0 < w')%nat → byteCell w' o → byteCell w' i →
    (∀ a b, g a b = a ∨ g a b = b) →
    le_signed (le_bytes w' (g (le_signed o) (le_signed i)))
    = g (le_signed o) (le_signed i)).
  { intros w' g Hw' [Hlo Hbo] [Hli Hbi] Hg.
    rewrite le_signed_le_bytes by done.
    apply wrapAround_small; [lia|].
    pose proof (le_signed_range o Hbo) as Ho.
    pose proof (le_signed_range i Hbi) as Hi.
    rewrite Hlo in Ho. rewrite Hli in Hi.
    destruct (Hg (le_signed o) (le_signed i)) as [-> | ->];
      [apply Ho|apply Hi]; lia. }
  assert (Hmax : ∀ a b, Z.max a b = a ∨ Z.max a b = b) by (intros; lia).
  assert (Hmin : ∀ a b, Z.min a b = a ∨ Z.min a b = b) by (intros; lia).
  assert (Hpat : ∀ c, byteCell 8 c →
    le_unsigned (le_bytes 8 (le_unsigned c)) = le_unsigned c).
  { intros c [Hlc Hbc]. rewrite le_unsigned_le_bytes.
    pose proof (le_unsigned_range c Hbc) as Hr. rewrite Hlc in Hr.
    by apply Z.mod_small. }
  destruct Hop as [->|[->| ->]], Hdt as [->|[->| ->]];
    cbn in Hcell; injection Hcell as <- <-; intros Ho Hi;
    (split; [|split; [apply length_le_bytes|apply le_bytes_isByte]]);
    unfold elementOf, applyOp, intCell, doubleMaxCell, doubleMinCell,
      doubleSumCell; cbn [dt_id op_ident MPI_INT MPI_DOUBLE MPI_LONG_LONG
                           MPI_MAX MPI_MIN MPI_SUM dt_size].
  - apply Hint; (done || lia).
  - destruct (double_lt _ _); by apply Hpat.
  - apply Hint; (done || lia).
  - apply Hint; (done || lia).
  - destruct (double_lt _ _); by apply Hpat.
  - apply Hint; (done || lia).
  - rewrite (le_signed_le_bytes 4) by lia. done.
  - rewrite le_unsigned_le_bytes. apply Z.mod_small, double_add_pattern.
  - rewrite (le_signed_le_bytes 8) by lia. done.
Qed.

(** The same for buffers of [count] cells. *)
Lemma zipCells_elements operation datatype w f (count : nat) out inn :
  supportedOp operation → supportedType datatype →
  cellOf operation datatype = Some (w, f) →
  length out = (w * count)%nat → length inn = (w * count)%nat →
  Forall isByte out → Forall isByte inn →
  map (elementOf datatype) (cells w count (zipCells w f count out inn))
  = zip_with (applyOp operation datatype)
      (map (elementOf datatype) (cells w count out))
      (map (elementOf datatype) (cells w count inn))
  ∧ length (zipCells w f count out inn) = (w * count)%nat
  ∧ Forall isByte (zipCells w f count out inn).
Proof.
  intros Hop Hdt Hcell. revert out inn.
  induction count as [|count IH]; intros out inn Hlo Hli Hbo Hbi.
  - cbn. split_and!; [done|lia|done].
  - rewrite Nat.mul_succ_r in Hlo, Hli.
    destruct (cell_element operation datatype w f (take w out) (take w inn))
      as (Hel & Hlen & Hby); [done|done|done| | |].
    { split; [rewrite length_take; lia|by apply Forall_take]. }
    { split; [rewrite length_take; lia|by apply Forall_take]. }
    destruct (IH (drop w out) (drop w inn)) as (IHel & IHlen & IHby).
    { rewrite length_drop. lia. }
    { rewrite length_drop. lia. }
    { by apply Forall_drop. }
    { by apply Forall_drop. }
    cbn [zipCells cells map zip_with].
    rewrite take_app_length' by done. rewrite drop_app_length' by done.
    split_and!.
    + by rewrite Hel, IHel.
    + rewrite length_app, Hlen, IHlen. lia.
    + by apply Forall_app.
Qed.

Lemma elementsOf_elementwise operation datatype count out inn :
  supportedOp operation → supportedType datatype → 0 <= count →
  let size := Z.to_nat (dt_size datatype * count) in
  length out = size → length inn = size →
  Forall isByte out → Forall isByte inn →
  elementsOf datatype count (elementwise operation datatype count out inn)
  = zip_with (applyOp operation datatype)
      (elementsOf datatype count out) (elementsOf datatype count inn)
  ∧ length (elementwise operation datatype count out inn) = size
  ∧ Forall isByte (elementwise operation datatype count out inn).
Proof.
  intros Hop Hdt Hcount size Hlo Hli Hbo Hbi.
  destruct (cellOf_supported operation datatype Hop Hdt) as [f Hcell].
  assert (Hsz : size = (Z.to_nat (dt_size datatype) * Z.to_nat count)%nat).
  { unfold size. destruct Hdt as [->|[->| ->]]; cbn [dt_size MPI_INT
      MPI_DOUBLE MPI_LONG_LONG]; lia. }
  unfold elementsOf, elementwise. rewrite Hcell, Hsz.
  apply zipCells_elements; try done; by rewrite <- Hsz.
Qed.

(** The fold over the buffers of several ranks. *)
Lemma elementsOf_fold operation datatype count (others : list (list Z)) own :
  supportedOp operation → supportedType datatype → 0 <= count →
  let size := Z.to_nat (dt_size datatype * count) in
  length own = size → Forall isByte own →
  Forall (fun b => length b = size ∧ Forall isByte b) others →
  elementsOf datatype count
    (fold_left (elementwise operation datatype count) others own)
  = foldOver operation datatype (elementsOf datatype count own)
      (map (elementsOf datatype count) others).
Proof.
  intros Hop Hdt Hcount size Hlo Hbo Hall. revert own Hlo Hbo.
  induction Hall as [|b others [Hlb Hbb] _ IH]; intros own Hlo Hbo; [done|].
  cbn [fold_left map]. unfold foldOver. cbn [fold_left].
  destruct (elementsOf_elementwise operation datatype count own b)
    as (Hel & Hlen & Hby); [done..|].
  rewrite <- Hel. by apply IH.
Qed.

End Elements.

(** *** Reduce, rank by rank *)

(** A message of the kind a non-root rank sends in [reduce]. *)
Definition reduceMessage (count : Z) (payload : list Z) (m : MPIMessage) : Prop :=
  mpi_messagetype m = REDUCE ∧ mpi_count m = count ∧ mpi_buffer m = payload.

(** The turn of the root's loop for rank [r]. *)
Definition reduceTurn `{DoubleArith} (recvRank recvBuffer : Z)
    (datatype : faabric_datatype_t) (count : Z) (operation : faabric_op_t)
    (rankData : Z) (r : Z) : M unit :=
  memset rankData 0 (dt_size datatype * count);;
  if negb (r =? recvRank)
  then
    recv r recvRank rankData datatype count None REDUCE;;
    op_reduce operation datatype count rankData recvBuffer
  else mret tt.

Section ReduceAllRanks.

Context `{DoubleArith}.

Variables (operation : faabric_op_t) (datatype : faabric_datatype_t).
Variables (w : nat) (f : list Z -> list Z -> list Z).
Hypothesis Hcell : cellOf operation datatype = Some (w, f).
Hypothesis Hsize : dt_size datatype = Z.of_nat w.

Variables (root count : Z).
Hypothesis Hcount : 0 <= count.

Implicit Types (st : State) (r : Z) (rs : list Z).

Lemma bufferSize_cells :
  Z.to_nat (dt_size datatype * count) = (w * Z.to_nat count)%nat.
Proof. rewrite Hsize. rewrite Z2Nat.inj_mul by lia. by rewrite Nat2Z.id. Qed.

(** One turn of the root's loop.  For another rank [r], whose message is at
    the head of its queue, the receive buffer takes the payload in; the turn
    of the root itself leaves the receive buffer as it is.  Only the queue of
    [(r, root)] changes. *)
Lemma reduce_turn (payload : Z -> list Z) recvBuffer rankData r st :
  rankData + Z.of_nat (w * Z.to_nat count) <= recvBuffer
  ∨ recvBuffer + Z.of_nat (w * Z.to_nat count) <= rankData →
  rankHostMap (st_world st) !! root = Some (thisHost (st_world st)) →
  (r ≠ root →
     length (payload r) = (w * Z.to_nat count)%nat
     ∧ ∃ m rest,
         localQueueMap (st_world st) !! queueKey r root = Some (m :: rest)
         ∧ reduceMessage count (payload r) m) →
  ∃ st',
    reduceTurn root recvBuffer datatype count operation rankData r st
    = (Ok tt, st')
    ∧ rankHostMap (st_world st') = rankHostMap (st_world st)
    ∧ thisHost (st_world st') = thisHost (st_world st)
    ∧ (∀ key, key ≠ queueKey r root →
         localQueueMap (st_world st') !! key
         = localQueueMap (st_world st) !! key)
    ∧ load (st_mem st') recvBuffer (w * Z.to_nat count)
      = if decide (r = root)
        then load (st_mem st) recvBuffer (w * Z.to_nat count)
        else elementwise operation datatype count
               (load (st_mem st) recvBuffer (w * Z.to_nat count)) (payload r).
Proof.
  intros Hdisj Hlocal Hqueue. unfold reduceTurn.
  set (st1 := set_mem (fun mem => store mem rankData
                (replicate (Z.to_nat (dt_size datatype * count)) 0)) st).
  rewrite (bind_Ok _ _ st tt st1) by done.
  assert (Hzero : load (st_mem st1) recvBuffer (w * Z.to_nat count)
                  = load (st_mem st) recvBuffer (w * Z.to_nat count)).
  { apply load_store_disjoint. rewrite length_replicate, bufferSize_cells.
    lia. }
  destruct (decide (r = root)) as [->|Hne].
  - rewrite Z.eqb_refl. cbn [negb]. exists st1. by split_and!.
  - rewrite (proj2 (Z.eqb_neq _ _) Hne). cbn [negb].
    destruct (Hqueue Hne) as (Hlen & m & rest & Hq & Hty & Hcnt & Hbuf).
    erewrite bind_Ok; last first.
    { rewrite (recv_head st1 r root rankData datatype count None REDUCE m rest)
        by done.
      rewrite decide_False by (rewrite Hty; intros Hn; by apply Hn).
      rewrite Hcnt, Z.ltb_irrefl. reflexivity. }
    set (st2 := if 0 <? count then _ else _).
    assert (Hw2 : st_world st2
                  = set_localQueueMap
                      (fun q => <[queueKey r root := rest]> q) (st_world st))
      by (unfold st2; by destruct (0 <? count)).
    assert (Hrecv2 : load (st_mem st2) recvBuffer (w * Z.to_nat count)
                     = load (st_mem st) recvBuffer (w * Z.to_nat count)).
    { unfold st2. destruct (0 <? count); [|done]. cbn.
      rewrite load_store_disjoint by (rewrite Hbuf, Hlen; lia). done. }
    assert (Hdata2 : load (st_mem st2) rankData (w * Z.to_nat count)
                     = payload r).
    { unfold st2. destruct (0 <? count) eqn:Hpos; cbn.
      - rewrite Hbuf. by apply load_store_length.
      - apply Z.ltb_ge in Hpos. assert (count = 0) as Hc0 by lia.
        rewrite Hc0 in Hlen |- *. rewrite Nat.mul_0_r in Hlen |- *. cbn.
        symmetry. by apply nil_length_inv. }
    destruct (op_reduce_spec operation datatype w f count rankData recvBuffer st2)
      as (mem3 & E3 & Hframe3 & Hload3); [done|done| |].
    { rewrite Nat2Z.inj_mul, Z2Nat.id in Hdisj by lia. lia. }
    rewrite E3. rewrite Hrecv2, Hdata2 in Hload3.
    exists (with_mem mem3 st2). split; [done|].
    cbn [st_world st_mem with_mem set_mem]. rewrite Hw2. split_and!; try done.
    intros key Hkey. cbn. by rewrite lookup_insert_ne.
Qed.

(** The root's loop over the ranks [rs]: every other rank's message is at the
    head of its queue; the receive buffer ends as the fold of the payloads
    into what it held. *)
Lemma reduce_root_loop (payload : Z -> list Z) recvBuffer rankData rs :
  NoDup rs →
  rankData + Z.of_nat (w * Z.to_nat count) <= recvBuffer
  ∨ recvBuffer + Z.of_nat (w * Z.to_nat count) <= rankData →
  ∀ st,
  rankHostMap (st_world st) !! root = Some (thisHost (st_world st)) →
  (∀ r, r ∈ rs → r ≠ root →
     length (payload r) = (w * Z.to_nat count)%nat
     ∧ ∃ m rest,
         localQueueMap (st_world st) !! queueKey r root = Some (m :: rest)
         ∧ reduceMessage count (payload r) m) →
  ∃ st',
    forM_ rs (reduceTurn root recvBuffer datatype count operation rankData) st
    = (Ok tt, st')
    ∧ load (st_mem st') recvBuffer (w * Z.to_nat count)
      = fold_left (elementwise operation datatype count)
          (map payload (filter (fun r => r ≠ root) rs))
          (load (st_mem st) recvBuffer (w * Z.to_nat count)).
Proof.
  intros Hnodup Hdisj. induction Hnodup as [|r rs Hr Hnodup IH];
    intros st Hlocal Hqueues.
  { exists st. by cbn. }
  cbn [forM_].
  destruct (reduce_turn payload recvBuffer rankData r st)
    as (st1 & E1 & Hmap1 & Hhost1 & Hq1 & Hload1); [done|done| |].
  { intros Hne. apply Hqueues; [apply list_elem_of_here|done]. }
  rewrite (bind_Ok _ _ st tt st1) by done.
  destruct (IH st1) as (st' & E & Hload).
  { by rewrite Hmap1, Hhost1. }
  { intros r' Hr' Hne'.
    destruct (Hqueues r') as (Hlen' & m' & rest' & Hq' & Hm');
      [by apply list_elem_of_further|done|].
    split; [done|]. exists m', rest'. split; [|done].
    rewrite Hq1; [done|]. intros Hk. apply queueKey_sender_inj in Hk.
    congruence. }
  exists st'. split; [done|]. rewrite Hload, Hload1.
  destruct (decide (r = root)) as [->|Hne].
  - by rewrite filter_cons_False by (intros Hn; by apply Hn).
  - by rewrite filter_cons_True by done.
Qed.

(** [reduce] called by the root, every other rank's message waiting: the
    receive buffer ends as the fold of the payloads into the root's own send
    buffer, copied in first unless the call is in place. *)
Lemma reduce_at_root (payload : Z -> list Z) sendBuffer recvBuffer st :
  rankHostMap (st_world st) !! root = Some (thisHost (st_world st)) →
  recvBuffer + dt_size datatype * count <= st_heap st →
  (∀ r, r ∈ seqZ 0 (world_size (st_world st)) → r ≠ root →
     length (payload r) = (w * Z.to_nat count)%nat
     ∧ ∃ m rest,
         localQueueMap (st_world st) !! queueKey r root = Some (m :: rest)
         ∧ reduceMessage count (payload r) m) →
  ∃ st',
    reduce root root sendBuffer recvBuffer datatype count operation st
    = (Ok tt, st')
    ∧ load (st_mem st') recvBuffer (w * Z.to_nat count)
      = fold_left (elementwise operation datatype count)
          (map payload
             (filter (fun r => r ≠ root) (seqZ 0 (world_size (st_world st)))))
          (load (st_mem st) sendBuffer (w * Z.to_nat count)).
Proof.
  intros Hlocal Hheap Hqueues. unfold reduce. rewrite Z.eqb_refl.
  cbv zeta.
  set (st1 := if negb (sendBuffer =? recvBuffer)
              then set_mem (fun mem => store mem recvBuffer
                     (load mem sendBuffer (Z.to_nat (dt_size datatype * count))))
                     st
              else st).
  assert (Hw1 : st_world st1 = st_world st ∧ st_heap st1 = st_heap st)
    by (unfold st1; by destruct (negb _)).
  destruct Hw1 as [Hw1 Hh1].
  assert (Hacc : load (st_mem st1) recvBuffer (w * Z.to_nat count)
                 = load (st_mem st) sendBuffer (w * Z.to_nat count)).
  { unfold st1. destruct (sendBuffer =? recvBuffer) eqn:Heq; cbn.
    - apply Z.eqb_eq in Heq. by rewrite Heq.
    - rewrite bufferSize_cells. apply load_store_length, length_load. }
  assert (E0 : (if negb (sendBuffer =? recvBuffer)
                then memcpy recvBuffer sendBuffer (dt_size datatype * count)
                else mret tt) st = (Ok tt, st1))
    by (unfold st1; by destruct (negb _)).
  rewrite (bind_Ok _ _ st tt st1 E0).
  erewrite bind_Ok by reflexivity.
  erewrite bind_Ok by reflexivity.
  cbn [st_world]. rewrite Hw1.
  assert (Hdisj : st_heap st1 + Z.of_nat (w * Z.to_nat count) <= recvBuffer
                  ∨ recvBuffer + Z.of_nat (w * Z.to_nat count) <= st_heap st1).
  { right. rewrite Hh1. rewrite Hsize in Hheap.
    rewrite Nat2Z.inj_mul, Z2Nat.id by lia. exact Hheap. }
  match goal with
  | |- context [forM_ _ _ ?s] =>
      destruct (reduce_root_loop payload recvBuffer (st_heap st1)
                  (seqZ 0 (world_size (st_world st)))
                  (NoDup_seqZ _ _) Hdisj s) as (st' & E & Hload)
  end.
  { exact Hlocal. }
  { exact Hqueues. }
  exists st'. split; [exact E|]. cbn [st_mem] in Hload.
  by rewrite Hload, Hacc.
Qed.

(** The payload [send] takes from a send buffer. *)
Definition sentPayload (mem : Mem) (sendBuffer : Z) : list Z :=
  if (0 <? count) && negb (sendBuffer =? nullptr)
  then load mem sendBuffer (Z.to_nat (dt_size datatype * count))
  else [].

(** [reduce] called by the ranks of [order], none of them the root, each
    with an empty queue towards the root: each queue ends with the rank's
    message, the memory is as before. *)
Lemma reduce_sends (sendBuffer recvBuffer : Z -> Z) order :
  NoDup order →
  ∀ st,
  root <= world_size (st_world st) - 1 →
  rankHostMap (st_world st) !! root = Some (thisHost (st_world st)) →
  (∀ r, r ∈ order → r ≠ root ∧ queueOf (st_world st) r root = []) →
  ∃ st',
    forM_ order
      (fun r => reduce r root (sendBuffer r) (recvBuffer r) datatype count
                  operation) st
    = (Ok tt, st')
    ∧ st_mem st' = st_mem st
    ∧ st_heap st' = st_heap st
    ∧ rankHostMap (st_world st') = rankHostMap (st_world st)
    ∧ thisHost (st_world st') = thisHost (st_world st)
    ∧ world_size (st_world st') = world_size (st_world st)
    ∧ (∀ key, (∀ r, r ∈ order → key ≠ queueKey r root) →
         localQueueMap (st_world st') !! key
         = localQueueMap (st_world st) !! key)
    ∧ (∀ r, r ∈ order →
         ∃ m, localQueueMap (st_world st') !! queueKey r root = Some [m]
              ∧ reduceMessage count (sentPayload (st_mem st) (sendBuffer r)) m).
Proof.
  intros Hnodup. induction Hnodup as [|r rs Hr Hnodup IH];
    intros st Hsz Hlocal Hempty.
  { exists st. cbn. split_and!; try done. intros r Hin. by apply elem_of_nil in Hin. }
  cbn [forM_].
  destruct (Hempty r) as [Hne Hq]; [apply list_elem_of_here|].
  destruct (send_local st r root (sendBuffer r) datatype count REDUCE)
    as (st1 & E1 & Hq1 & Hmap1 & Hhost1 & Hsz1 & _ & Hmem1 & Hheap1 & _);
    [done..|].
  rewrite Hq in Hq1. cbn [app] in Hq1.
  rewrite (bind_Ok _ _ st tt st1); last first.
  { unfold reduce. by rewrite (proj2 (Z.eqb_neq _ _) Hne). }
  destruct (IH st1) as (st' & E & Hmem & Hheap & Hmap & Hhost & Hsz' & Hother & Hsent).
  { by rewrite Hsz1. }
  { by rewrite Hmap1, Hhost1. }
  { intros r' Hr'. destruct (Hempty r') as [Hne' Hq'];
      [by apply list_elem_of_further|].
    split; [done|]. unfold queueOf in *. rewrite Hq1.
    rewrite lookup_insert_ne; [done|]. intros Hk.
    apply queueKey_sender_inj in Hk. congruence. }
  exists st'. split; [exact E|].
  split; [congruence|]. split; [congruence|]. split; [congruence|].
  split; [congruence|]. split; [congruence|]. split.
  - intros key Hkey. rewrite Hother.
    + rewrite Hq1. rewrite lookup_insert_ne; [done|].
      intros Hk. by apply (Hkey r); [apply list_elem_of_here|].
    + intros r' Hr'. apply Hkey. by apply list_elem_of_further.
  - intros r' Hr'. apply elem_of_cons in Hr' as [->|Hr'].
    + eexists. split.
      * rewrite Hother.
        -- rewrite Hq1. by rewrite lookup_insert_eq.
        -- intros r' Hr' Hk. apply queueKey_sender_inj in Hk. congruence.
      * done.
    + rewrite <- Hmem1. by apply Hsent.
Qed.

End ReduceAllRanks.

(** The world of the reduce and scan tests: five ranks, all on this host.
    [bufferOf r] is where rank [r] keeps its vector, [resultOf r] where it
    wants the result. *)
Definition fiveRanks : MpiWorld :=
  set_rankHostMap
    (fun _ => {[ 0 := "host"; 1 := "host"; 2 := "host"; 3 := "host";
                 4 := "host" ]})
    (set_identity 123 "mpi" "hellompi" (set_size 5 (newMpiWorld "host"))).

Definition bufferOf (r : Z) : Z := 1024 + 64 * r.
Definition resultOf (r : Z) : Z := 2048 + 64 * r.

(** The memory [base] with [content r] stored in the buffer of rank [r]. *)
Definition rankBuffers (base : Mem) (content : Z -> list Z) : Mem :=
  fold_left (fun mem r => store mem (bufferOf r) (content r)) (seqZ 0 5) base.

Definition fiveRanksState (mem : Mem) : State :=
  {| st_world := fiveRanks; st_mem := mem; st_kv := ∅;
     st_gid := 0; st_calls := []; st_rpc := []; st_usableCores := 4;
     st_heap := 4096 |}.

(** A buffer of [long long]s. *)
Definition longs (l : list Z) : list Z := concat (map (le_bytes 8) l).

(** A buffer of [double]s, given by their patterns. *)
Definition doubles (patterns : list Z) : list Z :=
  concat (map (le_bytes 8) patterns).

Section ReduceClaim.

Context `{DoubleArith}.

(** Every rank calls [reduce], the root last: the calls return, and the
    bytes of the root's receive buffer are those of its own send buffer put
    through the slot loop of [op_reduce] with the bytes of each other rank,
    in rank order. *)
Lemma reduce_root_buffer operation datatype n root count
    (sendBuffer recvBuffer : Z -> Z) order st :
  supportedOp operation → supportedType datatype →
  world_size (st_world st) = n → 0 <= root < n → 0 <= count →
  rankHostMap (st_world st) !! root = Some (thisHost (st_world st)) →
  (∀ r, queueOf (st_world st) r root = []) →
  order ≡ₚ filter (fun r => r ≠ root) (seqZ 0 n) →
  (∀ r, r ∈ order → sendBuffer r ≠ nullptr) →
  recvBuffer root + dt_size datatype * count <= st_heap st →
  let size := Z.to_nat (dt_size datatype * count) in
  let contribution r := load (st_mem st) (sendBuffer r) size in
  ∃ st',
    (forM_ order
       (fun r => reduce r root (sendBuffer r) (recvBuffer r) datatype count
                   operation);;
     reduce root root (sendBuffer root) (recvBuffer root) datatype count
       operation) st
    = (Ok tt, st')
    ∧ load (st_mem st') (recvBuffer root) size
      = fold_left (elementwise operation datatype count)
          (map contribution (filter (fun r => r ≠ root) (seqZ 0 n)))
          (contribution root).
Proof.
  intros Hop Hty Hn Hroot Hcount Hlocal Hempty Hperm Hptr Hheap size contribution.
  destruct (cellOf_supported operation datatype Hop Hty) as [f Hcell].
  set (w := Z.to_nat (dt_size datatype)) in *.
  assert (Hsize : dt_size datatype = Z.of_nat w).
  { unfold w. destruct Hty as [->|[->| ->]]; reflexivity. }
  assert (Hsz : size = (w * Z.to_nat count)%nat)
    by (by apply bufferSize_cells).
  assert (Hnodup : NoDup order).
  { rewrite Hperm. apply NoDup_filter, NoDup_seqZ. }
  destruct (reduce_sends operation datatype root count sendBuffer recvBuffer
              order Hnodup st)
    as (st1 & E1 & Hmem1 & Hheap1 & Hmap1 & Hhost1 & Hsize1 & _ & Hsent).
  { lia. }
  { done. }
  { intros r Hr. split; [|apply Hempty].
    rewrite Hperm in Hr. by apply list_elem_of_filter in Hr as [Hr _]. }
  destruct (reduce_at_root operation datatype w f Hcell Hsize root count
              Hcount contribution (sendBuffer root) (recvBuffer root) st1)
    as (st' & E & Hload).
  { by rewrite Hmap1, Hhost1. }
  { by rewrite Hheap1. }
  { intros r Hr Hne. rewrite Hsize1, Hn in Hr. split.
    - unfold contribution. by rewrite length_load.
    - destruct (Hsent r) as (m & Hq & Hm).
      { rewrite Hperm. by apply list_elem_of_filter. }
      exists m, []. split; [done|].
      replace (contribution r)
        with (sentPayload datatype count (st_mem st) (sendBuffer r)); [done|].
      unfold sentPayload, contribution, size.
      destruct (0 <? count) eqn:Hpos.
      + rewrite (proj2 (Z.eqb_neq _ _)); [done|].
        apply Hptr. rewrite Hperm. by apply list_elem_of_filter.
      + apply Z.ltb_ge in Hpos. assert (count = 0) as -> by lia.
        by rewrite Z.mul_0_r. }
  exists st'. split.
  - by rewrite (bind_Ok _ _ st tt st1).
  - rewrite Hsz, Hload, Hsize1, Hn, Hmem1. by rewrite <- Hsz.
Qed.

(** C2: for every supported operator (MAX, MIN, SUM) and datatype (INT,
    DOUBLE, LONG_LONG), when every rank of a world of size [n] calls
    [reduce] with root [root] (the other ranks in any order, then the root),
    the root's call returns and the elements of its receive buffer are the
    elementwise fold of the operator over the elements of the send buffers
    of all [n] ranks: those of the root's own send buffer (copied in unless
    the call is in place, where the receive buffer is the send buffer and is
    left as it is), with the elements of each other rank in rank order.  The
    elements are the signed values of the integers and the patterns of the
    doubles; the operators are the greater, the lesser and the wrapping sum
    of two integers, and [std::max], [std::min] and the sum of the floating
    point unit on two doubles. *)
Theorem reduce_folds_all_ranks operation datatype n root count
    (sendBuffer recvBuffer : Z -> Z) order st :
  supportedOp operation → supportedType datatype →
  world_size (st_world st) = n → 0 <= root < n → 0 <= count →
  rankHostMap (st_world st) !! root = Some (thisHost (st_world st)) →
  (∀ r, queueOf (st_world st) r root = []) →
  order ≡ₚ filter (fun r => r ≠ root) (seqZ 0 n) →
  (∀ r, r ∈ order → sendBuffer r ≠ nullptr) →
  recvBuffer root + dt_size datatype * count <= st_heap st →
  let size := Z.to_nat (dt_size datatype * count) in
  (∀ r, 0 <= r < n → Forall isByte (load (st_mem st) (sendBuffer r) size)) →
  let elements r :=
    elementsOf datatype count (load (st_mem st) (sendBuffer r) size) in
  ∃ st',
    (forM_ order
       (fun r => reduce r root (sendBuffer r) (recvBuffer r) datatype count
                   operation);;
     reduce root root (sendBuffer root) (recvBuffer root) datatype count
       operation) st
    = (Ok tt, st')
    ∧ elementsOf datatype count (load (st_mem st') (recvBuffer root) size)
      = foldOver operation datatype (elements root)
          (map elements (filter (fun r => r ≠ root) (seqZ 0 n))).
Proof.
  intros Hop Hty Hn Hroot Hcount Hlocal Hempty Hperm Hptr Hheap size Hbytes
    elements.
  destruct (reduce_root_buffer operation datatype n root count sendBuffer
              recvBuffer order st) as (st' & E & Hload); [done..|].
  exists st'. split; [exact E|]. fold size in Hload. rewrite Hload.
  rewrite elementsOf_fold; [by rewrite map_map|done|done|done| | |].
  - apply length_load.
  - apply Hbytes. lia.
  - apply Forall_forall. intros b Hb.
    apply list_elem_of_fmap in Hb as (r & -> & Hr).
    apply list_elem_of_filter in Hr as [_ Hr]. apply elem_of_seqZ in Hr.
    split; [apply length_load|apply Hbytes; lia].
Qed.

End ReduceClaim.

(** Discharges the conditions of the reduce theorem on the five ranks. *)
Ltac five_ranks_reduce :=
  first
    [ by (left + (right; left) + (right; right))
    | reflexivity
    | lia
    | by intros r
    | (intros r Hr; unfold bufferOf, nullptr;
       apply list_elem_of_In in Hr; cbn in Hr; lia)
    | (vm_compute; discriminate)
    | (intros r Hr;
       assert (r = 0 ∨ r = 1 ∨ r = 2 ∨ r = 3 ∨ r = 4)
         as [->|[->|[->|[->| ->]]]] by lia;
       apply (bool_decide_unpack _); vm_compute; reflexivity) ].

(** The theorem on the third scenario of the specification: SUM on INT, five
    ranks, root 3, rank [r] holding [[r, 10r, 100r]]; the root ends with
    [[10, 100, 1000]].  And on doubles, in the arithmetic of IEEE 754, the
    ranks holding [r + 0.5] and, in turn, 0.1, 0.2, 0.3, 0.6 and 0.7, root
    3: the sums are 12.5 and 0.6 + 0.1 + 0.2 + 0.3 + 0.7 as the unit rounds
    it in this order, which gives 1.9 (from rank 0 on it would give
    1.9000000000000001, one unit more in the last place); the greatest are
    4.5 and 0.7; with the sign of every element turned the least are -4.5
    and -0.7. *)
Lemma reduce_folds_all_ranks_witness :
  let everyRank operation datatype count : M unit :=
    forM_ [0; 1; 2; 4]
      (fun r => reduce (H := ieee754) r 3 (bufferOf r) (resultOf r) datatype
                  count operation);;
    reduce (H := ieee754) 3 3 (bufferOf 3) (resultOf 3) datatype count
      operation in
  let halves := [0x3FE0000000000000; 0x3FF8000000000000; 0x4004000000000000;
                 0x400C000000000000; 0x4012000000000000] in
  let tenths := [0x3FB999999999999A; 0x3FC999999999999A; 0x3FD3333333333333;
                 0x3FE3333333333333; 0x3FE6666666666666] in
  let held (sign : Z) r :=
    doubles [sign + halves !!! Z.to_nat r; sign + tenths !!! Z.to_nat r] in
  let stInts := fiveRanksState
              (rankBuffers (fun _ => 170) (fun r => ints [r; 10 * r; 100 * r])) in
  let stDoubles sign := fiveRanksState (rankBuffers (fun _ => 170) (held sign)) in
  (∃ st',
     everyRank MPI_SUM MPI_INT 3 stInts = (Ok tt, st')
     ∧ elementsOf MPI_INT 3 (load (st_mem st') (resultOf 3) 12)
       = [10; 100; 1000])
  ∧ (∃ st',
       everyRank MPI_SUM MPI_DOUBLE 2 (stDoubles 0) = (Ok tt, st')
       ∧ elementsOf MPI_DOUBLE 2 (load (st_mem st') (resultOf 3) 16)
         = [0x4029000000000000; 0x3FFE666666666666])
  ∧ (∃ st',
       everyRank MPI_MAX MPI_DOUBLE 2 (stDoubles 0) = (Ok tt, st')
       ∧ elementsOf MPI_DOUBLE 2 (load (st_mem st') (resultOf 3) 16)
         = [0x4012000000000000; 0x3FE6666666666666])
  ∧ (∃ st',
       everyRank MPI_MIN MPI_DOUBLE 2 (stDoubles (2 ^ 63)) = (Ok tt, st')
       ∧ elementsOf MPI_DOUBLE 2 (load (st_mem st') (resultOf 3) 16)
         = [0xC012000000000000; 0xBFE6666666666666]).
Proof.
  intros everyRank halves tenths held stInts stDoubles. split_and!.
  - destruct (reduce_folds_all_ranks (H := ieee754) MPI_SUM MPI_INT 5 3 3
                bufferOf resultOf [0; 1; 2; 4] stInts) as (st' & E & Hel);
      [five_ranks_reduce..|].
    exists st'. split; [exact E|]. etrans; [exact Hel|].
    vm_compute. reflexivity.
  - destruct (reduce_folds_all_ranks (H := ieee754) MPI_SUM MPI_DOUBLE 5 3 2
                bufferOf resultOf [0; 1; 2; 4] (stDoubles 0))
      as (st' & E & Hel); [five_ranks_reduce..|].
    exists st'. split; [exact E|]. etrans; [exact Hel|].
    vm_compute. reflexivity.
  - destruct (reduce_folds_all_ranks (H := ieee754) MPI_MAX MPI_DOUBLE 5 3 2
                bufferOf resultOf [0; 1; 2; 4] (stDoubles 0))
      as (st' & E & Hel); [five_ranks_reduce..|].
    exists st'. split; [exact E|]. etrans; [exact Hel|].
    vm_compute. reflexivity.
  - destruct (reduce_folds_all_ranks (H := ieee754) MPI_MIN MPI_DOUBLE 5 3 2
                bufferOf resultOf [0; 1; 2; 4] (stDoubles (2 ^ 63)))
      as (st' & E & Hel); [five_ranks_reduce..|].
    exists st'. split; [exact E|]. etrans; [exact Hel|].
    vm_compute. reflexivity.
Defined.

(** ** Scan *)

(** Every rank of [ranks] calls [scan] with SUM, in turn. *)
Definition scanAll (datatype : faabric_datatype_t) (count : Z) (ranks : list Z)
    : M unit :=
  forM_ ranks
    (fun r => scan (H := ieee754) r (bufferOf r) (resultOf r) datatype count
                MPI_SUM).

(** The fourth scenario of the specification: SUM on INT, five ranks, three
    elements, rank [r] holding [[10r, 10r+1, 10r+2]]; rank [k] ends with the
    sums over the ranks [0..k]. *)
Example scan_int_scenario :
  let st := fiveRanksState
              (rankBuffers (fun _ => 170)
                 (fun r => ints [10 * r; 10 * r + 1; 10 * r + 2])) in
  let r := scanAll MPI_INT 3 [0; 1; 2; 3; 4] st in
  fst r = Ok tt
  ∧ map (fun k => load (st_mem (snd r)) (resultOf k) 12) [0; 1; 2; 3; 4]
    = map ints [[0; 1; 2]; [10; 12; 14]; [30; 33; 36]; [60; 64; 68];
                [100; 105; 110]].
Proof. vm_compute. done. Qed.

(** The state in which ranks 0 and 1 hold two [long long]s each; [junk] is
    what the memory holds elsewhere, the blocks [new] hands out included. *)
Definition twoLongs (junk : Mem) (v0 v1 : list Z) : State :=
  fiveRanksState
    (rankBuffers junk (fun r => if r =? 0 then longs v0 else longs v1)).

(** What rank 1 ends with when ranks 0 and 1 scan two [long long]s. *)
Definition scanLongsAtRank1 (junk : Mem) (v0 v1 : list Z) : list Z :=
  load (st_mem (snd (scanAll MPI_LONG_LONG 2 [0; 1] (twoLongs junk v0 v1))))
    (resultOf 1) 16.

(** C3 at LONG_LONG: rank 0 holds [[1, 10]], rank 1 holds [[2, 20]].  The hop
    from rank 0 is sent as two [MPI_INT]: eight bytes, the first element
    only.  Rank 1 reduces them with the eight bytes its fresh block happened
    to hold, and does not end with [[3, 30]]. *)
Lemma scan_long_long_diverges :
  fst (scanAll MPI_LONG_LONG 2 [0; 1] (twoLongs (fun _ => 170) [1; 10] [2; 20]))
  = Ok tt
  ∧ scanLongsAtRank1 (fun _ => 170) [1; 10] [2; 20]
    = longs [3; -6148914691236517186]
  ∧ scanLongsAtRank1 (fun _ => 170) [1; 10] [2; 20] ≠ longs [3; 30].
Proof. vm_compute. split_and!; [done|done|discriminate]. Qed.

(** The second element rank 0 contributes never reaches rank 1: the result
    at rank 1 is the same for [[1, 10]] and [[1, 999]] at rank 0, and over
    zeroed memory it is rank 1's own [[2, 20]] with the first element of
    rank 0 added. *)
Lemma scan_long_long_loses_elements :
  scanLongsAtRank1 (fun _ => 170) [1; 10] [2; 20]
  = scanLongsAtRank1 (fun _ => 170) [1; 999] [2; 20]
  ∧ scanLongsAtRank1 (fun _ => 0) [1; 10] [2; 20] = longs [3; 20]
  ∧ scanLongsAtRank1 (fun _ => 0) [1; 999] [2; 20] = longs [3; 20].
Proof. vm_compute. done. Qed.

(** * Further properties of the sources *)

(** ** Keys of the state store and of the local queues *)

(** Whether the character [c] occurs in [s]. *)
Fixpoint occurs (c : Ascii.ascii) (s : string) : bool :=
  match s with
  | EmptyString => false
  | String a s' => bool_decide (a = c) || occurs c s'
  end.

Lemma occurs_pretty_N_go c x s :
  (∀ d, pretty_N_char d ≠ c) →
  occurs c s = false → occurs c (pretty_N_go x s) = false.
Proof.
  intros Hc. revert s. induction (N.lt_wf_0 x) as [x _ IH]. intros s Hs.
  assert (x = 0 ∨ 0 < x)%N as [->|Hx] by lia.
  - by rewrite pretty_N_go_0.
  - rewrite pretty_N_go_step by done. apply IH.
    + by apply N.div_lt.
    + cbn. rewrite Hs. by rewrite bool_decide_eq_false_2.
Qed.

Lemma pretty_N_char_not_underscore d : pretty_N_char d ≠ "_"%char.
Proof. unfold pretty_N_char. repeat case_match; discriminate. Qed.

(** [std::to_string] of an [int] holds digits and a sign, no underscore. *)
Lemma occurs_to_string z : occurs "_" (to_string z) = false.
Proof.
  assert (Hp : ∀ p, occurs "_" (pretty (N.pos p)) = false).
  { intros p. unfold pretty, pretty_N. rewrite decide_False by done.
    apply occurs_pretty_N_go; [apply pretty_N_char_not_underscore|done]. }
  unfold to_string, pretty, pretty_Z. destruct z as [|p|p].
  - reflexivity.
  - apply Hp.
  - change (occurs "_" (String "-" (pretty p)) = false). cbn.
    apply Hp.
Qed.

Lemma string_app_inj_l (t s1 s2 : string) : t +:+ s1 = t +:+ s2 → s1 = s2.
Proof.
  induction t as [|a t IH]; [done|].
  change (String a (t +:+ s1) = String a (t +:+ s2) → s1 = s2).
  intros E. injection E as E. by apply IH.
Qed.

(** Two strings without the separator [c], each followed by [c] and more:
    equal wholes have equal parts. *)
Lemma string_sep_inj c (a b x y : string) :
  occurs c a = false → occurs c b = false →
  a +:+ String c x = b +:+ String c y → a = b ∧ x = y.
Proof.
  revert b. induction a as [|a0 a IH]; intros [|b0 b] Ha Hb E.
  - change (String c x = String c y) in E. by injection E as ->.
  - change (String c x = String b0 (b +:+ String c y)) in E.
    injection E as -> _. cbn in Hb. by rewrite bool_decide_eq_true_2 in Hb.
  - change (String a0 (a +:+ String c x) = String c y) in E.
    injection E as -> _. cbn in Ha. by rewrite bool_decide_eq_true_2 in Ha.
  - change (String a0 (a +:+ String c x) = String b0 (b +:+ String c y)) in E.
    injection E as -> E. cbn in Ha, Hb.
    apply orb_false_iff in Ha as [_ Ha]. apply orb_false_iff in Hb as [_ Hb].
    destruct (IH b Ha Hb E) as [-> ->]. done.
Qed.

Lemma queueKey_inj s r s' r' :
  queueKey s r = queueKey s' r' → s = s' ∧ r = r'.
Proof.
  unfold queueKey. intros E.
  apply string_sep_inj in E as [Es Er]; [|apply occurs_to_string..].
  split; by apply (inj pretty).
Qed.

(** The counterexample to C9 as stated: a world on [hostA] registers rank 1
    and looks up the queue from rank 0 to rank 1; the invariant holds.
    [overrideHost] then renames this host: the queue is still there, for a
    rank that is mapped to the old name. *)
Lemma overrideHost_breaks_local_queues_counterexample :
  let st0 := set_world (set_identity 123 "mpi" "hellompi") (freshState "hostA") in
  let st := snd (getLocalQueue 0 1 (snd (registerRank 1 st0))) in
  queuesLocal (st_world st)
  ∧ fst (overrideHost "hostB" st) = Ok tt
  ∧ ¬ queuesLocal (st_world (snd (overrideHost "hostB" st))).
Proof.
  intros st0 st.
  assert (Hmap : localQueueMap (st_world st) = <[queueKey 0 1 := []]> ∅)
    by (vm_compute; reflexivity).
  assert (Hrank : rankHostMap (st_world st) !! 1 = Some "hostA")
    by (vm_compute; reflexivity).
  split_and!.
  - intros key q Hq. rewrite Hmap in Hq.
    apply lookup_insert_Some in Hq as [[<- <-]|[_ Hq]];
      [|by rewrite lookup_empty in Hq].
    exists 0, 1. split; [done|]. exact Hrank.
  - reflexivity.
  - intros Hinv. destruct (Hinv (queueKey 0 1) []) as (s & r & Hk & Hr).
    { change (localQueueMap (st_world st) !! queueKey 0 1 = Some []).
      rewrite Hmap. apply lookup_insert_eq. }
    apply queueKey_inj in Hk as [<- <-].
    change (rankHostMap (st_world st) !! 1 = Some "hostB") in Hr.
    rewrite Hrank in Hr. discriminate.
Qed.

Lemma rankKey_inj (i r i' r' : Z) :
  "mpi_rank_" +:+ to_string i +:+ "_" +:+ to_string r
  = "mpi_rank_" +:+ to_string i' +:+ "_" +:+ to_string r' → i = i' ∧ r = r'.
Proof.
  intros E. apply string_app_inj_l in E.
  apply string_sep_inj in E as [Es Er]; [|apply occurs_to_string..].
  split; by apply (inj pretty).
Qed.

(** X1: No two pairs of ranks share a local queue, no two ranks of any two worlds
    share an entry of the state store, no two windows share one, and the
    entry of a world is the entry of no rank and of no window. *)
Theorem state_keys_do_not_collide :
  (∀ s r s' r', queueKey s r = queueKey s' r' → s = s' ∧ r = r')
  ∧ (∀ i r i' r' st st' k,
       getRankStateKey i r st = (Ok k, st) →
       getRankStateKey i' r' st' = (Ok k, st') → i = i' ∧ r = r')
  ∧ (∀ i i' st st' k,
       getWorldStateKey i st = (Ok k, st) →
       getWorldStateKey i' st' = (Ok k, st') → i = i')
  ∧ (∀ i r n i' r' n',
       getWindowStateKey i r n = getWindowStateKey i' r' n' →
       i = i' ∧ r = r' ∧ n = n')
  ∧ (∀ i i' r st st' k,
       getWorldStateKey i st = (Ok k, st) →
       getRankStateKey i' r st' ≠ (Ok k, st')
       ∧ ∀ n, getWindowStateKey i' r n ≠ k).
Proof.
  split_and!.
  - apply queueKey_inj.
  - intros i r i' r' st st' k. unfold getRankStateKey.
    destruct (_ || _); [done|]. destruct (_ || _); [done|].
    unfold mret, M_ret. intros E1 E2. apply rankKey_inj. congruence.
  - intros i i' st st' k. unfold getWorldStateKey.
    destruct (i <=? 0); [done|]. destruct (i' <=? 0); [done|].
    unfold mret, M_ret. intros E1 E2.
    assert (E : "mpi_world_" +:+ to_string i = "mpi_world_" +:+ to_string i')
      by congruence.
    apply string_app_inj_l in E. by apply (inj pretty) in E.
  - intros i r n i' r' n'. unfold getWindowStateKey. intros E.
    apply string_app_inj_l in E.
    apply string_sep_inj in E as [Ei E]; [|apply occurs_to_string..].
    apply string_sep_inj in E as [Er En]; [|apply occurs_to_string..].
    split_and!; by apply (inj pretty).
  - intros i i' r st st' k. unfold getWorldStateKey, getRankStateKey.
    destruct (i <=? 0); [done|]. unfold mret, M_ret. intros E1. split.
    + destruct (_ || _); [done|]. intros E2.
      assert (E : "mpi_world_" +:+ to_string i
                  = "mpi_rank_" +:+ to_string i' +:+ "_" +:+ to_string r)
        by congruence.
      discriminate E.
    + intros n E. unfold getWindowStateKey in E.
      assert (E' : "mpi_world_" +:+ to_string i
                   = "mpi_win_" +:+ to_string i' +:+ "_" +:+ to_string r
                       +:+ "_" +:+ to_string n) by congruence.
      discriminate E'.
Qed.

(** ** Registration of ranks and the state store *)



(** *** Host names in the state store *)

Lemma c_str_no_null (s : string) : 0 ∉ c_str s.
Proof.
  induction s as [|c s IH]; cbn; [apply not_elem_of_nil|].
  destruct (byteOf c =? 0) eqn:E; [apply not_elem_of_nil|].
  apply Z.eqb_neq in E. apply not_elem_of_cons. split; [lia|done].
Qed.

Lemma stringOfBuffer_padded (bs : list Z) (k : nat) :
  0 ∉ bs → stringOfBuffer (bs ++ replicate k 0) = stringOfBuffer bs.
Proof.
  induction bs as [|b bs IH]; intros Hn.
  - by destruct k.
  - apply not_elem_of_cons in Hn as [Hb Hn]. cbn.
    rewrite (proj2 (Z.eqb_neq b 0)) by lia. by rewrite IH.
Qed.

Lemma charOf_byteOf (c : Ascii.ascii) : charOf (byteOf c) = c.
Proof.
  unfold charOf, byteOf. rewrite N2Z.id. apply Ascii.ascii_N_embedding.
Qed.

(** A host name without a null byte is its own C string. *)
Lemma stringOfBuffer_c_str (s : string) :
  Z.of_nat (String.length s) = strlen s → stringOfBuffer (c_str s) = s.
Proof.
  unfold strlen. induction s as [|c s IH]; [done|]. cbn.
  destruct (byteOf c =? 0) eqn:E; cbn; [intros; lia|].
  intros Hlen. rewrite ?E, charOf_byteOf. rewrite IH; [done|lia].
Qed.

Lemma length_hostBuffer (host : string) :
  strlen host < MPI_HOST_STATE_LEN →
  length (hostBuffer host) = Z.to_nat MPI_HOST_STATE_LEN.
Proof.
  unfold strlen, hostBuffer. intros Hlen.
  rewrite length_app, length_replicate. lia.
Qed.

Lemma kvGetBytes_hostBuffer key host st :
  strlen host < MPI_HOST_STATE_LEN →
  st_kv st !! key = Some (KVBytes (hostBuffer host)) →
  kvGetBytes key MPI_HOST_STATE_LEN st = (Ok (hostBuffer host), st).
Proof.
  intros Hlen Hkv. unfold kvGetBytes, kvGet. run_m. rewrite Hkv.
  rewrite take_app_length'; [done|]. symmetry. by apply length_hostBuffer.
Qed.


Lemma hostBuffer_head (host : string) :
  head (hostBuffer host) = Some 0 ↔ c_str host = [].
Proof.
  unfold hostBuffer. pose proof (c_str_no_null host) as Hn.
  destruct (c_str host) as [|b bs]; cbn.
  - split; [done|]. intros _. reflexivity.
  - apply not_elem_of_cons in Hn as [Hb _]. split; [|done].
    intros [= ->]. done.
Qed.

Lemma hostBuffer_null (host : string) :
  strlen host < MPI_HOST_STATE_LEN → 0 ∈ hostBuffer host.
Proof.
  unfold strlen, hostBuffer. intros Hlen. apply elem_of_app. right.
  apply elem_of_replicate. split; [done|]. lia.
Qed.

(** What another world reads of a registered host. *)
Lemma getHostForRank_stored rank host st :
  0 < world_id (st_world st) → 0 <= rank →
  rankHostMap (st_world st) !! rank = None →
  strlen host < MPI_HOST_STATE_LEN →
  st_kv st !! rankStateKey (world_id (st_world st)) rank
    = Some (KVBytes (hostBuffer host)) →
  let name := stringOfBuffer (c_str host) in
  getHostForRank rank st
  = if decide (c_str host = [])
    then (Throw (runtime_error "No host entry for rank"), st)
    else (Ok name,
          set_world (set_rankHostMap (fun m => <[rank := name]> m)) st).
Proof.
  intros Hid Hr Hnone Hlen Hkv name. unfold getHostForRank.
  rewrite (bind_Ok _ _ st (st_world st) st) by done. rewrite Hnone.
  erewrite bind_Ok by (by apply getRankHostState_ok).
  erewrite bind_Ok by (by apply kvGetBytes_hostBuffer).
  destruct (decide (c_str host = [])) as [He|He].
  - rewrite bool_decide_eq_true_2 by (by apply hostBuffer_head). done.
  - rewrite bool_decide_eq_false_2 by (by rewrite hostBuffer_head).
    rewrite bool_decide_eq_true_2 by (by apply hostBuffer_null).
    unfold hostBuffer. rewrite stringOfBuffer_padded by apply c_str_no_null.
    reflexivity.
Qed.

(** X2: A rank registered on one host is found from every world object of the
    same world that shares the state store.  The registering world answers
    from its map, with the host name as it is.  The store holds the name as
    a C string in a buffer of [MPI_HOST_STATE_LEN] bytes: a name of that
    many bytes or more is written past the buffer; of a shorter one another
    world reads the bytes before the first null byte, enters them in its own
    map and answers from there afterwards, and it finds no entry when there
    are no such bytes.  A name without a null byte is read back whole. *)
Theorem registered_rank_is_found_through_state rank st st2 :
  0 < world_id (st_world st) → 0 <= rank →
  world_id (st_world st2) = world_id (st_world st) →
  rankHostMap (st_world st2) !! rank = None →
  st_kv st2 = st_kv (snd (registerRank rank st)) →
  let host := thisHost (st_world st) in
  let name := stringOfBuffer (c_str host) in
  let st' := snd (registerRank rank st) in
  let st2' := set_world (set_rankHostMap (fun m => <[rank := name]> m)) st2 in
  (strlen host < MPI_HOST_STATE_LEN →
     fst (registerRank rank st) = Ok tt
     ∧ getHostForRank rank st' = (Ok host, st')
     ∧ (name ≠ "" →
          getHostForRank rank st2 = (Ok name, st2')
          ∧ getHostForRank rank st2' = (Ok name, st2'))
     ∧ (name = "" →
          getHostForRank rank st2
          = (Throw (runtime_error "No host entry for rank"), st2)))
  ∧ (MPI_HOST_STATE_LEN <= strlen host →
     fst (registerRank rank st)
     = Undefined "strcpy writes past hostBytesBuffer")
  ∧ (Z.of_nat (String.length host) = strlen host → name = host).
Proof.
  intros Hi Hr Hid Hnone Hkv host name st' st2'. split_and!.
  - intros Hlen. unfold st', st2' in *.
    rewrite registerRank_run in * by done. cbn [fst snd] in *.
    assert (Hstored : st_kv st2 !! rankStateKey (world_id (st_world st2)) rank
                      = Some (KVBytes (hostBuffer host))).
    { rewrite Hkv, Hid. cbn. by rewrite lookup_insert_eq. }
    assert (Hname : name = "" ↔ c_str host = []).
    { unfold name. destruct (c_str host) as [|b bs] eqn:E; [done|].
      pose proof (c_str_no_null host) as Hn. rewrite E in Hn.
      apply not_elem_of_cons in Hn as [Hb _]. cbn.
      by rewrite (proj2 (Z.eqb_neq b 0)) by lia. }
    pose proof (getHostForRank_stored rank host st2) as Hget.
    cbv zeta in Hget. rewrite Hget by (done || lia).
    split_and!.
    + done.
    + apply getHostForRank_cached. cbn. by rewrite lookup_insert_eq.
    + intros Hne. rewrite decide_False by (by rewrite <- Hname). split; [done|].
      apply getHostForRank_cached. cbn. by rewrite lookup_insert_eq.
    + intros He. by rewrite decide_True by (by rewrite <- Hname).
  - intros Hlen. by rewrite registerRank_overflow.
  - apply stringOfBuffer_c_str.
Qed.

(** Rank 2 registered on [hostA] is found from a world on [hostB]. *)
Lemma registered_rank_is_found_through_state_witness :
  let st := set_world (set_identity 123 "mpi" "hellompi") (freshState "hostA") in
  let st2 := set_kv (fun _ => st_kv (snd (registerRank 2 st)))
               (set_world (set_identity 123 "mpi" "hellompi") (freshState "hostB")) in
  getHostForRank 2 st2
  = (Ok "hostA", set_world (set_rankHostMap (fun m => <[2 := "hostA"]> m)) st2).
Proof.
  intros st st2.
  destruct (registered_rank_is_found_through_state 2 st st2)
    as ((_ & _ & E & _) & _).
  - cbn. lia.
  - lia.
  - reflexivity.
  - reflexivity.
  - reflexivity.
  - vm_compute. reflexivity.
  - destruct E as [E _]; [discriminate|]. exact E.
Defined.

(** *** Creation, hydration and destruction *)

(** [create] on a world object that holds no handle to the store yet. *)
Lemma create_state call newId newSize st :
  0 < newId → stateKV (st_world st) = None →
  strlen (thisHost (st_world st)) < MPI_HOST_STATE_LEN →
  ∃ st',
    create call newId newSize st = (Ok tt, st')
    ∧ st_kv st'
      = <[rankStateKey newId 0 := KVBytes (hostBuffer (thisHost (st_world st)))]>
          (<[worldStateKey newId := KVWorld newSize]> (st_kv st))
    ∧ rankHostMap (st_world st')
      = <[0 := thisHost (st_world st)]> (rankHostMap (st_world st))
    ∧ world_id (st_world st') = newId
    ∧ world_size (st_world st') = newSize
    ∧ world_user (st_world st') = msg_user call
    ∧ world_function (st_world st') = msg_function call
    ∧ thisHost (st_world st') = thisHost (st_world st)
    ∧ threadPool (st_world st') = Some (Z.min newSize (st_usableCores st))
    ∧ localQueueMap (st_world st') = localQueueMap (st_world st).
Proof.
  intros Hid Hkv Hlen. rewrite create_run by done.
  eexists. split; [reflexivity|]. unfold created. rewrite Hkv. cbn. done.
Qed.





(** The rank loop of [destroy]: the entries of the ranks are deleted, one
    after the other. *)
Lemma set_kv_set_kv f g st : set_kv f (set_kv g st) = set_kv (fun kv => f (g kv)) st.
Proof. by destruct st. Qed.

Lemma set_kv_id st : set_kv (fun kv => kv) st = st.
Proof. by destruct st. Qed.

Lemma destroy_ranks rs st :
  0 < world_id (st_world st) → (∀ r, r ∈ rs → 0 <= r) →
  forM_ rs (fun rank => key ← getRankHostState rank; kvDelete key) st
  = (Ok tt,
     set_kv (fun kv =>
       fold_left (fun kv r => delete (rankStateKey (world_id (st_world st)) r) kv)
         rs kv) st).
Proof.
  intros Hid. revert st Hid. induction rs as [|r rs IH]; intros st Hid Hrs.
  - cbn. by rewrite set_kv_id.
  - cbn [forM_ fold_left].
    erewrite bind_Ok; last first.
    { erewrite bind_Ok by (apply getRankHostState_ok;
                           [done|apply Hrs; by left]).
      reflexivity. }
    rewrite IH; [|done|intros; apply Hrs; by right].
    cbn. by rewrite set_kv_set_kv.
Qed.

Lemma lookup_fold_delete_None {V} (key : Z -> string) rs (kv : gmap string V) k :
  kv !! k = None → fold_left (fun kv r => delete (key r) kv) rs kv !! k = None.
Proof.
  revert kv. induction rs as [|r rs IH]; intros kv Hk; cbn [fold_left]; [done|].
  apply IH. destruct (decide (k = key r)) as [->|Hne].
  - by rewrite lookup_delete_eq.
  - by rewrite lookup_delete_ne.
Qed.

Lemma lookup_fold_delete_in {V} (key : Z -> string) rs (kv : gmap string V) r :
  r ∈ rs → fold_left (fun kv r => delete (key r) kv) rs kv !! key r = None.
Proof.
  revert kv. induction rs as [|r' rs IH]; intros kv Hr; cbn [fold_left].
  - by apply elem_of_nil in Hr.
  - apply elem_of_cons in Hr as [->|Hr]; [|by apply IH].
    apply lookup_fold_delete_None. by rewrite lookup_delete_eq.
Qed.

Lemma lookup_fold_delete_notin {V} (key : Z -> string) rs (kv : gmap string V) k :
  (∀ r, r ∈ rs → k ≠ key r) →
  fold_left (fun kv r => delete (key r) kv) rs kv !! k = kv !! k.
Proof.
  revert kv. induction rs as [|r rs IH]; intros kv Hk; cbn [fold_left]; [done|].
  rewrite IH by (intros; apply Hk; by right).
  apply lookup_delete_ne. intros E. by apply (Hk r); [left|].
Qed.

(** X5: [destroy] deletes from the store the entry of the world and the entry of
    every rank the world object has in its host map, leaves every other
    entry alone and empties the local queues.  The host map itself is not
    cleared. *)
Theorem destroy_deletes_the_world_from_state st :
  0 < world_id (st_world st) →
  (∀ r, is_Some (rankHostMap (st_world st) !! r) → 0 <= r) →
  let i := world_id (st_world st) in
  let worldKey := default (worldStateKey i) (stateKV (st_world st)) in
  let st' := snd (destroy st) in
  fst (destroy st) = Ok tt
  ∧ st_kv st' !! worldKey = None
  ∧ (∀ r, is_Some (rankHostMap (st_world st) !! r) →
          st_kv st' !! rankStateKey i r = None)
  ∧ (∀ k, k ≠ worldKey →
          (∀ r, is_Some (rankHostMap (st_world st) !! r) →
                k ≠ rankStateKey i r) →
          st_kv st' !! k = st_kv st !! k)
  ∧ localQueueMap (st_world st') = ∅
  ∧ rankHostMap (st_world st') = rankHostMap (st_world st).
Proof.
  intros Hid Hranks i worldKey st'. unfold st'. clear st'.
  assert (Hel : ∀ r, r ∈ map fst (map_to_list (rankHostMap (st_world st)))
                     ↔ is_Some (rankHostMap (st_world st) !! r)).
  { intros r. rewrite list_elem_of_fmap. split.
    - intros ([r' h] & -> & Hin). apply elem_of_map_to_list in Hin. by eexists.
    - intros [h Hh]. exists (r, h). split; [done|].
      by apply elem_of_map_to_list. }
  assert (Hrun : ∃ st1,
    st_kv st1 = st_kv st ∧ stateKV (st_world st1) = Some worldKey
    ∧ rankHostMap (st_world st1) = rankHostMap (st_world st)
    ∧ world_id (st_world st1) = i
    ∧ setUpStateKV st = (Ok tt, st1)).
  { unfold setUpStateKV. run_m. unfold worldKey.
    destruct (stateKV (st_world st)) as [key|] eqn:Ekey.
    - exists st. by rewrite Ekey.
    - rewrite getWorldStateKey_ok by done.
      by exists (set_world (set_stateKV (Some (worldStateKey i))) st). }
  destruct Hrun as (st1 & Hkv1 & Hkey1 & Hmap1 & Hid1 & Hrun).
  unfold destroy. erewrite bind_Ok by exact Hrun.
  rewrite (bind_Ok _ _ st1 (st_world st1) st1) by done.
  rewrite Hkey1. erewrite bind_Ok by reflexivity.
  erewrite bind_Ok; last first.
  { apply destroy_ranks.
    - cbn. by rewrite Hid1.
    - intros r Hr. apply Hranks. apply Hel. by rewrite <- Hmap1. }
  cbn. rewrite Hid1, Hmap1, Hkv1. fold i.
  split_and!; try done.
  - apply lookup_fold_delete_None. by rewrite lookup_delete_eq.
  - intros r Hr. apply lookup_fold_delete_in. by apply Hel.
  - intros k Hk Hnot. rewrite lookup_fold_delete_notin.
    + by rewrite lookup_delete_ne.
    + intros r Hr. apply Hnot. by apply Hel.
Qed.

Lemma destroy_deletes_the_world_from_state_witness :
  let st := snd (create mpiCall 123 10 (freshState "host")) in
  fst (destroy st) = Ok tt ∧ st_kv (snd (destroy st)) !! rankStateKey 123 0 = None.
Proof.
  intros st.
  destruct (destroy_deletes_the_world_from_state st) as (E & _ & Hr & _).
  - vm_compute. reflexivity.
  - intros r [h Hh]. destruct (decide (r = 0)) as [->|Hne]; [lia|].
    exfalso. revert Hh. unfold st.
    destruct (create_state mpiCall 123 10 (freshState "host"))
      as (st' & E & _ & Hm & _); [lia|reflexivity|vm_compute; reflexivity|].
    rewrite E. cbn [snd]. rewrite Hm. rewrite lookup_insert_ne by done. done.
  - split; [exact E|]. apply Hr. vm_compute. by eexists.
Defined.

(** ** Point-to-point transfers, continued *)

(** X6: A send to a rank of another host: the message goes to that host over the
    network, whatever its type (a notification of a remote write included);
    the world object, its queues, the memory and the store stay as they
    are. *)
Theorem send_to_remote_rank st sendRank recvRank buffer dataType count
    messageType host :
  recvRank <= world_size (st_world st) - 1 →
  rankHostMap (st_world st) !! recvRank = Some host →
  host ≠ thisHost (st_world st) →
  ∃ st',
    send sendRank recvRank buffer dataType count messageType st = (Ok tt, st')
    ∧ st_rpc st'
      = st_rpc st
        ++ [(host, sentMessage st sendRank recvRank buffer dataType count
                     messageType)]
    ∧ st_world st' = st_world st
    ∧ st_mem st' = st_mem st
    ∧ st_kv st' = st_kv st.
Proof.
  intros Hsize Hhost Hremote. unfold send.
  rewrite (bind_Ok _ _ st (st_world st) st) by done.
  rewrite (proj2 (Z.ltb_ge _ _)) by lia.
  erewrite bind_Ok by reflexivity.
  erewrite bind_Ok by (by apply getHostForRank_cached).
  cbn [st_world]. rewrite bool_decide_eq_false_2 by done.
  erewrite bind_Ok by reflexivity.
  eexists. split; [reflexivity|]. done.
Qed.

Lemma send_to_remote_rank_witness :
  let w := set_rankHostMap (fun _ => {[ 1 := "hostA"; 2 := "hostB" ]})
             (set_size 10 (newMpiWorld "hostA")) in
  let st := {| st_world := w; st_mem := fun _ => 7; st_kv := ∅; st_gid := 1;
               st_calls := []; st_rpc := []; st_usableCores := 4;
               st_heap := 0 |} in
  ∃ st', send 1 2 100 MPI_INT 1 NORMAL st = (Ok tt, st')
         ∧ st_rpc st' = [("hostB", sentMessage st 1 2 100 MPI_INT 1 NORMAL)].
Proof.
  intros w st.
  destruct (send_to_remote_rank st 1 2 100 MPI_INT 1 NORMAL "hostB")
    as (st' & E & Hrpc & _).
  - cbn. lia.
  - reflexivity.
  - discriminate.
  - exists st'. split; [exact E|exact Hrpc].
Defined.

(** X7: What a send followed by the matching receive moves: the bytes of the
    send buffer, as they were when [send] was called.  The receiver may ask
    for more elements than were sent, and its datatype is not compared with
    the sender's. *)
Theorem send_then_recv_delivers_the_bytes st sendRank recvRank buffer
    recvBuffer dataType recvType count recvCount messageType :
  recvRank <= world_size (st_world st) - 1 →
  rankHostMap (st_world st) !! recvRank = Some (thisHost (st_world st)) →
  messageType ≠ RMA_WRITE →
  queueOf (st_world st) sendRank recvRank = [] →
  0 < count → count <= recvCount → buffer ≠ nullptr →
  let n := Z.to_nat (dt_size dataType * count) in
  ∃ st1 st2,
    send sendRank recvRank buffer dataType count messageType st = (Ok tt, st1)
    ∧ recv sendRank recvRank recvBuffer recvType recvCount None messageType st1
      = (Ok None, st2)
    ∧ load (st_mem st2) recvBuffer n = load (st_mem st) buffer n
    ∧ (∀ a, a < recvBuffer ∨ recvBuffer + Z.of_nat n <= a →
            st_mem st2 a = st_mem st a)
    ∧ queueOf (st_world st2) sendRank recvRank = [].
Proof.
  intros Hsize Hlocal Hrma Hempty Hcount Hrecv Hbuf n.
  destruct (send_local st sendRank recvRank buffer dataType count messageType)
    as (st1 & E1 & Hq & Hr & Hh & _ & _ & Hmem & _); [done..|].
  rewrite Hempty in Hq. cbn [app] in Hq.
  exists st1. eexists. split; [exact E1|].
  rewrite (recv_head st1 _ _ _ _ _ _ _
             (sentMessage st sendRank recvRank buffer dataType count messageType)
             []); [|by rewrite Hr, Hh|by rewrite Hq, lookup_insert_eq].
  rewrite decide_False by (intros Hne; by apply Hne).
  cbn [sentMessage mpi_count mpi_buffer mpi_messagetype].
  rewrite (proj2 (Z.ltb_ge _ _)) by lia.
  rewrite (proj2 (Z.ltb_lt 0 count)) by done.
  assert (Hnn : (buffer =? nullptr) = false) by by apply Z.eqb_neq.
  rewrite Hnn. cbn [andb negb].
  split; [reflexivity|]. cbn. rewrite Hmem. split_and!.
  - apply load_store_length. apply length_load.
  - intros a Ha. apply store_outside. by rewrite length_load.
  - unfold queueOf. cbn. by rewrite lookup_insert_eq.
Qed.

Lemma send_then_recv_delivers_the_bytes_witness :
  let w := set_rankHostMap (fun _ => {[ 1 := "host"; 2 := "host" ]})
             (set_size 10 (newMpiWorld "host")) in
  let st := {| st_world := w; st_mem := fun a => a mod 256; st_kv := ∅;
               st_gid := 1; st_calls := []; st_rpc := []; st_usableCores := 4;
               st_heap := 0 |} in
  ∃ st1 st2,
    send 1 2 100 MPI_INT 3 NORMAL st = (Ok tt, st1)
    ∧ recv 1 2 200 MPI_DOUBLE 5 None NORMAL st1 = (Ok None, st2)
    ∧ load (st_mem st2) 200 12 = load (st_mem st) 100 12.
Proof.
  intros w st.
  destruct (send_then_recv_delivers_the_bytes st 1 2 100 200 MPI_INT MPI_DOUBLE
              3 5 NORMAL) as (st1 & st2 & E1 & E2 & Hl & _).
  - cbn. lia.
  - reflexivity.
  - discriminate.
  - reflexivity.
  - lia.
  - lia.
  - discriminate.
  - exists st1, st2. split; [exact E1|]. split; [exact E2|exact Hl].
Defined.

(** *** One queue per pair *)

(** The queue of the pair [(s, r)] holds [q]. *)
Definition queueIs (s r : Z) (q : list MPIMessage) : State -> Prop :=
  fun st => queueOf (st_world st) s r = q.

Lemma queueIs_frame s r q (f : State -> State) :
  (∀ st, localQueueMap (st_world (f st)) = localQueueMap (st_world st)) →
  preserves (queueIs s r q) (modify f).
Proof.
  intros Hf. apply preserves_modify. intros st. unfold queueIs, queueOf.
  by rewrite Hf.
Qed.

Lemma queueIs_getHostForRank s r q rank :
  preserves (queueIs s r q) (getHostForRank rank).
Proof.
  intros st Hst.
  by destruct (getHostForRank_spec rank st)
    as [(host & _ & ->)|(Hnone & [(e & _ & ->)|(host & _ & ->)])].
Qed.

Lemma queueIs_synchronizeRmaWrite s r q msg isRemote :
  preserves (queueIs s r q) (synchronizeRmaWrite msg isRemote).
Proof.
  unfold synchronizeRmaWrite, kvGet, modifyWorld.
  apply preserves_bind; [apply preserves_gets|intros w].
  apply preserves_bind; [apply preserves_gets|intros kv].
  apply preserves_bind; [by apply queueIs_frame|intros _].
  by apply queueIs_frame.
Qed.

Lemma queueIs_ensureQueue s r q s' r' st :
  queueIs s r q st →
  queueIs s r q (set_world (ensureQueue (queueKey s' r')) st).
Proof.
  unfold queueIs, queueOf, ensureQueue. cbn. intros Hq.
  destruct (localQueueMap (st_world st) !! queueKey s' r') as [q'|] eqn:E;
    [done|]. cbn.
  destruct (decide (queueKey s' r' = queueKey s r)) as [Heq|Hne].
  - rewrite Heq in *. rewrite lookup_insert_eq. by rewrite E in Hq.
  - by rewrite lookup_insert_ne.
Qed.

Lemma queueIs_enqueue s r q s' r' m :
  (s', r') ≠ (s, r) → preserves (queueIs s r q) (enqueue (queueKey s' r') m).
Proof.
  intros Hne. apply preserves_modify. intros st. unfold queueIs, queueOf. cbn.
  rewrite lookup_alter_ne; [done|].
  intros Heq. apply queueKey_inj in Heq as [-> ->]. done.
Qed.

Lemma queueIs_dequeue s r q s' r' :
  (s', r') ≠ (s, r) → preserves (queueIs s r q) (dequeue (queueKey s' r')).
Proof.
  intros Hne st Hst. unfold dequeue. run_m.
  destruct (localQueueMap (st_world st) !! queueKey s' r') as [[|m rest]|];
    try done.
  unfold queueIs, queueOf in *. cbn. rewrite lookup_insert_ne; [done|].
  intros Heq. apply queueKey_inj in Heq as [-> ->]. done.
Qed.

Lemma queueIs_send s r q s' r' buffer dataType count messageType :
  (s', r') ≠ (s, r) →
  preserves (queueIs s r q) (send s' r' buffer dataType count messageType).
Proof.
  intros Hne. unfold send.
  apply preserves_bind; [apply preserves_gets|intros w].
  destruct (_ <? _); [apply preserves_throw|].
  apply preserves_bind; [by intros st|intros msgId].
  apply preserves_bind; [apply queueIs_getHostForRank|intros otherHost].
  apply preserves_bind; [apply preserves_gets|intros mem].
  cbv zeta. destruct (bool_decide _).
  - destruct (decide _).
    + apply queueIs_synchronizeRmaWrite.
    + intros st Hst. unfold mbind, M_bind. rewrite getLocalQueue_spec.
      case_decide; [|done].
      apply queueIs_enqueue; [done|]. by apply queueIs_ensureQueue.
  - by intros st.
Qed.

Lemma queueIs_recv s r q s' r' buffer dataType count status messageType :
  (s', r') ≠ (s, r) →
  preserves (queueIs s r q) (recv s' r' buffer dataType count status messageType).
Proof.
  intros Hne st Hst. unfold recv. unfold mbind at 1. unfold M_bind at 1.
  rewrite getLocalQueue_spec. case_decide; [|done].
  match goal with
  | |- queueIs _ _ _ (snd (?k ?st1)) =>
      assert (Hk : preserves (queueIs s r q) k); [|apply Hk]
  end.
  - apply preserves_bind; [by apply queueIs_dequeue|intros m].
    destruct (decide _); [apply preserves_throw|].
    destruct (_ <? _); [apply preserves_throw|].
    apply preserves_bind; [|intros _; apply preserves_ret].
    destruct (_ <? _); [by apply queueIs_frame|apply preserves_ret].
  - by apply queueIs_ensureQueue.
Qed.

(** X8: Every pair of ranks has a queue of its own: a send from [s'] to [r'] and
    a receive at [r'] from [s'], whatever their outcome (return, throw or
    block), leave the queue of every other pair [(s, r)] as it is.  So the
    order in which a rank receives from different senders is free. *)
Theorem transfers_touch_the_queue_of_their_pair_only st s r s' r' buffer
    dataType count status messageType :
  (s', r') ≠ (s, r) →
  queueOf (st_world (snd (send s' r' buffer dataType count messageType st))) s r
  = queueOf (st_world st) s r
  ∧ queueOf (st_world
       (snd (recv s' r' buffer dataType count status messageType st))) s r
    = queueOf (st_world st) s r.
Proof.
  intros Hne. split.
  - by apply (queueIs_send s r _ s' r').
  - by apply (queueIs_recv s r _ s' r').
Qed.

Lemma transfers_touch_the_queue_of_their_pair_only_witness :
  let w := set_rankHostMap (fun _ => {[ 0 := "host" ]})
             (set_size 4 (newMpiWorld "host")) in
  let st := {| st_world := w; st_mem := fun _ => 7; st_kv := ∅; st_gid := 1;
               st_calls := []; st_rpc := []; st_usableCores := 4;
               st_heap := 0 |} in
  queueOf (st_world (snd (send 1 0 100 MPI_INT 1 NORMAL st))) 3 0
  = queueOf (st_world st) 3 0.
Proof.
  intros w st.
  destruct (transfers_touch_the_queue_of_their_pair_only st 3 0 1 0 100
              MPI_INT 1 None NORMAL) as [E _].
  - intros [= ?].
  - exact E.
Defined.

(** X9: Messages of one pair arrive in the order they were sent: after two sends
    from [s] to [r], the first receive takes the bytes of the first send and
    the second receive those of the second. *)
Theorem messages_of_a_pair_arrive_in_order st s r b1 b2 x y dataType count
    messageType :
  r <= world_size (st_world st) - 1 →
  rankHostMap (st_world st) !! r = Some (thisHost (st_world st)) →
  messageType ≠ RMA_WRITE →
  queueOf (st_world st) s r = [] →
  0 < count → b1 ≠ nullptr → b2 ≠ nullptr →
  let n := Z.to_nat (dt_size dataType * count) in
  x + Z.of_nat n <= y ∨ y + Z.of_nat n <= x →
  ∃ st1 st2 st3 st4,
    send s r b1 dataType count messageType st = (Ok tt, st1)
    ∧ send s r b2 dataType count messageType st1 = (Ok tt, st2)
    ∧ recv s r x dataType count None messageType st2 = (Ok None, st3)
    ∧ recv s r y dataType count None messageType st3 = (Ok None, st4)
    ∧ load (st_mem st4) x n = load (st_mem st) b1 n
    ∧ load (st_mem st4) y n = load (st_mem st) b2 n.
Proof.
  intros Hsize Hlocal Hrma Hempty Hcount Hb1 Hb2 n Hdisj.
  destruct (send_local st s r b1 dataType count messageType)
    as (st1 & E1 & Hq1 & Hr1 & Hh1 & Hs1 & _ & Hm1 & _); [done..|].
  rewrite Hempty in Hq1. cbn [app] in Hq1.
  destruct (send_local st1 s r b2 dataType count messageType)
    as (st2 & E2 & Hq2 & Hr2 & Hh2 & _ & _ & Hm2 & _);
    [by rewrite Hs1|by rewrite Hr1, Hh1|done|].
  unfold queueOf in Hq2. rewrite Hq1, lookup_insert_eq in Hq2.
  cbn [default app] in Hq2. rewrite insert_insert_eq in Hq2.
  set (m1 := sentMessage st s r b1 dataType count messageType) in *.
  set (m2 := sentMessage st1 s r b2 dataType count messageType) in *.
  assert (Hm1b : mpi_buffer m1 = load (st_mem st) b1 n).
  { unfold m1, sentMessage. cbn. rewrite (proj2 (Z.ltb_lt 0 count)) by done.
    by rewrite (proj2 (Z.eqb_neq b1 nullptr)) by done. }
  assert (Hm2b : mpi_buffer m2 = load (st_mem st) b2 n).
  { unfold m2, sentMessage. cbn. rewrite (proj2 (Z.ltb_lt 0 count)) by done.
    rewrite (proj2 (Z.eqb_neq b2 nullptr)) by done. by rewrite Hm1. }
  exists st1, st2. eexists. eexists.
  split; [exact E1|]. split; [exact E2|].
  rewrite (recv_head st2 _ _ _ _ _ _ _ m1 [m2]);
    [|by rewrite Hr2, Hr1, Hh2, Hh1|by rewrite Hq2, lookup_insert_eq].
  rewrite decide_False by (intros Hne; by apply Hne).
  replace (mpi_count m1) with count by done.
  rewrite Z.ltb_irrefl. rewrite (proj2 (Z.ltb_lt 0 count)) by done.
  split; [reflexivity|].
  erewrite recv_head; [|cbn; by rewrite Hr2, Hr1, Hh2, Hh1
                        |cbn; by rewrite lookup_insert_eq].
  rewrite decide_False by (intros Hne; by apply Hne).
  replace (mpi_count m2) with count by done.
  rewrite Z.ltb_irrefl. rewrite (proj2 (Z.ltb_lt 0 count)) by done.
  split; [reflexivity|]. cbn [st_mem set_mem set_world].
  rewrite Hm1b, Hm2b. split.
  - rewrite load_store_disjoint by (rewrite length_load; lia).
    apply load_store_length, length_load.
  - apply load_store_length, length_load.
Qed.

Lemma messages_of_a_pair_arrive_in_order_witness :
  let w := set_rankHostMap (fun _ => {[ 1 := "host"; 2 := "host" ]})
             (set_size 10 (newMpiWorld "host")) in
  let st := {| st_world := w; st_mem := fun a => a mod 256; st_kv := ∅;
               st_gid := 1; st_calls := []; st_rpc := []; st_usableCores := 4;
               st_heap := 0 |} in
  ∃ st1 st2 st3 st4,
    send 1 2 100 MPI_INT 2 NORMAL st = (Ok tt, st1)
    ∧ send 1 2 108 MPI_INT 2 NORMAL st1 = (Ok tt, st2)
    ∧ recv 1 2 200 MPI_INT 2 None NORMAL st2 = (Ok None, st3)
    ∧ recv 1 2 208 MPI_INT 2 None NORMAL st3 = (Ok None, st4)
    ∧ load (st_mem st4) 200 8 = load (st_mem st) 100 8
    ∧ load (st_mem st4) 208 8 = load (st_mem st) 108 8.
Proof.
  intros w st.
  apply (messages_of_a_pair_arrive_in_order st 1 2 100 108 200 208 MPI_INT 2
           NORMAL).
  - cbn. lia.
  - reflexivity.
  - discriminate.
  - reflexivity.
  - lia.
  - discriminate.
  - discriminate.
  - cbn. lia.
Defined.

(** *** Probing *)

(** X10: A probe after a send into an empty queue reports the message without
    taking it: the source, the size in bytes by the datatype the message
    carries, error 0; [MPI_TAG] is left as the caller had it.  The state is
    the same after the probe, so a second probe reports the same and a
    receive still finds the message. *)
Theorem probe_reports_the_pending_message st sendRank recvRank buffer
    dataType count messageType status :
  recvRank <= world_size (st_world st) - 1 →
  rankHostMap (st_world st) !! recvRank = Some (thisHost (st_world st)) →
  messageType ≠ RMA_WRITE →
  queueOf (st_world st) sendRank recvRank = [] →
  getFaabricDatatypeFromId (dt_id dataType) = dataType →
  ∃ st1,
    send sendRank recvRank buffer dataType count messageType st = (Ok tt, st1)
    ∧ probe sendRank recvRank status st1
      = (Ok {| MPI_SOURCE := sendRank; MPI_TAG := MPI_TAG status;
               MPI_ERROR := 0; bytesSize := count * dt_size dataType |}, st1)
    ∧ queueOf (st_world st1) sendRank recvRank
      = [sentMessage st sendRank recvRank buffer dataType count messageType].
Proof.
  intros Hsize Hlocal Hrma Hempty Hdt.
  destruct (send_local st sendRank recvRank buffer dataType count messageType)
    as (st1 & E1 & Hq & Hr & Hh & _); [done..|].
  rewrite Hempty in Hq. cbn [app] in Hq.
  exists st1. split; [exact E1|].
  assert (Hq1 : localQueueMap (st_world st1) !! queueKey sendRank recvRank
                = Some [sentMessage st sendRank recvRank buffer dataType count
                          messageType])
    by (by rewrite Hq, lookup_insert_eq).
  split.
  - unfold probe. erewrite bind_Ok; last first.
    { rewrite getLocalQueue_spec. rewrite decide_True by (by rewrite Hr, Hh).
      reflexivity. }
    assert (Hens : set_world (ensureQueue (queueKey sendRank recvRank)) st1 = st1).
    { unfold ensureQueue, set_world. rewrite Hq1. by destruct st1. }
    rewrite Hens. erewrite bind_Ok; last first.
    { unfold peek. run_m. by rewrite Hq1. }
    cbn. by rewrite Hdt.
  - unfold queueOf. by rewrite Hq1.
Qed.

Lemma probe_reports_the_pending_message_witness :
  let w := set_rankHostMap (fun _ => {[ 1 := "host"; 2 := "host" ]})
             (set_size 10 (newMpiWorld "host")) in
  let st := {| st_world := w; st_mem := fun _ => 7; st_kv := ∅; st_gid := 1;
               st_calls := []; st_rpc := []; st_usableCores := 4;
               st_heap := 0 |} in
  let status := {| MPI_SOURCE := 0; MPI_TAG := 5; MPI_ERROR := 9; bytesSize := 0 |} in
  ∃ st1,
    send 1 2 100 MPI_INT 2 NORMAL st = (Ok tt, st1)
    ∧ probe 1 2 status st1
      = (Ok {| MPI_SOURCE := 1; MPI_TAG := 5; MPI_ERROR := 0; bytesSize := 8 |},
         st1).
Proof.
  intros w st status.
  destruct (probe_reports_the_pending_message st 1 2 100 MPI_INT 2 NORMAL status)
    as (st1 & E1 & E2 & _).
  - cbn. lia.
  - reflexivity.
  - discriminate.
  - reflexivity.
  - reflexivity.
  - exists st1. split; [exact E1|exact E2].
Defined.

(** ** Broadcast and barrier *)

(** A message from [s] to [r] of [count] elements of [dataType], of type
    [messageType], that carries [payload]. *)
Definition messageWith (s r : Z) (dataType : faabric_datatype_t) (count : Z)
    (messageType : MPIMessageType) (payload : list Z) (m : MPIMessage) : Prop :=
  mpi_sender m = s ∧ mpi_destination m = r ∧ mpi_type m = dt_id dataType
  ∧ mpi_count m = count ∧ mpi_messagetype m = messageType
  ∧ mpi_buffer m = payload.

(** What [send] reads from [buffer]. *)
Definition payloadAt (mem : Mem) (buffer : Z) (dataType : faabric_datatype_t)
    (count : Z) : list Z :=
  if (0 <? count) && negb (buffer =? nullptr)
  then load mem buffer (Z.to_nat (dt_size dataType * count))
  else [].

Lemma queueKey_receiver_ne s r r' : r ≠ r' → queueKey s r ≠ queueKey s r'.
Proof. intros Hne E. apply queueKey_inj in E as [_ E]. done. Qed.

(** The loop of [broadcast] over the ranks [rs], the receivers on this
    host. *)
Lemma broadcast_loop sendRank buffer dataType count messageType rs :
  NoDup rs → messageType ≠ RMA_WRITE →
  ∀ st,
  (∀ r, r ∈ rs → r ≠ sendRank →
     r <= world_size (st_world st) - 1
     ∧ rankHostMap (st_world st) !! r = Some (thisHost (st_world st))) →
  ∃ st',
    forM_ rs
      (fun r => if r =? sendRank then mret tt
                else send sendRank r buffer dataType count messageType) st
    = (Ok tt, st')
    ∧ st_mem st' = st_mem st
    ∧ st_heap st' = st_heap st
    ∧ rankHostMap (st_world st') = rankHostMap (st_world st)
    ∧ thisHost (st_world st') = thisHost (st_world st)
    ∧ world_size (st_world st') = world_size (st_world st)
    ∧ world_id (st_world st') = world_id (st_world st)
    ∧ (∀ key, (∀ r, r ∈ rs → r ≠ sendRank → key ≠ queueKey sendRank r) →
         localQueueMap (st_world st') !! key
         = localQueueMap (st_world st) !! key)
    ∧ (∀ r, r ∈ rs → r ≠ sendRank →
         ∃ m, queueOf (st_world st') sendRank r
              = queueOf (st_world st) sendRank r ++ [m]
              ∧ messageWith sendRank r dataType count messageType
                  (payloadAt (st_mem st) buffer dataType count) m).
Proof.
  intros Hnodup Hrma. induction Hnodup as [|r rs Hr Hnodup IH]; intros st Hloc.
  { exists st. cbn. split_and!; try done. intros r Hin. by apply elem_of_nil in Hin. }
  cbn [forM_]. destruct (decide (r = sendRank)) as [->|Hne].
  - rewrite Z.eqb_refl. rewrite (bind_Ok _ _ st tt st) by done.
    destruct (IH st) as (st' & E & Hmem & Hheap & Hmap & Hhost & Hsz & Hid
                           & Hother & Hsent).
    { intros r' Hr' Hne'. apply Hloc; [by apply list_elem_of_further|done]. }
    exists st'. split; [exact E|]. split_and!; try done.
    + intros key Hkey. apply Hother. intros r' Hr'. apply Hkey.
      by apply list_elem_of_further.
    + intros r' Hr' Hne'. apply elem_of_cons in Hr' as [->|Hr']; [done|].
      by apply Hsent.
  - rewrite (proj2 (Z.eqb_neq _ _) Hne).
    destruct (Hloc r) as [Hsize Hlocal]; [apply list_elem_of_here|done|].
    destruct (send_local st sendRank r buffer dataType count messageType)
      as (st1 & E1 & Hq1 & Hmap1 & Hhost1 & Hsz1 & Hid1 & Hmem1 & Hheap1 & _);
      [done..|].
    rewrite (bind_Ok _ _ st tt st1 E1).
    destruct (IH st1) as (st' & E & Hmem & Hheap & Hmap & Hhost & Hsz & Hid
                            & Hother & Hsent).
    { intros r' Hr' Hne'. rewrite Hsz1, Hmap1, Hhost1.
      apply Hloc; [by apply list_elem_of_further|done]. }
    exists st'. split; [exact E|].
    split; [congruence|]. split; [congruence|]. split; [congruence|].
    split; [congruence|]. split; [congruence|]. split; [congruence|]. split.
    + intros key Hkey. rewrite Hother.
      * rewrite Hq1. rewrite lookup_insert_ne; [done|].
        intros Hk. by apply (Hkey r); [apply list_elem_of_here| |].
      * intros r' Hr'. apply Hkey. by apply list_elem_of_further.
    + intros r' Hr' Hne'. apply elem_of_cons in Hr' as [->|Hr'].
      * exists (sentMessage st sendRank r buffer dataType count messageType).
        split; [|done]. unfold queueOf at 1. rewrite Hother.
        -- rewrite Hq1. by rewrite lookup_insert_eq.
        -- intros r'' Hr'' _. apply queueKey_receiver_ne. congruence.
      * destruct (Hsent r' Hr' Hne') as (m & Hq & Hm). exists m.
        rewrite Hmem1 in Hm. split; [|done]. rewrite Hq. f_equal.
        unfold queueOf. rewrite Hq1. rewrite lookup_insert_ne; [done|].
        apply queueKey_receiver_ne. congruence.
Qed.

Lemma broadcast_run sendRank buffer dataType count messageType st :
  messageType ≠ RMA_WRITE →
  (∀ r, 0 <= r < world_size (st_world st) → r ≠ sendRank →
     rankHostMap (st_world st) !! r = Some (thisHost (st_world st))) →
  ∃ st',
    broadcast sendRank buffer dataType count messageType st = (Ok tt, st')
    ∧ st_mem st' = st_mem st
    ∧ st_heap st' = st_heap st
    ∧ rankHostMap (st_world st') = rankHostMap (st_world st)
    ∧ thisHost (st_world st') = thisHost (st_world st)
    ∧ world_size (st_world st') = world_size (st_world st)
    ∧ world_id (st_world st') = world_id (st_world st)
    ∧ (∀ key, (∀ r, 0 <= r < world_size (st_world st) → r ≠ sendRank →
                    key ≠ queueKey sendRank r) →
         localQueueMap (st_world st') !! key
         = localQueueMap (st_world st) !! key)
    ∧ (∀ r, 0 <= r < world_size (st_world st) → r ≠ sendRank →
         ∃ m, queueOf (st_world st') sendRank r
              = queueOf (st_world st) sendRank r ++ [m]
              ∧ messageWith sendRank r dataType count messageType
                  (payloadAt (st_mem st) buffer dataType count) m).
Proof.
  intros Hrma Hloc. unfold broadcast.
  rewrite (bind_Ok _ _ st (st_world st) st) by done.
  destruct (broadcast_loop sendRank buffer dataType count messageType
              (seqZ 0 (world_size (st_world st))) (NoDup_seqZ _ _) Hrma st)
    as (st' & E & Hmem & Hheap & Hmap & Hhost & Hsz & Hid & Hother & Hsent).
  { intros r Hr Hne. apply elem_of_seqZ in Hr. split; [lia|].
    apply Hloc; [lia|done]. }
  exists st'. split; [exact E|]. split_and!; try done.
  - intros key Hkey. apply Hother. intros r Hr. apply elem_of_seqZ in Hr.
    apply Hkey. lia.
  - intros r Hr. apply Hsent. apply elem_of_seqZ. lia.
Qed.

(** X11: A broadcast in a world whose other ranks are on this host: the call
    returns, every rank but the sender has one more message at the end of
    its queue from the sender, with the bytes of the buffer, and no other
    queue changes (the sender keeps no message for itself); the memory is
    not written. *)
Theorem broadcast_reaches_every_other_rank sendRank buffer dataType count
    messageType st :
  messageType ≠ RMA_WRITE →
  (∀ r, 0 <= r < world_size (st_world st) → r ≠ sendRank →
     rankHostMap (st_world st) !! r = Some (thisHost (st_world st))) →
  ∃ st',
    broadcast sendRank buffer dataType count messageType st = (Ok tt, st')
    ∧ st_mem st' = st_mem st
    ∧ (∀ r, 0 <= r < world_size (st_world st) → r ≠ sendRank →
         ∃ m, queueOf (st_world st') sendRank r
              = queueOf (st_world st) sendRank r ++ [m]
              ∧ messageWith sendRank r dataType count messageType
                  (payloadAt (st_mem st) buffer dataType count) m)
    ∧ (∀ s r, ¬ (s = sendRank ∧ 0 <= r < world_size (st_world st)
                 ∧ r ≠ sendRank) →
         queueOf (st_world st') s r = queueOf (st_world st) s r).
Proof.
  intros Hrma Hloc.
  destruct (broadcast_run sendRank buffer dataType count messageType st Hrma Hloc)
    as (st' & E & Hmem & _ & _ & _ & _ & _ & Hother & Hsent).
  exists st'. split; [exact E|]. split; [exact Hmem|]. split; [exact Hsent|].
  intros s r Hnot. unfold queueOf. rewrite Hother; [done|].
  intros r' Hr' Hne' Hk. apply queueKey_inj in Hk as [-> ->]. by apply Hnot.
Qed.

Lemma fiveRanks_local r :
  0 <= r < 5 → rankHostMap fiveRanks !! r = Some (thisHost fiveRanks).
Proof.
  intros Hr. assert (r = 0 ∨ r = 1 ∨ r = 2 ∨ r = 3 ∨ r = 4) as Hcases by lia.
  destruct Hcases as [->|[->|[->|[->| ->]]]]; reflexivity.
Qed.

Lemma broadcast_reaches_every_other_rank_witness :
  let st := fiveRanksState (fun a => a mod 256) in
  ∃ st',
    broadcast 2 1024 MPI_INT 3 NORMAL st = (Ok tt, st')
    ∧ ∃ m, queueOf (st_world st') 2 4 = [m]
           ∧ mpi_buffer m = load (st_mem st) 1024 12.
Proof.
  intros st.
  destruct (broadcast_reaches_every_other_rank 2 1024 MPI_INT 3 NORMAL st)
    as (st' & E & _ & Hsent & _).
  - discriminate.
  - intros r Hr _. by apply fiveRanks_local.
  - exists st'. split; [exact E|].
    destruct (Hsent 4) as (m & Hq & Hm); [cbn; lia|lia|].
    exists m. split; [exact Hq|]. apply Hm.
Defined.

(** A receive on a pair whose queue is empty does not return. *)
Lemma recv_empty_not_ok st s r buffer dataType count status messageType x :
  queueOf (st_world st) s r = [] →
  fst (recv s r buffer dataType count status messageType st) ≠ Ok x.
Proof.
  intros Hempty. unfold recv. unfold mbind at 1. unfold M_bind at 1.
  rewrite getLocalQueue_spec. case_decide; [|done].
  set (st1 := set_world _ st).
  assert (Hq : localQueueMap (st_world st1) !! queueKey s r = Some []).
  { unfold st1, ensureQueue, queueOf in *. cbn.
    destruct (localQueueMap (st_world st) !! queueKey s r) as [q|] eqn:E;
      cbn in *.
    - by subst q.
    - by rewrite lookup_insert_eq. }
  unfold mbind, M_bind, dequeue. run_m. by rewrite Hq.
Qed.

(** The loop of the root in [barrier], every rank of [rs] having joined. *)
Lemma barrierJoins_run rs :
  NoDup rs →
  ∀ st,
  rankHostMap (st_world st) !! 0 = Some (thisHost (st_world st)) →
  (∀ r, r ∈ rs →
     ∃ m rest,
       localQueueMap (st_world st) !! queueKey r 0 = Some (m :: rest)
       ∧ mpi_messagetype m = BARRIER_JOIN ∧ mpi_count m <= 0) →
  ∃ st',
    barrierJoins rs st = (Ok tt, st')
    ∧ st_mem st' = st_mem st
    ∧ st_heap st' = st_heap st
    ∧ rankHostMap (st_world st') = rankHostMap (st_world st)
    ∧ thisHost (st_world st') = thisHost (st_world st)
    ∧ world_size (st_world st') = world_size (st_world st)
    ∧ (∀ key, (∀ r, r ∈ rs → key ≠ queueKey r 0) →
         localQueueMap (st_world st') !! key
         = localQueueMap (st_world st) !! key)
    ∧ (∀ r, r ∈ rs →
         queueOf (st_world st') r 0 = tail (queueOf (st_world st) r 0)).
Proof.
  intros Hnodup. induction Hnodup as [|r rs Hr Hnodup IH]; intros st Hlocal Hq.
  { exists st. cbn. split_and!; try done. intros r Hin. by apply elem_of_nil in Hin. }
  cbn [barrierJoins].
  destruct (Hq r) as (m & rest & Hqr & Hty & Hcnt); [apply list_elem_of_here|].
  set (st1 := set_world (set_localQueueMap
                (fun q => <[queueKey r 0 := rest]> q)) st).
  erewrite bind_Ok; last first.
  { rewrite (recv_head st r 0 nullptr MPI_INT 0 _ BARRIER_JOIN m rest) by done.
    rewrite decide_False by (rewrite Hty; intros Hn; by apply Hn).
    rewrite (proj2 (Z.ltb_ge 0 (mpi_count m))) by lia. reflexivity. }
  fold st1.
  destruct (IH st1) as (st' & E & Hmem & Hheap & Hmap & Hhost & Hsz & Hother & Hpop).
  { exact Hlocal. }
  { intros r' Hr'. destruct (Hq r') as (m' & rest' & Hq' & Hm');
      [by apply list_elem_of_further|].
    exists m', rest'. split; [|done]. cbn. rewrite lookup_insert_ne; [done|].
    intros Hk. apply queueKey_sender_inj in Hk. congruence. }
  exists st'. split; [exact E|]. split_and!; try done.
  - intros key Hkey. rewrite Hother.
    + cbn. rewrite lookup_insert_ne; [done|]. intros Hk.
      by apply (Hkey r); [apply list_elem_of_here|].
    + intros r' Hr'. apply Hkey. by apply list_elem_of_further.
  - intros r' Hr'. apply elem_of_cons in Hr' as [->|Hr'].
    + unfold queueOf. rewrite Hother.
      * cbn. rewrite lookup_insert_eq. by rewrite Hqr.
      * intros r' Hr' Hk. apply queueKey_sender_inj in Hk. congruence.
    + rewrite (Hpop r' Hr'). unfold queueOf. cbn.
      rewrite lookup_insert_ne; [done|]. intros Hk.
      apply queueKey_sender_inj in Hk. congruence.
Qed.

(** The loop of the root stops at the first rank that has not joined. *)
Lemma barrierJoins_missing rs :
  NoDup rs →
  ∀ st r, r ∈ rs → queueOf (st_world st) r 0 = [] →
  fst (barrierJoins rs st) ≠ Ok tt.
Proof.
  intros Hnodup. induction Hnodup as [|r0 rs Hr0 Hnodup IH]; intros st r Hr Hempty.
  { by apply elem_of_nil in Hr. }
  cbn [barrierJoins]. unfold mbind, M_bind.
  destruct (recv r0 0 nullptr MPI_INT 0 _ BARRIER_JOIN st) as [[x|e| |what] st1] eqn:E;
    [|done..].
  apply elem_of_cons in Hr as [->|Hr].
  - exfalso. eapply recv_empty_not_ok; [exact Hempty|]. by rewrite E.
  - apply (IH st1 r Hr).
    assert (Hne : (r0, 0) ≠ (r, 0)) by (intros [= ->]; done).
    pose proof (queueIs_recv r 0 [] r0 0 nullptr MPI_INT 0
                  (Some {| MPI_SOURCE := 0; MPI_TAG := 0; MPI_ERROR := 0;
                           bytesSize := 0 |}) BARRIER_JOIN Hne st Hempty) as Hp.
    by rewrite E in Hp.
Qed.

Lemma queueIs_barrierJoins s r q rs :
  (∀ r', r' ∈ rs → (r', 0) ≠ (s, r)) →
  preserves (queueIs s r q) (barrierJoins rs).
Proof.
  induction rs as [|r0 rs IH]; intros Hrs; cbn [barrierJoins].
  - apply preserves_ret.
  - apply preserves_bind.
    + apply queueIs_recv. apply Hrs. by left.
    + intros _. apply IH. intros r' Hr'. apply Hrs. by right.
Qed.

(** X12: The barrier at the root, in a world whose ranks are all on this host.
    With a join message from every other rank waiting, the root takes one
    message from each and leaves every other rank one message of type
    [BARRIER_DONE] with no data.  With the join of one rank missing the call
    does not return, and no rank is told that the barrier is done. *)
Theorem barrier_root_waits_for_every_rank st :
  (∀ r, 0 <= r < world_size (st_world st) →
     rankHostMap (st_world st) !! r = Some (thisHost (st_world st))) →
  0 < world_size (st_world st) →
  ((∀ r, 1 <= r < world_size (st_world st) →
      ∃ m rest,
        localQueueMap (st_world st) !! queueKey r 0 = Some (m :: rest)
        ∧ mpi_messagetype m = BARRIER_JOIN ∧ mpi_count m <= 0) →
   ∃ st',
     barrier 0 st = (Ok tt, st')
     ∧ st_mem st' = st_mem st
     ∧ ∀ r, 1 <= r < world_size (st_world st) →
         queueOf (st_world st') r 0 = tail (queueOf (st_world st) r 0)
         ∧ ∃ m, queueOf (st_world st') 0 r = queueOf (st_world st) 0 r ++ [m]
                ∧ messageWith 0 r MPI_INT 0 BARRIER_DONE [] m)
  ∧ (∀ r, 1 <= r < world_size (st_world st) →
       queueOf (st_world st) r 0 = [] →
       fst (barrier 0 st) ≠ Ok tt
       ∧ ∀ r', queueOf (st_world (snd (barrier 0 st))) 0 r'
               = queueOf (st_world st) 0 r').
Proof.
  intros Hloc Hsize. split.
  - intros Hjoined. unfold barrier. rewrite Z.eqb_refl.
    rewrite (bind_Ok _ _ st (st_world st) st) by done.
    destruct (barrierJoins_run (seqZ 1 (world_size (st_world st) - 1))
                (NoDup_seqZ _ _) st)
      as (st1 & E1 & Hmem1 & _ & Hmap1 & Hhost1 & Hsz1 & Hother1 & Hpop1).
    { apply Hloc. lia. }
    { intros r Hr. apply elem_of_seqZ in Hr. apply Hjoined. lia. }
    rewrite (bind_Ok _ _ st tt st1 E1).
    destruct (broadcast_run 0 nullptr MPI_INT 0 BARRIER_DONE st1)
      as (st' & E & Hmem & _ & _ & _ & _ & _ & Hother & Hsent).
    { discriminate. }
    { intros r Hr _. rewrite Hmap1, Hhost1. apply Hloc. lia. }
    exists st'. split; [exact E|]. split; [congruence|].
    intros r Hr. split.
    + rewrite <- Hpop1 by (apply elem_of_seqZ; lia).
      unfold queueOf. rewrite Hother; [done|].
      intros r' _ Hne Hk. apply queueKey_inj in Hk as [-> _]. lia.
    + destruct (Hsent r) as (m & Hq & Hm); [lia..|].
      exists m. split; [|exact Hm]. rewrite Hq. f_equal.
      unfold queueOf. rewrite Hother1; [done|].
      intros r' Hr' Hk. apply elem_of_seqZ in Hr'.
      apply queueKey_inj in Hk as [<- _]. lia.
  - intros r Hr Hempty. unfold barrier. rewrite Z.eqb_refl.
    rewrite (bind_Ok _ _ st (st_world st) st) by done.
    pose proof (barrierJoins_missing (seqZ 1 (world_size (st_world st) - 1))
                  (NoDup_seqZ _ _) st r) as Hmiss.
    assert (Hkeep : ∀ r',
      queueIs 0 r' (queueOf (st_world st) 0 r')
        (snd (barrierJoins (seqZ 1 (world_size (st_world st) - 1)) st))).
    { intros r'. apply queueIs_barrierJoins; [|done].
      intros r0 Hr0 [= -> _]. apply elem_of_seqZ in Hr0. lia. }
    unfold mbind, M_bind.
    destruct (barrierJoins _ st) as [[[]|e| |what] st1] eqn:E;
      cbn [fst snd] in *.
    + exfalso. apply Hmiss; [apply elem_of_seqZ; lia|done|done].
    + split; [done|]. intros r'. apply Hkeep.
    + split; [done|]. intros r'. apply Hkeep.
    + split; [done|]. intros r'. apply Hkeep.
Qed.

Lemma barrier_root_waits_for_every_rank_witness :
  let st := fiveRanksState (fun _ => 0) in
  fst (barrier 0 st) ≠ Ok tt.
Proof.
  intros st.
  destruct (barrier_root_waits_for_every_rank st) as [_ H].
  - intros r Hr. by apply fiveRanks_local.
  - cbn. lia.
  - destruct (H 3) as [Hb _]; [cbn; lia|reflexivity|exact Hb].
Defined.

(** A receive that asks for no element does not write to the memory,
    whatever it finds in the queue. *)
Lemma recv_count_zero_mem st s r buffer dataType status messageType :
  st_mem (snd (recv s r buffer dataType 0 status messageType st)) = st_mem st.
Proof.
  unfold recv. unfold mbind at 1. unfold M_bind at 1.
  rewrite getLocalQueue_spec. case_decide; [|done].
  set (st1 := set_world _ st). unfold mbind, M_bind, dequeue. run_m.
  destruct (localQueueMap (st_world st1) !! queueKey s r) as [[|m rest]|];
    try done.
  destruct (decide _); [done|].
  destruct (0 <? mpi_count m); done.
Qed.

Lemma recv_empty_blocks st s r buffer dataType count status messageType :
  rankHostMap (st_world st) !! r = Some (thisHost (st_world st)) →
  queueOf (st_world st) s r = [] →
  fst (recv s r buffer dataType count status messageType st) = Blocked.
Proof.
  intros Hlocal Hempty. unfold recv. unfold mbind at 1. unfold M_bind at 1.
  rewrite getLocalQueue_spec. rewrite decide_True by done.
  set (st1 := set_world _ st).
  assert (Hq : localQueueMap (st_world st1) !! queueKey s r = Some []).
  { unfold st1, ensureQueue, queueOf in *. cbn.
    destruct (localQueueMap (st_world st) !! queueKey s r) as [q|] eqn:E;
      cbn in *.
    - by subst q.
    - by rewrite lookup_insert_eq. }
  unfold mbind, M_bind, dequeue. run_m. by rewrite Hq.
Qed.

(** X13: The barrier at another rank, the root and the rank on this host: the
    rank leaves its join message in the root's queue and waits for the
    root's answer; with the answer there it returns and has taken it.  The
    memory is not written. *)
Theorem barrier_rank_joins_and_waits st thisRank :
  thisRank ≠ 0 → 0 <= world_size (st_world st) - 1 →
  rankHostMap (st_world st) !! 0 = Some (thisHost (st_world st)) →
  rankHostMap (st_world st) !! thisRank = Some (thisHost (st_world st)) →
  ∃ join,
    messageWith thisRank 0 MPI_INT 0 BARRIER_JOIN [] join
    ∧ queueOf (st_world (snd (barrier thisRank st))) thisRank 0
      = queueOf (st_world st) thisRank 0 ++ [join]
    ∧ st_mem (snd (barrier thisRank st)) = st_mem st
    ∧ (queueOf (st_world st) 0 thisRank = [] →
       fst (barrier thisRank st) = Blocked)
    ∧ (∀ m rest,
         localQueueMap (st_world st) !! queueKey 0 thisRank = Some (m :: rest) →
         mpi_messagetype m = BARRIER_DONE → mpi_count m <= 0 →
         fst (barrier thisRank st) = Ok tt
         ∧ queueOf (st_world (snd (barrier thisRank st))) 0 thisRank = rest).
Proof.
  intros Hne Hsize Hroot Hlocal.
  destruct (send_local st thisRank 0 nullptr MPI_INT 0 BARRIER_JOIN)
    as (st1 & E1 & Hq1 & Hmap1 & Hhost1 & _ & _ & Hmem1 & _);
    [done|done|discriminate|].
  exists (sentMessage st thisRank 0 nullptr MPI_INT 0 BARRIER_JOIN).
  split; [done|].
  assert (Hne2 : (0, thisRank) ≠ (thisRank, 0)) by (intros [= ?]; done).
  assert (Hk : queueKey thisRank 0 ≠ queueKey 0 thisRank).
  { intros Hk. apply queueKey_inj in Hk as [? _]. done. }
  assert (Hjoin1 : queueOf (st_world st1) thisRank 0
                   = queueOf (st_world st) thisRank 0
                     ++ [sentMessage st thisRank 0 nullptr MPI_INT 0 BARRIER_JOIN]).
  { unfold queueOf at 1. by rewrite Hq1, lookup_insert_eq. }
  assert (Hdone1 : localQueueMap (st_world st1) !! queueKey 0 thisRank
                   = localQueueMap (st_world st) !! queueKey 0 thisRank).
  { rewrite Hq1. by rewrite lookup_insert_ne. }
  assert (Hlocal1 : rankHostMap (st_world st1) !! thisRank
                    = Some (thisHost (st_world st1))) by (by rewrite Hmap1, Hhost1).
  pose proof (queueIs_recv thisRank 0 _ 0 thisRank nullptr MPI_INT 0 None
                BARRIER_DONE Hne2 st1 Hjoin1) as Hkeep.
  unfold queueIs in Hkeep.
  pose proof (recv_count_zero_mem st1 0 thisRank nullptr MPI_INT None
                BARRIER_DONE) as Hmem2.
  pose proof (recv_empty_blocks st1 0 thisRank nullptr MPI_INT 0 None
                BARRIER_DONE Hlocal1) as Hblock.
  pose proof (fun m rest =>
    recv_head st1 0 thisRank nullptr MPI_INT 0 None BARRIER_DONE m rest Hlocal1)
    as Hhead.
  unfold barrier. rewrite (proj2 (Z.eqb_neq _ _) Hne).
  rewrite (bind_Ok _ _ st tt st1 E1).
  unfold mbind, M_bind.
  destruct (recv 0 thisRank nullptr MPI_INT 0 None BARRIER_DONE st1)
    as [[x|e| |what] st2] eqn:E2; unfold mret, M_ret; cbn [fst snd] in *.
  - split; [exact Hkeep|]. split; [congruence|]. split.
    + intros Hempty. exfalso. unfold queueOf in Hblock.
      rewrite Hdone1 in Hblock. by specialize (Hblock Hempty).
    + intros m rest Hq Hty Hcnt. split; [done|].
      rewrite Hdone1 in Hhead. specialize (Hhead m rest Hq). cbv zeta in Hhead.
      rewrite decide_False in Hhead by (rewrite Hty; intros Hn; by apply Hn).
      rewrite (proj2 (Z.ltb_ge 0 (mpi_count m))) in Hhead by lia.
      injection Hhead as _ ->. unfold queueOf. cbn. by rewrite lookup_insert_eq.
  - split; [exact Hkeep|]. split; [congruence|]. split.
    + intros Hempty. exfalso. unfold queueOf in Hblock.
      rewrite Hdone1 in Hblock. by specialize (Hblock Hempty).
    + intros m rest Hq Hty Hcnt. exfalso.
      rewrite Hdone1 in Hhead. specialize (Hhead m rest Hq). cbv zeta in Hhead.
      rewrite decide_False in Hhead by (rewrite Hty; intros Hn; by apply Hn).
      rewrite (proj2 (Z.ltb_ge 0 (mpi_count m))) in Hhead by lia. done.
  - split; [exact Hkeep|]. split; [congruence|]. split; [done|].
    intros m rest Hq Hty Hcnt. exfalso.
    rewrite Hdone1 in Hhead. specialize (Hhead m rest Hq). cbv zeta in Hhead.
    rewrite decide_False in Hhead by (rewrite Hty; intros Hn; by apply Hn).
    rewrite (proj2 (Z.ltb_ge 0 (mpi_count m))) in Hhead by lia. done.
  - split; [exact Hkeep|]. split; [congruence|]. split.
    + intros Hempty. exfalso. unfold queueOf in Hblock.
      rewrite Hdone1 in Hblock. by specialize (Hblock Hempty).
    + intros m rest Hq Hty Hcnt. exfalso.
      rewrite Hdone1 in Hhead. specialize (Hhead m rest Hq). cbv zeta in Hhead.
      rewrite decide_False in Hhead by (rewrite Hty; intros Hn; by apply Hn).
      rewrite (proj2 (Z.ltb_ge 0 (mpi_count m))) in Hhead by lia. done.
Qed.

Lemma barrier_rank_joins_and_waits_witness :
  let st := fiveRanksState (fun _ => 0) in
  fst (barrier 3 st) = Blocked
  ∧ length (queueOf (st_world (snd (barrier 3 st))) 3 0) = 1%nat.
Proof.
  intros st.
  destruct (barrier_rank_joins_and_waits st 3) as (join & _ & Hq & _ & Hb & _).
  - lia.
  - cbn. lia.
  - reflexivity.
  - reflexivity.
  - split; [apply Hb; reflexivity|]. rewrite Hq. reflexivity.
Defined.

(** *** Chunks of a buffer *)

(** A buffer of [n] chunks of [size] bytes is the chunks in a row. *)
Lemma load_chunks mem p size (f : Z -> list Z) (n : nat) :
  (∀ r, 0 <= r < Z.of_nat n →
     load mem (p + r * Z.of_nat size) size = f r) →
  load mem p (n * size) = concat (map f (seqZ 0 (Z.of_nat n))).
Proof.
  induction n as [|n IH]; intros Hf; [done|].
  replace (Z.of_nat (S n)) with (Z.of_nat n + 1) by lia.
  rewrite seqZ_app by lia. rewrite map_app, concat_app.
  replace (S n * size)%nat with (n * size + size)%nat by lia.
  rewrite load_app. f_equal.
  - apply IH. intros r Hr. apply Hf. lia.
  - rewrite seqZ_cons by lia. rewrite seqZ_nil by lia. cbn [map concat].
    rewrite app_nil_r. rewrite <- (Hf (0 + Z.of_nat n)) by lia.
    f_equal. lia.
Qed.

Lemma chunk_disjoint (p : Z) (size : nat) (r r' : Z) :
  r ≠ r' →
  p + r * Z.of_nat size + Z.of_nat size <= p + r' * Z.of_nat size
  ∨ p + r' * Z.of_nat size + Z.of_nat size <= p + r * Z.of_nat size.
Proof. intros Hne. destruct (Z.lt_total r r') as [?|[?|?]]; [left|done|right]; nia. Qed.

(** *** A loop of receives into the chunks of a buffer

    The loop of the root of [gather] and the second loop of [allToAll]: for
    every rank [r] of [rs] but [self], a receive from [r] into chunk [r] of
    the buffer at [rb]; at [self] the loop body puts into chunk [self] what
    lies at [sp], or leaves the chunk alone ([sp] is the chunk then). *)
Section RecvLoop.

Variables (self rb : Z) (size : nat) (count : Z).
Variables (recvType : faabric_datatype_t) (messageType : MPIMessageType).
Variables (payload : Z -> list Z) (sp : Z) (body : Z -> M unit).

Let chunk (r : Z) : Z := rb + r * Z.of_nat size.

Hypothesis Hother : ∀ r, r ≠ self →
  body r = (recv r self (chunk r) recvType count None messageType;; mret tt).

Hypothesis Hself : ∀ st, ∃ st',
  body self st = (Ok tt, st')
  ∧ st_world st' = st_world st
  ∧ (∀ a, a < chunk self ∨ chunk self + Z.of_nat size <= a →
          st_mem st' a = st_mem st a)
  ∧ load (st_mem st') (chunk self) size = load (st_mem st) sp size.

Lemma recv_loop rs :
  NoDup rs →
  (∀ r, r ∈ rs → r ≠ self →
     sp + Z.of_nat size <= chunk r ∨ chunk r + Z.of_nat size <= sp) →
  ∀ st,
  rankHostMap (st_world st) !! self = Some (thisHost (st_world st)) →
  (∀ r, r ∈ rs → r ≠ self →
     length (payload r) = size
     ∧ ∃ m rest,
         localQueueMap (st_world st) !! queueKey r self = Some (m :: rest)
         ∧ mpi_messagetype m = messageType
         ∧ 0 < mpi_count m <= count
         ∧ mpi_buffer m = payload r) →
  ∃ st',
    forM_ rs body st = (Ok tt, st')
    ∧ rankHostMap (st_world st') = rankHostMap (st_world st)
    ∧ thisHost (st_world st') = thisHost (st_world st)
    ∧ world_size (st_world st') = world_size (st_world st)
    ∧ (∀ key, (∀ r, r ∈ rs → r ≠ self → key ≠ queueKey r self) →
         localQueueMap (st_world st') !! key
         = localQueueMap (st_world st) !! key)
    ∧ (∀ r, r ∈ rs → r ≠ self →
         queueOf (st_world st') r self = tail (queueOf (st_world st) r self))
    ∧ (∀ a, (∀ r, r ∈ rs → a < chunk r ∨ chunk r + Z.of_nat size <= a) →
         st_mem st' a = st_mem st a)
    ∧ (∀ r, r ∈ rs →
         load (st_mem st') (chunk r) size
         = if decide (r = self) then load (st_mem st) sp size else payload r).
Proof.
  intros Hnodup. induction Hnodup as [|r rs Hr Hnodup IH];
    intros Hsp st Hlocal Hq.
  { exists st. cbn. split_and!; try done.
    - intros r Hin. by apply elem_of_nil in Hin.
    - intros r Hin. by apply elem_of_nil in Hin. }
  cbn [forM_].
  assert (Hframe_rs : ∀ (m m' : Mem) r',
    r' ∉ rs →
    (∀ a, (∀ r0, r0 ∈ rs → a < chunk r0 ∨ chunk r0 + Z.of_nat size <= a) →
          m' a = m a) →
    load m' (chunk r') size = load m (chunk r') size).
  { intros m m' r' Hnotin Hfr. apply load_ext. intros a Ha. apply Hfr.
    intros r0 Hr0. assert (r0 ≠ r') by (intros ->; done).
    unfold chunk in *. destruct (chunk_disjoint rb size r0 r'); [done|lia..]. }
  destruct (decide (r = self)) as [->|Hne].
  - destruct (Hself st) as (st1 & E1 & Hw1 & Hfr1 & Hl1).
    rewrite (bind_Ok _ _ st tt st1 E1).
    destruct (IH) with (st := st1)
      as (st' & E & Hmap & Hhost & Hsz & Hother' & Hpop & Hfr & Hload).
    { intros r' Hr' Hne'. apply Hsp; [by right|done]. }
    { by rewrite Hw1. }
    { intros r' Hr' Hne'. rewrite Hw1. apply Hq; [by right|done]. }
    exists st'. split; [exact E|]. rewrite Hw1 in *.
    split_and!; try done.
    + intros key Hkey. apply Hother'. intros r' Hr'. apply Hkey. by right.
    + intros r' Hr' Hne'. apply elem_of_cons in Hr' as [->|Hr']; [done|].
      by apply Hpop.
    + intros a Ha. rewrite Hfr.
      * apply Hfr1. apply Ha. by left.
      * intros r' Hr'. apply Ha. by right.
    + intros r' Hr'. apply elem_of_cons in Hr' as [->|Hr'].
      * rewrite decide_True by done.
        rewrite (Hframe_rs (st_mem st1) (st_mem st') self Hr Hfr). exact Hl1.
      * rewrite (Hload r' Hr'). case_decide as Hd; [by subst r'|done].
  - rewrite (Hother r Hne).
    destruct (Hq r) as (Hlen & m & rest & Hqr & Hty & Hcnt & Hbuf);
      [by left|done|].
    set (st1 := set_mem (fun mem => store mem (chunk r) (mpi_buffer m))
                  (set_world (set_localQueueMap
                     (fun q => <[queueKey r self := rest]> q)) st)).
    rewrite (bind_Ok _ _ st tt st1); last first.
    { erewrite bind_Ok; [reflexivity|].
      rewrite (recv_head st r self (chunk r) recvType count None messageType
                 m rest) by done.
      rewrite decide_False by (rewrite Hty; intros Hn; by apply Hn).
      rewrite (proj2 (Z.ltb_ge count (mpi_count m))) by lia.
      rewrite (proj2 (Z.ltb_lt 0 (mpi_count m))) by lia. reflexivity. }
    destruct (IH) with (st := st1)
      as (st' & E & Hmap & Hhost & Hsz & Hother' & Hpop & Hfr & Hload).
    { intros r' Hr' Hne'. apply Hsp; [by right|done]. }
    { exact Hlocal. }
    { intros r' Hr' Hne'. destruct (Hq r') as (Hlen' & m' & rest' & Hq' & Hm');
        [by right|done|].
      split; [done|]. exists m', rest'. split; [|done]. cbn.
      rewrite lookup_insert_ne; [done|]. intros Hk.
      apply queueKey_sender_inj in Hk. congruence. }
    exists st'. split; [exact E|]. split_and!; try done.
    + intros key Hkey. rewrite Hother'.
      * cbn. rewrite lookup_insert_ne; [done|]. intros Hk.
        by apply (Hkey r); [left| |].
      * intros r' Hr'. apply Hkey. by right.
    + intros r' Hr' Hne'. apply elem_of_cons in Hr' as [->|Hr'].
      * unfold queueOf. rewrite Hother'.
        -- cbn. rewrite lookup_insert_eq. by rewrite Hqr.
        -- intros r' Hr' _ Hk. apply queueKey_sender_inj in Hk. congruence.
      * rewrite (Hpop r' Hr' Hne'). unfold queueOf. cbn.
        rewrite lookup_insert_ne; [done|]. intros Hk.
        apply queueKey_sender_inj in Hk. congruence.
    + intros a Ha. rewrite Hfr.
      * cbn. apply store_outside. rewrite Hbuf, Hlen. apply Ha. by left.
      * intros r' Hr'. apply Ha. by right.
    + intros r' Hr'. apply elem_of_cons in Hr' as [->|Hr'].
      * rewrite decide_False by done.
        rewrite (Hframe_rs (st_mem st1) (st_mem st') r Hr Hfr). cbn.
        rewrite Hbuf. by apply load_store_length.
      * rewrite (Hload r' Hr'). case_decide as Hd; [|done]. subst r'.
        cbn. apply load_store_disjoint. rewrite Hbuf, Hlen.
        destruct (Hsp r) as [?|?]; [by left|done|lia..].
Qed.

End RecvLoop.

(** *** A loop of sends of the chunks of a buffer

    The loop of the root of [scatter] and the first loop of [allToAll]: for
    every rank [r] of [rs] but [self], a send of the buffer [buf r] to [r];
    at [self] the loop body copies what lies at [sp] to [dst]. *)
Section SendLoop.

Variables (self : Z) (buf : Z -> Z) (dataType : faabric_datatype_t).
Variables (count : Z) (messageType : MPIMessageType).
Variables (dst sp : Z) (size : nat) (body : Z -> M unit).

Hypothesis Hrma : messageType ≠ RMA_WRITE.

Hypothesis Hother : ∀ r, r ≠ self →
  body r = send self r (buf r) dataType count messageType.

Hypothesis Hself : ∀ st, ∃ st',
  body self st = (Ok tt, st')
  ∧ st_world st' = st_world st
  ∧ (∀ a, a < dst ∨ dst + Z.of_nat size <= a → st_mem st' a = st_mem st a)
  ∧ load (st_mem st') dst size = load (st_mem st) sp size.

Lemma send_loop rs :
  NoDup rs →
  (∀ r, r ∈ rs → r ≠ self →
     let n := Z.of_nat (Z.to_nat (dt_size dataType * count)) in
     buf r + n <= dst ∨ dst + Z.of_nat size <= buf r) →
  ∀ st,
  (∀ r, r ∈ rs → r ≠ self →
     r <= world_size (st_world st) - 1
     ∧ rankHostMap (st_world st) !! r = Some (thisHost (st_world st))) →
  ∃ st',
    forM_ rs body st = (Ok tt, st')
    ∧ rankHostMap (st_world st') = rankHostMap (st_world st)
    ∧ thisHost (st_world st') = thisHost (st_world st)
    ∧ world_size (st_world st') = world_size (st_world st)
    ∧ (∀ a, a < dst ∨ dst + Z.of_nat size <= a → st_mem st' a = st_mem st a)
    ∧ (self ∈ rs → load (st_mem st') dst size = load (st_mem st) sp size)
    ∧ (self ∉ rs → st_mem st' = st_mem st)
    ∧ (∀ key, (∀ r, r ∈ rs → r ≠ self → key ≠ queueKey self r) →
         localQueueMap (st_world st') !! key
         = localQueueMap (st_world st) !! key)
    ∧ (∀ r, r ∈ rs → r ≠ self →
         ∃ m, queueOf (st_world st') self r
              = queueOf (st_world st) self r ++ [m]
              ∧ messageWith self r dataType count messageType
                  (payloadAt (st_mem st) (buf r) dataType count) m).
Proof.
  intros Hnodup. induction Hnodup as [|r rs Hr Hnodup IH]; intros Hdisj st Hloc.
  { exists st. cbn. split_and!; try done.
    - intros Hin. by apply elem_of_nil in Hin.
    - intros r Hin. by apply elem_of_nil in Hin. }
  cbn [forM_].
  assert (Hpay : ∀ (m m' : Mem) r',
    r' ∈ rs → r' ≠ self →
    (∀ a, a < dst ∨ dst + Z.of_nat size <= a → m' a = m a) →
    payloadAt m' (buf r') dataType count = payloadAt m (buf r') dataType count).
  { intros m m' r' Hr' Hne' Hfr. unfold payloadAt.
    destruct (_ && _); [|done]. apply load_ext. intros a Ha. apply Hfr.
    specialize (Hdisj r' (list_elem_of_further _ _ _ Hr') Hne').
    cbv zeta in Hdisj. lia. }
  destruct (decide (r = self)) as [->|Hne].
  - destruct (Hself st) as (st1 & E1 & Hw1 & Hfr1 & Hl1).
    rewrite (bind_Ok _ _ st tt st1 E1).
    destruct (IH) with (st := st1)
      as (st' & E & Hmap & Hhost & Hsz & Hfr & _ & Hsame & Hother' & Hsent).
    { intros r' Hr' Hne'. apply Hdisj; [by right|done]. }
    { intros r' Hr' Hne'. rewrite Hw1. apply Hloc; [by right|done]. }
    exists st'. split; [exact E|]. rewrite Hw1 in *.
    split_and!; try done.
    + intros a Ha. rewrite Hfr by done. by apply Hfr1.
    + intros _. rewrite (Hsame Hr). exact Hl1.
    + intros Hnot. exfalso. apply Hnot. by left.
    + intros key Hkey. apply Hother'. intros r' Hr'. apply Hkey. by right.
    + intros r' Hr' Hne'. apply elem_of_cons in Hr' as [->|Hr']; [done|].
      destruct (Hsent r' Hr' Hne') as (m & Hq & Hm). exists m.
      split; [exact Hq|]. by rewrite <- (Hpay (st_mem st) (st_mem st1) r').
  - rewrite (Hother r Hne).
    destruct (Hloc r) as [Hsize Hlocal]; [by left|done|].
    destruct (send_local st self r (buf r) dataType count messageType)
      as (st1 & E1 & Hq1 & Hmap1 & Hhost1 & Hsz1 & _ & Hmem1 & _); [done..|].
    rewrite (bind_Ok _ _ st tt st1 E1).
    destruct (IH) with (st := st1)
      as (st' & E & Hmap & Hhost & Hsz & Hfr & Hcopy & Hsame & Hother' & Hsent).
    { intros r' Hr' Hne'. apply Hdisj; [by right|done]. }
    { intros r' Hr' Hne'. rewrite Hsz1, Hmap1, Hhost1.
      apply Hloc; [by right|done]. }
    exists st'. split; [exact E|].
    split; [congruence|]. split; [congruence|]. split; [congruence|].
    split_and!.
    + intros a Ha. rewrite Hfr by done. by rewrite Hmem1.
    + intros Hin. apply elem_of_cons in Hin as [->|Hin]; [done|].
      rewrite (Hcopy Hin). by rewrite Hmem1.
    + intros Hnot. rewrite Hsame; [done|]. intros Hin. apply Hnot. by right.
    + intros key Hkey. rewrite Hother'.
      * rewrite Hq1. rewrite lookup_insert_ne; [done|]. intros Hk.
        by apply (Hkey r); [left| |].
      * intros r' Hr'. apply Hkey. by right.
    + intros r' Hr' Hne'. apply elem_of_cons in Hr' as [->|Hr'].
      * exists (sentMessage st self r (buf r) dataType count messageType).
        split; [|done]. unfold queueOf at 1. rewrite Hother'.
        -- rewrite Hq1. by rewrite lookup_insert_eq.
        -- intros r'' Hr'' _. apply queueKey_receiver_ne. congruence.
      * destruct (Hsent r' Hr' Hne') as (m & Hq & Hm). exists m.
        rewrite Hmem1 in Hm. split; [|done]. rewrite Hq. f_equal.
        unfold queueOf. rewrite Hq1. rewrite lookup_insert_ne; [done|].
        apply queueKey_receiver_ne. congruence.
Qed.

End SendLoop.

(** *** Many senders, one receiver

    Ranks of [order], each with an empty queue towards [root], send one
    message each. *)
Section Senders.

Variables (root : Z) (buf : Z -> Z) (dataType : faabric_datatype_t).
Variables (count : Z) (messageType : MPIMessageType) (body : Z -> M unit).

Hypothesis Hrma : messageType ≠ RMA_WRITE.

Lemma senders_loop order :
  NoDup order →
  (∀ r, r ∈ order →
     body r = send r root (buf r) dataType count messageType) →
  ∀ st,
  root <= world_size (st_world st) - 1 →
  rankHostMap (st_world st) !! root = Some (thisHost (st_world st)) →
  (∀ r, r ∈ order → r ≠ root ∧ queueOf (st_world st) r root = []) →
  ∃ st',
    forM_ order body st = (Ok tt, st')
    ∧ st_mem st' = st_mem st
    ∧ st_heap st' = st_heap st
    ∧ rankHostMap (st_world st') = rankHostMap (st_world st)
    ∧ thisHost (st_world st') = thisHost (st_world st)
    ∧ world_size (st_world st') = world_size (st_world st)
    ∧ (∀ key, (∀ r, r ∈ order → key ≠ queueKey r root) →
         localQueueMap (st_world st') !! key
         = localQueueMap (st_world st) !! key)
    ∧ (∀ r, r ∈ order →
         ∃ m, localQueueMap (st_world st') !! queueKey r root = Some [m]
              ∧ messageWith r root dataType count messageType
                  (payloadAt (st_mem st) (buf r) dataType count) m).
Proof.
  intros Hnodup. induction Hnodup as [|r rs Hr Hnodup IH];
    intros Hbody st Hsz Hlocal Hempty.
  { exists st. cbn. split_and!; try done. intros r Hin. by apply elem_of_nil in Hin. }
  cbn [forM_].
  destruct (Hempty r) as [Hne Hq]; [by left|].
  destruct (send_local st r root (buf r) dataType count messageType)
    as (st1 & E1 & Hq1 & Hmap1 & Hhost1 & Hsz1 & _ & Hmem1 & Hheap1 & _);
    [done..|].
  rewrite Hq in Hq1. cbn [app] in Hq1.
  rewrite (Hbody r) by (by left). rewrite (bind_Ok _ _ st tt st1 E1).
  destruct (IH) with (st := st1)
    as (st' & E & Hmem & Hheap & Hmap & Hhost & Hsz' & Hother & Hsent).
  { intros r' Hr'. apply Hbody. by right. }
  { by rewrite Hsz1. }
  { by rewrite Hmap1, Hhost1. }
  { intros r' Hr'. destruct (Hempty r') as [Hne' Hq']; [by right|].
    split; [done|]. unfold queueOf in *. rewrite Hq1.
    rewrite lookup_insert_ne; [done|]. intros Hk.
    apply queueKey_sender_inj in Hk. congruence. }
  exists st'. split; [exact E|].
  split; [congruence|]. split; [congruence|]. split; [congruence|].
  split; [congruence|]. split; [congruence|]. split.
  - intros key Hkey. rewrite Hother.
    + rewrite Hq1. rewrite lookup_insert_ne; [done|].
      intros Hk. by apply (Hkey r); [left|].
    + intros r' Hr'. apply Hkey. by right.
  - intros r' Hr'. apply elem_of_cons in Hr' as [->|Hr'].
    + eexists. split.
      * rewrite Hother.
        -- rewrite Hq1. by rewrite lookup_insert_eq.
        -- intros r' Hr' Hk. apply queueKey_sender_inj in Hk. congruence.
      * done.
    + rewrite <- Hmem1. by apply Hsent.
Qed.

End Senders.

(** *** Gather *)

Lemma checkSendRecvMatch_same dataType sendCount recvCount st :
  checkSendRecvMatch dataType sendCount dataType recvCount st = (Ok tt, st).
Proof.
  unfold checkSendRecvMatch. by rewrite bool_decide_eq_false_2 by (intros Hn; by apply Hn).
Qed.

Lemma payloadAt_load mem buffer dataType count :
  0 < count → buffer ≠ nullptr →
  payloadAt mem buffer dataType count
  = load mem buffer (Z.to_nat (dt_size dataType * count)).
Proof.
  intros Hc Hb. unfold payloadAt. rewrite (proj2 (Z.ltb_lt 0 count)) by done.
  by rewrite (proj2 (Z.eqb_neq buffer nullptr)) by done.
Qed.

Lemma std_copy_run first d_first (size : nat) st :
  ∃ st',
    std_copy first (first + Z.of_nat size) d_first st = (Ok tt, st')
    ∧ st_world st' = st_world st
    ∧ (∀ a, a < d_first ∨ d_first + Z.of_nat size <= a →
            st_mem st' a = st_mem st a)
    ∧ load (st_mem st') d_first size = load (st_mem st) first size.
Proof.
  unfold std_copy, modify. eexists. split; [reflexivity|].
  replace (Z.to_nat (first + Z.of_nat size - first)) with size by lia.
  cbn. split_and!.
  - done.
  - intros a Ha. apply store_outside. by rewrite length_load.
  - apply load_store_length, length_load.
Qed.

(** [gather] called by the root, the message of every other rank waiting,
    the send buffer of the root apart from its receive buffer. *)
Lemma gather_at_root dataType n root count sendBuffer recvBuffer
    (payload : Z -> list Z) st :
  world_size (st_world st) = n → 0 <= root < n →
  0 < count → 0 < dt_size dataType →
  rankHostMap (st_world st) !! root = Some (thisHost (st_world st)) →
  let size := Z.to_nat (dt_size dataType * count) in
  (∀ r, 0 <= r < n → r ≠ root →
     length (payload r) = size
     ∧ ∃ m rest,
         localQueueMap (st_world st) !! queueKey r root = Some (m :: rest)
         ∧ mpi_messagetype m = GATHER
         ∧ mpi_count m = count
         ∧ mpi_buffer m = payload r) →
  sendBuffer + Z.of_nat size <= recvBuffer
  ∨ recvBuffer + n * Z.of_nat size <= sendBuffer →
  ∃ st',
    gather root root sendBuffer dataType count recvBuffer dataType count st
    = (Ok tt, st')
    ∧ rankHostMap (st_world st') = rankHostMap (st_world st)
    ∧ thisHost (st_world st') = thisHost (st_world st)
    ∧ world_size (st_world st') = world_size (st_world st)
    ∧ (∀ key, (∀ r, 0 <= r < n → r ≠ root → key ≠ queueKey r root) →
         localQueueMap (st_world st') !! key
         = localQueueMap (st_world st) !! key)
    ∧ (∀ a, a < recvBuffer ∨ recvBuffer + n * Z.of_nat size <= a →
            st_mem st' a = st_mem st a)
    ∧ load (st_mem st') recvBuffer (Z.to_nat n * size)
      = concat (map (fun r => if decide (r = root)
                              then load (st_mem st) sendBuffer size
                              else payload r) (seqZ 0 n)).
Proof.
  intros Hn Hroot Hcount Hdt Hlocal size Hq Hdisj.
  assert (Hsize : Z.of_nat size = count * dt_size dataType) by (unfold size; lia).
  unfold gather. rewrite (bind_Ok _ _ st tt st)
    by apply checkSendRecvMatch_same.
  rewrite Z.eqb_refl. cbv zeta.
  assert (Hnip : (sendBuffer =? recvBuffer) = false).
  { apply Z.eqb_neq. intros Heq. rewrite Heq in Hdisj. nia. }
  rewrite Hnip. rewrite (bind_Ok _ _ st (st_world st) st) by done.
  rewrite Hn.
  destruct (recv_loop root recvBuffer size count dataType GATHER
              payload sendBuffer
              (fun r =>
                 if (r =? root) && false then mret tt
                 else if r =? root
                 then std_copy sendBuffer
                        (sendBuffer + count * dt_size dataType)
                        (recvBuffer + r * (count * dt_size dataType))
                 else
                   recv r root (recvBuffer + r * (count * dt_size dataType))
                     dataType count None GATHER;; mret tt))
    with (rs := seqZ 0 n) (st := st)
    as (st' & E & Hmap & Hhost & Hsz & Hother & _ & Hfr & Hload).
  { intros r Hne. rewrite (proj2 (Z.eqb_neq r root)) by done. cbn [andb].
    by rewrite Hsize. }
  { intros st0. rewrite Z.eqb_refl. cbn [andb]. rewrite <- Hsize.
    apply std_copy_run. }
  { apply NoDup_seqZ. }
  { intros r Hr Hne. apply elem_of_seqZ in Hr. nia. }
  { done. }
  { intros r Hr Hne. apply elem_of_seqZ in Hr.
    destruct (Hq r) as (Hlen & m & rest & Hqr & Hty & Hc & Hb); [lia|done|].
    split; [done|]. exists m, rest. split; [done|]. split; [done|].
    split; [lia|done]. }
  exists st'. split; [exact E|]. split; [done|]. split; [done|].
  split; [congruence|]. split_and!.
  - intros key Hkey. apply Hother. intros r Hr. apply elem_of_seqZ in Hr.
    apply Hkey. lia.
  - intros a Ha. apply Hfr. intros r Hr. apply elem_of_seqZ in Hr. nia.
  - replace (seqZ 0 n) with (seqZ 0 (Z.of_nat (Z.to_nat n)))
      by (by rewrite Z2Nat.id by lia).
    apply load_chunks. intros r Hr. rewrite Z2Nat.id in Hr by lia.
    apply Hload. apply elem_of_seqZ. lia.
Qed.

(** X14: Gather, all ranks on one host, every rank with buffers of its own: when
    the other ranks have called [gather] towards [root], in any order, and
    then [root] calls it, the calls return and the receive buffer of the
    root holds the send buffers of the ranks [0 .. n-1], in this order; the
    rest of the memory is as before. *)
Theorem gather_collects_in_rank_order dataType n root count
    (sendBuffer recvBuffer : Z -> Z) order st :
  world_size (st_world st) = n → 0 <= root < n →
  0 < count → 0 < dt_size dataType →
  rankHostMap (st_world st) !! root = Some (thisHost (st_world st)) →
  (∀ r, queueOf (st_world st) r root = []) →
  order ≡ₚ filter (fun r => r ≠ root) (seqZ 0 n) →
  (∀ r, r ∈ order → sendBuffer r ≠ nullptr ∧ sendBuffer r ≠ recvBuffer r) →
  let size := Z.to_nat (dt_size dataType * count) in
  sendBuffer root + Z.of_nat size <= recvBuffer root
  ∨ recvBuffer root + n * Z.of_nat size <= sendBuffer root →
  let contribution r := load (st_mem st) (sendBuffer r) size in
  ∃ st',
    (forM_ order
       (fun r => gather r root (sendBuffer r) dataType count
                   (recvBuffer r) dataType count);;
     gather root root (sendBuffer root) dataType count
       (recvBuffer root) dataType count) st = (Ok tt, st')
    ∧ load (st_mem st') (recvBuffer root) (Z.to_nat n * size)
      = concat (map contribution (seqZ 0 n))
    ∧ (∀ a, a < recvBuffer root
            ∨ recvBuffer root + n * Z.of_nat size <= a →
            st_mem st' a = st_mem st a).
Proof.
  intros Hn Hroot Hcount Hdt Hlocal Hempty Horder Hbufs size Hdisj contribution.
  assert (Hin : ∀ r, r ∈ order ↔ (0 <= r < n ∧ r ≠ root)).
  { intros r. rewrite Horder, list_elem_of_filter, elem_of_seqZ. lia. }
  assert (Hnodup : NoDup order).
  { rewrite Horder. apply NoDup_filter, NoDup_seqZ. }
  assert (Hgather_send : ∀ r, r ∈ order →
    gather r root (sendBuffer r) dataType count (recvBuffer r) dataType count
    = send r root (sendBuffer r) dataType count GATHER).
  { intros r Hr. destruct (Hbufs r Hr) as [_ Hnp]. apply Hin in Hr as [_ Hne].
    unfold gather, checkSendRecvMatch.
    rewrite bool_decide_eq_false_2 by (intros Hn'; by apply Hn').
    rewrite (proj2 (Z.eqb_neq r root)) by done.
    rewrite (proj2 (Z.eqb_neq (sendBuffer r) (recvBuffer r))) by done.
    reflexivity. }
  destruct (senders_loop root sendBuffer dataType count GATHER
              (fun r => gather r root (sendBuffer r) dataType count
                          (recvBuffer r) dataType count))
    with (order := order) (st := st)
    as (st1 & E1 & Hmem1 & _ & Hmap1 & Hhost1 & Hsz1 & _ & Hsent).
  { discriminate. }
  { done. }
  { exact Hgather_send. }
  { lia. }
  { done. }
  { intros r Hr. split; [by apply Hin in Hr as [_ ?]|done]. }
  rewrite (bind_Ok _ _ st tt st1 E1).
  destruct (gather_at_root dataType n root count (sendBuffer root)
              (recvBuffer root) contribution st1)
    as (st' & E & _ & _ & _ & _ & Hfr & Hload); try done.
  { congruence. }
  { by rewrite Hmap1, Hhost1. }
  { intros r Hr Hne.
    assert (Hro : r ∈ order) by (apply Hin; lia).
    destruct (Hsent r Hro) as (m & Hq & _ & _ & _ & Hc & Hty & Hb).
    destruct (Hbufs r Hro) as [Hnn _].
    rewrite payloadAt_load in Hb by done.
    split; [apply length_load|]. by exists m, []. }
  exists st'. split; [exact E|]. split.
  - etrans; [exact Hload|]. f_equal. apply map_ext_in. intros r _.
    case_decide as Hd; [|done]. subst r. unfold contribution. by rewrite Hmem1.
  - intros a Ha. rewrite Hfr by done. by rewrite Hmem1.
Qed.

Lemma gather_collects_in_rank_order_witness :
  let st := fiveRanksState
              (rankBuffers (fun _ => 170) (fun r => ints [r; 10 * r])) in
  ∃ st',
    (forM_ [0; 1; 2; 4]
       (fun r => gather r 3 (bufferOf r) MPI_INT 2 (resultOf r) MPI_INT 2);;
     gather 3 3 (bufferOf 3) MPI_INT 2 (resultOf 3) MPI_INT 2) st
    = (Ok tt, st')
    ∧ load (st_mem st') (resultOf 3) 40
      = ints [0; 0; 1; 10; 2; 20; 3; 30; 4; 40].
Proof.
  intros st.
  destruct (gather_collects_in_rank_order MPI_INT 5 3 2 bufferOf resultOf
              [0; 1; 2; 4] st) as (st' & E & Hload & _).
  - reflexivity.
  - lia.
  - lia.
  - cbn. lia.
  - reflexivity.
  - intros r. reflexivity.
  - reflexivity.
  - intros r Hr. unfold bufferOf, resultOf, nullptr.
    apply list_elem_of_In in Hr. cbn in Hr. lia.
  - vm_compute. left. discriminate.
  - exists st'. split; [exact E|].
    etrans; [exact Hload|]. vm_compute. reflexivity.
Defined.

(** *** Scatter *)

(** X15: Scatter, the other ranks on this host: the call of the root returns,
    its receive buffer holds chunk [root] of the send buffer, only the
    receive buffer is written, and for every other rank [r] the call of [r]
    that follows returns with chunk [r] in the receive buffer of [r]. *)
Theorem scatter_delivers_each_rank_its_chunk dataType n root count
    sendBuffer recvBuffer st :
  world_size (st_world st) = n → 0 <= root < n →
  0 < count → 0 < dt_size dataType → 0 < sendBuffer →
  (∀ r, 0 <= r < n → r ≠ root →
     rankHostMap (st_world st) !! r = Some (thisHost (st_world st))
     ∧ queueOf (st_world st) root r = []) →
  let size := Z.to_nat (dt_size dataType * count) in
  recvBuffer + Z.of_nat size <= sendBuffer
  ∨ sendBuffer + n * Z.of_nat size <= recvBuffer →
  let chunk r := load (st_mem st) (sendBuffer + r * Z.of_nat size) size in
  ∃ st1,
    scatter root root sendBuffer dataType count recvBuffer dataType count st
    = (Ok tt, st1)
    ∧ load (st_mem st1) recvBuffer size = chunk root
    ∧ (∀ a, a < recvBuffer ∨ recvBuffer + Z.of_nat size <= a →
            st_mem st1 a = st_mem st a)
    ∧ ∀ r, 0 <= r < n → r ≠ root →
        ∀ sendBuffer' recvBuffer',
        ∃ st2,
          scatter root r sendBuffer' dataType count recvBuffer' dataType count
            st1 = (Ok tt, st2)
          ∧ load (st_mem st2) recvBuffer' size = chunk r.
Proof.
  intros Hn Hroot Hcount Hdt Hsb Hloc size Hdisj chunk.
  assert (Hsize : Z.of_nat size = count * dt_size dataType) by (unfold size; lia).
  unfold scatter at 1.
  rewrite (bind_Ok _ _ st tt st) by apply checkSendRecvMatch_same.
  rewrite Z.eqb_refl. cbv zeta.
  rewrite (bind_Ok _ _ st (st_world st) st) by done. rewrite Hn.
  destruct (send_loop root (fun r => sendBuffer + r * Z.of_nat size) dataType
              count SCATTER recvBuffer (sendBuffer + root * Z.of_nat size) size
              (fun r =>
                 if r =? root
                 then std_copy (sendBuffer + r * (count * dt_size dataType))
                        (sendBuffer + r * (count * dt_size dataType)
                         + count * dt_size dataType) recvBuffer
                 else send root r (sendBuffer + r * (count * dt_size dataType))
                        dataType count SCATTER))
    with (rs := seqZ 0 n) (st := st)
    as (st1 & E1 & Hmap1 & Hhost1 & Hsz1 & Hfr1 & Hcopy1 & _ & Hother1 & Hsent1).
  { discriminate. }
  { intros r Hne. rewrite (proj2 (Z.eqb_neq r root)) by done. by rewrite Hsize. }
  { intros st0. rewrite Z.eqb_refl. rewrite <- Hsize. apply std_copy_run. }
  { apply NoDup_seqZ. }
  { intros r Hr Hne. apply elem_of_seqZ in Hr. cbv zeta.
    fold size. nia. }
  { intros r Hr Hne. apply elem_of_seqZ in Hr. split; [lia|].
    apply Hloc; [lia|done]. }
  exists st1. split; [exact E1|]. split.
  { apply Hcopy1. apply elem_of_seqZ. lia. }
  split; [exact Hfr1|].
  intros r Hr Hne sendBuffer' recvBuffer'.
  destruct (Hsent1 r) as (m & Hq & _ & _ & _ & Hc & Hty & Hb);
    [apply elem_of_seqZ; lia|done|].
  destruct (Hloc r Hr Hne) as [Hlocal Hempty].
  rewrite Hempty in Hq. cbn [app] in Hq.
  rewrite payloadAt_load in Hb by (unfold nullptr; nia). fold size in Hb.
  unfold scatter. rewrite (bind_Ok _ _ st1 tt st1)
    by apply checkSendRecvMatch_same.
  rewrite (proj2 (Z.eqb_neq r root)) by done. cbv zeta.
  assert (Hq1 : localQueueMap (st_world st1) !! queueKey root r = Some [m]).
  { unfold queueOf in Hq.
    destruct (localQueueMap (st_world st1) !! queueKey root r) as [q|] eqn:Eq;
      cbn in Hq; by subst. }
  eexists. split.
  - erewrite bind_Ok; [reflexivity|].
    rewrite (recv_head st1 root r recvBuffer' dataType count None SCATTER m [])
      by (by rewrite ?Hmap1, ?Hhost1).
    rewrite decide_False by (rewrite Hty; intros Hn'; by apply Hn').
    rewrite Hc, Z.ltb_irrefl. rewrite (proj2 (Z.ltb_lt 0 count)) by done.
    reflexivity.
  - cbn. rewrite Hb. rewrite load_store_length by apply length_load. done.
Qed.

Lemma scatter_delivers_each_rank_its_chunk_witness :
  let st := fiveRanksState
              (store (fun _ => 170) 1024 (ints [0; 10; 20; 30; 40])) in
  ∃ st1 st2,
    scatter 2 2 1024 MPI_INT 1 2048 MPI_INT 1 st = (Ok tt, st1)
    ∧ load (st_mem st1) 2048 4 = ints [20]
    ∧ scatter 2 4 nullptr MPI_INT 1 3000 MPI_INT 1 st1 = (Ok tt, st2)
    ∧ load (st_mem st2) 3000 4 = ints [40].
Proof.
  intros st.
  destruct (scatter_delivers_each_rank_its_chunk MPI_INT 5 2 1 1024 2048 st)
    as (st1 & E1 & Hl1 & _ & Hrecv).
  - reflexivity.
  - lia.
  - lia.
  - cbn. lia.
  - lia.
  - intros r Hr Hne. split; [by apply fiveRanks_local|reflexivity].
  - vm_compute. right. discriminate.
  - destruct (Hrecv 4) with (sendBuffer' := nullptr) (recvBuffer' := 3000)
      as (st2 & E2 & Hl2); [lia|lia|].
    exists st1, st2. split; [exact E1|].
    split; [etrans; [exact Hl1|vm_compute; reflexivity]|].
    split; [exact E2|]. etrans; [exact Hl2|vm_compute; reflexivity].
Defined.

(** *** All-gather at the root *)

(** X16: [allGather] at rank 0, the gather message of every other rank waiting:
    the root collects the send buffers in rank order and sends every other
    rank one message with the whole result, [n] times [count] elements. *)
Theorem allGather_root_collects_and_broadcasts dataType n count sendBuffer
    recvBuffer (payload : Z -> list Z) st :
  world_size (st_world st) = n → 0 < n →
  0 < count → 0 < dt_size dataType → recvBuffer ≠ nullptr →
  (∀ r, 0 <= r < n →
     rankHostMap (st_world st) !! r = Some (thisHost (st_world st))) →
  let size := Z.to_nat (dt_size dataType * count) in
  (∀ r, 0 <= r < n → r ≠ 0 →
     length (payload r) = size
     ∧ ∃ m rest,
         localQueueMap (st_world st) !! queueKey r 0 = Some (m :: rest)
         ∧ mpi_messagetype m = GATHER
         ∧ mpi_count m = count
         ∧ mpi_buffer m = payload r) →
  sendBuffer + Z.of_nat size <= recvBuffer
  ∨ recvBuffer + n * Z.of_nat size <= sendBuffer →
  let result :=
    concat (map (fun r => if decide (r = 0)
                          then load (st_mem st) sendBuffer size
                          else payload r) (seqZ 0 n)) in
  ∃ st',
    allGather 0 sendBuffer dataType count recvBuffer dataType count st
    = (Ok tt, st')
    ∧ load (st_mem st') recvBuffer (Z.to_nat n * size) = result
    ∧ ∀ r, 0 <= r < n → r ≠ 0 →
        ∃ m, queueOf (st_world st') 0 r = queueOf (st_world st) 0 r ++ [m]
             ∧ messageWith 0 r dataType (count * n) ALLGATHER result m.
Proof.
  intros Hn Hpos Hcount Hdt Hrb Hloc size Hq Hdisj result.
  unfold allGather. rewrite (bind_Ok _ _ st tt st)
    by apply checkSendRecvMatch_same.
  cbv zeta.
  destruct (gather_at_root dataType n 0 count sendBuffer recvBuffer payload st)
    as (st1 & E1 & Hmap1 & Hhost1 & Hsz1 & Hother1 & Hfr1 & Hload1);
    [done|lia|done|done|apply Hloc; lia|done|done|].
  rewrite (bind_Ok _ _ st tt st1 E1).
  rewrite (bind_Ok _ _ st1 (st_world st1) st1) by done.
  rewrite Z.eqb_refl. rewrite Hsz1, Hn.
  destruct (broadcast_run 0 recvBuffer dataType (count * n) ALLGATHER st1)
    as (st' & E & Hmem & _ & _ & _ & _ & _ & _ & Hsent).
  { discriminate. }
  { intros r Hr _. rewrite Hmap1, Hhost1. apply Hloc. lia. }
  exists st'. split; [exact E|]. split; [by rewrite Hmem|].
  intros r Hr Hne. destruct (Hsent r) as (m & Hqm & Hm); [lia|done|].
  exists m. split.
  - rewrite Hqm. f_equal. unfold queueOf. rewrite Hother1; [done|].
    intros r' Hr' Hne' Hk. apply queueKey_inj in Hk as [<- _]. done.
  - rewrite payloadAt_load in Hm by (done || nia).
    replace (Z.to_nat (dt_size dataType * (count * n)))
      with (Z.to_nat n * size)%nat in Hm by (unfold size; nia).
    fold size in Hload1. by rewrite Hload1 in Hm.
Qed.

Lemma allGather_root_collects_and_broadcasts_witness :
  let m1 := {| mpi_id := 7; mpi_worldid := 123; mpi_sender := 1;
               mpi_destination := 0; mpi_type := FAABRIC_INT; mpi_count := 1;
               mpi_messagetype := GATHER; mpi_buffer := ints [11] |} in
  let w := set_localQueueMap (fun _ => {[ queueKey 1 0 := [m1] ]})
             (set_rankHostMap (fun _ => {[ 0 := "host"; 1 := "host" ]})
                (set_size 2 (newMpiWorld "host"))) in
  let st := {| st_world := w; st_mem := store (fun _ => 0) 100 (ints [10]);
               st_kv := ∅; st_gid := 7; st_calls := []; st_rpc := [];
               st_usableCores := 4; st_heap := 4096 |} in
  ∃ st',
    allGather 0 100 MPI_INT 1 200 MPI_INT 1 st = (Ok tt, st')
    ∧ load (st_mem st') 200 8 = ints [10; 11].
Proof.
  intros m1 w st.
  destruct (allGather_root_collects_and_broadcasts MPI_INT 2 1 100 200
              (fun _ => ints [11]) st) as (st' & E & Hl & _).
  - reflexivity.
  - lia.
  - lia.
  - cbn. lia.
  - discriminate.
  - intros r Hr. assert (r = 0 ∨ r = 1) as [->| ->] by lia; reflexivity.
  - intros r Hr Hne. assert (r = 1) as -> by lia. split; [reflexivity|].
    exists m1, []. split_and!; reflexivity.
  - vm_compute. left. discriminate.
  - exists st'. split; [exact E|]. etrans; [exact Hl|]. vm_compute. reflexivity.
Defined.

(** *** All-to-all *)

(** X17: [allToAll] at one rank, all ranks on this host, the message of every
    other rank waiting: the call returns; chunk [r] of the receive buffer
    holds what rank [r] sent, chunk [rank] holds chunk [rank] of the send
    buffer; every other rank [r] has one more message, with chunk [r] of the
    send buffer; only the receive buffer is written. *)
Theorem allToAll_exchanges_chunks dataType n rank count sendBuffer recvBuffer
    (payload : Z -> list Z) st :
  world_size (st_world st) = n → 0 <= rank < n →
  0 < count → 0 < dt_size dataType → 0 < sendBuffer →
  (∀ r, 0 <= r < n →
     rankHostMap (st_world st) !! r = Some (thisHost (st_world st))) →
  let size := Z.to_nat (dt_size dataType * count) in
  (∀ r, 0 <= r < n → r ≠ rank →
     length (payload r) = size
     ∧ ∃ m rest,
         localQueueMap (st_world st) !! queueKey r rank = Some (m :: rest)
         ∧ mpi_messagetype m = ALLTOALL
         ∧ mpi_count m = count
         ∧ mpi_buffer m = payload r) →
  sendBuffer + n * Z.of_nat size <= recvBuffer
  ∨ recvBuffer + n * Z.of_nat size <= sendBuffer →
  let chunk r := load (st_mem st) (sendBuffer + r * Z.of_nat size) size in
  ∃ st',
    allToAll rank sendBuffer dataType count recvBuffer dataType count st
    = (Ok tt, st')
    ∧ load (st_mem st') recvBuffer (Z.to_nat n * size)
      = concat (map (fun r => if decide (r = rank) then chunk rank
                              else payload r) (seqZ 0 n))
    ∧ (∀ r, 0 <= r < n → r ≠ rank →
         ∃ m, queueOf (st_world st') rank r = queueOf (st_world st) rank r ++ [m]
              ∧ messageWith rank r dataType count ALLTOALL (chunk r) m)
    ∧ (∀ a, a < recvBuffer ∨ recvBuffer + n * Z.of_nat size <= a →
            st_mem st' a = st_mem st a).
Proof.
  intros Hn Hrank Hcount Hdt Hsb Hloc size Hq Hdisj chunk.
  assert (Hsize : Z.of_nat size = count * dt_size dataType) by (unfold size; lia).
  unfold allToAll. rewrite (bind_Ok _ _ st tt st)
    by apply checkSendRecvMatch_same.
  cbv zeta. rewrite (bind_Ok _ _ st (st_world st) st) by done. rewrite Hn.
  destruct (send_loop rank (fun r => sendBuffer + r * Z.of_nat size) dataType
              count ALLTOALL (recvBuffer + rank * Z.of_nat size)
              (sendBuffer + rank * Z.of_nat size) size
              (fun r =>
                 if r =? rank
                 then std_copy (sendBuffer + r * (count * dt_size dataType))
                        (sendBuffer + r * (count * dt_size dataType)
                         + count * dt_size dataType)
                        (recvBuffer + r * (count * dt_size dataType))
                 else send rank r (sendBuffer + r * (count * dt_size dataType))
                        dataType count ALLTOALL))
    with (rs := seqZ 0 n) (st := st)
    as (st1 & E1 & Hmap1 & Hhost1 & Hsz1 & Hfr1 & Hcopy1 & _ & Hother1 & Hsent1).
  { discriminate. }
  { intros r Hne. rewrite (proj2 (Z.eqb_neq r rank)) by done. by rewrite Hsize. }
  { intros st0. rewrite Z.eqb_refl. rewrite <- Hsize. apply std_copy_run. }
  { apply NoDup_seqZ. }
  { intros r Hr Hne. apply elem_of_seqZ in Hr. cbv zeta. fold size. nia. }
  { intros r Hr Hne. apply elem_of_seqZ in Hr. split; [lia|]. apply Hloc. lia. }
  rewrite (bind_Ok _ _ st tt st1 E1).
  rewrite (bind_Ok _ _ st1 (st_world st1) st1) by done. rewrite Hsz1, Hn.
  destruct (recv_loop rank recvBuffer size count dataType ALLTOALL payload
              (recvBuffer + rank * Z.of_nat size)
              (fun r =>
                 if r =? rank then mret tt
                 else
                   recv r rank (recvBuffer + r * (count * dt_size dataType))
                     dataType count None ALLTOALL;; mret tt))
    with (rs := seqZ 0 n) (st := st1)
    as (st' & E & _ & _ & _ & Hother & _ & Hfr & Hload).
  { intros r Hne. rewrite (proj2 (Z.eqb_neq r rank)) by done. by rewrite Hsize. }
  { intros st0. rewrite Z.eqb_refl. exists st0. by split_and!. }
  { apply NoDup_seqZ. }
  { intros r Hr Hne. destruct (chunk_disjoint recvBuffer size rank r);
      [done|lia..]. }
  { rewrite Hmap1, Hhost1. apply Hloc. lia. }
  { intros r Hr Hne. apply elem_of_seqZ in Hr.
    destruct (Hq r) as (Hlen & m & rest & Hqr & Hty & Hc & Hb); [lia|done|].
    split; [done|]. exists m, rest. split.
    - rewrite Hother1; [done|]. intros r' Hr' Hne' Hk.
      apply queueKey_inj in Hk as [-> _]. done.
    - split; [done|]. split; [lia|done]. }
  exists st'. split; [exact E|]. split_and!.
  - replace (seqZ 0 n) with (seqZ 0 (Z.of_nat (Z.to_nat n)))
      by (by rewrite Z2Nat.id by lia).
    apply load_chunks. intros r Hr. rewrite Z2Nat.id in Hr by lia.
    rewrite Hload by (apply elem_of_seqZ; lia).
    case_decide; [|done]. apply Hcopy1. apply elem_of_seqZ. lia.
  - intros r Hr Hne. destruct (Hsent1 r) as (m & Hqm & Hm);
      [apply elem_of_seqZ; lia|done|].
    exists m. split.
    + rewrite <- Hqm. unfold queueOf. rewrite Hother; [done|].
      intros r' Hr' Hne' Hk. apply queueKey_inj in Hk as [<- _]. done.
    + rewrite payloadAt_load in Hm by (unfold nullptr; nia). exact Hm.
  - intros a Ha. rewrite Hfr.
    + apply Hfr1. nia.
    + intros r Hr. apply elem_of_seqZ in Hr. nia.
Qed.

Lemma allToAll_exchanges_chunks_witness :
  let m1 := {| mpi_id := 7; mpi_worldid := 123; mpi_sender := 1;
               mpi_destination := 0; mpi_type := FAABRIC_INT; mpi_count := 1;
               mpi_messagetype := ALLTOALL; mpi_buffer := ints [11] |} in
  let w := set_localQueueMap (fun _ => {[ queueKey 1 0 := [m1] ]})
             (set_rankHostMap (fun _ => {[ 0 := "host"; 1 := "host" ]})
                (set_size 2 (newMpiWorld "host"))) in
  let st := {| st_world := w; st_mem := store (fun _ => 0) 100 (ints [10; 20]);
               st_kv := ∅; st_gid := 7; st_calls := []; st_rpc := [];
               st_usableCores := 4; st_heap := 4096 |} in
  ∃ st',
    allToAll 0 100 MPI_INT 1 200 MPI_INT 1 st = (Ok tt, st')
    ∧ load (st_mem st') 200 8 = ints [10; 11].
Proof.
  intros m1 w st.
  destruct (allToAll_exchanges_chunks MPI_INT 2 0 1 100 200
              (fun _ => ints [11]) st) as (st' & E & Hl & _).
  - reflexivity.
  - lia.
  - lia.
  - cbn. lia.
  - lia.
  - intros r Hr. assert (r = 0 ∨ r = 1) as [->| ->] by lia; reflexivity.
  - intros r Hr Hne. assert (r = 1) as -> by lia. split; [reflexivity|].
    exists m1, []. split_and!; reflexivity.
  - vm_compute. left. discriminate.
  - exists st'. split; [exact E|]. etrans; [exact Hl|]. vm_compute. reflexivity.
Defined.

(** ** Reductions, continued *)

(** X18: What [op_reduce] accepts.  For MAX, MIN and SUM on INT, DOUBLE and
    LONG_LONG it returns; for every other operator (the product included)
    and every other datatype it throws, with the message the source gives,
    and leaves the state as it was.  With a count that is not positive the
    accepted call changes nothing. *)
Theorem op_reduce_accepts_three_operators_on_three_types `{DoubleArith}
    operation datatype count inBuffer outBuffer st :
  let supported :=
    op_ident operation ∈ [FAABRIC_OP_MAX; FAABRIC_OP_MIN; FAABRIC_OP_SUM]
    ∧ dt_id datatype ∈ [FAABRIC_INT; FAABRIC_DOUBLE; FAABRIC_LONG_LONG] in
  let r := op_reduce operation datatype count inBuffer outBuffer st in
  (supported → fst r = Ok tt ∧ st_world (snd r) = st_world st
               ∧ (count <= 0 → snd r = st))
  ∧ (¬ supported →
     snd r = st
     ∧ fst r = Throw (runtime_error
         match op_ident operation with
         | FAABRIC_OP_MAX => "Unsupported type for max reduction"
         | FAABRIC_OP_MIN => "Unsupported type for min reduction"
         | FAABRIC_OP_SUM => "Unsupported type for sum reduction"
         | _ => "Not yet implemented reduce operation"
         end)).
Proof.
  cbv zeta. split.
  - intros [Hop Hdt].
    assert (Hcell : ∃ w f, cellOf operation datatype = Some (w, f)).
    { unfold cellOf. repeat (apply elem_of_cons in Hop as [->|Hop]);
        [..|by apply elem_of_nil in Hop];
        repeat (apply elem_of_cons in Hdt as [->|Hdt]);
        try (by apply elem_of_nil in Hdt); by eexists _, _. }
    destruct Hcell as (w & f & Hcell).
    rewrite (op_reduce_cellOf _ _ w f) by done. rewrite reduceSlots_run.
    cbn [fst snd]. split; [done|]. split; [done|].
    intros Hc. rewrite seqZ_nil by lia. cbn [fold_left]. apply with_mem_same.
  - intros Hnot. unfold op_reduce.
    destruct (op_ident operation) eqn:Eop, (dt_id datatype) eqn:Edt;
      try (by split);
      exfalso; apply Hnot; split; set_solver.
Qed.

(** *** What a reduction leaves alone *)

(** The host map, the host name and the size of the world. *)
Definition hostsAre (m : gmap Z string) (h : string) (n : Z) : State -> Prop :=
  fun st =>
    rankHostMap (st_world st) = m ∧ thisHost (st_world st) = h
    ∧ world_size (st_world st) = n.

Lemma hostsAre_frame m h n (f : State -> State) :
  (∀ st, rankHostMap (st_world (f st)) = rankHostMap (st_world st)
         ∧ thisHost (st_world (f st)) = thisHost (st_world st)
         ∧ world_size (st_world (f st)) = world_size (st_world st)) →
  preserves (hostsAre m h n) (modify f).
Proof.
  intros Hf. apply preserves_modify. intros st. unfold hostsAre.
  destruct (Hf st) as (-> & -> & ->). done.
Qed.

Lemma hostsAre_recv m h n s r buffer dataType count status messageType :
  preserves (hostsAre m h n) (recv s r buffer dataType count status messageType).
Proof.
  intros st Hst. unfold recv. unfold mbind at 1. unfold M_bind at 1.
  rewrite getLocalQueue_spec. case_decide; [|done].
  match goal with
  | |- hostsAre _ _ _ (snd (?k ?st1)) =>
      assert (Hk : preserves (hostsAre m h n) k); [|apply Hk]
  end.
  - apply preserves_bind.
    + intros st0 Hst0. unfold dequeue. run_m.
      by destruct (localQueueMap (st_world st0) !! queueKey s r) as [[|? ?]|].
    + intros msg. destruct (decide _); [apply preserves_throw|].
      destruct (_ <? _); [apply preserves_throw|].
      apply preserves_bind; [|intros _; apply preserves_ret].
      destruct (_ <? _); [by apply hostsAre_frame|apply preserves_ret].
  - unfold hostsAre, ensureQueue in *. cbn.
    by destruct (localQueueMap (st_world st) !! queueKey s r).
Qed.

Lemma hostsAre_op_reduce `{DoubleArith} m h n operation datatype count
    inBuffer outBuffer :
  preserves (hostsAre m h n)
    (op_reduce operation datatype count inBuffer outBuffer).
Proof.
  unfold op_reduce, reduceSlots.
  destruct (op_ident operation), (dt_id datatype);
    first [apply preserves_throw
          |apply preserves_forM_; intros slot; by apply hostsAre_frame].
Qed.

Lemma queueIs_op_reduce `{DoubleArith} s r q operation datatype count
    inBuffer outBuffer :
  preserves (queueIs s r q)
    (op_reduce operation datatype count inBuffer outBuffer).
Proof.
  unfold op_reduce, reduceSlots.
  destruct (op_ident operation), (dt_id datatype);
    first [apply preserves_throw
          |apply preserves_forM_; intros slot; by apply queueIs_frame].
Qed.

Lemma preserves_new_bytes_world P n :
  (∀ st st', st_world st' = st_world st → P st → P st') →
  preserves P (new_bytes n).
Proof. intros HP st Hst. by apply (HP st). Qed.

Lemma hostsAre_world m h n st st' :
  st_world st' = st_world st → hostsAre m h n st → hostsAre m h n st'.
Proof. unfold hostsAre. by intros ->. Qed.

Lemma queueIs_world s r q st st' :
  st_world st' = st_world st → queueIs s r q st → queueIs s r q st'.
Proof. unfold queueIs. by intros ->. Qed.

(** [reduce] at the root takes messages from the queues towards the root and
    writes to the memory; the hosts and the queues of other pairs stay. *)
Lemma hostsAre_reduce_root `{DoubleArith} m h n root sendBuffer recvBuffer
    datatype count operation :
  preserves (hostsAre m h n)
    (reduce root root sendBuffer recvBuffer datatype count operation).
Proof.
  unfold reduce. rewrite Z.eqb_refl. cbv zeta.
  apply preserves_bind.
  { destruct (negb _); [by apply hostsAre_frame|apply preserves_ret]. }
  intros _. apply preserves_bind.
  { apply preserves_new_bytes_world. apply hostsAre_world. }
  intros rankData. apply preserves_bind; [apply preserves_gets|intros w].
  apply preserves_forM_. intros r.
  apply preserves_bind; [by apply hostsAre_frame|intros _].
  destruct (negb _); [|apply preserves_ret].
  apply preserves_bind; [apply hostsAre_recv|intros _].
  apply hostsAre_op_reduce.
Qed.

Lemma queueIs_reduce_root `{DoubleArith} s r q root sendBuffer recvBuffer
    datatype count operation :
  r ≠ root →
  preserves (queueIs s r q)
    (reduce root root sendBuffer recvBuffer datatype count operation).
Proof.
  intros Hne. unfold reduce. rewrite Z.eqb_refl. cbv zeta.
  apply preserves_bind.
  { destruct (negb _); [by apply queueIs_frame|apply preserves_ret]. }
  intros _. apply preserves_bind.
  { apply preserves_new_bytes_world. apply queueIs_world. }
  intros rankData. apply preserves_bind; [apply preserves_gets|intros w].
  apply preserves_forM_. intros r'.
  apply preserves_bind; [by apply queueIs_frame|intros _].
  destruct (negb _); [|apply preserves_ret].
  apply preserves_bind; [|intros _; apply queueIs_op_reduce].
  apply queueIs_recv. intros [= _ ?]. done.
Qed.

Lemma filter_all {A} (P : A -> Prop) `{∀ x, Decision (P x)} (l : list A) :
  (∀ x, x ∈ l → P x) → filter P l = l.
Proof.
  induction l as [|x l IH]; intros Hl; [done|].
  rewrite filter_cons_True by (apply Hl; by left).
  f_equal. apply IH. intros y Hy. apply Hl. by right.
Qed.

(** [allReduce] at rank 0, all ranks on this host, the reduce message of
    every other rank waiting: the bytes of the receive buffer are those of
    the send buffer put through the slot loop of [op_reduce] with each
    payload, and every other rank is sent one message with them. *)
Lemma allReduce_root_buffer `{DoubleArith} operation
    datatype n count sendBuffer recvBuffer (payload : Z -> list Z) st :
  supportedOp operation → supportedType datatype →
  world_size (st_world st) = n → 0 < n → 0 < count → recvBuffer ≠ nullptr →
  (∀ r, 0 <= r < n →
     rankHostMap (st_world st) !! r = Some (thisHost (st_world st))) →
  recvBuffer + dt_size datatype * count <= st_heap st →
  let size := Z.to_nat (dt_size datatype * count) in
  (∀ r, 1 <= r < n →
     length (payload r) = size
     ∧ ∃ m rest,
         localQueueMap (st_world st) !! queueKey r 0 = Some (m :: rest)
         ∧ reduceMessage count (payload r) m) →
  let result :=
    fold_left (elementwise operation datatype count)
      (map payload (seqZ 1 (n - 1))) (load (st_mem st) sendBuffer size) in
  ∃ st',
    allReduce 0 sendBuffer recvBuffer datatype count operation st = (Ok tt, st')
    ∧ load (st_mem st') recvBuffer size = result
    ∧ ∀ r, 1 <= r < n →
        ∃ m, queueOf (st_world st') 0 r = queueOf (st_world st) 0 r ++ [m]
             ∧ messageWith 0 r datatype count ALLREDUCE result m.
Proof.
  intros Hop Hdt Hn Hpos Hcount Hrb Hloc Hheap size Hq result.
  destruct (cellOf_supported operation datatype Hop Hdt) as [f Hcell].
  assert (Hw : dt_size datatype = Z.of_nat (Z.to_nat (dt_size datatype))).
  { destruct Hdt as [->|[->| ->]]; reflexivity. }
  assert (Hsz : (Z.to_nat (dt_size datatype) * Z.to_nat count)%nat = size).
  { unfold size. lia. }
  destruct (reduce_at_root operation datatype (Z.to_nat (dt_size datatype)) f
              Hcell Hw 0 count ltac:(lia) payload sendBuffer recvBuffer st)
    as (st1 & E1 & Hload1).
  { apply Hloc. lia. }
  { done. }
  { intros r Hr Hne. apply elem_of_seqZ in Hr. rewrite Hsz.
    apply Hq. lia. }
  pose proof (hostsAre_reduce_root _ _ _ 0 sendBuffer recvBuffer datatype
                count operation st (conj eq_refl (conj eq_refl eq_refl)))
    as (Hmap1 & Hhost1 & Hsz1).
  rewrite E1 in Hmap1, Hhost1, Hsz1. cbn [snd] in Hmap1, Hhost1, Hsz1.
  assert (Hq1 : ∀ r, r ≠ 0 →
    queueOf (st_world st1) 0 r = queueOf (st_world st) 0 r).
  { intros r Hr.
    pose proof (queueIs_reduce_root 0 r _ 0 sendBuffer recvBuffer datatype
                  count operation Hr st eq_refl) as Hk.
    by rewrite E1 in Hk. }
  unfold allReduce. rewrite Z.eqb_refl.
  rewrite (bind_Ok _ _ st tt st1 E1).
  destruct (broadcast_run 0 recvBuffer datatype count ALLREDUCE st1)
    as (st' & E & Hmem & _ & _ & _ & _ & _ & _ & Hsent).
  { discriminate. }
  { intros r Hr _. rewrite Hmap1, Hhost1. apply Hloc. lia. }
  assert (Hres : load (st_mem st1) recvBuffer size = result).
  { rewrite <- Hsz. rewrite Hload1. unfold result. rewrite Hn, Hsz. f_equal.
    f_equal. replace n with (1 + (n - 1)) at 1 by lia.
    rewrite seqZ_app by lia. rewrite filter_app.
    rewrite seqZ_cons by lia. rewrite seqZ_nil by lia.
    rewrite filter_cons_False by (intros Hn'; by apply Hn').
    rewrite filter_nil. cbn [app].
    apply filter_all. intros r Hr. apply elem_of_seqZ in Hr. lia. }
  exists st'. split; [exact E|]. split; [by rewrite Hmem|].
  intros r Hr. destruct (Hsent r) as (m & Hqm & Hm); [lia|lia|].
  exists m. split; [by rewrite Hqm, Hq1 by lia|].
  rewrite payloadAt_load in Hm by done. fold size in Hm. by rewrite Hres in Hm.
Qed.

(** X19: [allReduce] at rank 0, all ranks on this host, the reduce message of
    every other rank waiting: the root's receive buffer ends with the
    elementwise fold of the operator over the elements of its own send
    buffer and of the payloads, in rank order, and every other rank is sent
    one message with the bytes of that buffer.  Elements and operators are
    those of the reduction: signed values with the greater, the lesser and
    the wrapping sum for the integers, patterns with [std::max], [std::min]
    and the sum of the floating point unit for the doubles. *)
Theorem allReduce_root_reduces_and_broadcasts `{DoubleArith} operation
    datatype n count sendBuffer recvBuffer (payload : Z -> list Z) st :
  supportedOp operation → supportedType datatype →
  world_size (st_world st) = n → 0 < n → 0 < count → recvBuffer ≠ nullptr →
  (∀ r, 0 <= r < n →
     rankHostMap (st_world st) !! r = Some (thisHost (st_world st))) →
  recvBuffer + dt_size datatype * count <= st_heap st →
  let size := Z.to_nat (dt_size datatype * count) in
  (∀ r, 1 <= r < n →
     length (payload r) = size
     ∧ ∃ m rest,
         localQueueMap (st_world st) !! queueKey r 0 = Some (m :: rest)
         ∧ reduceMessage count (payload r) m) →
  Forall isByte (load (st_mem st) sendBuffer size) →
  (∀ r, 1 <= r < n → Forall isByte (payload r)) →
  ∃ st' result,
    allReduce 0 sendBuffer recvBuffer datatype count operation st = (Ok tt, st')
    ∧ load (st_mem st') recvBuffer size = result
    ∧ elementsOf datatype count result
      = foldOver operation datatype
          (elementsOf datatype count (load (st_mem st) sendBuffer size))
          (map (fun r => elementsOf datatype count (payload r))
             (seqZ 1 (n - 1)))
    ∧ ∀ r, 1 <= r < n →
        ∃ m, queueOf (st_world st') 0 r = queueOf (st_world st) 0 r ++ [m]
             ∧ messageWith 0 r datatype count ALLREDUCE result m.
Proof.
  intros Hop Hdt Hn Hpos Hcount Hrb Hloc Hheap size Hq Hown Hpay.
  destruct (allReduce_root_buffer operation datatype n count sendBuffer
              recvBuffer payload st) as (st' & E & Hload & Hsent); [done..|].
  eexists st', _. split; [exact E|]. split; [exact Hload|]. split; [|exact Hsent].
  rewrite elementsOf_fold; [by rewrite map_map|done|done|lia| | |].
  - apply length_load.
  - exact Hown.
  - apply Forall_forall. intros b Hb.
    apply list_elem_of_fmap in Hb as (r & -> & Hr). apply elem_of_seqZ in Hr.
    split; [apply Hq; lia|apply Hpay; lia].
Qed.

(** Two ranks.  On [int]s: rank 0 holds [[1, 2]], rank 1 sent [[5, 6]], the
    sums are [[6, 8]].  On doubles, in the arithmetic of IEEE 754: rank 0
    holds 0.1 and 1.5, rank 1 sent 0.2 and 2.25; the sums are
    0.30000000000000004, where the nearest double falls, and 3.75; the
    greatest are 0.2 and 2.25. *)
Lemma allReduce_root_reduces_and_broadcasts_witness :
  let waiting datatype (own sent : list Z) :=
    let m1 := {| mpi_id := 7; mpi_worldid := 123; mpi_sender := 1;
                 mpi_destination := 0; mpi_type := dt_id datatype;
                 mpi_count := 2; mpi_messagetype := REDUCE;
                 mpi_buffer := sent |} in
    let w := set_localQueueMap (fun _ => {[ queueKey 1 0 := [m1] ]})
               (set_rankHostMap (fun _ => {[ 0 := "host"; 1 := "host" ]})
                  (set_size 2 (newMpiWorld "host"))) in
    {| st_world := w; st_mem := store (fun _ => 0) 100 own;
       st_kv := ∅; st_gid := 7; st_calls := []; st_rpc := [];
       st_usableCores := 4; st_heap := 4096 |} in
  let own := doubles [0x3FB999999999999A; 0x3FF8000000000000] in
  let sent := doubles [0x3FC999999999999A; 0x4002000000000000] in
  (∃ st',
     allReduce (H := ieee754) 0 100 200 MPI_INT 2 MPI_SUM
       (waiting MPI_INT (ints [1; 2]) (ints [5; 6])) = (Ok tt, st')
     ∧ elementsOf MPI_INT 2 (load (st_mem st') 200 8) = [6; 8])
  ∧ (∃ st',
       allReduce (H := ieee754) 0 100 200 MPI_DOUBLE 2 MPI_SUM
         (waiting MPI_DOUBLE own sent) = (Ok tt, st')
       ∧ elementsOf MPI_DOUBLE 2 (load (st_mem st') 200 16)
         = [0x3FD3333333333334; 0x400E000000000000])
  ∧ (∃ st',
       allReduce (H := ieee754) 0 100 200 MPI_DOUBLE 2 MPI_MAX
         (waiting MPI_DOUBLE own sent) = (Ok tt, st')
       ∧ elementsOf MPI_DOUBLE 2 (load (st_mem st') 200 16)
         = [0x3FC999999999999A; 0x4002000000000000]).
Proof.
  intros waiting own sent.
  assert (Hranks : ∀ r, 1 <= r < 2 → r = 1) by (intros; lia).
  split_and!.
  - destruct (allReduce_root_reduces_and_broadcasts (H := ieee754) MPI_SUM
                MPI_INT 2 2 100 200 (fun _ => ints [5; 6])
                (waiting MPI_INT (ints [1; 2]) (ints [5; 6])))
      as (st' & result & E & Hl & Hel & _).
    + right. by right.
    + by left.
    + reflexivity.
    + lia.
    + lia.
    + discriminate.
    + intros r Hr. assert (r = 0 ∨ r = 1) as [->| ->] by lia; reflexivity.
    + vm_compute. discriminate.
    + intros r Hr. rewrite (Hranks r Hr). split; [reflexivity|].
      eexists _, []. split; [reflexivity|]. by split_and!.
    + apply (bool_decide_unpack _). vm_compute. reflexivity.
    + intros r _. apply (bool_decide_unpack _). vm_compute. reflexivity.
    + exists st'. split; [exact E|]. rewrite <- Hl in Hel.
      etrans; [exact Hel|]. vm_compute. reflexivity.
  - destruct (allReduce_root_reduces_and_broadcasts (H := ieee754) MPI_SUM
                MPI_DOUBLE 2 2 100 200 (fun _ => sent)
                (waiting MPI_DOUBLE own sent))
      as (st' & result & E & Hl & Hel & _).
    + right. by right.
    + right. by left.
    + reflexivity.
    + lia.
    + lia.
    + discriminate.
    + intros r Hr. assert (r = 0 ∨ r = 1) as [->| ->] by lia; reflexivity.
    + vm_compute. discriminate.
    + intros r Hr. rewrite (Hranks r Hr). split; [reflexivity|].
      eexists _, []. split; [reflexivity|]. by split_and!.
    + apply (bool_decide_unpack _). vm_compute. reflexivity.
    + intros r _. apply (bool_decide_unpack _). vm_compute. reflexivity.
    + exists st'. split; [exact E|]. rewrite <- Hl in Hel.
      etrans; [exact Hel|]. vm_compute. reflexivity.
  - destruct (allReduce_root_reduces_and_broadcasts (H := ieee754) MPI_MAX
                MPI_DOUBLE 2 2 100 200 (fun _ => sent)
                (waiting MPI_DOUBLE own sent))
      as (st' & result & E & Hl & Hel & _).
    + by left.
    + right. by left.
    + reflexivity.
    + lia.
    + lia.
    + discriminate.
    + intros r Hr. assert (r = 0 ∨ r = 1) as [->| ->] by lia; reflexivity.
    + vm_compute. discriminate.
    + intros r Hr. rewrite (Hranks r Hr). split; [reflexivity|].
      eexists _, []. split; [reflexivity|]. by split_and!.
    + apply (bool_decide_unpack _). vm_compute. reflexivity.
    + intros r _. apply (bool_decide_unpack _). vm_compute. reflexivity.
    + exists st'. split; [exact E|]. rewrite <- Hl in Hel.
      etrans; [exact Hel|]. vm_compute. reflexivity.
Defined.

(** *** Scan on [int]s *)

(** One call of [scan] on [MPI_INT]: rank [k], the accumulator of rank
    [k - 1] waiting (for [k > 0]), the queue towards [k + 1] empty. *)
Lemma scan_step `{DoubleArith} operation f k n count sendBuffer recvBuffer
    (acc : list Z) st :
  cellOf operation MPI_INT = Some (4%nat, f) →
  world_size (st_world st) = n → 0 <= k < n → 0 <= count →
  (0 < count → recvBuffer ≠ nullptr) →
  (∀ r, 0 <= r < n →
     rankHostMap (st_world st) !! r = Some (thisHost (st_world st))) →
  let size := (4 * Z.to_nat count)%nat in
  (0 < k →
     length acc = size
     ∧ ∃ m, localQueueMap (st_world st) !! queueKey (k - 1) k = Some [m]
            ∧ mpi_messagetype m = SCAN ∧ mpi_count m = count
            ∧ mpi_buffer m = acc) →
  (k < n - 1 → queueOf (st_world st) k (k + 1) = []) →
  sendBuffer + Z.of_nat size <= recvBuffer
  ∨ recvBuffer + Z.of_nat size <= sendBuffer →
  recvBuffer + Z.of_nat size <= st_heap st →
  let own := load (st_mem st) sendBuffer size in
  ∃ st',
    scan k sendBuffer recvBuffer MPI_INT count operation st = (Ok tt, st')
    ∧ rankHostMap (st_world st') = rankHostMap (st_world st)
    ∧ thisHost (st_world st') = thisHost (st_world st)
    ∧ world_size (st_world st') = world_size (st_world st)
    ∧ st_heap st <= st_heap st'
    ∧ load (st_mem st') recvBuffer size
      = (if decide (k = 0) then own
         else elementwise operation MPI_INT count own acc)
    ∧ (∀ a, a < st_heap st →
            a < recvBuffer ∨ recvBuffer + Z.of_nat size <= a →
            st_mem st' a = st_mem st a)
    ∧ (k < n - 1 →
         ∃ m, localQueueMap (st_world st') !! queueKey k (k + 1) = Some [m]
              ∧ mpi_messagetype m = SCAN ∧ mpi_count m = count
              ∧ mpi_buffer m = load (st_mem st') recvBuffer size)
    ∧ (∀ key, key ≠ queueKey (k - 1) k → key ≠ queueKey k (k + 1) →
         localQueueMap (st_world st') !! key
         = localQueueMap (st_world st) !! key).
Proof.
  intros Hcell Hn Hk Hcount Hrb Hloc size Hacc Hnext Hdisj Hheap own.
  assert (Hbs : Z.to_nat (dt_size MPI_INT * count) = size)
    by (unfold size; cbn; lia).
  unfold scan. rewrite (bind_Ok _ _ st (st_world st) st) by done.
  rewrite Hn. rewrite (proj2 (Z.ltb_ge _ _)) by lia. cbv zeta.
  (* the copy of the own values *)
  assert (Hcopy : ∃ st1,
    (if negb (sendBuffer =? recvBuffer)
     then memcpy recvBuffer sendBuffer (dt_size MPI_INT * count)
     else mret tt) st = (Ok tt, st1)
    ∧ st_world st1 = st_world st ∧ st_heap st1 = st_heap st
    ∧ load (st_mem st1) recvBuffer size = own
    ∧ (∀ a, a < recvBuffer ∨ recvBuffer + Z.of_nat size <= a →
            st_mem st1 a = st_mem st a)).
  { destruct (sendBuffer =? recvBuffer) eqn:Eip; cbn [negb].
    - exists st. split_and!; try done.
      apply Z.eqb_eq in Eip. unfold own. by rewrite Eip.
    - unfold memcpy, modify. eexists. split; [reflexivity|].
      cbn [st_world st_heap st_mem set_mem]. rewrite Hbs. split_and!; try done.
      + apply load_store_length, length_load.
      + intros a Ha. apply store_outside. by rewrite length_load. }
  destruct Hcopy as (st1 & E1 & Hw1 & Hh1 & Hown1 & Hfr1).
  rewrite (bind_Ok _ _ st tt st1 E1).
  (* the accumulator of the rank before *)
  assert (Hred : ∃ st2,
    (if 0 <? k
     then
       currentAcc ← new_bytes (dt_size MPI_INT * count);
       recv (k - 1) k currentAcc MPI_INT count None SCAN;;
       op_reduce operation MPI_INT count currentAcc recvBuffer
     else mret tt) st1 = (Ok tt, st2)
    ∧ rankHostMap (st_world st2) = rankHostMap (st_world st)
    ∧ thisHost (st_world st2) = thisHost (st_world st)
    ∧ world_size (st_world st2) = world_size (st_world st)
    ∧ world_id (st_world st2) = world_id (st_world st)
    ∧ st_heap st <= st_heap st2
    ∧ load (st_mem st2) recvBuffer size
      = (if decide (k = 0) then own
         else elementwise operation MPI_INT count own acc)
    ∧ (∀ a, a < st_heap st →
            a < recvBuffer ∨ recvBuffer + Z.of_nat size <= a →
            st_mem st2 a = st_mem st a)
    ∧ (∀ key, key ≠ queueKey (k - 1) k →
         localQueueMap (st_world st2) !! key
         = localQueueMap (st_world st) !! key)).
  { destruct (decide (k = 0)) as [->|Hk0].
    - cbn. exists st1. rewrite Hw1. split_and!; try done; [lia|].
      intros a _ Ha. by apply Hfr1.
    - rewrite (proj2 (Z.ltb_lt 0 k)) by lia.
      destruct Hacc as (Hlen & m & Hqm & Hty & Hc & Hb); [lia|].
      erewrite bind_Ok by reflexivity. cbn [st_heap].
      set (st1' := {| st_world := st_world st1; st_mem := st_mem st1;
                      st_kv := st_kv st1; st_gid := st_gid st1;
                      st_calls := st_calls st1; st_rpc := st_rpc st1;
                      st_usableCores := st_usableCores st1;
                      st_heap := st_heap st1
                                 + Z.max (dt_size MPI_INT * count) 0 |}).
      set (blk := st_heap st1).
      set (st1'' := if 0 <? count
                    then set_mem (fun mem => store mem blk acc)
                           (set_world (set_localQueueMap
                              (fun q => <[queueKey (k - 1) k := []]> q)) st1')
                    else set_world (set_localQueueMap
                           (fun q => <[queueKey (k - 1) k := []]> q)) st1').
      rewrite (bind_Ok _ _ st1' None st1''); last first.
      { rewrite (recv_head st1' (k - 1) k blk MPI_INT count None SCAN m []).
        - rewrite decide_False by (rewrite Hty; intros Hn'; by apply Hn').
          rewrite Hc, Z.ltb_irrefl, Hb. reflexivity.
        - cbn. rewrite Hw1. apply Hloc. lia.
        - cbn. by rewrite Hw1. }
      assert (Hw'' : st_world st1''
                     = set_localQueueMap
                         (fun q => <[queueKey (k - 1) k := []]> q) (st_world st))
        by (unfold st1''; destruct (0 <? count); cbn; by rewrite Hw1).
      assert (Hh'' : st_heap st1'' = blk + Z.max (dt_size MPI_INT * count) 0)
        by (unfold st1''; by destruct (0 <? count)).
      assert (Hblk : load (st_mem st1'') blk size = acc).
      { unfold st1''. destruct (0 <? count) eqn:Ec.
        - cbn [st_mem set_mem set_world]. by apply load_store_length.
        - apply Z.ltb_ge in Ec.
          assert (size = 0%nat) as Hs0 by (unfold size; lia).
          rewrite Hs0 in Hlen |- *. by destruct acc. }
      assert (Hrest : ∀ a, a < blk → st_mem st1'' a = st_mem st1 a).
      { intros a Ha. unfold st1''. destruct (0 <? count); [|done].
        cbn [st_mem set_mem set_world]. apply store_outside. lia. }
      destruct (op_reduce_spec operation MPI_INT 4%nat f count blk recvBuffer
                  st1'' Hcell Hcount) as (mem' & E & Hfr & Hload).
      { right. unfold blk. rewrite Hh1. unfold size in Hheap. lia. }
      exists (with_mem mem' st1''). split; [exact E|]. unfold with_mem.
      cbn [st_world st_heap st_mem set_mem]. rewrite Hw''.
      cbn [rankHostMap thisHost world_size world_id localQueueMap
           set_localQueueMap].
      split_and!; try done.
      + rewrite Hh''. unfold blk. lia.
      + fold size in Hload. rewrite Hload, Hblk. f_equal.
        rewrite <- Hown1. apply load_ext. intros a Ha. apply Hrest.
        unfold blk. lia.
      + intros a Hlt Ha. rewrite Hfr by (unfold size in Ha; lia).
        rewrite Hrest by (unfold blk; lia). by apply Hfr1.
      + intros key Hkey. by rewrite lookup_insert_ne. }
  destruct Hred as (st2 & E2 & Hmap2 & Hhost2 & Hsz2 & Hid2 & Hh2 & Hl2 & Hfr2
                      & Hq2).
  rewrite (bind_Ok _ _ st1 tt st2 E2).
  destruct (decide (k < n - 1)) as [Hlast|Hlast].
  - rewrite (proj2 (Z.ltb_lt _ _)) by lia.
    destruct (send_local st2 k (k + 1) recvBuffer MPI_INT count SCAN)
      as (st3 & E3 & Hq3 & Hmap3 & Hhost3 & Hsz3 & _ & Hmem3 & Hheap3 & _).
    { rewrite Hsz2, Hn. lia. }
    { rewrite Hmap2, Hhost2. apply Hloc. lia. }
    { discriminate. }
    assert (Hne : queueKey k (k + 1) ≠ queueKey (k - 1) k).
    { intros Heq. apply queueKey_inj in Heq as [? _]. lia. }
    assert (Hempty2 : queueOf (st_world st2) k (k + 1) = []).
    { unfold queueOf. rewrite Hq2 by done. by apply Hnext. }
    rewrite Hempty2 in Hq3. cbn [app] in Hq3.
    exists st3. split; [exact E3|].
    split; [congruence|]. split; [congruence|]. split; [congruence|].
    split; [lia|]. split; [by rewrite Hmem3|]. split.
    { intros a Hlt Ha. rewrite Hmem3. by apply Hfr2. }
    split.
    + intros _. eexists. split; [by rewrite Hq3, lookup_insert_eq|].
      split; [done|]. split; [done|]. cbn [mpi_buffer sentMessage].
      rewrite Hmem3. destruct (0 <? count) eqn:Ec; cbn [andb].
      * apply Z.ltb_lt in Ec.
        rewrite (proj2 (Z.eqb_neq recvBuffer nullptr)) by (by apply Hrb).
        cbn [negb]. by rewrite Hbs.
      * apply Z.ltb_ge in Ec.
        assert (size = 0%nat) as Hs0 by (unfold size; lia).
        by rewrite Hs0.
    + intros key Hk1 Hk2. rewrite Hq3. rewrite lookup_insert_ne by done.
      by apply Hq2.
  - rewrite (proj2 (Z.ltb_ge _ _)) by lia.
    exists st2. split; [done|]. split_and!; try done; [congruence|].
    intros key Hk1 _. by apply Hq2.
Qed.

Lemma length_zipCells w f count out inn :
  (∀ o i, length (f o i) = w) →
  length (zipCells w f count out inn) = (w * count)%nat.
Proof.
  intros Hf. revert out inn. induction count as [|c IH]; intros out inn;
    cbn [zipCells]; [cbn; lia|].
  rewrite length_app, Hf, IH. lia.
Qed.

(** The inclusive prefix of the contributions of the ranks [0 .. k], folded
    the way [scan] folds: the own values first, the accumulator second. *)
Fixpoint scanPrefix `{DoubleArith} (operation : faabric_op_t)
    (datatype : faabric_datatype_t) (count : Z) (contribution : Z -> list Z)
    (k : nat) : list Z :=
  match k with
  | O => contribution 0
  | S k' =>
      elementwise operation datatype count (contribution (Z.of_nat (S k')))
        (scanPrefix operation datatype count contribution k')
  end.

Section ScanInt.

Context `{DoubleArith}.

Variables (operation : faabric_op_t) (f : list Z -> list Z -> list Z).
Hypothesis Hcell : cellOf operation MPI_INT = Some (4%nat, f).

Variables (n count : Z) (sendBuffer recvBuffer : Z -> Z) (st : State).
Hypothesis Hcount : 0 <= count.

Let size : nat := (4 * Z.to_nat count)%nat.
Let contribution (k : Z) : list Z := load (st_mem st) (sendBuffer k) size.
Let prefix (k : Z) : list Z :=
  scanPrefix operation MPI_INT count contribution (Z.to_nat k).

Hypothesis Hloc : ∀ r, 0 <= r < n →
  rankHostMap (st_world st) !! r = Some (thisHost (st_world st)).

Hypothesis Hbufs : ∀ k, 0 <= k < n →
  recvBuffer k ≠ nullptr
  ∧ recvBuffer k + Z.of_nat size <= st_heap st
  ∧ sendBuffer k + Z.of_nat size <= st_heap st
  ∧ (sendBuffer k + Z.of_nat size <= recvBuffer k
     ∨ recvBuffer k + Z.of_nat size <= sendBuffer k).

Hypothesis Hapart : ∀ j k, 0 <= j < n → 0 <= k < n → j ≠ k →
  (recvBuffer j + Z.of_nat size <= recvBuffer k
   ∨ recvBuffer k + Z.of_nat size <= recvBuffer j)
  ∧ (recvBuffer j + Z.of_nat size <= sendBuffer k
     ∨ sendBuffer k + Z.of_nat size <= recvBuffer j).

Lemma length_prefix k : length (prefix k) = size.
Proof.
  unfold prefix. induction (Z.to_nat k) as [|k' IH]; cbn [scanPrefix].
  - apply length_load.
  - unfold elementwise. rewrite Hcell. apply length_zipCells.
    by eapply cellOf_length.
Qed.

(** The state after the ranks below [j] have called [scan]. *)
Definition scanned (j : Z) (stj : State) : Prop :=
  rankHostMap (st_world stj) = rankHostMap (st_world st)
  ∧ thisHost (st_world stj) = thisHost (st_world st)
  ∧ world_size (st_world stj) = n
  ∧ st_heap st <= st_heap stj
  ∧ (∀ k, 0 <= k < j → load (st_mem stj) (recvBuffer k) size = prefix k)
  ∧ (∀ k, j <= k < n →
       load (st_mem stj) (sendBuffer k) size = contribution k)
  ∧ (0 < j < n →
       ∃ m, localQueueMap (st_world stj) !! queueKey (j - 1) j = Some [m]
            ∧ mpi_messagetype m = SCAN ∧ mpi_count m = count
            ∧ mpi_buffer m = prefix (j - 1))
  ∧ (∀ k, j <= k < n - 1 → queueOf (st_world stj) k (k + 1) = []).

Lemma scan_from (d : nat) :
  ∀ j stj, 0 <= j → j + Z.of_nat d = n → scanned j stj →
  ∃ st',
    forM_ (seqZ j (Z.of_nat d))
      (fun k => scan k (sendBuffer k) (recvBuffer k) MPI_INT count operation)
      stj = (Ok tt, st')
    ∧ ∀ k, 0 <= k < n → load (st_mem st') (recvBuffer k) size = prefix k.
Proof.
  induction d as [|d IH]; intros j stj Hj Hjn Hinv.
  { exists stj. split; [done|]. intros k Hk.
    destruct Hinv as (_ & _ & _ & _ & Hdone & _). apply Hdone. lia. }
  destruct Hinv as (Hmap & Hhost & Hsz & Hheap & Hdone & Hpend & Hin & Hlater).
  rewrite seqZ_cons by lia. cbn [forM_].
  destruct (Hbufs j) as (Hnn & Hrh & Hsh & Hsr); [lia|].
  destruct (scan_step operation f j n count (sendBuffer j) (recvBuffer j)
              (prefix (j - 1)) stj)
    as (st1 & E1 & Hmap1 & Hhost1 & Hsz1 & Hheap1 & Hl1 & Hfr1 & Hq1 & Hother1);
    try done.
  { lia. }
  { intros r Hr. rewrite Hmap, Hhost. by apply Hloc. }
  { intros Hpos. split; [apply length_prefix|]. apply Hin. lia. }
  { intros Hlt. apply Hlater. lia. }
  { fold size. lia. }
  fold size in Hl1, Hfr1, Hq1.
  rewrite (bind_Ok _ _ stj tt st1 E1).
  replace (Z.pred (Z.of_nat (S d))) with (Z.of_nat d) by lia.
  assert (Hlj : load (st_mem st1) (recvBuffer j) size = prefix j).
  { rewrite Hl1. rewrite (Hpend j) by lia. case_decide as Hd.
    - subst j. done.
    - unfold prefix. replace (Z.to_nat j) with (S (Z.to_nat (j - 1))) by lia.
      cbn [scanPrefix]. do 2 f_equal. lia. }
  destruct (IH (Z.succ j) st1) as (st' & E & Hall); [lia|lia| |by exists st'].
  unfold scanned. split_and!.
  - congruence.
  - congruence.
  - congruence.
  - lia.
  - intros k Hk. destruct (decide (k = j)) as [->|Hne]; [done|].
    rewrite <- (Hdone k) by lia. apply load_ext. intros a Ha.
    destruct (Hbufs k) as (_ & Hkh & _); [lia|].
    destruct (Hapart j k) as [Hrr _]; [lia..|].
    apply Hfr1; lia.
  - intros k Hk. rewrite <- (Hpend k) by lia. apply load_ext. intros a Ha.
    destruct (Hbufs k) as (_ & _ & Hkh & _); [lia|].
    destruct (Hapart j k) as [_ Hrs]; [lia..|].
    apply Hfr1; lia.
  - intros Hlt. destruct Hq1 as (m & Hqm & Hty & Hc & Hb); [lia|].
    exists m. replace (Z.succ j - 1) with j by lia.
    replace (Z.succ j) with (j + 1) by lia. split; [done|].
    split; [done|]. split; [done|]. by rewrite Hb.
  - intros k Hk. unfold queueOf. rewrite Hother1.
    + apply Hlater. lia.
    + intros Heq. apply queueKey_inj in Heq as [? _]. lia.
    + intros Heq. apply queueKey_inj in Heq as [? _]. lia.
Qed.

End ScanInt.

(** X20: Scan on [MPI_INT], all ranks on this host, every rank with buffers of
    its own below the heap: when the ranks [0 .. n-1] call [scan] in turn,
    every call returns and rank [k] ends with the reduction of the send
    buffers of the ranks [0 .. k]. *)
Theorem scan_on_int_is_an_inclusive_prefix `{DoubleArith} operation n count
    (sendBuffer recvBuffer : Z -> Z) st :
  supportedOp operation →
  world_size (st_world st) = n → 0 <= count →
  (∀ r, 0 <= r < n →
     rankHostMap (st_world st) !! r = Some (thisHost (st_world st))) →
  (∀ k, 0 <= k < n - 1 → queueOf (st_world st) k (k + 1) = []) →
  let size := (4 * Z.to_nat count)%nat in
  (∀ k, 0 <= k < n →
     recvBuffer k ≠ nullptr
     ∧ recvBuffer k + Z.of_nat size <= st_heap st
     ∧ sendBuffer k + Z.of_nat size <= st_heap st
     ∧ (sendBuffer k + Z.of_nat size <= recvBuffer k
        ∨ recvBuffer k + Z.of_nat size <= sendBuffer k)) →
  (∀ j k, 0 <= j < n → 0 <= k < n → j ≠ k →
     (recvBuffer j + Z.of_nat size <= recvBuffer k
      ∨ recvBuffer k + Z.of_nat size <= recvBuffer j)
     ∧ (recvBuffer j + Z.of_nat size <= sendBuffer k
        ∨ sendBuffer k + Z.of_nat size <= recvBuffer j)) →
  let contribution k := load (st_mem st) (sendBuffer k) size in
  ∃ st',
    forM_ (seqZ 0 n)
      (fun k => scan k (sendBuffer k) (recvBuffer k) MPI_INT count operation)
      st = (Ok tt, st')
    ∧ ∀ k, 0 <= k < n →
        load (st_mem st') (recvBuffer k) size
        = scanPrefix operation MPI_INT count contribution (Z.to_nat k).
Proof.
  intros Hop Hn Hcount Hloc Hempty size Hbufs Hapart contribution.
  destruct (cellOf_supported operation MPI_INT Hop (or_introl eq_refl))
    as [f Hcell].
  destruct (decide (0 <= n)) as [Hpos|Hneg].
  - destruct (scan_from operation f Hcell n count sendBuffer recvBuffer st
                Hcount Hloc Hbufs Hapart (Z.to_nat n) 0 st)
      as (st' & E & Hall); [lia|lia| |].
    + unfold scanned. split_and!; try done; try lia.
    + rewrite Z2Nat.id in E by lia. by exists st'.
  - rewrite seqZ_nil by lia. exists st. split; [done|]. intros k Hk. lia.
Qed.

Lemma scan_on_int_is_an_inclusive_prefix_witness :
  let st := fiveRanksState
              (rankBuffers (fun _ => 170)
                 (fun r => ints [10 * r; 10 * r + 1; 10 * r + 2])) in
  ∃ st',
    forM_ (seqZ 0 5)
      (fun k => scan (H := ieee754) k (bufferOf k) (resultOf k) MPI_INT 3
                  MPI_SUM) st = (Ok tt, st')
    ∧ load (st_mem st') (resultOf 4) 12 = ints [100; 105; 110].
Proof.
  intros st.
  destruct (scan_on_int_is_an_inclusive_prefix (H := ieee754) MPI_SUM 5 3
              bufferOf resultOf st) as (st' & E & Hall).
  - right. by right.
  - reflexivity.
  - lia.
  - intros r Hr. by apply fiveRanks_local.
  - intros k Hk. reflexivity.
  - intros k Hk. unfold bufferOf, resultOf, nullptr. cbn. lia.
  - intros j k Hj Hk Hne. unfold bufferOf, resultOf. cbn. lia.
  - exists st'. split; [exact E|].
    etrans; [apply Hall; lia|]. vm_compute. reflexivity.
Defined.

(** ** One-sided windows *)

(** A put into a window of a rank of this host, the window registered under
    the key of [4 * count] bytes: the bytes go to the store and from there
    to the memory of the window. *)
Lemma rmaPut_local st sendRank recvRank sendBuffer windowPtr dataType count :
  dt_size dataType = 4 →
  recvRank <= world_size (st_world st) - 1 →
  rankHostMap (st_world st) !! recvRank = Some (thisHost (st_world st)) →
  let key := getWindowStateKey (world_id (st_world st)) recvRank (4 * count) in
  let bytes := load (st_mem st) sendBuffer (Z.to_nat (4 * count)) in
  windowPointerMap (st_world st) !! key = Some windowPtr →
  ∃ st',
    rmaPut sendRank sendBuffer dataType count recvRank dataType count st
    = (Ok tt, st')
    ∧ st_mem st' = store (st_mem st) windowPtr bytes
    ∧ st_kv st' = <[key := KVBytes bytes]> (st_kv st)
    ∧ world_id (st_world st') = world_id (st_world st)
    ∧ rankHostMap (st_world st') = rankHostMap (st_world st)
    ∧ thisHost (st_world st') = thisHost (st_world st).
Proof.
  intros Hdt Hsize Hlocal key bytes Hwin. unfold rmaPut.
  rewrite (bind_Ok _ _ st tt st) by apply checkSendRecvMatch_same.
  rewrite (bind_Ok _ _ st (st_world st) st) by done. cbv zeta.
  rewrite Hdt. fold key.
  rewrite (bind_Ok _ _ st (st_mem st) st) by done. fold bytes.
  erewrite bind_Ok by reflexivity.
  erewrite bind_Ok by (by apply getHostForRank_cached).
  unfold send. erewrite bind_Ok by reflexivity.
  cbn [st_world set_kv]. rewrite (proj2 (Z.ltb_ge _ _)) by lia.
  erewrite bind_Ok by reflexivity.
  erewrite bind_Ok by (by apply getHostForRank_cached).
  cbn [st_world]. rewrite bool_decide_eq_true_2 by done.
  erewrite bind_Ok by reflexivity. rewrite decide_True by done.
  unfold synchronizeRmaWrite. erewrite bind_Ok by reflexivity.
  cbn [mpi_type mpi_count mpi_destination dt_id MPI_INT
       getFaabricDatatypeFromId dt_size st_world].
  replace (count * 4) with (4 * count) by lia. fold key.
  erewrite bind_Ok; last first.
  { unfold kvGet, gets. cbn [st_kv set_kv]. by rewrite lookup_insert_eq. }
  cbn [st_world set_kv]. fold key. rewrite Hwin. cbn [default].
  eexists. split; [reflexivity|]. cbn. done.
Qed.

(** X21: A window of [count] 4-byte elements at a rank of this host.  After
    [createWindow] a get reads what the window held when it was created;
    after [rmaPut] the window holds the bytes that were put, and a get reads
    them. *)
Theorem rmaPut_updates_the_window st sendRank recvRank sendBuffer windowPtr
    recvBuffer dataType count :
  dt_size dataType = 4 →
  recvRank <= world_size (st_world st) - 1 →
  rankHostMap (st_world st) !! recvRank = Some (thisHost (st_world st)) →
  let size := Z.to_nat (4 * count) in
  ∃ st1 st1' st2 st3,
    createWindow recvRank (4 * count) windowPtr st = (Ok tt, st1)
    ∧ rmaGet recvRank dataType count recvBuffer dataType count st1
      = (Ok tt, st1')
    ∧ load (st_mem st1') recvBuffer size = load (st_mem st) windowPtr size
    ∧ rmaPut sendRank sendBuffer dataType count recvRank dataType count st1
      = (Ok tt, st2)
    ∧ load (st_mem st2) windowPtr size = load (st_mem st) sendBuffer size
    ∧ rmaGet recvRank dataType count recvBuffer dataType count st2
      = (Ok tt, st3)
    ∧ load (st_mem st3) recvBuffer size = load (st_mem st) sendBuffer size.
Proof.
  intros Hdt Hsize Hlocal size.
  set (key := getWindowStateKey (world_id (st_world st)) recvRank (4 * count)).
  set (st1 := set_world (set_windowPointerMap (fun m => <[key := windowPtr]> m))
                (set_kv (fun kv =>
                   <[key := KVBytes (load (st_mem st) windowPtr size)]> kv) st)).
  assert (E1 : createWindow recvRank (4 * count) windowPtr st = (Ok tt, st1))
    by reflexivity.
  assert (Hget : ∀ st0 bytes,
    world_id (st_world st0) = world_id (st_world st) →
    rankHostMap (st_world st0) !! recvRank = Some (thisHost (st_world st)) →
    st_kv st0 !! key = Some (KVBytes bytes) →
    rmaGet recvRank dataType count recvBuffer dataType count st0
    = (Ok tt, set_mem (fun mem => store mem recvBuffer bytes) st0)).
  { intros st0 bytes Hid Hr Hkv. unfold rmaGet.
    rewrite (bind_Ok _ _ st0 tt st0) by apply checkSendRecvMatch_same.
    rewrite (bind_Ok _ _ st0 (st_world st0) st0) by done.
    cbv zeta. rewrite Hdt, Hid. fold key.
    erewrite bind_Ok by (by apply getHostForRank_cached).
    erewrite bind_Ok by (unfold kvGet, gets; by rewrite Hkv).
    reflexivity. }
  destruct (rmaPut_local st1 sendRank recvRank sendBuffer windowPtr dataType
              count) as (st2 & E2 & Hmem2 & Hkv2 & Hid2 & Hmap2 & Hhost2);
    [done|done|done|cbn; by rewrite lookup_insert_eq|].
  cbn [st_world st1 set_world set_windowPointerMap world_id st_mem set_kv st_kv]
    in Hmem2, Hkv2. fold key size in Hmem2, Hkv2.
  exists st1. eexists. exists st2. eexists.
  split; [exact E1|]. split.
  { apply Hget; [done|done|]. cbn. by rewrite lookup_insert_eq. }
  split.
  { cbn. apply load_store_length, length_load. }
  split; [exact E2|]. split.
  { rewrite Hmem2. apply load_store_length, length_load. }
  split.
  { apply Hget; [done|by rewrite Hmap2|]. rewrite Hkv2.
    by rewrite lookup_insert_eq. }
  cbn. apply load_store_length, length_load.
Qed.

Lemma rmaPut_updates_the_window_witness :
  let w := set_identity 123 "mpi" "hellompi"
             (set_rankHostMap (fun _ => {[ 0 := "host"; 1 := "host" ]})
                (set_size 2 (newMpiWorld "host"))) in
  let st := {| st_world := w; st_mem := store (fun _ => 0) 100 (ints [7; 8]);
               st_kv := ∅; st_gid := 7; st_calls := []; st_rpc := [];
               st_usableCores := 4; st_heap := 4096 |} in
  ∃ st1 st2,
    createWindow 1 8 300 st = (Ok tt, st1)
    ∧ rmaPut 0 100 MPI_INT 2 1 MPI_INT 2 st1 = (Ok tt, st2)
    ∧ load (st_mem st2) 300 8 = ints [7; 8].
Proof.
  intros w st.
  destruct (rmaPut_updates_the_window st 0 1 100 300 500 MPI_INT 2)
    as (st1 & _ & st2 & _ & E1 & _ & _ & E2 & Hl & _).
  - reflexivity.
  - cbn. lia.
  - reflexivity.
  - exists st1, st2. split; [exact E1|]. split; [exact E2|].
    etrans; [exact Hl|]. vm_compute. reflexivity.
Defined.

(** ** Cartesian topology, continued *)



(** ** Binding an executor *)

Section BindToFunction.

Import Binding.

Context {Queue : Type}.
Variable getFunctionQueue : Message -> Queue.
Variable postBind : Message -> bool -> option fault.

Lemma bindToFunction_bound (ex : FaabricExecutor Queue) msg force :
  _isBound ex = true →
  let ex' := snd (bindToFunction getFunctionQueue postBind ex msg force) in
  _isBound ex' = true
  ∧ msg_user (boundMessage ex') = msg_user (boundMessage ex)
  ∧ msg_function (boundMessage ex') = msg_function (boundMessage ex)
  ∧ (ex' = ex
     ∨ force = true ∧ boundMessage ex' = msg
       ∧ functionQueue ex' = Some (getFunctionQueue msg)).
Proof.
  intros Hb. unfold bindToFunction. rewrite Hb.
  destruct force; [|cbn; by auto].
  destruct (bool_decide (msg_user msg ≠ msg_user (boundMessage ex))) eqn:Eu;
    [cbn; by auto|].
  destruct (bool_decide (msg_function msg ≠ msg_function (boundMessage ex)))
    eqn:Ef; [cbn; by auto|].
  apply bool_decide_eq_false in Eu, Ef.
  cbn. split_and!; [done| |  |by right].
  - by destruct (decide (msg_user msg = msg_user (boundMessage ex))).
  - by destruct (decide (msg_function msg = msg_function (boundMessage ex))).
Qed.

(** X23: Once an executor is bound, no series of calls to [bindToFunction],
    forced or not and whatever the hook throws, unbinds it or binds it to
    another user or function.  The message it is bound to is the one it had
    or one of the messages of the forced calls, whose queue it then holds;
    a rebind so replaces the other fields of the bound message (its id among
    them). *)
Theorem bound_executor_keeps_its_function (ex : FaabricExecutor Queue)
    (calls : list (Message * bool)) :
  _isBound ex = true →
  let ex' := bindAll getFunctionQueue postBind ex calls in
  _isBound ex' = true
  ∧ msg_user (boundMessage ex') = msg_user (boundMessage ex)
  ∧ msg_function (boundMessage ex') = msg_function (boundMessage ex)
  ∧ (ex' = ex
     ∨ ∃ msg, (msg, true) ∈ calls ∧ boundMessage ex' = msg
              ∧ functionQueue ex' = Some (getFunctionQueue msg)).
Proof.
  revert ex. induction calls as [|[msg force] calls IH]; intros ex Hb.
  { cbn. by auto. }
  cbn [bindAll fold_left].
  destruct (bindToFunction_bound ex msg force Hb) as (Hb1 & Hu1 & Hf1 & Hm1).
  set (ex1 := snd (bindToFunction getFunctionQueue postBind ex msg force))
    in *.
  destruct (IH ex1 Hb1) as (Hb2 & Hu2 & Hf2 & Hm2).
  unfold bindAll in *.
  split_and!; [done|congruence|congruence|].
  destruct Hm2 as [->|(m & Hin & Hbm & Hq)].
  - destruct Hm1 as [->|(-> & Hbm & Hq)]; [by left|].
    right. exists msg. split_and!; [apply list_elem_of_here|done|done].
  - right. exists m. split_and!; [by apply list_elem_of_further|done|done].
Qed.

End BindToFunction.

(** An executor bound to [demo/echo] is rebound, by force, to a later
    message of the same function. *)
Lemma bound_executor_keeps_its_function_witness :
  let message id function :=
    {| msg_id := id; msg_user := "demo"; msg_function := function;
       msg_ismpi := false; msg_mpiworldid := 0; msg_mpirank := 0;
       msg_cmdline := ""; msg_statuskey := ""; msg_resultkey := "";
       msg_outputdata := ""; msg_returnvalue := 0 |} in
  let first := message 1 "echo" in
  let second := message 2 "echo" in
  let other := message 3 "other" in
  let ex := {| Binding._isBound := true; Binding.boundMessage := first;
               Binding.functionQueue := Some "demo/echo" |} in
  let ex' := Binding.bindAll (fun m => msg_user m +:+ "/" +:+ msg_function m)
               (fun _ _ => None) ex
               [(other, true); (second, false); (second, true)] in
  Binding._isBound ex' = true
  ∧ msg_user (Binding.boundMessage ex') = "demo"
  ∧ msg_function (Binding.boundMessage ex') = "echo"
  ∧ msg_id (Binding.boundMessage ex') = 2.
Proof.
  cbv zeta.
  match goal with
  | |- context [Binding.bindAll ?g ?p ?ex ?calls] =>
      destruct (bound_executor_keeps_its_function g p ex calls eq_refl)
        as (Hb & Hu & Hf & _)
  end.
  split_and!; [exact Hb|exact Hu|exact Hf|vm_compute; reflexivity].
Defined.

(** ** Executing a call *)

Section ExecuteCall.

Import Executor.

(** X24: [executeCall] returns the empty error message exactly when the
    [doExecute] hook returned [true]; when the hook threw, the message is
    ["Error: "] followed by what was thrown and the call's return value is
    set to 1 before the completion hook sees it.  Either way the call is
    completed once: the scheduler is notified and then has the result
    written, both for the message left with the caller, the execution count
    goes up by one, and on failure that message carries the returned error
    as its output data. *)
Theorem executeCall_completes_the_call_once (h : Hooks) (ex : FaabricExecutor)
    (call : Message) :
  let r := executeCall h ex call in
  let ex' := r.1.1 in
  let call' := r.1.2 in
  let errorMessage := r.2 in
  (errorMessage = "" ↔ (doExecute h call).2 = inl true)
  ∧ (∀ what, (doExecute h call).2 = inr what →
       errorMessage = "Error: " +:+ what
       ∧ call' = set_outputdata errorMessage
           (preFinishCall h (set_returnvalue 1 (doExecute h call).1) false
              errorMessage))
  ∧ scheduler ex'
    = scheduler ex ++ [NotifyCallFinished call'; SetFunctionResult call']
  ∧ executionCount ex' = executionCount ex + 1
  ∧ (errorMessage ≠ "" → msg_outputdata call' = errorMessage).
Proof.
  cbv zeta. unfold executeCall.
  destruct (doExecute h call) as [call1 [[|]|what]]; cbn [fst snd];
    cbn; rewrite <- app_assoc; split_and!; try done;
    try (by intros ? [=]); by intros ? [= ->].
Qed.

End ExecuteCall.

(** ** String tools *)

Section StringToolsProperties.

Import StringTools.

Lemma prefix_iff (sub s : string) :
  String.prefix sub s = true ↔ ∃ rest, s = sub +:+ rest.
Proof.
  revert s. induction sub as [|a sub IH]; intros s.
  - cbn. split; [intros _; by exists s|]. by destruct s.
  - destruct s as [|b s]; cbn.
    + split; [done|]. by intros [rest ?].
    + destruct (ascii_dec a b) as [->|Hab].
      * rewrite IH. split; intros [rest E]; exists rest.
        -- by rewrite E.
        -- change (String b s = String b (sub +:+ rest)) in E.
           by injection E.
      * split; [done|]. intros [rest E].
        change (String b s = String a (sub +:+ rest)) in E. congruence.
Qed.

Lemma substring_all (s : string) :
  String.substring 0 (String.length s) s = s.
Proof. induction s as [|a s IH]; [done|]. cbn. by rewrite IH. Qed.

(** X25: [startsWith] holds exactly of a non-empty prefix: no string starts with
    the empty string. *)
Theorem startsWith_is_non_empty_prefix (input subStr : string) :
  startsWith input subStr = true
  ↔ subStr ≠ "" ∧ ∃ rest, input = subStr +:+ rest.
Proof.
  unfold startsWith. case_bool_decide as Hne.
  { split; [done|]. by intros [? _]. }
  rewrite bool_decide_eq_true. unfold rfind.
  destruct (String.length input <? String.length subStr)%nat eqn:Elen.
  - apply Nat.ltb_lt in Elen. split; [done|].
    intros [_ [rest ->]]. rewrite string_length_app in Elen. lia.
  - rewrite Nat.min_0_l. cbn [rfind_from]. rewrite Nat.sub_0_r.
    rewrite substring_all.
    destruct (String.prefix subStr input) eqn:Ep.
    + apply prefix_iff in Ep. by split.
    + split; [done|]. intros [_ Hp]. apply prefix_iff in Hp. congruence.
Qed.
Lemma std_equal_iff (range1 range2 : list Ascii.ascii) :
  std_equal range1 range2 = true ↔ ∃ rest, range2 = range1 ++ rest.
Proof.
  revert range2. induction range1 as [|a l1 IH]; intros l2.
  - cbn. split; [intros _; by exists l2|done].
  - destruct l2 as [|b l2]; cbn.
    + split; [done|]. by intros [rest ?].
    + rewrite andb_true_iff, Ascii.eqb_eq, IH. split.
      * intros [-> [rest ->]]. by exists rest.
      * intros [rest [= -> ->]]. split; [done|by exists rest].
Qed.

Lemma list_ascii_of_string_app (a b : string) :
  String.list_ascii_of_string (a +:+ b)
  = String.list_ascii_of_string a ++ String.list_ascii_of_string b.
Proof.
  induction a as [|x a IH]; [done|].
  change (x :: String.list_ascii_of_string (a +:+ b)
          = x :: (String.list_ascii_of_string a
                  ++ String.list_ascii_of_string b)).
  by rewrite IH.
Qed.

(** X26: [endsWith] holds exactly of a non-empty suffix: no string ends with the
    empty string. *)
Theorem endsWith_is_non_empty_suffix (value ending : string) :
  endsWith value ending = true
  ↔ ending ≠ "" ∧ ∃ front, value = front +:+ ending.
Proof.
  unfold endsWith. case_bool_decide as Hne.
  { split; [done|]. by intros [? _]. }
  destruct (String.length value <? String.length ending)%nat eqn:Elen.
  { apply Nat.ltb_lt in Elen. split; [done|].
    intros [_ [front ->]]. rewrite string_length_app in Elen. lia. }
  rewrite std_equal_iff. unfold reversed. split.
  - intros [rest E]. split; [done|].
    exists (String.string_of_list_ascii (rev rest)).
    apply (f_equal (@rev _)) in E. rewrite rev_involutive, rev_app_distr in E.
    rewrite rev_involutive in E.
    rewrite <- (String.string_of_list_ascii_of_string value), E.
    rewrite <- (String.string_of_list_ascii_of_string
                  (String.string_of_list_ascii (rev rest) +:+ ending)).
    f_equal. rewrite list_ascii_of_string_app.
    by rewrite String.list_ascii_of_string_of_list_ascii.
  - intros [_ [front ->]].
    exists (rev (String.list_ascii_of_string front)).
    by rewrite list_ascii_of_string_app, rev_app_distr.
Qed.

(** What [find] returns: the length of the shortest [before] for which the
    string is [before], the searched string and a rest; nothing when there
    is no such split. *)
Lemma find_Some (s str : string) (n : nat) :
  find s str = Some n →
  ∃ before after, s = before +:+ str +:+ after ∧ String.length before = n
    ∧ ∀ before' after', s = before' +:+ str +:+ after' →
        (n <= String.length before')%nat.
Proof.
  revert n. induction s as [|a s IH]; intros n; cbn [find].
  - destruct (String.prefix str "") eqn:Ep; [|done]. intros [= <-].
    apply prefix_iff in Ep as [rest E].
    exists "", rest. split_and!; [done|done|]. intros; lia.
  - destruct (String.prefix str (String a s)) eqn:Ep.
    + intros [= <-]. apply prefix_iff in Ep as [rest E].
      exists "", rest. split_and!; [done|done|]. intros; lia.
    + destruct (find s str) as [m|] eqn:Ef; [|done]. intros [= <-].
      destruct (IH m eq_refl) as (before & after & E & Hlen & Hmin).
      exists (String a before), after. split_and!.
      * change (String a s = String a (before +:+ str +:+ after)).
        by rewrite E.
      * cbn. by rewrite Hlen.
      * intros [|b before'] after' E'.
        -- exfalso. change (String a s = str +:+ after') in E'.
           assert (String.prefix str (String a s) = true); [|congruence].
           apply prefix_iff. by exists after'.
        -- change (String a s = String b (before' +:+ str +:+ after')) in E'.
           injection E' as _ E'. specialize (Hmin _ _ E'). cbn. lia.
Qed.

Lemma find_None (s str : string) :
  find s str = None → ∀ before after, s ≠ before +:+ str +:+ after.
Proof.
  induction s as [|a s IH]; cbn [find].
  - destruct (String.prefix str "") eqn:Ep; [done|]. intros _ before after E.
    destruct before as [|b before]; [|done].
    assert (String.prefix str "" = true); [|congruence].
    apply prefix_iff. by exists after.
  - destruct (String.prefix str (String a s)) eqn:Ep; [done|].
    destruct (find s str) as [m|] eqn:Ef; [done|]. intros _ before after E.
    destruct before as [|b before].
    + assert (String.prefix str (String a s) = true); [|congruence].
      apply prefix_iff. by exists after.
    + change (String a s = String b (before +:+ str +:+ after)) in E.
      injection E as _ E. by apply (IH eq_refl before after).
Qed.

(** X27: [contains] holds exactly when the string has the searched one as a
    substring; every string, the empty one too, contains the empty string,
    which it neither starts nor ends with. *)
Theorem contains_is_substring (input subStr : string) :
  (contains input subStr = true
   ↔ ∃ before after, input = before +:+ subStr +:+ after)
  ∧ contains input "" = true
  ∧ startsWith input "" = false
  ∧ endsWith input "" = false.
Proof.
  split_and!; [|by destruct input|done|done].
  unfold contains. case_bool_decide as Hf.
  - split; [intros _|done].
    destruct (find input subStr) as [n|] eqn:Ef; [|done].
    destruct (find_Some _ _ _ Ef) as (before & after & E & _).
    by exists before, after.
  - split; [done|]. intros (before & after & E). exfalso.
    destruct (find input subStr) as [n|] eqn:Ef; [done|].
    by apply (find_None _ _ Ef before after).
Qed.

Lemma substring_skip (before s : string) (n m : nat) :
  String.substring (String.length before + n) m (before +:+ s)
  = String.substring n m s.
Proof. induction before as [|a before IH]; [done|]. cbn. apply IH. Qed.

Lemma substring_take (before s : string) :
  String.substring 0 (String.length before) (before +:+ s) = before.
Proof.
  induction before as [|a before IH]; [by destruct s|].
  change (String a (String.substring 0 (String.length before) (before +:+ s))
          = String a before).
  by rewrite IH.
Qed.

Lemma erase_middle (before str after : string) :
  erase (before +:+ str +:+ after) (String.length before) (String.length str)
  = before +:+ after.
Proof.
  unfold erase. rewrite substring_take. f_equal.
  rewrite substring_skip.
  rewrite <- (Nat.add_0_r (String.length str)) at 1.
  rewrite substring_skip.
  rewrite !string_length_app.
  replace (String.length before + (String.length str + String.length after)
           - (String.length before + String.length str))%nat
    with (String.length after) by lia.
  apply substring_all.
Qed.

(** X28: [removeSubstr] takes out the first occurrence of [toErase], and that
    one only: the input is split at the shortest [before] that [toErase]
    follows, and [before] and the rest are put together.  A string that
    does not contain [toErase] is returned as it is. *)
Theorem removeSubstr_takes_out_the_first_occurrence (input toErase : string) :
  (contains input toErase = false → removeSubstr input toErase = input)
  ∧ (contains input toErase = true →
     ∃ before after,
       input = before +:+ toErase +:+ after
       ∧ removeSubstr input toErase = before +:+ after
       ∧ ∀ before' after', input = before' +:+ toErase +:+ after' →
           (String.length before <= String.length before')%nat).
Proof.
  unfold contains, removeSubstr.
  destruct (find input toErase) as [n|] eqn:Ef.
  - rewrite bool_decide_eq_true_2 by done. split; [done|]. intros _.
    destruct (find_Some _ _ _ Ef) as (before & after & E & Hlen & Hmin).
    exists before, after. split_and!; [done| |].
    + rewrite <- Hlen. rewrite E at 1. apply erase_middle.
    + intros b' a' E'. rewrite Hlen. by apply (Hmin b' a').
  - rewrite bool_decide_eq_false_2 by (intros H; by apply H). by split.
Qed.

(** A repeated occurrence stays. *)
Lemma removeSubstr_takes_out_the_first_occurrence_witness :
  ∃ before after,
    "abab" = before +:+ "ab" +:+ after
    ∧ removeSubstr "abab" "ab" = before +:+ after
    ∧ ∀ before' after', "abab" = before' +:+ "ab" +:+ after' →
        (String.length before <= String.length before')%nat.
Proof.
  apply (proj2 (removeSubstr_takes_out_the_first_occurrence "abab" "ab")).
  vm_compute. reflexivity.
Defined.
(** Whether every character of [s] is a decimal digit. *)
Definition allDigits (s : string) : Prop :=
  find_first_not_of s "0123456789" = None.

Lemma allDigits_String (a : Ascii.ascii) (s : string) :
  allDigits (String a s)
  ↔ existsb (Ascii.eqb a) (String.list_ascii_of_string "0123456789") = true
    ∧ allDigits s.
Proof.
  unfold allDigits. cbn [find_first_not_of].
  destruct (existsb _ _); [|by split; [|intros []]].
  destruct (find_first_not_of s "0123456789"); cbn; by split; [|intros []].
Qed.

Lemma pretty_N_char_digit (d : N) :
  existsb (Ascii.eqb (pretty_N_char d))
    (String.list_ascii_of_string "0123456789") = true.
Proof. unfold pretty_N_char. by repeat case_match. Qed.

Lemma allDigits_pretty_N_go (x : N) (s : string) :
  allDigits s → allDigits (pretty_N_go x s).
Proof.
  revert s. induction (N.lt_wf_0 x) as [x _ IH]. intros s Hs.
  assert (x = 0 ∨ 0 < x)%N as [->|Hx] by lia.
  - by rewrite pretty_N_go_0.
  - rewrite pretty_N_go_step by done. apply IH; [by apply N.div_lt|].
    apply allDigits_String. split; [apply pretty_N_char_digit|done].
Qed.

Lemma pretty_N_go_not_empty (x : N) (s : string) :
  s ≠ "" → pretty_N_go x s ≠ "".
Proof.
  revert s. induction (N.lt_wf_0 x) as [x _ IH]. intros s Hs.
  assert (x = 0 ∨ 0 < x)%N as [->|Hx] by lia.
  - by rewrite pretty_N_go_0.
  - rewrite pretty_N_go_step by done. apply IH; [by apply N.div_lt|done].
Qed.

Lemma stringIsInt_pretty_pos (p : positive) :
  stringIsInt (pretty (N.pos p)) = true.
Proof.
  unfold stringIsInt, pretty, pretty_N. rewrite decide_False by done.
  rewrite pretty_N_go_step by done.
  rewrite bool_decide_eq_false_2 by (by apply pretty_N_go_not_empty).
  cbn [negb andb]. apply bool_decide_eq_true_2.
  apply allDigits_pretty_N_go, allDigits_String.
  split; [apply pretty_N_char_digit|done].
Qed.

(** X29: [stringIsInt] accepts the strings that are not empty and hold decimal
    digits only.  Of the numbers [std::to_string] writes it accepts the
    ones that are not negative: a sign is no digit. *)
Theorem stringIsInt_accepts_unsigned_decimals (input : string) (z : Z) :
  (stringIsInt input = true ↔ input ≠ "" ∧ allDigits input)
  ∧ (stringIsInt (to_string z) = true ↔ 0 <= z).
Proof.
  split.
  - unfold stringIsInt, allDigits.
    rewrite andb_true_iff, negb_true_iff, bool_decide_eq_false,
      bool_decide_eq_true. done.
  - unfold to_string, pretty, pretty_Z. destruct z as [|p|p].
    + by split; [lia|].
    + split; [lia|]. intros _. apply stringIsInt_pretty_pos.
    + split; [|lia]. change ("-" +:+ pretty p) with (String "-" (pretty p)).
      unfold stringIsInt. cbn. rewrite andb_false_r. done.
Qed.

End StringToolsProperties.
